(** * Sliding-window visual-inertial estimator: window bookkeeping

    A shallow embedding of [KeypointVioEstimator] from
    [src/vi_estimator/keypoint_vio.cpp]: keyframe selection and triangulation
    in [measure], the Levenberg-Marquardt damping loop of [optimize], and the
    choice, relinearisation scope and removal of frames in [marginalize].

    Conventions.
    - [std::map] and [std::set] keyed by timestamps are [gmap Z _] and
      [gset Z]; range-for loops visit them in ascending key order ([asc]).
    - [size_t] arithmetic wraps modulo 2^64 ([to_size_t]); the narrowing to
      [int] is [to_int].
    - Undefined behaviour, thrown exceptions, failed [BASALT_ASSERT]s and
      loops that cannot terminate are explicit [Fault] outcomes.
    - A [double] is an extended rational ([DFin], [DInf], [DNaN]): the order,
      infinities and NaN are those of IEEE 754, rounding is not modelled.
    - Dense linear algebra, Lie-group operations and camera models are the
      fields of the class [Numerics]; the control flow around them is not
      abstracted. *)

From Stdlib Require Import QArith Lqa.
From stdpp Require Import gmap list fin_maps sorting numbers.
Local Open Scope Z_scope.

(** ** Machine integers *)

Definition size_t_mod : Z := 2 ^ 64.

(** Conversion to [size_t]; also the result of every [size_t] operation. *)
Definition to_size_t (z : Z) : Z := z `mod` size_t_mod.

(** Narrowing conversion to a 32-bit [int]. *)
Definition to_int (z : Z) : Z := (z + 2 ^ 31) `mod` 2 ^ 32 - 2 ^ 31.

(** ** Outcomes of a call *)

Inductive fault : Set :=
  | OutOfBounds   (* vector subscript or iterator outside the container *)
  | DivByZero     (* integer division by zero *)
  | IntOverflow   (* INT_MIN / -1 *)
  | OutOfRange    (* std::out_of_range thrown by map::at *)
  | AssertFail    (* BASALT_ASSERT *)
  | NoProgress.   (* a loop whose state repeats: it never exits *)

Inductive outcome (A : Type) : Type :=
  | Ok (a : A)
  | Fault (f : fault).
Arguments Ok {A} a.
Arguments Fault {A} f.

#[global] Instance outcome_ret : MRet outcome := λ A a, Ok a.
#[global] Instance outcome_bind : MBind outcome := λ A B k m,
  match m with
  | Ok a => k a
  | Fault f => Fault f
  end.

(** The value of an outcome, or a default. *)
Definition outcome_get {A} (d : A) (o : outcome A) : A :=
  match o with
  | Ok a => a
  | Fault _ => d
  end.

(** [v[i]] on a [std::vector] *)
Definition vec_at {A} (v : list A) (i : Z) : outcome A :=
  if decide (0 ≤ i) then
    match v !! Z.to_nat i with
    | Some x => Ok x
    | None => Fault OutOfBounds
    end
  else Fault OutOfBounds.

(** [m.at(k)] on a [std::map] *)
Definition map_at {A} (m : gmap Z A) (k : Z) : outcome A :=
  match m !! k with
  | Some x => Ok x
  | None => Fault OutOfRange
  end.

(** [BASALT_ASSERT(b)] *)
Definition BASALT_ASSERT (b : bool) : outcome unit :=
  if b then Ok tt else Fault AssertFail.

(** [a / b] on [int]: truncation towards zero. *)
Definition int_div (a b : Z) : outcome Z :=
  if decide (b = 0) then Fault DivByZero
  else if decide (a = - 2 ^ 31 ∧ b = -1) then Fault IntOverflow
  else Ok (a `quot` b).

(** Keys of an ordered container in iteration order. *)
Definition asc (s : gset Z) : list Z := merge_sort Z.le (elements s).

(** ** Doubles *)

Inductive double : Type :=
  | DFin (q : Q)
  | DInf (neg : bool)
  | DNaN.

Definition Qltb (x y : Q) : bool := negb (Qle_bool y x).

(** [x < y] *)
Definition dlt (x y : double) : bool :=
  match x, y with
  | DNaN, _ | _, DNaN => false
  | DFin a, DFin b => Qltb a b
  | DFin _, DInf neg => negb neg
  | DInf neg, DFin _ => neg
  | DInf n1, DInf n2 => n1 && negb n2
  end.

(** [x > y] *)
Definition dgt (x y : double) : bool := dlt y x.

Definition isFinite (x : double) : bool :=
  match x with DFin _ => true | _ => false end.

Definition Qsign_neg (q : Q) : bool := Qltb q 0.
Definition Qis_zero (q : Q) : bool := Qeq_bool q 0.

Definition dadd (x y : double) : double :=
  match x, y with
  | DNaN, _ | _, DNaN => DNaN
  | DFin a, DFin b => DFin (a + b)
  | DFin _, DInf n | DInf n, DFin _ => DInf n
  | DInf n1, DInf n2 => if eqb n1 n2 then DInf n1 else DNaN
  end.

Definition dneg (x : double) : double :=
  match x with
  | DFin a => DFin (- a)
  | DInf n => DInf (negb n)
  | DNaN => DNaN
  end.

Definition dsub (x y : double) : double := dadd x (dneg y).

Definition dmul (x y : double) : double :=
  match x, y with
  | DNaN, _ | _, DNaN => DNaN
  | DFin a, DFin b => DFin (a * b)
  | DFin a, DInf n | DInf n, DFin a =>
      if Qis_zero a then DNaN else DInf (xorb n (Qsign_neg a))
  | DInf n1, DInf n2 => DInf (xorb n1 n2)
  end.

Definition ddiv (x y : double) : double :=
  match x, y with
  | DNaN, _ | _, DNaN => DNaN
  | DFin a, DFin b =>
      if Qis_zero b then (if Qis_zero a then DNaN else DInf (Qsign_neg a))
      else DFin (a / b)
  | DFin _, DInf _ => DFin 0
  | DInf n, DFin b => DInf (xorb n (Qsign_neg b))
  | DInf _, DInf _ => DNaN
  end.

(** [std::min(a, b)] is [(b < a) ? b : a]; [std::max(a, b)] is
    [(a < b) ? b : a]. *)
Definition dmin (a b : double) : double := if dlt b a then b else a.
Definition dmax (a b : double) : double := if dlt a b then b else a.

Definition of_int (z : Z) : double := DFin (inject_Z z).

(** [std::numeric_limits<double>::max()] *)
Definition DBL_MAX : double := DFin (inject_Z (2 ^ 1024 - 2 ^ 971)).

(** ** Numeric kernels

    The collaborators of the estimator that are pure numerics: Lie-group
    operations, camera models, IMU preintegration, dense accumulation and
    solving.  Only their types matter to the bookkeeping below. *)

Record Vector4d : Type := mkVector4d {
  v4_x : double; v4_y : double; v4_z : double; v4_w : double }.

Class Numerics : Type := {
  SE3 : Type;        (* Sophus::SE3d *)
  Vec3 : Type;       (* Eigen::Vector3d *)
  Vec2 : Type;       (* Eigen::Vector2d *)
  Dir : Type;        (* stereographic parameters of a bearing *)
  Bearing : Type;    (* unprojected keypoint *)
  Affine : Type;     (* Eigen::AffineCompact2f *)
  Preint : Type;     (* body of an IntegratedImuMeasurement *)
  MatX : Type;       (* Eigen::MatrixXd *)
  VecX : Type;       (* Eigen::VectorXd *)
  Accum : Type;      (* DenseAccumulator after linearisation *)
  Calib : Type;      (* basalt::Calibration<double> *)
  (* optical flow and camera models *)
  translation : Affine → Vec2;
  unproject : Calib → Z → Vec2 → bool * Bearing;
  (* [calib.T_i_c[0].inverse() * (T_w_i0.inverse() * T_w_i1) * calib.T_i_c[cam]] *)
  rel_cam_pose : Calib → SE3 → SE3 → Z → SE3;
  translation_squaredNorm : SE3 → double;
  triangulate : Bearing → Bearing → SE3 → Vector4d;
  stereographic_project : Vector4d → Dir;
  (* score of the distance rule,
     [sqrt(|p_i - p_last|) * sum_j 1 / (|p_i - p_j| + 1e-5)], from the
     candidate pose, the poses of all candidates and the pose of the newest
     keyframe *)
  kf_spread_score : SE3 → list SE3 → SE3 → double;
}.

(** ** Data model *)

(** [TimeCamId]: frame timestamp and camera index, ordered
    lexicographically. *)
Abbreviation TimeCamId := (Z * Z)%type.
Definition frame_id (tcid : TimeCamId) : Z := tcid.1.
Definition cam_id (tcid : TimeCamId) : Z := tcid.2.

Section DataModel.
Context `{Numerics}.

Record PoseVelBiasState : Type := mkPoseVelBiasState {
  t_ns : Z;
  T_w_i : SE3;
  vel_w_i : Vec3;
  bias_gyro : Vec3;
  bias_accel : Vec3 }.

(** Modelled from the spec: [PoseVelBiasStateWithLin] and [PoseStateWithLin]
    are declared outside this file.  A flag pins a linearisation point next
    to the live value. *)
Record PoseVelBiasStateWithLin : Type := mkPoseVelBiasStateWithLin {
  pvb_linearized : bool;
  pvb_lin_point : PoseVelBiasState;
  getState : PoseVelBiasState }.

Record PoseStateWithLin : Type := mkPoseStateWithLin {
  pose_linearized : bool;
  pose_t_ns : Z;
  pose_lin_point : SE3;
  getPose : SE3 }.

(** Modelled from the spec: the converting constructors
    [PoseVelBiasStateWithLin(state)] (not linearised) and
    [PoseStateWithLin(state_with_lin)] (keeps the flag and the pose parts). *)
Definition PoseVelBiasStateWithLin_of (s : PoseVelBiasState)
    : PoseVelBiasStateWithLin :=
  mkPoseVelBiasStateWithLin false s s.

Definition PoseStateWithLin_of (s : PoseVelBiasStateWithLin)
    : PoseStateWithLin :=
  mkPoseStateWithLin (pvb_linearized s) (t_ns (getState s))
    (T_w_i (pvb_lin_point s)) (T_w_i (getState s)).

(** Modelled from the spec: [setLinTrue] pins the live value. *)
Definition setLinTrue (s : PoseVelBiasStateWithLin) : PoseVelBiasStateWithLin :=
  mkPoseVelBiasStateWithLin true (getState s) (getState s).

Record IntegratedImuMeasurement : Type := mkIntegratedImuMeasurement {
  get_start_t_ns : Z;
  get_dt_ns : Z;
  imu_body : Preint }.

Record OpticalFlowResult : Type := mkOpticalFlowResult {
  of_t_ns : Z;
  observations : list (gmap Z Affine) }.

Record KeypointPosition : Type := mkKeypointPosition {
  kf_id : TimeCamId;
  dir : Dir;
  inv_dist : double    (* the field [id]: inverse distance *) }.

Record KeypointObservation : Type := mkKeypointObservation {
  kpt_id : Z;
  pos : Vec2 }.

(** Modelled from the spec: the landmark database is declared outside this
    file.  [kpts] maps a landmark to its position and host, [obs] groups the
    observations by host and then by target image. *)
Record LandmarkDatabase : Type := mkLandmarkDatabase {
  kpts : gmap Z KeypointPosition;
  obs : gmap TimeCamId (gmap TimeCamId (list KeypointObservation)) }.

Record AbsOrderMap : Type := mkAbsOrderMap {
  abs_order_map : gmap Z (Z * Z);
  total_size : Z;
  items : Z }.

Definition AbsOrderMap_empty : AbsOrderMap := mkAbsOrderMap ∅ 0 0.

Definition POSE_SIZE : Z := 6.
Definition POSE_VEL_BIAS_SIZE : Z := 15.

Record VioConfig : Type := mkVioConfig {
  vio_lm_lambda_min : double;
  vio_lm_lambda_max : double;
  vio_max_states : Z;
  vio_max_kfs : Z;
  vio_max_iterations : Z;
  vio_new_kf_keypoints_thresh : double;
  vio_min_frames_after_kf : Z;
  vio_min_triangulation_dist : double;
  vio_filter_iteration : Z;
  vio_outlier_threshold : double;
  vio_use_lm : bool }.

(** The blob pushed to [out_marg_queue]. *)
Record MargData : Type := mkMargData {
  md_aom : AbsOrderMap;
  md_abs_H : MatX;
  md_abs_b : VecX;
  md_frame_poses : gmap Z PoseStateWithLin;
  md_frame_states : gmap Z PoseVelBiasStateWithLin;
  md_kfs_all : gset Z;
  md_kfs_to_marg : gset Z;
  md_use_imu : bool;
  md_opt_flow_res : list OpticalFlowResult }.

(** The members of [KeypointVioEstimator] (with those inherited from
    [BundleAdjustmentBase]) that the three stages read or write. *)
Record KeypointVioEstimator : Type := mkKeypointVioEstimator {
  take_kf : bool;
  frames_after_kf : Z;
  g : Vec3;
  calib : Calib;
  config : VioConfig;
  lambda : double;
  min_lambda : double;
  max_lambda : double;
  lambda_vee : double;
  marg_H : MatX;
  marg_b : VecX;
  marg_order : AbsOrderMap;
  max_states : Z;     (* size_t *)
  max_kfs : Z;        (* size_t *)
  opt_started : bool;
  last_state_t_ns : Z;
  frame_states : gmap Z PoseVelBiasStateWithLin;
  frame_poses : gmap Z PoseStateWithLin;
  kf_ids : gset Z;
  imu_meas : gmap Z IntegratedImuMeasurement;
  prev_opt_flow_res : gmap Z OpticalFlowResult;
  num_points_kf : gmap Z Z;
  lmdb : LandmarkDatabase;
  out_marg_queue : option (list MargData) }.

(** Member assignment: [set_f v e] is [e] after [f = v]. *)
Definition set_take_kf v (e : KeypointVioEstimator) : KeypointVioEstimator :=
  mkKeypointVioEstimator v (frames_after_kf e) (g e) (calib e) (config e)
    (lambda e) (min_lambda e) (max_lambda e) (lambda_vee e) (marg_H e)
    (marg_b e) (marg_order e) (max_states e) (max_kfs e) (opt_started e)
    (last_state_t_ns e) (frame_states e) (frame_poses e) (kf_ids e)
    (imu_meas e) (prev_opt_flow_res e) (num_points_kf e) (lmdb e)
    (out_marg_queue e).
Definition set_frames_after_kf v (e : KeypointVioEstimator) : KeypointVioEstimator :=
  mkKeypointVioEstimator (take_kf e) v (g e) (calib e) (config e) (lambda e)
    (min_lambda e) (max_lambda e) (lambda_vee e) (marg_H e) (marg_b e)
    (marg_order e) (max_states e) (max_kfs e) (opt_started e)
    (last_state_t_ns e) (frame_states e) (frame_poses e) (kf_ids e)
    (imu_meas e) (prev_opt_flow_res e) (num_points_kf e) (lmdb e)
    (out_marg_queue e).
Definition set_lambda v (e : KeypointVioEstimator) : KeypointVioEstimator :=
  mkKeypointVioEstimator (take_kf e) (frames_after_kf e) (g e) (calib e)
    (config e) v (min_lambda e) (max_lambda e) (lambda_vee e) (marg_H e)
    (marg_b e) (marg_order e) (max_states e) (max_kfs e) (opt_started e)
    (last_state_t_ns e) (frame_states e) (frame_poses e) (kf_ids e)
    (imu_meas e) (prev_opt_flow_res e) (num_points_kf e) (lmdb e)
    (out_marg_queue e).
Definition set_lambda_vee v (e : KeypointVioEstimator) : KeypointVioEstimator :=
  mkKeypointVioEstimator (take_kf e) (frames_after_kf e) (g e) (calib e)
    (config e) (lambda e) (min_lambda e) (max_lambda e) v (marg_H e)
    (marg_b e) (marg_order e) (max_states e) (max_kfs e) (opt_started e)
    (last_state_t_ns e) (frame_states e) (frame_poses e) (kf_ids e)
    (imu_meas e) (prev_opt_flow_res e) (num_points_kf e) (lmdb e)
    (out_marg_queue e).
Definition set_marg_H v (e : KeypointVioEstimator) : KeypointVioEstimator :=
  mkKeypointVioEstimator (take_kf e) (frames_after_kf e) (g e) (calib e)
    (config e) (lambda e) (min_lambda e) (max_lambda e) (lambda_vee e) v
    (marg_b e) (marg_order e) (max_states e) (max_kfs e) (opt_started e)
    (last_state_t_ns e) (frame_states e) (frame_poses e) (kf_ids e)
    (imu_meas e) (prev_opt_flow_res e) (num_points_kf e) (lmdb e)
    (out_marg_queue e).
Definition set_marg_b v (e : KeypointVioEstimator) : KeypointVioEstimator :=
  mkKeypointVioEstimator (take_kf e) (frames_after_kf e) (g e) (calib e)
    (config e) (lambda e) (min_lambda e) (max_lambda e) (lambda_vee e)
    (marg_H e) v (marg_order e) (max_states e) (max_kfs e) (opt_started e)
    (last_state_t_ns e) (frame_states e) (frame_poses e) (kf_ids e)
    (imu_meas e) (prev_opt_flow_res e) (num_points_kf e) (lmdb e)
    (out_marg_queue e).
Definition set_marg_order v (e : KeypointVioEstimator) : KeypointVioEstimator :=
  mkKeypointVioEstimator (take_kf e) (frames_after_kf e) (g e) (calib e)
    (config e) (lambda e) (min_lambda e) (max_lambda e) (lambda_vee e)
    (marg_H e) (marg_b e) v (max_states e) (max_kfs e) (opt_started e)
    (last_state_t_ns e) (frame_states e) (frame_poses e) (kf_ids e)
    (imu_meas e) (prev_opt_flow_res e) (num_points_kf e) (lmdb e)
    (out_marg_queue e).
Definition set_opt_started v (e : KeypointVioEstimator) : KeypointVioEstimator :=
  mkKeypointVioEstimator (take_kf e) (frames_after_kf e) (g e) (calib e)
    (config e) (lambda e) (min_lambda e) (max_lambda e) (lambda_vee e)
    (marg_H e) (marg_b e) (marg_order e) (max_states e) (max_kfs e) v
    (last_state_t_ns e) (frame_states e) (frame_poses e) (kf_ids e)
    (imu_meas e) (prev_opt_flow_res e) (num_points_kf e) (lmdb e)
    (out_marg_queue e).
Definition set_last_state_t_ns v (e : KeypointVioEstimator) : KeypointVioEstimator :=
  mkKeypointVioEstimator (take_kf e) (frames_after_kf e) (g e) (calib e)
    (config e) (lambda e) (min_lambda e) (max_lambda e) (lambda_vee e)
    (marg_H e) (marg_b e) (marg_order e) (max_states e) (max_kfs e)
    (opt_started e) v (frame_states e) (frame_poses e) (kf_ids e) (imu_meas e)
    (prev_opt_flow_res e) (num_points_kf e) (lmdb e) (out_marg_queue e).
Definition set_frame_states v (e : KeypointVioEstimator) : KeypointVioEstimator :=
  mkKeypointVioEstimator (take_kf e) (frames_after_kf e) (g e) (calib e)
    (config e) (lambda e) (min_lambda e) (max_lambda e) (lambda_vee e)
    (marg_H e) (marg_b e) (marg_order e) (max_states e) (max_kfs e)
    (opt_started e) (last_state_t_ns e) v (frame_poses e) (kf_ids e)
    (imu_meas e) (prev_opt_flow_res e) (num_points_kf e) (lmdb e)
    (out_marg_queue e).
Definition set_frame_poses v (e : KeypointVioEstimator) : KeypointVioEstimator :=
  mkKeypointVioEstimator (take_kf e) (frames_after_kf e) (g e) (calib e)
    (config e) (lambda e) (min_lambda e) (max_lambda e) (lambda_vee e)
    (marg_H e) (marg_b e) (marg_order e) (max_states e) (max_kfs e)
    (opt_started e) (last_state_t_ns e) (frame_states e) v (kf_ids e)
    (imu_meas e) (prev_opt_flow_res e) (num_points_kf e) (lmdb e)
    (out_marg_queue e).
Definition set_kf_ids v (e : KeypointVioEstimator) : KeypointVioEstimator :=
  mkKeypointVioEstimator (take_kf e) (frames_after_kf e) (g e) (calib e)
    (config e) (lambda e) (min_lambda e) (max_lambda e) (lambda_vee e)
    (marg_H e) (marg_b e) (marg_order e) (max_states e) (max_kfs e)
    (opt_started e) (last_state_t_ns e) (frame_states e) (frame_poses e) v
    (imu_meas e) (prev_opt_flow_res e) (num_points_kf e) (lmdb e)
    (out_marg_queue e).
Definition set_imu_meas v (e : KeypointVioEstimator) : KeypointVioEstimator :=
  mkKeypointVioEstimator (take_kf e) (frames_after_kf e) (g e) (calib e)
    (config e) (lambda e) (min_lambda e) (max_lambda e) (lambda_vee e)
    (marg_H e) (marg_b e) (marg_order e) (max_states e) (max_kfs e)
    (opt_started e) (last_state_t_ns e) (frame_states e) (frame_poses e)
    (kf_ids e) v (prev_opt_flow_res e) (num_points_kf e) (lmdb e)
    (out_marg_queue e).
Definition set_prev_opt_flow_res v (e : KeypointVioEstimator) : KeypointVioEstimator :=
  mkKeypointVioEstimator (take_kf e) (frames_after_kf e) (g e) (calib e)
    (config e) (lambda e) (min_lambda e) (max_lambda e) (lambda_vee e)
    (marg_H e) (marg_b e) (marg_order e) (max_states e) (max_kfs e)
    (opt_started e) (last_state_t_ns e) (frame_states e) (frame_poses e)
    (kf_ids e) (imu_meas e) v (num_points_kf e) (lmdb e) (out_marg_queue e).
Definition set_num_points_kf v (e : KeypointVioEstimator) : KeypointVioEstimator :=
  mkKeypointVioEstimator (take_kf e) (frames_after_kf e) (g e) (calib e)
    (config e) (lambda e) (min_lambda e) (max_lambda e) (lambda_vee e)
    (marg_H e) (marg_b e) (marg_order e) (max_states e) (max_kfs e)
    (opt_started e) (last_state_t_ns e) (frame_states e) (frame_poses e)
    (kf_ids e) (imu_meas e) (prev_opt_flow_res e) v (lmdb e)
    (out_marg_queue e).
Definition set_lmdb v (e : KeypointVioEstimator) : KeypointVioEstimator :=
  mkKeypointVioEstimator (take_kf e) (frames_after_kf e) (g e) (calib e)
    (config e) (lambda e) (min_lambda e) (max_lambda e) (lambda_vee e)
    (marg_H e) (marg_b e) (marg_order e) (max_states e) (max_kfs e)
    (opt_started e) (last_state_t_ns e) (frame_states e) (frame_poses e)
    (kf_ids e) (imu_meas e) (prev_opt_flow_res e) (num_points_kf e) v
    (out_marg_queue e).
Definition set_out_marg_queue v (e : KeypointVioEstimator) : KeypointVioEstimator :=
  mkKeypointVioEstimator (take_kf e) (frames_after_kf e) (g e) (calib e)
    (config e) (lambda e) (min_lambda e) (max_lambda e) (lambda_vee e)
    (marg_H e) (marg_b e) (marg_order e) (max_states e) (max_kfs e)
    (opt_started e) (last_state_t_ns e) (frame_states e) (frame_poses e)
    (kf_ids e) (imu_meas e) (prev_opt_flow_res e) (num_points_kf e) (lmdb e) v.

End DataModel.

(** ** Keyframe eviction in [marginalize] *)

Section Eviction.
Context `{Numerics}.

(** What the guard of the covisibility rule evaluated: the first disjunct
    [num_points_connected.count(k) == 0] alone, or also the quotient of the
    second disjunct. *)
Inductive covis_test : Set :=
  | CovisNoEntry
  | CovisQuot (q : Z).

(** [num_points_connected.count(k) == 0 ||
     (num_points_connected.at(k) / num_points_kf.at(k) < 0.05)]:
    both maps hold [int], so the division is the integer one. *)
Definition covis_eval (num_points_connected num_points_kf : gmap Z Z) (k : Z)
    : outcome covis_test :=
  match num_points_connected !! k with
  | None => Ok CovisNoEntry
  | Some c =>
      d ← map_at num_points_kf k;
      q ← int_div c d;
      mret (CovisQuot q)
  end.

Definition covis_holds (t : covis_test) : bool :=
  match t with
  | CovisNoEntry => true
  | CovisQuot q => dlt (of_int q) (DFin (5 # 100))
  end.

(** [for (size_t i = 0; i < ids.size() - 2; i++)] of the covisibility rule,
    from index [i]; [-1] when the loop ends without a choice.  The subscript
    faults at [i = ids.size()], so [S (length ids)] rounds of fuel are never
    used up. *)
Fixpoint covis_for (fuel : nat) (num_points_connected num_points_kf : gmap Z Z)
    (ids : list Z) (bound i : Z) : outcome Z :=
  match fuel with
  | O => Fault OutOfBounds
  | S fuel' =>
      if decide (i < bound) then
        k ← vec_at ids i;
        t ← covis_eval num_points_connected num_points_kf k;
        if covis_holds t then mret k
        else covis_for fuel' num_points_connected num_points_kf ids bound (i + 1)
      else mret (-1)
  end.

Definition covis_rule (num_points_connected num_points_kf : gmap Z Z)
    (ids : list Z) : outcome Z :=
  covis_for (S (length ids)) num_points_connected num_points_kf ids
    (to_size_t (Z.of_nat (length ids) - 2)) 0.

(** The inner loop over [j] of the distance rule: the poses
    [frame_poses.at(ids[j])] for [j < bound]. *)
Fixpoint poses_for (fuel : nat) (frame_poses : gmap Z PoseStateWithLin)
    (ids : list Z) (bound j : Z) : outcome (list SE3) :=
  match fuel with
  | O => Fault OutOfBounds
  | S fuel' =>
      if decide (j < bound) then
        k ← vec_at ids j;
        p ← map_at frame_poses k;
        ps ← poses_for fuel' frame_poses ids bound (j + 1);
        mret (getPose p :: ps)
      else mret []
  end.

(** The outer loop of the distance rule, keeping the smallest score. *)
Fixpoint distance_for (fuel : nat) (frame_poses : gmap Z PoseStateWithLin)
    (frame_states : gmap Z PoseVelBiasStateWithLin) (last_kf : Z)
    (ids : list Z) (bound i : Z) (min_score : double) (min_score_id : Z)
    : outcome Z :=
  match fuel with
  | O => Fault OutOfBounds
  | S fuel' =>
      if decide (i < bound) then
        k ← vec_at ids i;
        p ← map_at frame_poses k;
        ps ← poses_for (S (length ids)) frame_poses ids bound 0;
        st ← map_at frame_states last_kf;
        let score := kf_spread_score (getPose p) ps (T_w_i (getState st)) in
        if dlt score min_score
        then distance_for fuel' frame_poses frame_states last_kf ids bound
               (i + 1) score k
        else distance_for fuel' frame_poses frame_states last_kf ids bound
               (i + 1) min_score min_score_id
      else mret min_score_id
  end.

Definition distance_rule (frame_poses : gmap Z PoseStateWithLin)
    (frame_states : gmap Z PoseVelBiasStateWithLin) (ids : list Z)
    : outcome Z :=
  last_kf ← match list.last ids with
            | Some k => Ok k
            | None => Fault OutOfBounds
            end;
  distance_for (S (length ids)) frame_poses frame_states last_kf ids
    (to_size_t (Z.of_nat (length ids) - 2)) 0 DBL_MAX (-1).

(** One pass of the body of the eviction loop up to the choice of
    [id_to_marg]. *)
Definition select_id_to_marg (num_points_connected num_points_kf : gmap Z Z)
    (frame_poses : gmap Z PoseStateWithLin)
    (frame_states : gmap Z PoseVelBiasStateWithLin) (kf_ids : gset Z)
    : outcome Z :=
  id_to_marg ← covis_rule num_points_connected num_points_kf (asc kf_ids);
  if decide (id_to_marg < 0)
  then distance_rule frame_poses frame_states (asc kf_ids)
  else mret id_to_marg.

(** [while (kf_ids.size() > max_kfs && !states_to_marg_vel_bias.empty())].
    The result is [(kf_ids, kfs_to_marg, poses_to_marg)].  Nothing the choice
    reads changes in a pass except [kf_ids]; a pass whose [id_to_marg] is not
    in [kf_ids] is followed by the same pass for ever ([NoProgress]).  Every
    other pass shrinks [kf_ids], so [size kf_ids] rounds of fuel suffice. *)
Fixpoint evict_loop (fuel : nat) (max_kfs : Z)
    (num_points_connected num_points_kf : gmap Z Z)
    (frame_poses : gmap Z PoseStateWithLin)
    (frame_states : gmap Z PoseVelBiasStateWithLin)
    (states_to_marg_vel_bias : gset Z)
    (kf_ids kfs_to_marg poses_to_marg : gset Z)
    : outcome (gset Z * gset Z * gset Z) :=
  if decide (max_kfs < Z.of_nat (size kf_ids) ∧ states_to_marg_vel_bias ≠ ∅)
  then
    match fuel with
    | O => Fault NoProgress
    | S fuel' =>
        id_to_marg ← select_id_to_marg num_points_connected num_points_kf
                        frame_poses frame_states kf_ids;
        if decide (id_to_marg ∈ kf_ids) then
          evict_loop fuel' max_kfs num_points_connected num_points_kf
            frame_poses frame_states states_to_marg_vel_bias
            (kf_ids ∖ {[id_to_marg]}) ({[id_to_marg]} ∪ kfs_to_marg)
            ({[id_to_marg]} ∪ poses_to_marg)
        else Fault NoProgress
    end
  else mret (kf_ids, kfs_to_marg, poses_to_marg).

Definition evict_keyframes (max_kfs : Z)
    (num_points_connected num_points_kf : gmap Z Z)
    (frame_poses : gmap Z PoseStateWithLin)
    (frame_states : gmap Z PoseVelBiasStateWithLin)
    (states_to_marg_vel_bias kf_ids poses_to_marg : gset Z)
    : outcome (gset Z * gset Z * gset Z) :=
  evict_loop (size kf_ids) max_kfs num_points_connected num_points_kf
    frame_poses frame_states states_to_marg_vel_bias kf_ids ∅ poses_to_marg.

End Eviction.

(** ** Kernels over the window *)

(** The five terms of the total error: vision, IMU, gyroscope and
    accelerometer bias random walk, marginalisation prior. *)
Record ErrorTerms : Type := mkErrorTerms {
  err_vision : double;
  err_imu : double;
  err_bg : double;
  err_ba : double;
  err_marg_prior : double }.

Class Kernels `{Numerics} : Type := {
  predictState :
    IntegratedImuMeasurement → PoseVelBiasState → Vec3 → PoseVelBiasState;
  (* [marginalize]: [linearizeHelper] on the chosen observations, then
     [linearizeAbs], [linearizeAbsIMU] and [linearizeMargPrior] into one
     accumulator laid out by the given order *)
  marg_linearize :
    KeypointVioEstimator → AbsOrderMap →
    gmap TimeCamId (gmap TimeCamId (list KeypointObservation)) → Accum;
  getH : Accum → MatX;
  getB : Accum → VecX;
  marginalizeHelper : MatX → VecX → gset Z → gset Z → MatX * VecX;
  cols : MatX → Z;
  computeDelta :
    AbsOrderMap → gmap Z PoseVelBiasStateWithLin → gmap Z PoseStateWithLin →
    VecX;
  (* [b - H * delta] *)
  sub_mul : VecX → MatX → VecX → VecX;
  (* [optimize]: [linearizeHelper] over all observations, the reduction
     [LinearizeAbsReduce], [linearizeAbsIMU] and [linearizeMargPrior] *)
  opt_linearize : KeypointVioEstimator → AbsOrderMap → Accum;
  (* the errors these report at the linearisation *)
  lin_errors : KeypointVioEstimator → AbsOrderMap → ErrorTerms;
  (* [computeError], [computeImuError], [computeMargPriorError] *)
  compute_errors : KeypointVioEstimator → AbsOrderMap → ErrorTerms;
  Hdiagonal : Accum → list double;
  solve : Accum → list double → VecX;
  (* [inc.array().abs().maxCoeff()] *)
  max_abs_coeff : VecX → double;
  (* [applyInc(-inc.segment<N>(idx))] on a pose and on a state *)
  applyInc_pose : PoseStateWithLin → VecX → Z → PoseStateWithLin;
  applyInc_state :
    PoseVelBiasStateWithLin → VecX → Z → PoseVelBiasStateWithLin;
  (* [updatePoints]: the new direction and inverse distance of a landmark *)
  update_point :
    AbsOrderMap → Accum → VecX → Z → KeypointPosition → Dir * double;
  (* reprojection error of an observation above the threshold *)
  is_outlier :
    KeypointVioEstimator → double → TimeCamId → TimeCamId →
    KeypointObservation → bool;
  (* a default-constructed map entry *)
  default_state : PoseVelBiasStateWithLin;
  (* the diagonal prior set up by the constructor *)
  prior_H_init : VioConfig → MatX;
  prior_b_init : VecX;
  (* [IntegratedImuMeasurement(t_ns, bg, ba)] *)
  preint_init : Vec3 → Vec3 → Preint;
}.

(** ** [marginalize] *)

Section Marginalize.
Context `{Kernels}.

(** [aom.abs_order_map[k] = (aom.total_size, sz)] *)
Definition aom_assign (k sz : Z) (aom : AbsOrderMap) : AbsOrderMap :=
  mkAbsOrderMap (<[k := (total_size aom, sz)]> (abs_order_map aom))
    (total_size aom) (items aom).

(** [aom.total_size += sz; aom.items++] *)
Definition aom_advance (sz : Z) (aom : AbsOrderMap) : AbsOrderMap :=
  mkAbsOrderMap (abs_order_map aom) (total_size aom + sz) (items aom + 1).

(** [BASALT_ASSERT(marg_order.abs_order_map.at(k) == aom.abs_order_map.at(k))] *)
Definition assert_same_order (marg_order aom : AbsOrderMap) (k : Z)
    : outcome unit :=
  a ← map_at (abs_order_map marg_order) k;
  b ← map_at (abs_order_map aom) k;
  BASALT_ASSERT (bool_decide (a = b)).

(** The loop over [frame_poses]: lay the poses out and collect the ones
    that are no keyframes. *)
Fixpoint marg_poses_loop (marg_order : AbsOrderMap) (kf_ids : gset Z)
    (keys : list Z) (aom : AbsOrderMap) (poses_to_marg : gset Z)
    : outcome (AbsOrderMap * gset Z) :=
  match keys with
  | [] => mret (aom, poses_to_marg)
  | k :: keys' =>
      let aom1 := aom_assign k POSE_SIZE aom in
      let poses_to_marg1 :=
        if decide (k ∈ kf_ids) then poses_to_marg
        else {[k]} ∪ poses_to_marg in
      _ ← assert_same_order marg_order aom1 k;
      marg_poses_loop marg_order kf_ids keys' (aom_advance POSE_SIZE aom1)
        poses_to_marg1
  end.

(** The loop over [frame_states] up to [last_state_to_marg]; the result is
    [(aom, states_to_marg_vel_bias, states_to_marg_all)]. *)
Fixpoint marg_states_loop (marg_order : AbsOrderMap) (kf_ids : gset Z)
    (last_state_to_marg : Z) (keys : list Z) (aom : AbsOrderMap)
    (states_to_marg_vel_bias states_to_marg_all : gset Z)
    : outcome (AbsOrderMap * gset Z * gset Z) :=
  match keys with
  | [] => mret (aom, states_to_marg_vel_bias, states_to_marg_all)
  | k :: keys' =>
      if decide (last_state_to_marg < k)
      then mret (aom, states_to_marg_vel_bias, states_to_marg_all)
      else
        let vel_bias1 :=
          if decide (k ≠ last_state_to_marg ∧ k ∈ kf_ids)
          then {[k]} ∪ states_to_marg_vel_bias else states_to_marg_vel_bias in
        let all1 :=
          if decide (k ≠ last_state_to_marg ∧ k ∉ kf_ids)
          then {[k]} ∪ states_to_marg_all else states_to_marg_all in
        let aom1 := aom_assign k POSE_VEL_BIAS_SIZE aom in
        _ ← (if decide (items aom1
                        < Z.of_nat (size (abs_order_map marg_order)))
             then assert_same_order marg_order aom1 k else mret tt);
        marg_states_loop marg_order kf_ids last_state_to_marg keys'
          (aom_advance POSE_VEL_BIAS_SIZE aom1) vel_bias1 all1
  end.

(** [obs_to_lin[host].emplace(target, observations)] *)
Definition obs_emplace (host target : TimeCamId)
    (l : list KeypointObservation)
    (acc : gmap TimeCamId (gmap TimeCamId (list KeypointObservation)))
    : gmap TimeCamId (gmap TimeCamId (list KeypointObservation)) :=
  let group := default ∅ (acc !! host) in
  match group !! target with
  | Some _ => <[host := group]> acc
  | None => <[host := <[target := l]> group]> acc
  end.

(** The observations that are relinearised: the two nested loops over
    [lmdb.getObservations()] that fill [obs_to_lin]. *)
Definition obs_to_lin (kfs_to_marg : gset Z) (last_state_to_marg : Z)
    (observations : gmap TimeCamId (gmap TimeCamId (list KeypointObservation)))
    : gmap TimeCamId (gmap TimeCamId (list KeypointObservation)) :=
  map_fold (λ host group acc,
    if decide (frame_id host ∈ kfs_to_marg) then
      map_fold (λ target l acc2,
        if decide (frame_id target ≤ last_state_to_marg)
        then obs_emplace host target l acc2
        else acc2) acc group
    else acc) ∅ observations.

(** [start_idx + i] for [i < n] *)
Definition idx_range (start_idx n : Z) : gset Z :=
  list_to_set (seqZ start_idx n).

(** The partition of the columns into [(idx_to_keep, idx_to_marg)]. *)
Fixpoint idx_partition (poses_to_marg states_to_marg_all
    states_to_marg_vel_bias : gset Z) (last_state_to_marg : Z)
    (entries : list (Z * (Z * Z))) (idx_to_keep idx_to_marg : gset Z)
    : outcome (gset Z * gset Z) :=
  match entries with
  | [] => mret (idx_to_keep, idx_to_marg)
  | (k, (start_idx, sz)) :: entries' =>
      if decide (sz = POSE_SIZE) then
        if decide (k ∈ poses_to_marg)
        then idx_partition poses_to_marg states_to_marg_all
               states_to_marg_vel_bias last_state_to_marg entries'
               idx_to_keep (idx_range start_idx POSE_SIZE ∪ idx_to_marg)
        else idx_partition poses_to_marg states_to_marg_all
               states_to_marg_vel_bias last_state_to_marg entries'
               (idx_range start_idx POSE_SIZE ∪ idx_to_keep) idx_to_marg
      else
        _ ← BASALT_ASSERT (bool_decide (sz = POSE_VEL_BIAS_SIZE));
        if decide (k ∈ states_to_marg_all)
        then idx_partition poses_to_marg states_to_marg_all
               states_to_marg_vel_bias last_state_to_marg entries'
               idx_to_keep
               (idx_range start_idx POSE_VEL_BIAS_SIZE ∪ idx_to_marg)
        else if decide (k ∈ states_to_marg_vel_bias)
        then idx_partition poses_to_marg states_to_marg_all
               states_to_marg_vel_bias last_state_to_marg entries'
               (idx_range start_idx POSE_SIZE ∪ idx_to_keep)
               (idx_range (start_idx + POSE_SIZE)
                  (POSE_VEL_BIAS_SIZE - POSE_SIZE) ∪ idx_to_marg)
        else
          _ ← BASALT_ASSERT (bool_decide (k = last_state_to_marg));
          idx_partition poses_to_marg states_to_marg_all
            states_to_marg_vel_bias last_state_to_marg entries'
            (idx_range start_idx POSE_VEL_BIAS_SIZE ∪ idx_to_keep)
            idx_to_marg
  end.

(** Entries of an order map in key order. *)
Definition aom_entries (aom : AbsOrderMap) : list (Z * (Z * Z)) :=
  omap (λ k, (λ v, (k, v)) <$> abs_order_map aom !! k)
    (asc (dom (abs_order_map aom))).

(** [for (t : kfs_all) m->opt_flow_res.emplace_back(prev_opt_flow_res.at(t))] *)
Fixpoint collect_opt_flow (prev_opt_flow_res : gmap Z OpticalFlowResult)
    (ts : list Z) : outcome (list OpticalFlowResult) :=
  match ts with
  | [] => mret []
  | t :: ts' =>
      r ← map_at prev_opt_flow_res t;
      rs ← collect_opt_flow prev_opt_flow_res ts';
      mret (r :: rs)
  end.

(** Demotion of [states_to_marg_vel_bias] to pose-only keyframes. *)
Fixpoint demote_states (ids : list Z)
    (frame_states : gmap Z PoseVelBiasStateWithLin)
    (frame_poses : gmap Z PoseStateWithLin)
    (imu_meas : gmap Z IntegratedImuMeasurement)
    : outcome (gmap Z PoseVelBiasStateWithLin * gmap Z PoseStateWithLin
               * gmap Z IntegratedImuMeasurement) :=
  match ids with
  | [] => mret (frame_states, frame_poses, imu_meas)
  | id :: ids' =>
      state ← map_at frame_states id;
      demote_states ids' (delete id frame_states)
        (<[id := PoseStateWithLin_of state]> frame_poses)
        (delete id imu_meas)
  end.

(** Erasing a set of keys from a map, one [erase] each. *)
Definition erase_all {A} (ids : gset Z) (m : gmap Z A) : gmap Z A :=
  foldr delete m (asc ids).

(** Does some observation in the group refer to landmark [id]? *)
Definition group_mentions
    (group : gmap TimeCamId (list KeypointObservation)) (id : Z) : bool :=
  bool_decide (Exists (λ kv : TimeCamId * list KeypointObservation,
                 Exists (λ o, kpt_id o = id) kv.2) (map_to_list group)).

Definition landmark_observed
    (observations : gmap TimeCamId (gmap TimeCamId (list KeypointObservation)))
    (id : Z) (kp : KeypointPosition) : bool :=
  match observations !! kf_id kp with
  | Some group => group_mentions group id
  | None => false
  end.

(** Modelled from the spec: [LandmarkDatabase::removeKeyframes], declared
    outside this file.  The groups hosted by an evicted keyframe go with
    their landmarks; of the surviving hosts, the observations whose target
    frame leaves the window go; landmarks left without observation go. *)
Definition removeKeyframes (kfs_to_marg poses_to_marg states_to_marg_all
    : gset Z) (db : LandmarkDatabase) : LandmarkDatabase :=
  let obs1 :=
    filter (λ kv : TimeCamId * _, frame_id kv.1 ∉ kfs_to_marg) (obs db) in
  let kpts1 :=
    filter (λ kv : Z * KeypointPosition, frame_id (kf_id kv.2) ∉ kfs_to_marg)
      (kpts db) in
  let obs2 :=
    filter (λ kv : TimeCamId * list KeypointObservation,
              frame_id kv.1 ∉ poses_to_marg ∪ states_to_marg_all) <$> obs1 in
  let kpts2 :=
    filter (λ kv : Z * KeypointPosition,
              landmark_observed obs2 kv.1 kv.2 = true) kpts1 in
  mkLandmarkDatabase kpts2 obs2.

(** The order of the new prior: the surviving poses, then
    [last_state_to_marg]. *)
Definition marg_order_of (pose_keys : list Z) (last_state_to_marg : Z)
    : AbsOrderMap :=
  aom_advance POSE_VEL_BIAS_SIZE
    (aom_assign last_state_to_marg POSE_VEL_BIAS_SIZE
       (foldl (λ aom k, aom_advance POSE_SIZE (aom_assign k POSE_SIZE aom))
          AbsOrderMap_empty pose_keys)).

End Marginalize.

Section MarginalizeStage.
Context `{Kernels}.

(** The blob for [out_marg_queue], pushed when a sink is attached and a
    keyframe was evicted. *)
Definition push_marg_data (e : KeypointVioEstimator) (aom : AbsOrderMap)
    (accum : Accum) (kf_ids_all kfs_to_marg : gset Z)
    : outcome (option (list MargData)) :=
  match out_marg_queue e with
  | Some queue =>
      if decide (kfs_to_marg ≠ ∅) then
        flow ← collect_opt_flow (prev_opt_flow_res e) (asc kf_ids_all);
        mret (Some (queue ++
          [mkMargData aom (getH accum) (getB accum) (frame_poses e)
             (frame_states e) kf_ids_all kfs_to_marg true flow]))
      else mret (Some queue)
  | None => mret None
  end.

(** The frames chosen before the eviction loop. *)
Record MargSelection : Type := mkMargSelection {
  last_state_to_marg : Z;
  sel_aom : AbsOrderMap;
  sel_poses_to_marg : gset Z;
  states_to_marg_vel_bias : gset Z;
  states_to_marg_all : gset Z }.

(** The head of [marginalize]: [last_state_to_marg], the order [aom] and
    the three sets filled by the loops over the poses and the states. *)
Definition marg_select (e : KeypointVioEstimator) : outcome MargSelection :=
  let states_to_remove :=
    to_int (to_size_t (Z.of_nat (size (frame_states e)) - max_states e + 1)) in
  last ← vec_at (asc (dom (frame_states e))) (Z.max 0 states_to_remove);
  '(aom0, poses_to_marg0) ←
    marg_poses_loop (marg_order e) (kf_ids e) (asc (dom (frame_poses e)))
      AbsOrderMap_empty ∅;
  '(aom, vel_bias, all) ←
    marg_states_loop (marg_order e) (kf_ids e) last
      (asc (dom (frame_states e))) aom0 ∅ ∅;
  mret (mkMargSelection last aom poses_to_marg0 vel_bias all).

(** The rest of [marginalize] once the frames are chosen. *)
Definition marg_apply (num_points_connected : gmap Z Z)
    (sel : MargSelection) (e : KeypointVioEstimator)
    : outcome KeypointVioEstimator :=
  let kf_ids_all := kf_ids e in
  '(kf_ids1, kfs_to_marg, poses_to_marg) ←
    evict_keyframes (max_kfs e) num_points_connected (num_points_kf e)
      (frame_poses e) (frame_states e) (states_to_marg_vel_bias sel)
      (kf_ids e) (sel_poses_to_marg sel);
  let accum :=
    marg_linearize (set_kf_ids kf_ids1 e) (sel_aom sel)
      (obs_to_lin kfs_to_marg (last_state_to_marg sel) (obs (lmdb e))) in
  queue ← push_marg_data (set_kf_ids kf_ids1 e) (sel_aom sel) accum
             kf_ids_all kfs_to_marg;
  '(idx_to_keep, idx_to_marg) ←
    idx_partition poses_to_marg (states_to_marg_all sel)
      (states_to_marg_vel_bias sel) (last_state_to_marg sel)
      (aom_entries (sel_aom sel)) ∅ ∅;
  let '(marg_H_new, marg_b_new) :=
    marginalizeHelper (getH accum) (getB accum) idx_to_keep idx_to_marg in
  last_state ← map_at (frame_states e) (last_state_to_marg sel);
  _ ← BASALT_ASSERT (negb (pvb_linearized last_state));
  let frame_states1 :=
    erase_all (states_to_marg_all sel)
      (<[last_state_to_marg sel := setLinTrue last_state]> (frame_states e)) in
  let imu_meas1 := erase_all (states_to_marg_all sel) (imu_meas e) in
  let prev_opt_flow_res1 :=
    erase_all (states_to_marg_all sel) (prev_opt_flow_res e) in
  '(frame_states2, frame_poses2, imu_meas2) ←
    demote_states (asc (states_to_marg_vel_bias sel)) frame_states1
      (frame_poses e) imu_meas1;
  let frame_poses3 := erase_all poses_to_marg frame_poses2 in
  let prev_opt_flow_res3 := erase_all poses_to_marg prev_opt_flow_res1 in
  let lmdb1 :=
    removeKeyframes kfs_to_marg poses_to_marg (states_to_marg_all sel)
      (lmdb e) in
  let marg_order_new :=
    marg_order_of (asc (dom frame_poses3)) (last_state_to_marg sel) in
  _ ← BASALT_ASSERT
        (bool_decide (to_size_t (cols marg_H_new)
                      = total_size marg_order_new));
  let delta := computeDelta marg_order_new frame_states2 frame_poses3 in
  mret (set_marg_b (sub_mul marg_b_new marg_H_new delta)
       (set_marg_H marg_H_new
       (set_marg_order marg_order_new
       (set_lmdb lmdb1
       (set_prev_opt_flow_res prev_opt_flow_res3
       (set_imu_meas imu_meas2
       (set_frame_poses frame_poses3
       (set_frame_states frame_states2
       (set_out_marg_queue queue
       (set_kf_ids kf_ids1 e)))))))))).

Definition marginalize (num_points_connected : gmap Z Z)
    (e : KeypointVioEstimator) : outcome KeypointVioEstimator :=
  if negb (opt_started e) then mret e
  else if decide (max_kfs e < Z.of_nat (size (frame_poses e))
                  ∨ max_states e ≤ Z.of_nat (size (frame_states e))) then
    sel ← marg_select e;
    marg_apply num_points_connected sel e
  else mret e.

End MarginalizeStage.

(** ** [optimize] *)

Section Optimize.
Context `{Kernels}.

(** [rld_error + imu_error + marg_prior_error + ba_error + bg_error] *)
Definition error_total (t : ErrorTerms) : double :=
  dadd (dadd (dadd (dadd (err_vision t) (err_imu t)) (err_marg_prior t))
          (err_ba t)) (err_bg t).

(** [after_update_vision_error + after_update_imu_error +
     after_update_marg_prior_error + after_bg_error + after_ba_error] *)
Definition after_error_total (t : ErrorTerms) : double :=
  dadd (dadd (dadd (dadd (err_vision t) (err_imu t)) (err_marg_prior t))
          (err_bg t)) (err_ba t).

Fixpoint opt_poses_loop (marg_order : AbsOrderMap) (keys : list Z)
    (aom : AbsOrderMap) : outcome AbsOrderMap :=
  match keys with
  | [] => mret aom
  | k :: keys' =>
      let aom1 := aom_assign k POSE_SIZE aom in
      _ ← assert_same_order marg_order aom1 k;
      opt_poses_loop marg_order keys' (aom_advance POSE_SIZE aom1)
  end.

Fixpoint opt_states_loop (marg_order : AbsOrderMap) (keys : list Z)
    (aom : AbsOrderMap) : outcome AbsOrderMap :=
  match keys with
  | [] => mret aom
  | k :: keys' =>
      let aom1 := aom_assign k POSE_VEL_BIAS_SIZE aom in
      _ ← (if decide (items aom1
                      < Z.of_nat (size (abs_order_map marg_order)))
           then assert_same_order marg_order aom1 k else mret tt);
      opt_states_loop marg_order keys' (aom_advance POSE_VEL_BIAS_SIZE aom1)
  end.

(** [aom.abs_order_map.at(k).first]; the order holds every key of the
    window when the increments are applied. *)
Definition aom_idx (aom : AbsOrderMap) (k : Z) : Z :=
  (default (0, 0) (abs_order_map aom !! k)).1.

(** The three loops that apply [-inc] to the poses, the states and the
    landmarks. *)
Definition apply_inc (aom : AbsOrderMap) (accum : Accum) (inc : VecX)
    (e : KeypointVioEstimator) : KeypointVioEstimator :=
  let frame_poses1 :=
    map_imap (λ k p, Some (applyInc_pose p inc (aom_idx aom k)))
      (frame_poses e) in
  let frame_states1 :=
    map_imap (λ k s, Some (applyInc_state s inc (aom_idx aom k)))
      (frame_states e) in
  let kpts1 :=
    map_imap (λ id kp,
      let r := update_point aom accum inc id kp in
      Some (mkKeypointPosition (kf_id kp) r.1 r.2)) (kpts (lmdb e)) in
  set_lmdb (mkLandmarkDatabase kpts1 (obs (lmdb e)))
    (set_frame_states frame_states1 (set_frame_poses frame_poses1 e)).

(** Modelled from the spec: [backup] and [restore] of the base class save
    and put back the live poses, states and landmarks. *)
Definition restore (backup e : KeypointVioEstimator) : KeypointVioEstimator :=
  set_lmdb (lmdb backup)
    (set_frame_states (frame_states backup)
       (set_frame_poses (frame_poses backup) e)).

(** [Hdiag_lambda[i] = std::max(Hdiag[i] * lambda, min_lambda)] *)
Definition dampen (Hdiag : list double) (lambda min_lambda : double)
    : list double :=
  (λ h, dmax (dmul h lambda) min_lambda) <$> Hdiag.

Definition converge_thresh : double := DFin (1 # 10000).

(** One damping trial: the body of the [while] loop of the
    Levenberg-Marquardt branch.  The result is [(step, converged, e)]. *)
Definition lm_trial (aom : AbsOrderMap) (accum : Accum)
    (error_before : double) (e : KeypointVioEstimator)
    : bool * bool * KeypointVioEstimator :=
  let Hdiag_lambda := dampen (Hdiagonal accum) (lambda e) (min_lambda e) in
  let inc := solve accum Hdiag_lambda in
  let max_inc := max_abs_coeff inc in
  let converged := dlt max_inc converge_thresh in
  let backup := e in
  let e1 := apply_inc aom accum inc e in
  let after := after_error_total (compute_errors e1 aom) in
  let f_diff := dsub error_before after in
  if dlt f_diff (DFin 0) then
    (false, converged,
     restore backup
       (set_lambda_vee (dmul (lambda_vee e1) (DFin 2))
          (set_lambda (dmin (max_lambda e1) (dmul (lambda_vee e1) (lambda e1)))
             e1)))
  else
    (true, converged,
     set_lambda_vee (DFin 2)
       (set_lambda (dmax (min_lambda e1) (ddiv (lambda e1) (DFin 3))) e1)).

(** [while (!step && max_iter > 0 && !converged)] *)
Fixpoint lm_loop (max_iter : nat) (aom : AbsOrderMap) (accum : Accum)
    (error_before : double) (e : KeypointVioEstimator)
    : bool * KeypointVioEstimator :=
  match max_iter with
  | O => (false, e)
  | S max_iter' =>
      let '(step, converged, e1) := lm_trial aom accum error_before e in
      if step || converged then (converged, e1)
      else lm_loop max_iter' aom accum error_before e1
  end.

(** The Gauss-Newton branch: one solve, always applied. *)
Definition gn_step (aom : AbsOrderMap) (accum : Accum)
    (e : KeypointVioEstimator) : bool * KeypointVioEstimator :=
  let Hdiag_lambda :=
    dampen (Hdiagonal accum) (min_lambda e) (min_lambda e) in
  let inc := solve accum Hdiag_lambda in
  (dlt (max_abs_coeff inc) converge_thresh, apply_inc aom accum inc e).

(** Observations of landmark [id] left in a group. *)
Definition num_obs_of (group : gmap TimeCamId (list KeypointObservation))
    (id : Z) : nat :=
  sum_list ((λ kv : TimeCamId * list KeypointObservation,
               length (filter (λ o, kpt_id o = id) kv.2))
            <$> map_to_list group).

(** Modelled from the spec: [filterOutliers(threshold, min_num_obs)],
    declared outside this file.  Observations above the threshold are
    dropped, then the landmarks left with fewer than [min_num_obs]
    observations, with their observations. *)
Definition filterOutliers (threshold : double) (min_num_obs : Z)
    (e : KeypointVioEstimator) : KeypointVioEstimator :=
  let obs1 :=
    map_imap (λ host group, Some (map_imap (λ target l,
      Some (filter (λ o, is_outlier e threshold host target o = false) l))
      group)) (obs (lmdb e)) in
  let kpts1 :=
    filter (λ kv : Z * KeypointPosition,
      min_num_obs ≤ Z.of_nat (num_obs_of
        (default ∅ (obs1 !! kf_id kv.2)) kv.1)) (kpts (lmdb e)) in
  let obs2 :=
    (λ group, (λ l, filter (λ o, is_Some (kpts1 !! kpt_id o)) l) <$> group)
    <$> obs1 in
  set_lmdb (mkLandmarkDatabase kpts1 obs2) e.

(** [for (int iter = 0; iter < config.vio_max_iterations; iter++)], with
    [todo] iterations left. *)
Fixpoint opt_iterations (todo : nat) (iter : Z) (aom : AbsOrderMap)
    (e : KeypointVioEstimator) : KeypointVioEstimator :=
  match todo with
  | O => e
  | S todo' =>
      let accum := opt_linearize e aom in
      let error_before := error_total (lin_errors e aom) in
      let '(converged, e1) :=
        if vio_use_lm (config e)
        then lm_loop 10 aom accum error_before e
        else gn_step aom accum e in
      let e2 :=
        if decide (iter = vio_filter_iteration (config e1))
        then filterOutliers (vio_outlier_threshold (config e1)) 4 e1
        else e1 in
      if converged then e2 else opt_iterations todo' (iter + 1) aom e2
  end.

Definition optimize (e : KeypointVioEstimator) : outcome KeypointVioEstimator :=
  if opt_started e || bool_decide (4 < Z.of_nat (size (frame_states e))) then
    let e1 := set_opt_started true e in
    aom0 ← opt_poses_loop (marg_order e1) (asc (dom (frame_poses e1)))
             AbsOrderMap_empty;
    aom ← opt_states_loop (marg_order e1) (asc (dom (frame_states e1))) aom0;
    mret (opt_iterations (Z.to_nat (vio_max_iterations (config e1))) 0 aom e1)
  else mret e.

End Optimize.

(** ** The landmark database *)

Section Landmarks.
Context `{Numerics}.

(** Modelled from the spec: [landmarkExists], [addLandmark] and
    [addObservation] of [LandmarkDatabase], declared outside this file.
    [addObservation] resolves the host of the landmark and appends to the
    group of that host; an unknown landmark is an error. *)
Definition landmarkExists (id : Z) (db : LandmarkDatabase) : bool :=
  bool_decide (is_Some (kpts db !! id)).

Definition addLandmark (id : Z) (kp : KeypointPosition)
    (db : LandmarkDatabase) : LandmarkDatabase :=
  mkLandmarkDatabase (<[id := kp]> (kpts db)) (obs db).

Definition addObservation (tcid_target : TimeCamId) (o : KeypointObservation)
    (db : LandmarkDatabase) : outcome LandmarkDatabase :=
  match kpts db !! kpt_id o with
  | None => Fault AssertFail
  | Some kp =>
      let group := default ∅ (obs db !! kf_id kp) in
      let l := default [] (group !! tcid_target) in
      mret (mkLandmarkDatabase (kpts db)
              (<[kf_id kp := <[tcid_target := l ++ [o]]> group]> (obs db)))
  end.

(** Modelled from the spec: [getPoseStateWithLin] of the base class, declared
    outside this file: the pose of a frame of the window, whichever of the
    two maps holds it. *)
Definition getPoseStateWithLin (frame : Z) (e : KeypointVioEstimator)
    : outcome PoseStateWithLin :=
  match frame_poses e !! frame with
  | Some p => Ok p
  | None =>
      match frame_states e !! frame with
      | Some s => Ok (PoseStateWithLin_of s)
      | None => Fault AssertFail
      end
  end.

End Landmarks.

(** ** [measure] *)

Section Measure.
Context `{Kernels}.

(** The first block of [measure]: propagate the last state through the
    preintegrated measurement. *)
Definition propagate_state (t : Z) (meas : option IntegratedImuMeasurement)
    (e : KeypointVioEstimator) : outcome KeypointVioEstimator :=
  match meas with
  | None => mret e
  | Some m =>
      (* [frame_states[last_state_t_ns]] inserts a default entry *)
      let frame_states0 :=
        match frame_states e !! last_state_t_ns e with
        | Some _ => frame_states e
        | None => <[last_state_t_ns e := default_state]> (frame_states e)
        end in
      last ← map_at frame_states0 (last_state_t_ns e);
      _ ← BASALT_ASSERT
            (bool_decide (t_ns (getState last) = get_start_t_ns m));
      _ ← BASALT_ASSERT (bool_decide (t = get_dt_ns m + get_start_t_ns m));
      let predicted := predictState m (getState last) (g e) in
      let next_state :=
        mkPoseVelBiasState t (T_w_i predicted) (vel_w_i predicted)
          (bias_gyro predicted) (bias_accel predicted) in
      mret (set_imu_meas (<[get_start_t_ns m := m]> (imu_meas e))
           (set_frame_states
              (<[t := PoseVelBiasStateWithLin_of next_state]> frame_states0)
           (set_last_state_t_ns t e)))
  end.

(** What the data association loop accumulates. *)
Record Association : Type := mkAssociation {
  assoc_lmdb : LandmarkDatabase;
  connected0 : Z;
  num_points_connected : gmap Z Z;
  unconnected_obs0 : gset Z }.

(** The body of the inner loop, for one observation of camera [cam]. *)
Definition associate_obs (t cam : Z) (kv_obs : Z * Affine) (a : Association)
    : outcome Association :=
  let id := kv_obs.1 in
  if landmarkExists id (assoc_lmdb a) then
    kp ← map_at (kpts (assoc_lmdb a)) id;
    let tcid_host := kf_id kp in
    let kobs := mkKeypointObservation id (translation kv_obs.2) in
    db ← addObservation (t, cam) kobs (assoc_lmdb a);
    let count := default 0 (num_points_connected a !! frame_id tcid_host) in
    mret (mkAssociation db
            (if decide (cam = 0) then connected0 a + 1 else connected0 a)
            (<[frame_id tcid_host := count + 1]> (num_points_connected a))
            (unconnected_obs0 a))
  else
    mret (mkAssociation (assoc_lmdb a) (connected0 a)
            (num_points_connected a)
            (if decide (cam = 0) then {[id]} ∪ unconnected_obs0 a
             else unconnected_obs0 a)).

Fixpoint associate_cam (t cam : Z) (kvs : list (Z * Affine))
    (a : Association) : outcome Association :=
  match kvs with
  | [] => mret a
  | kv :: kvs' => a1 ← associate_obs t cam kv a; associate_cam t cam kvs' a1
  end.

(** Entries of a per-camera observation map in key order. *)
Definition flow_entries (m : gmap Z Affine) : list (Z * Affine) :=
  omap (λ k, (λ v, (k, v)) <$> m !! k) (asc (dom m)).

Fixpoint associate_cams (t cam : Z) (cams : list (gmap Z Affine))
    (a : Association) : outcome Association :=
  match cams with
  | [] => mret a
  | m :: cams' =>
      a1 ← associate_cam t cam (flow_entries m) a;
      associate_cams t (cam + 1) cams' a1
  end.

(** The keyframe test on the counts of camera 0. *)
Definition new_kf_condition (cfg : VioConfig) (connected0 : Z)
    (unconnected0 : nat) (frames_after_kf : Z) : bool :=
  dlt (ddiv (of_int connected0)
         (of_int (to_size_t (connected0 + Z.of_nat unconnected0))))
      (vio_new_kf_keypoints_thresh cfg)
  && bool_decide (vio_min_frames_after_kf cfg < frames_after_kf).

(** Observations of [lm_id] in the retained optical flow results, in the
    order of [kp_obs]: by frame, then by camera. *)
Definition kp_obs_of_frame (lm_id : Z) (t : Z) (r : OpticalFlowResult)
    : list (TimeCamId * KeypointObservation) :=
  omap (λ km : nat * gmap Z Affine,
          (λ a, ((t, Z.of_nat km.1),
                 mkKeypointObservation lm_id (translation a)))
          <$> km.2 !! lm_id)
       (imap (λ k m, (k, m)) (observations r)).

Definition collect_kp_obs (lm_id : Z)
    (prev_opt_flow_res : gmap Z OpticalFlowResult)
    : list (TimeCamId * KeypointObservation) :=
  mjoin (omap (λ t, kp_obs_of_frame lm_id t <$> prev_opt_flow_res !! t)
           (asc (dom prev_opt_flow_res))).

(** The test on a triangulated point. *)
Definition triangulation_ok (p : Vector4d) : bool :=
  (isFinite (v4_x p) && isFinite (v4_y p) && isFinite (v4_z p)
   && isFinite (v4_w p))
  && dgt (v4_w p) (DFin 0)
  && dlt (v4_w p) (DFin 3).

(** What happens to one candidate pair. *)
Inductive candidate_result : Type :=
  | SkipUnproject
  | SkipBaseline
  | Rejected (p : Vector4d)
  | Accepted (p : Vector4d).

(** The body of the triangulation loop for the pair of [tcidl] with
    [tcido]. *)
Definition try_candidate (e : KeypointVioEstimator)
    (opt_flow_meas : OpticalFlowResult) (lm_id : Z) (tcidl tcido : TimeCamId)
    : outcome candidate_result :=
  let min_triang_distance2 :=
    dmul (vio_min_triangulation_dist (config e))
      (vio_min_triangulation_dist (config e)) in
  cam0 ← vec_at (observations opt_flow_meas) 0;
  a0 ← map_at cam0 lm_id;
  flow1 ← map_at (prev_opt_flow_res e) (frame_id tcido);
  cam1 ← vec_at (observations flow1) (cam_id tcido);
  a1 ← map_at cam1 lm_id;
  let '(valid1, p0_3d) := unproject (calib e) 0 (translation a0) in
  let '(valid2, p1_3d) := unproject (calib e) (cam_id tcido) (translation a1) in
  if negb valid1 || negb valid2 then mret SkipUnproject
  else
    pose0 ← getPoseStateWithLin (frame_id tcidl) e;
    pose1 ← getPoseStateWithLin (frame_id tcido) e;
    let T_0_1 :=
      rel_cam_pose (calib e) (getPose pose0) (getPose pose1) (cam_id tcido) in
    if dlt (translation_squaredNorm T_0_1) min_triang_distance2
    then mret SkipBaseline
    else
      let p0_triangulated := triangulate p0_3d p1_3d T_0_1 in
      if triangulation_ok p0_triangulated
      then mret (Accepted p0_triangulated)
      else mret (Rejected p0_triangulated).

(** The triangulation loop over [kp_obs]: it stops at the first accepted
    point. *)
Fixpoint triangulate_loop (e : KeypointVioEstimator)
    (opt_flow_meas : OpticalFlowResult) (lm_id : Z) (tcidl : TimeCamId)
    (kp_obs : list (TimeCamId * KeypointObservation))
    : outcome (option Vector4d) :=
  match kp_obs with
  | [] => mret None
  | kv_obs :: kp_obs' =>
      r ← try_candidate e opt_flow_meas lm_id tcidl kv_obs.1;
      match r with
      | Accepted p => mret (Some p)
      | _ => triangulate_loop e opt_flow_meas lm_id tcidl kp_obs'
      end
  end.

Fixpoint add_observations (kp_obs : list (TimeCamId * KeypointObservation))
    (db : LandmarkDatabase) : outcome LandmarkDatabase :=
  match kp_obs with
  | [] => mret db
  | kv :: kp_obs' =>
      db1 ← addObservation kv.1 kv.2 db; add_observations kp_obs' db1
  end.

(** The body of the loop over [unconnected_obs0]; the result is the
    estimator and [num_points_added]. *)
Definition triangulate_landmark (opt_flow_meas : OpticalFlowResult)
    (lm_id : Z) (acc : KeypointVioEstimator * Z)
    : outcome (KeypointVioEstimator * Z) :=
  let e := acc.1 in
  let tcidl : TimeCamId := (of_t_ns opt_flow_meas, 0) in
  let kp_obs := collect_kp_obs lm_id (prev_opt_flow_res e) in
  r ← triangulate_loop e opt_flow_meas lm_id tcidl kp_obs;
  match r with
  | Some p =>
      let kpt_pos :=
        mkKeypointPosition tcidl (stereographic_project p) (v4_w p) in
      db ← add_observations kp_obs (addLandmark lm_id kpt_pos (lmdb e));
      mret (set_lmdb db e, acc.2 + 1)
  | None => mret acc
  end.

Fixpoint triangulate_landmarks (opt_flow_meas : OpticalFlowResult)
    (lm_ids : list Z) (acc : KeypointVioEstimator * Z)
    : outcome (KeypointVioEstimator * Z) :=
  match lm_ids with
  | [] => mret acc
  | lm_id :: lm_ids' =>
      acc1 ← triangulate_landmark opt_flow_meas lm_id acc;
      triangulate_landmarks opt_flow_meas lm_ids' acc1
  end.

(** The [if (take_kf)] block. *)
Definition keyframe_step (opt_flow_meas : OpticalFlowResult)
    (unconnected : gset Z) (e : KeypointVioEstimator)
    : outcome KeypointVioEstimator :=
  if take_kf e then
    let e1 :=
      set_kf_ids ({[last_state_t_ns e]} ∪ kf_ids e)
        (set_frames_after_kf 0 (set_take_kf false e)) in
    '(e2, num_points_added) ←
      triangulate_landmarks opt_flow_meas (elements unconnected) (e1, 0);
    mret (set_num_points_kf
            (<[of_t_ns opt_flow_meas := num_points_added]> (num_points_kf e2))
            e2)
  else mret (set_frames_after_kf (frames_after_kf e + 1) e).

(** [measure] up to the test [if (take_kf)]: state propagation, data
    association and the keyframe decision. *)
Definition measure_decide (opt_flow_meas : OpticalFlowResult)
    (meas : option IntegratedImuMeasurement) (e : KeypointVioEstimator)
    : outcome (KeypointVioEstimator * Association) :=
  let t := of_t_ns opt_flow_meas in
  e1 ← propagate_state t meas e;
  let e2 :=
    set_prev_opt_flow_res (<[t := opt_flow_meas]> (prev_opt_flow_res e1)) e1 in
  a ← associate_cams t 0 (observations opt_flow_meas)
        (mkAssociation (lmdb e2) 0 ∅ ∅);
  let e3 := set_lmdb (assoc_lmdb a) e2 in
  let e4 :=
    if new_kf_condition (config e3) (connected0 a)
         (size (unconnected_obs0 a)) (frames_after_kf e3)
    then set_take_kf true e3 else e3 in
  mret (e4, a).

(** [measure] up to the call of [optimize]: the estimator and the map
    [num_points_connected] handed to [marginalize]. *)
Definition measure_front (opt_flow_meas : OpticalFlowResult)
    (meas : option IntegratedImuMeasurement) (e : KeypointVioEstimator)
    : outcome (KeypointVioEstimator * gmap Z Z) :=
  '(e4, a) ← measure_decide opt_flow_meas meas e;
  e5 ← keyframe_step opt_flow_meas (unconnected_obs0 a) e4;
  mret (e5, num_points_connected a).

(** The pushes to the state and visualisation queues that end [measure]
    do not write to the estimator and are left out. *)
Definition measure (opt_flow_meas : OpticalFlowResult)
    (meas : option IntegratedImuMeasurement) (e : KeypointVioEstimator)
    : outcome KeypointVioEstimator :=
  '(e1, num_points_connected) ← measure_front opt_flow_meas meas e;
  e2 ← optimize e1;
  marginalize num_points_connected e2.

End Measure.

(** ** Construction *)

Section Construction.
Context `{Kernels}.

(** The constructor.  It leaves [last_state_t_ns] unset; [initialize]
    assigns it before the first use. *)
Definition KeypointVioEstimator_new (g : Vec3) (calib : Calib)
    (config : VioConfig) : KeypointVioEstimator :=
  mkKeypointVioEstimator
    true 0 g calib config
    (vio_lm_lambda_min config) (vio_lm_lambda_min config)
    (vio_lm_lambda_max config) (DFin 2)
    (prior_H_init config) prior_b_init AbsOrderMap_empty
    (to_size_t (vio_max_states config)) (to_size_t (vio_max_kfs config))
    false 0 ∅ ∅ ∅ ∅ ∅ ∅ (mkLandmarkDatabase ∅ ∅) None.

(** [initialize(t_ns, T_w_i, vel_w_i, bg, ba)], without the start of the
    processing thread. *)
Definition initialize (t : Z) (T : SE3) (vel bg ba : Vec3)
    (e : KeypointVioEstimator) : KeypointVioEstimator :=
  let s := mkPoseVelBiasState t T vel bg ba in
  set_marg_order (mkAbsOrderMap {[t := (0, POSE_VEL_BIAS_SIZE)]}
                    POSE_VEL_BIAS_SIZE 1)
    (set_frame_states
       (<[t := mkPoseVelBiasStateWithLin true s s]> (frame_states e))
    (set_imu_meas
       (<[t := mkIntegratedImuMeasurement t 0 (preint_init bg ba)]>
          (imu_meas e))
    (set_last_state_t_ns t e))).

End Construction.

(** ** A small instance of the kernels

    One-dimensional poses and exact arithmetic, to run the bookkeeping on
    concrete windows.  A matrix is represented by its dimension. *)

#[local] Instance bench_numerics : Numerics := {|
  SE3 := Z; Vec3 := unit; Vec2 := Z; Dir := unit; Bearing := Z; Affine := Z;
  Preint := unit; MatX := Z; VecX := unit; Accum := Z; Calib := unit;
  translation := λ a, a;
  unproject := λ _ _ p, (true, p);
  rel_cam_pose := λ _ p0 p1 cam, p1 - p0 + cam;
  translation_squaredNorm := λ T, of_int (T * T);
  triangulate := λ _ _ _, mkVector4d (DFin 0) (DFin 0) (DFin 1) (DFin (1 # 2));
  stereographic_project := λ _, tt;
  kf_spread_score := λ p _ p_last, of_int (Z.abs (p - p_last));
|}.

#[local] Instance bench_kernels : Kernels := {|
  predictState := λ _ s _, s;
  marg_linearize := λ _ aom _, total_size aom;
  getH := λ a, a;
  getB := λ _, tt;
  marginalizeHelper := λ _ _ keep _, (Z.of_nat (size keep), tt);
  cols := λ h, h;
  computeDelta := λ _ _ _, tt;
  sub_mul := λ _ _ _, tt;
  opt_linearize := λ _ aom, total_size aom;
  lin_errors := λ _ _,
    mkErrorTerms (DFin 1) (DFin 0) (DFin 0) (DFin 0) (DFin 0);
  compute_errors := λ _ _,
    mkErrorTerms (DFin 1) (DFin 0) (DFin 0) (DFin 0) (DFin 0);
  Hdiagonal := λ _, [];
  solve := λ _ _, tt;
  max_abs_coeff := λ _, DFin 0;
  applyInc_pose := λ p _ _, p;
  applyInc_state := λ s _ _, s;
  update_point := λ _ _ _ _ kp, (dir kp, inv_dist kp);
  is_outlier := λ _ _ _ _ _, false;
  default_state :=
    mkPoseVelBiasStateWithLin false (mkPoseVelBiasState 0 0 tt tt tt)
      (mkPoseVelBiasState 0 0 tt tt tt);
  prior_H_init := λ _, POSE_VEL_BIAS_SIZE;
  prior_b_init := tt;
  preint_init := λ _ _, tt;
|}.

(** A configuration with a window of three states and two keyframes. *)
Definition bench_config : VioConfig :=
  mkVioConfig (DFin (1 # 1000000)) (DFin 100) 3 2 1 (DFin (7 # 10)) 1
    (DFin (1 # 10)) 0 (DFin 3) true.

(** The window of the default configuration: three states, seven
    keyframes, and more than five frames between keyframes. *)
Definition bench_config_default : VioConfig :=
  mkVioConfig (DFin (1 # 1000000)) (DFin 100) 3 7 7 (DFin (7 # 10)) 5
    (DFin (1 # 10)) 2 (DFin 3) true.

(** The same with room for three keyframes. *)
Definition bench_config_kfs3 : VioConfig :=
  mkVioConfig (DFin (1 # 1000000)) (DFin 100) 3 3 1 (DFin (7 # 10)) 1
    (DFin (1 # 10)) 0 (DFin 3) true.

(** [vio_max_kfs = 0] and at least six frames between keyframes. *)
Definition bench_config_kfs0 : VioConfig :=
  mkVioConfig (DFin (1 # 1000000)) (DFin 100) 3 0 1 (DFin (7 # 10)) 5
    (DFin (1 # 10)) 0 (DFin 3) true.

(** A frame at time [t]; [cams] lists the keypoints seen by each camera. *)
Definition bench_flow (t : Z) (cams : list (list Z)) : OpticalFlowResult :=
  mkOpticalFlowResult t
    ((λ ids : list Z, list_to_map ((λ i, (i, 0)) <$> ids)) <$> cams).

Definition bench_meas (t_prev t : Z) : option IntegratedImuMeasurement :=
  Some (mkIntegratedImuMeasurement t_prev (t - t_prev) tt).

Definition bench_start (cfg : VioConfig) : KeypointVioEstimator :=
  initialize 1 0 tt tt tt (KeypointVioEstimator_new tt tt cfg).

(** The call of [measure] for frame [t] of a sequence 1, 2, ...: the first
    frame comes without preintegration, the others with the one from the
    frame before. *)
Definition bench_measure (t : Z) (cams : list (list Z))
    (e : KeypointVioEstimator) : outcome KeypointVioEstimator :=
  measure (bench_flow t cams)
    (if decide (t = 1) then None else bench_meas (t - 1) t) e.

Fixpoint bench_run (frames : Z → list (list Z)) (n : nat) (cfg : VioConfig)
    : outcome KeypointVioEstimator :=
  match n with
  | O => mret (bench_start cfg)
  | S n' =>
      e ← bench_run frames n' cfg;
      bench_measure (Z.of_nat n) (frames (Z.of_nat n)) e
  end.

(** Every frame sees, in camera 0, one keypoint never seen before. *)
Definition fresh_frames (t : Z) : list (list Z) := [[100 + t]].

(** Frame 1 sees the keypoints 101 to 110 in both cameras; every later
    frame sees 101 to 105 and five new keypoints in camera 0. *)
Definition tracked_frames (t : Z) : list (list Z) :=
  if decide (t = 1) then [seqZ 101 10; seqZ 101 10]
  else [seqZ 101 5 ++ seqZ (1000 + 10 * t) 5].

(** * Notions used by the statements *)

Section StatementNotions.
Context `{Kernels}.


(** A candidate passes the guard of the covisibility rule. *)
Definition covis_pass (npc npkf : gmap Z Z) (k : Z) : Prop :=
  ∃ t, covis_eval npc npkf k = Ok t ∧ covis_holds t = true.

(** A candidate is examined by the covisibility rule and kept. *)
Definition covis_keep (npc npkf : gmap Z Z) (k : Z) : Prop :=
  ∃ t, covis_eval npc npkf k = Ok t ∧ covis_holds t = false.


(** The covisibility rule in the words of the specification: the guard
    compares the fraction [num_points_connected[k] / num_points_kf[k]] with
    0.05, and the rule picks the oldest keyframe, the two newest excluded,
    that has no entry or whose fraction is below. *)
Definition covis_holds_as_specified (npc npkf : gmap Z Z) (k : Z) : bool :=
  match npc !! k, npkf !! k with
  | None, _ => true
  | Some c, Some d => Qltb (inject_Z c / inject_Z d) (5 # 100)
  | Some _, None => false
  end.

Definition covis_rule_as_specified (npc npkf : gmap Z Z) (ids : list Z)
    : option Z :=
  list_find (λ k, covis_holds_as_specified npc npkf k = true)
    (take (length ids - 2) ids) ≫= (λ r, Some r.2).

(** Every entry of [num_points_connected] is the host frame of a landmark
    of the database. *)
Definition connected_to_hosts (a : Association) : Prop :=
  ∀ k, is_Some (num_points_connected a !! k) →
    ∃ id kp, kpts (assoc_lmdb a) !! id = Some kp ∧ frame_id (kf_id kp) = k.

(** C3 as the specification words it: at the test [if (take_kf)] the flag
    is set exactly when the ratio and the frame count pass their
    thresholds. *)
Definition promoted_iff_condition (flow : OpticalFlowResult)
    (meas : option IntegratedImuMeasurement) (e : KeypointVioEstimator)
    : Prop :=
  ∀ e4 a, measure_decide flow meas e = Ok (e4, a) →
    (take_kf e4 = true
     ↔ new_kf_condition (config e) (connected0 a) (size (unconnected_obs0 a))
         (frames_after_kf e) = true).


(** The components of a triangulated point are finite and its inverse
    distance lies strictly between 0 and 3. *)
Definition finite_in_range (p : Vector4d) : Prop :=
  ∃ x y z w : Q,
    p = mkVector4d (DFin x) (DFin y) (DFin z) (DFin w)
    ∧ (0 < w)%Q ∧ (w < 3)%Q.

(** The two keypoints of a candidate pair: [a0] is the keypoint [lm_id]
    in camera 0 of the frame, [a1] the one in the image [tcido] of the
    stored optical flow results. *)
Definition candidate_inputs (e : KeypointVioEstimator)
    (flow : OpticalFlowResult) (lm_id : Z) (tcido : TimeCamId)
    (a0 a1 : Affine) : Prop :=
  ∃ cam0 flow1 cam1,
    observations flow !! 0%nat = Some cam0
    ∧ cam0 !! lm_id = Some a0
    ∧ prev_opt_flow_res e !! frame_id tcido = Some flow1
    ∧ 0 ≤ cam_id tcido
    ∧ observations flow1 !! Z.to_nat (cam_id tcido) = Some cam1
    ∧ cam1 !! lm_id = Some a1.

(** The relative pose [T_0_1] of a candidate pair and the point
    triangulated from its two bearings. *)
Definition candidate_T_0_1 (e : KeypointVioEstimator) (tcido : TimeCamId)
    (pose0 pose1 : PoseStateWithLin) : SE3 :=
  rel_cam_pose (calib e) (getPose pose0) (getPose pose1) (cam_id tcido).

Definition candidate_point (e : KeypointVioEstimator) (tcido : TimeCamId)
    (a0 a1 : Affine) (pose0 pose1 : PoseStateWithLin) : Vector4d :=
  triangulate (unproject (calib e) 0 (translation a0)).2
    (unproject (calib e) (cam_id tcido) (translation a1)).2
    (candidate_T_0_1 e tcido pose0 pose1).

(** The baseline of the pair is below [vio_min_triangulation_dist]. *)
Definition baseline_short (e : KeypointVioEstimator) (tcido : TimeCamId)
    (pose0 pose1 : PoseStateWithLin) : bool :=
  dlt (translation_squaredNorm (candidate_T_0_1 e tcido pose0 pose1))
    (dmul (vio_min_triangulation_dist (config e))
       (vio_min_triangulation_dist (config e))).

(** Both bearings of the pair unproject. *)
Definition bearings_valid (e : KeypointVioEstimator) (tcido : TimeCamId)
    (a0 a1 : Affine) : bool :=
  (unproject (calib e) 0 (translation a0)).1
  && (unproject (calib e) (cam_id tcido) (translation a1)).1.

(** The pair [tcidl], [tcido] yields the point [p]: the keypoints and the
    poses are found, both bearings unproject, the baseline is long enough,
    and [p], the point triangulated from them, has finite components and an
    inverse distance strictly between 0 and 3. *)
Definition pair_triangulates (e : KeypointVioEstimator)
    (flow : OpticalFlowResult) (lm_id : Z) (tcidl tcido : TimeCamId)
    (p : Vector4d) : Prop :=
  ∃ a0 a1 pose0 pose1,
    candidate_inputs e flow lm_id tcido a0 a1
    ∧ getPoseStateWithLin (frame_id tcidl) e = Ok pose0
    ∧ getPoseStateWithLin (frame_id tcido) e = Ok pose1
    ∧ bearings_valid e tcido a0 a1 = true
    ∧ baseline_short e tcido pose0 pose1 = false
    ∧ p = candidate_point e tcido a0 a1 pose0 pose1
    ∧ finite_in_range p.

(** The position a landmark gets from the point [p] triangulated in
    camera 0 of the frame at [t]. *)
Definition landmark_at (t : Z) (p : Vector4d) : KeypointPosition :=
  mkKeypointPosition (t, 0) (stereographic_project p) (v4_w p).

(** A candidate pair is examined without being accepted. *)
Definition candidate_passed_over (e : KeypointVioEstimator)
    (flow : OpticalFlowResult) (lm_id : Z) (tcidl tcido : TimeCamId) : Prop :=
  ∃ r, try_candidate e flow lm_id tcidl tcido = Ok r ∧ ∀ p, r ≠ Accepted p.

(** The damping parameters are finite, with
    [0 <= min_lambda <= lambda <= max_lambda] and [2 <= lambda_vee]. *)
Definition lm_params_ok (e : KeypointVioEstimator) : Prop :=
  ∃ l lo hi v : Q,
    lambda e = DFin l ∧ min_lambda e = DFin lo ∧ max_lambda e = DFin hi
    ∧ lambda_vee e = DFin v
    ∧ (0 <= lo)%Q ∧ (lo <= l)%Q ∧ (l <= hi)%Q ∧ (2 <= v)%Q.

(** The total error recomputed in a damping trial, after the increment
    was applied. *)
Definition lm_after_error (aom : AbsOrderMap) (accum : Accum)
    (e : KeypointVioEstimator) : double :=
  after_error_total
    (compute_errors
       (apply_inc aom accum
          (solve accum (dampen (Hdiagonal accum) (lambda e) (min_lambda e)))
          e) aom).

(** C2 as the specification words it, for one damping trial: an accepted
    step strictly decreases the total error; a rejected one restores the
    variables and strictly increases [lambda]. *)
Definition lm_trial_as_specified (aom : AbsOrderMap) (accum : Accum)
    (error_before : double) (e : KeypointVioEstimator) : Prop :=
  let '(step, _, e') := lm_trial aom accum error_before e in
  (step = true →
   dlt (lm_after_error aom accum e) error_before = true
   ∧ lambda e' = dmax (min_lambda e) (ddiv (lambda e) (DFin 3))
   ∧ lambda_vee e' = DFin 2)
  ∧ (step = false →
     frame_poses e' = frame_poses e ∧ frame_states e' = frame_states e
     ∧ lmdb e' = lmdb e
     ∧ dlt (lambda e) (lambda e') = true
     ∧ lambda e' = dmin (max_lambda e) (dmul (lambda_vee e) (lambda e))
     ∧ lambda_vee e' = dmul (lambda_vee e) (DFin 2))
  ∧ dlt (lambda e') (min_lambda e) = false
  ∧ dlt (max_lambda e) (lambda e') = false.

(** What [optimize] leaves alone: the keyframe set, the counts, the bounds
    and the keys of the window; landmarks may go but keep their host. *)
Definition opt_stable (e e' : KeypointVioEstimator) : Prop :=
  kf_ids e' = kf_ids e
  ∧ num_points_kf e' = num_points_kf e
  ∧ max_kfs e' = max_kfs e
  ∧ max_states e' = max_states e
  ∧ config e' = config e
  ∧ min_lambda e' = min_lambda e
  ∧ max_lambda e' = max_lambda e
  ∧ dom (frame_states e') = dom (frame_states e)
  ∧ dom (frame_poses e') = dom (frame_poses e)
  ∧ take_kf e' = take_kf e
  ∧ frames_after_kf e' = frames_after_kf e
  ∧ last_state_t_ns e' = last_state_t_ns e
  ∧ ∀ id kp', kpts (lmdb e') !! id = Some kp' →
      ∃ kp, kpts (lmdb e) !! id = Some kp ∧ kf_id kp = kf_id kp'.

(** [marginalize] runs its body on [e] and moves at least one keyframe
    out of [frame_states]. *)
Definition demotes_keyframe (e : KeypointVioEstimator) : Prop :=
  (max_kfs e < Z.of_nat (size (frame_poses e))
   ∨ max_states e ≤ Z.of_nat (size (frame_states e)))
  ∧ ∃ sel, marg_select e = Ok sel ∧ states_to_marg_vel_bias sel ≠ ∅.

(** C5 as the specification words it, for one call of [measure]. *)
Definition bounds_after_measure_as_specified (flow : OpticalFlowResult)
    (meas : option IntegratedImuMeasurement) (e : KeypointVioEstimator)
    : Prop :=
  ∀ e', measure flow meas e = Ok e' → opt_started e' = true →
    Z.of_nat (size (kf_ids e')) ≤ max_kfs e'
    ∧ Z.of_nat (size (frame_states e')) ≤ max_states e'.



End StatementNotions.

(** ** Concrete windows used as witnesses *)

(** The first frame of [tracked_frames] and what [measure_front] makes of
    it. *)
Definition bench_first_front : KeypointVioEstimator * gmap Z Z :=
  outcome_get (bench_start bench_config, ∅)
    (measure_front (bench_flow 1 (tracked_frames 1)) None
       (bench_start bench_config)).

(** The window after six frames of [fresh_frames]. *)
Definition bench_after_six : KeypointVioEstimator :=
  outcome_get (bench_start bench_config)
    (bench_run fresh_frames 6 bench_config).

(** The window after the first frame of [tracked_frames], and the second
    frame up to the call of [marginalize]. *)
Definition bench_after_one : KeypointVioEstimator :=
  outcome_get (bench_start bench_config)
    (bench_run tracked_frames 1 bench_config).







(** * The processing loop

    [initialize(bg, ba)] starts the worker thread [proc_func], which pops
    optical flow results and IMU samples from two blocking queues and calls
    [measure] for every frame.  What the queues deliver is an input of the
    loop: the IMU queue as the list of its elements, a null pointer being
    [None], and the vision queue as the list of the frames the loop takes
    as [curr_frame].  A pop on a queue that delivers nothing more blocks for
    ever ([Starved]).  The null sentinels pushed to the output queues when
    the loop ends, and the members [finished], [out_vis_queue] and
    [out_state_queue], are left out. *)

Section DriverData.
Context `{Numerics}.

Record ImuData : Type := mkImuData {
  imu_t_ns : Z;
  accel : Vec3;
  gyro : Vec3 }.

End DriverData.

(** How a step of the loop can end without a value. *)
Inductive halt : Set :=
  | Raised (f : fault)   (* an exception or a failed assertion *)
  | NullDeref            (* [data->] on a null sample *)
  | Starved.             (* a pop that blocks for ever *)

Inductive proc (A : Type) : Type :=
  | Go (a : A)
  | Halt (h : halt).
Arguments Go {A} a.
Arguments Halt {A} h.

#[global] Instance proc_ret : MRet proc := λ A a, Go a.
#[global] Instance proc_bind : MBind proc := λ A B k m,
  match m with
  | Go a => k a
  | Halt h => Halt h
  end.

(** A call that can throw, inside the loop. *)
Definition raising {A} (o : outcome A) : proc A :=
  match o with
  | Ok a => Go a
  | Fault f => Halt (Raised f)
  end.

(** Dereferencing a sample pointer. *)
Definition deref {A} (p : option A) : proc A :=
  match p with
  | Some x => Go x
  | None => Halt NullDeref
  end.

Class DriverKernels `{Kernels} : Type := {
  (* [calib.calib_accel_bias.getCalibrated], [calib.calib_gyro_bias.getCalibrated] *)
  getCalibrated_accel : Calib → Vec3 → Vec3;
  getCalibrated_gyro : Calib → Vec3 → Vec3;
  (* [vel_w_i_init.setZero()] *)
  Vec3_zero : Vec3;
  (* [T_w_i_init.setQuaternion(Quaterniond::FromTwoVectors(accel, UnitZ()))] *)
  setQuaternion_FromTwoVectors : SE3 → Vec3 → SE3;
  (* [meas->integrate(data, accel_cov, gyro_cov)], the covariances being
     those of the calibration *)
  integrate :
    Calib → IntegratedImuMeasurement → ImuData →
    outcome IntegratedImuMeasurement;
}.

Section Driver.
Context `{DriverKernels}.

(** The local variables of [proc_func] and the members it shares with
    [measure]. *)
Record Worker : Type := mkWorker {
  w_est : KeypointVioEstimator;
  w_initialized : bool;                   (* [initialized] *)
  w_T_w_i_init : SE3;                     (* [T_w_i_init] *)
  w_imu_queue : list (option ImuData);    (* what [imu_data_queue] still delivers *)
  w_data : option ImuData;                (* [data] *)
  w_prev_frame : option OpticalFlowResult;
  w_meas : option IntegratedImuMeasurement }.

(** [data->accel = getCalibrated(data->accel); data->gyro = ...] *)
Definition calibrated (c : Calib) (d : ImuData) : ImuData :=
  mkImuData (imu_t_ns d) (getCalibrated_accel c (accel d))
    (getCalibrated_gyro c (gyro d)).

(** The frames the loop takes as [curr_frame].  [batches] groups the
    elements of the vision queue by what the loop finds queued at each pop:
    with [vio_enforce_realtime] the loop drains the queue and keeps the last
    element, otherwise it takes every element in turn. *)
Definition curr_frames (vio_enforce_realtime : bool)
    (batches : list (list (option OpticalFlowResult)))
    : list (option OpticalFlowResult) :=
  if vio_enforce_realtime then omap list.last batches else concat batches.

(** [while (data->t_ns < t) { pop(data); if (!data) break; calibrate }],
    or with [<=] when [incl]; the queue and [data] when the loop ends. *)
Fixpoint skip_imu (c : Calib) (incl : bool) (t : Z)
    (queue : list (option ImuData)) (data : ImuData)
    : proc (option ImuData * list (option ImuData)) :=
  if (if incl then bool_decide (imu_t_ns data ≤ t)
      else bool_decide (imu_t_ns data < t))
  then
    match queue with
    | [] => Halt Starved
    | None :: queue' => Go (None, queue')
    | Some d :: queue' => skip_imu c incl t queue' (calibrated c d)
    end
  else Go (Some data, queue).

(** [while (data->t_ns <= t) { meas->integrate(data); pop(data);
     if (!data) break; calibrate }] *)
Fixpoint integrate_imu (c : Calib) (t : Z) (queue : list (option ImuData))
    (data : ImuData) (meas : IntegratedImuMeasurement)
    : proc (IntegratedImuMeasurement * option ImuData
            * list (option ImuData)) :=
  if bool_decide (imu_t_ns data ≤ t) then
    match integrate c meas data with
    | Fault f => Halt (Raised f)
    | Ok meas1 =>
        match queue with
        | [] => Halt Starved
        | None :: queue' => Go (meas1, None, queue')
        | Some d :: queue' => integrate_imu c t queue' (calibrated c d) meas1
        end
    end
  else Go (meas, Some data, queue).

(** The block [if (!initialized)]: skip the samples before the frame and
    set up the first state at the time of the frame. *)
Definition init_block (bg ba : Vec3) (curr_frame : OpticalFlowResult)
    (w : Worker) : proc Worker :=
  if w_initialized w then mret w
  else
    let e := w_est w in
    let t := of_t_ns curr_frame in
    data ← deref (w_data w);
    '(data1, queue1) ← skip_imu (calib e) false t (w_imu_queue w) data;
    data2 ← deref data1;
    let T := setQuaternion_FromTwoVectors (w_T_w_i_init w) (accel data2) in
    let s := mkPoseVelBiasState t T Vec3_zero bg ba in
    let e1 :=
      set_marg_order
        (mkAbsOrderMap
           (<[t := (0, POSE_VEL_BIAS_SIZE)]> (abs_order_map (marg_order e)))
           POSE_VEL_BIAS_SIZE 1)
        (set_frame_states
           (<[t := mkPoseVelBiasStateWithLin true s s]> (frame_states e))
        (set_imu_meas
           (<[t := mkIntegratedImuMeasurement t 0 (preint_init bg ba)]>
              (imu_meas e))
        (set_last_state_t_ns t e))) in
    mret (mkWorker e1 true T queue1 data1 (w_prev_frame w) (w_meas w)).

(** The block [if (prev_frame)]: preintegrate the samples between the two
    frames.  The flag is false when the block leaves the loop by [break]. *)
Definition preintegrate (curr_frame : OpticalFlowResult) (w : Worker)
    : proc (Worker * bool) :=
  match w_prev_frame w with
  | None => mret (w, true)
  | Some prev_frame =>
      let e := w_est w in
      last_state ← raising (map_at (frame_states e) (last_state_t_ns e));
      let meas0 :=
        mkIntegratedImuMeasurement (of_t_ns prev_frame) 0
          (preint_init (bias_gyro (getState last_state))
             (bias_accel (getState last_state))) in
      data ← deref (w_data w);
      '(data1, queue1) ←
        skip_imu (calib e) true (of_t_ns prev_frame) (w_imu_queue w) data;
      data2 ← deref data1;
      '(meas1, data3, queue2) ←
        integrate_imu (calib e) (of_t_ns curr_frame) queue1 data2 meas0;
      if bool_decide (get_start_t_ns meas1 + get_dt_ns meas1
                      < of_t_ns curr_frame)
      then
        match data3 with
        | None =>
            mret (mkWorker e (w_initialized w) (w_T_w_i_init w) queue2 None
                    (w_prev_frame w) (Some meas1), false)
        | Some d =>
            (* [data->t_ns = curr_frame->t_ns], put back afterwards *)
            meas2 ← raising
                      (integrate (calib e) meas1
                         (mkImuData (of_t_ns curr_frame) (accel d) (gyro d)));
            mret (mkWorker e (w_initialized w) (w_T_w_i_init w) queue2
                    (Some d) (w_prev_frame w) (Some meas2), true)
        end
      else
        mret (mkWorker e (w_initialized w) (w_T_w_i_init w) queue2 data3
                (w_prev_frame w) (Some meas1), true)
  end.

(** One pass of [while (true)] for a frame that is not null. *)
Definition proc_frame (bg ba : Vec3) (curr_frame : OpticalFlowResult)
    (w : Worker) : proc (Worker * bool) :=
  w1 ← init_block bg ba curr_frame w;
  '(w2, go) ← preintegrate curr_frame w1;
  if (go : bool) then
    e' ← raising (measure curr_frame (w_meas w2) (w_est w2));
    mret (mkWorker e' (w_initialized w2) (w_T_w_i_init w2) (w_imu_queue w2)
            (w_data w2) (Some curr_frame) (w_meas w2), true)
  else mret (w2, false).

(** [while (true)] over the frames the vision queue delivers. *)
Fixpoint proc_loop (bg ba : Vec3) (frames : list (option OpticalFlowResult))
    (w : Worker) : proc Worker :=
  match frames with
  | [] => Halt Starved
  | None :: _ => mret w
  | Some curr_frame :: frames' =>
      match proc_frame bg ba curr_frame w with
      | Halt h => Halt h
      | Go (w1, go) => if go then proc_loop bg ba frames' w1 else mret w1
      end
  end.

(** [proc_func], from the first pop of the IMU queue to the end of the
    loop.  [initialized] and [T_w_i_init] are as the caller left them. *)
Definition proc_func (bg ba : Vec3) (vio_enforce_realtime : bool)
    (batches : list (list (option OpticalFlowResult)))
    (imu : list (option ImuData)) (initialized : bool) (T_w_i_init : SE3)
    (e : KeypointVioEstimator) : proc Worker :=
  match imu with
  | [] => Halt Starved
  | data :: imu' =>
      d ← deref data;
      proc_loop bg ba (curr_frames vio_enforce_realtime batches)
        (mkWorker e initialized T_w_i_init imu' (Some (calibrated (calib e) d))
           None None)
  end.

End Driver.

(** The small instance: a sample integrated into a preintegration moves
    its end to the time of the sample. *)
#[local] Instance bench_driver : DriverKernels := {|
  getCalibrated_accel := λ _ a, a;
  getCalibrated_gyro := λ _ w, w;
  Vec3_zero := tt;
  setQuaternion_FromTwoVectors := λ T _, T;
  integrate := λ _ m d,
    if decide (get_start_t_ns m + get_dt_ns m < imu_t_ns d)
    then Ok (mkIntegratedImuMeasurement (get_start_t_ns m)
               (imu_t_ns d - get_start_t_ns m) tt)
    else Fault AssertFail;
|}.

(** IMU samples at the times [ts], then the end of the stream. *)
Definition bench_imu (ts : list Z) : list (option ImuData) :=
  ((λ t, Some (mkImuData t tt tt)) <$> ts) ++ [None].

(** The frames 1 to [n] of [frames], then the end of the stream. *)
Definition bench_batches (frames : Z → list (list Z)) (n : Z)
    : list (list (option OpticalFlowResult)) :=
  ((λ t, [Some (bench_flow t (frames t))]) <$> seqZ 1 n) ++ [[None]].

(** * Notions used by the further properties *)

Section WindowNotions.
Context `{Kernels}.

(** The observations of camera [cam] in a frame; none when the frame has
    no such camera. *)
Definition cam_obs (flow : OpticalFlowResult) (cam : nat) : gmap Z Affine :=
  default ∅ (observations flow !! cam).

End WindowNotions.

(** The first frame of [tracked_frames] up to the keyframe test. *)
Definition bench_first_decide : KeypointVioEstimator * Association :=
  outcome_get (bench_start bench_config, mkAssociation (mkLandmarkDatabase ∅ ∅) 0 ∅ ∅)
    (measure_decide (bench_flow 1 (tracked_frames 1)) None
       (bench_start bench_config)).

(** The second frame of [tracked_frames] up to the keyframe test. *)
Definition bench_second_decide : KeypointVioEstimator * Association :=
  outcome_get (bench_after_one, mkAssociation (mkLandmarkDatabase ∅ ∅) 0 ∅ ∅)
    (measure_decide (bench_flow 2 (tracked_frames 2)) (bench_meas 1 2)
       bench_after_one).

(** A frame in which camera 0 sees nothing, up to the keyframe test. *)
Definition bench_empty_decide : KeypointVioEstimator * Association :=
  outcome_get (bench_after_one, mkAssociation (mkLandmarkDatabase ∅ ∅) 0 ∅ ∅)
    (measure_decide (bench_flow 2 [[]; [101]]) (bench_meas 1 2)
       bench_after_one).

(** The window of four keyframes on which frame 12 of [fresh_frames] runs
    the eviction loop, with the map [num_points_connected] of the frame and
    the frames chosen before the loop. *)
Definition bench_before_eviction : KeypointVioEstimator * gmap Z Z :=
  outcome_get (bench_start bench_config_kfs3, ∅)
    (e ← bench_run fresh_frames 11 bench_config_kfs3;
     '(e1, npc) ← measure_front (bench_flow 12 (fresh_frames 12))
                    (bench_meas 11 12) e;
     e2 ← optimize e1;
     mret (e2, npc)).

Definition bench_eviction_selection : MargSelection :=
  outcome_get (mkMargSelection 0 AbsOrderMap_empty ∅ ∅ ∅)
    (marg_select bench_before_eviction.1).

Definition bench_eviction : gset Z * gset Z * gset Z :=
  outcome_get (∅, ∅, ∅)
    (evict_keyframes (max_kfs bench_before_eviction.1)
       bench_before_eviction.2 (num_points_kf bench_before_eviction.1)
       (frame_poses bench_before_eviction.1)
       (frame_states bench_before_eviction.1)
       (states_to_marg_vel_bias bench_eviction_selection)
       (kf_ids bench_before_eviction.1)
       (sel_poses_to_marg bench_eviction_selection)).

Section EvictionNotions.
Context `{Numerics}.

(** The score computed in one pass of the outer loop of the distance
    rule, for candidate [k]. *)
Definition pass_score (frame_poses : gmap Z PoseStateWithLin)
    (frame_states : gmap Z PoseVelBiasStateWithLin) (ids : list Z)
    (last_kf bound k : Z) : outcome double :=
  p ← map_at frame_poses k;
  ps ← poses_for (S (length ids)) frame_poses ids bound 0;
  st ← map_at frame_states last_kf;
  mret (kf_spread_score (getPose p) ps (T_w_i (getState st))).

(** The score the distance rule gives to candidate [k] among the
    keyframes [ids]. *)
Definition kf_score (frame_poses : gmap Z PoseStateWithLin)
    (frame_states : gmap Z PoseVelBiasStateWithLin) (ids : list Z) (k : Z)
    : outcome double :=
  last_kf ← match list.last ids with
            | Some k => Ok k
            | None => Fault OutOfBounds
            end;
  pass_score frame_poses frame_states ids last_kf
    (to_size_t (Z.of_nat (length ids) - 2)) k.

End EvictionNotions.

Section WindowInvariants.
Context `{Kernels}.

(** What [optimize] has no business with: the prior and its order, the
    preintegrated measurements, the stored optical flow results, the sink
    of marginalisation data, gravity and the calibration. *)
Definition opt_frame (e e' : KeypointVioEstimator) : Prop :=
  marg_order e' = marg_order e
  ∧ marg_H e' = marg_H e
  ∧ marg_b e' = marg_b e
  ∧ imu_meas e' = imu_meas e
  ∧ prev_opt_flow_res e' = prev_opt_flow_res e
  ∧ out_marg_queue e' = out_marg_queue e
  ∧ g e' = g e
  ∧ calib e' = calib e.

(** The window is well formed: the newest state is [last_state_t_ns];
    every pose-only frame is older than every full state; the order of the
    prior lays out the poses in key order and then the oldest state; the
    pose-only frames are keyframes, the keyframes are in the window and
    their optical flow results are kept; optical flow results are kept for
    frames of the window only; and no more than [max_kfs] frames are
    pose-only. *)
Definition window_wf (e : KeypointVioEstimator) : Prop :=
  last_state_t_ns e ∈ dom (frame_states e)
  ∧ (∀ k, k ∈ dom (frame_states e) → k ≤ last_state_t_ns e)
  ∧ (∀ p s, p ∈ dom (frame_poses e) → s ∈ dom (frame_states e) → p < s)
  ∧ (∃ first, head (asc (dom (frame_states e))) = Some first
       ∧ marg_order e = marg_order_of (asc (dom (frame_poses e))) first)
  ∧ dom (frame_poses e) ⊆ kf_ids e
  ∧ kf_ids e ⊆ dom (frame_poses e) ∪ dom (frame_states e)
  ∧ kf_ids e ⊆ dom (prev_opt_flow_res e)
  ∧ dom (prev_opt_flow_res e) ⊆ dom (frame_poses e) ∪ dom (frame_states e)
  ∧ Z.of_nat (size (frame_poses e)) ≤ max_kfs e.

(** The estimators a driver reaches: constructed and initialised, then fed
    frames in time order.  The first frame comes at the time of the initial
    state and without preintegration, every later one is newer than the
    last state and comes with the preintegration since then. *)
Inductive driven : KeypointVioEstimator → Prop :=
  | driven_start g0 calib0 cfg t T vel bg ba :
      driven (initialize t T vel bg ba (KeypointVioEstimator_new g0 calib0 cfg))
  | driven_first e flow e' :
      driven e →
      of_t_ns flow = last_state_t_ns e →
      measure flow None e = Ok e' →
      driven e'
  | driven_next e flow m e' :
      driven e →
      last_state_t_ns e < of_t_ns flow →
      measure flow (Some m) e = Ok e' →
      driven e'.

(** [fed e frames e']: calling [measure] on the frames [frames] in order,
    each with a preintegration, leads from [e] to [e']. *)
Inductive fed
    : KeypointVioEstimator → list OpticalFlowResult → KeypointVioEstimator
      → Prop :=
  | fed_nil e : fed e [] e
  | fed_cons e flow m e1 frames e' :
      measure flow (Some m) e = Ok e1 →
      fed e1 frames e' →
      fed e (flow :: frames) e'.

End WindowInvariants.

(** The order after laying [keys] out from [aom] on, [sz] columns each. *)
Definition aom_lay (sz : Z) (keys : list Z) (aom : AbsOrderMap) : AbsOrderMap :=
  foldl (λ aom k, aom_advance sz (aom_assign k sz aom)) aom keys.

(** Frame 12 of [fresh_frames] up to the call of [optimize]. *)
Definition bench_twelfth_front : KeypointVioEstimator * gmap Z Z :=
  outcome_get (bench_start bench_config_kfs3, ∅)
    (e ← bench_run fresh_frames 11 bench_config_kfs3;
     measure_front (bench_flow 12 (fresh_frames 12)) (bench_meas 11 12) e).

Section OutputNotions.
Context `{Kernels}.

(** The state [measure] hands to [out_state_queue] when the queue is
    attached: [frame_states.at(last_state_t_ns).getState()]. *)
Definition state_for_output (e : KeypointVioEstimator)
    : outcome PoseVelBiasState :=
  p ← map_at (frame_states e) (last_state_t_ns e);
  mret (getState p).

End OutputNotions.

(** The frames of a run of [bench_run] come in time order: frame 1 at the
    time of the initial state, every later one after the last state. *)
Fixpoint bench_in_order (frames : Z → list (list Z)) (n : nat)
    (cfg : VioConfig) : bool :=
  match n with
  | O => true
  | S n' =>
      bench_in_order frames n' cfg
      && match bench_run frames n' cfg with
         | Ok e =>
             if decide (Z.of_nat n = 1)
             then bool_decide (Z.of_nat n = last_state_t_ns e)
             else bool_decide (last_state_t_ns e < Z.of_nat n)
         | Fault _ => false
         end
  end.

(** The window after eleven frames of [fresh_frames]. *)
Definition bench_after_eleven : KeypointVioEstimator :=
  outcome_get (bench_start bench_config_kfs3)
    (bench_run fresh_frames 11 bench_config_kfs3).

(** The window after twelve frames of [fresh_frames]. *)
Definition bench_after_twelve : KeypointVioEstimator :=
  outcome_get (bench_start bench_config_kfs3)
    (bench_run fresh_frames 12 bench_config_kfs3).

(** The same window with a sink attached for the marginalisation data. *)
Definition bench_with_sink : KeypointVioEstimator :=
  set_out_marg_queue (Some []) bench_before_eviction.1.

Section DriverNotions.
Context `{DriverKernels}.

(** The timestamps of the frames a list delivers. *)
Definition stamps (frames : list (option OpticalFlowResult)) : list Z :=
  of_t_ns <$> omap id frames.

(** The samples the worker has before it: the one it holds and, as they
    will be after calibration, those the queue still delivers. *)
Definition imu_stream (w : Worker) (data : ImuData) : list ImuData :=
  data :: (calibrated (calib (w_est w)) <$> omap id (w_imu_queue w)).

(** Integrating a list of samples, in order. *)
Definition integrate_all (c : Calib) (meas : IntegratedImuMeasurement)
    (samples : list ImuData) : outcome IntegratedImuMeasurement :=
  foldl (λ acc s, acc ≫= λ m, integrate c m s) (Ok meas) samples.

(** A sample lies in the interval between two frames, the later end
    included. *)
Definition in_interval (prev_frame curr_frame : OpticalFlowResult)
    (s : ImuData) : Prop :=
  of_t_ns prev_frame < imu_t_ns s ∧ imu_t_ns s ≤ of_t_ns curr_frame.

#[global] Instance in_interval_dec (prev_frame curr_frame : OpticalFlowResult)
    (s : ImuData) : Decision (in_interval prev_frame curr_frame s) :=
  decide (of_t_ns prev_frame < imu_t_ns s ∧ imu_t_ns s ≤ of_t_ns curr_frame).

(** The preintegration the worker starts at [prev_frame]. *)
Definition meas_from (prev_frame : OpticalFlowResult)
    (last_state : PoseVelBiasStateWithLin) : IntegratedImuMeasurement :=
  mkIntegratedImuMeasurement (of_t_ns prev_frame) 0
    (preint_init (bias_gyro (getState last_state))
       (bias_accel (getState last_state))).

End DriverNotions.

(** The worker after three frames of [fresh_frames] and the end of the
    stream, on a fresh estimator. *)
Definition bench_worker_run : proc Worker :=
  proc_func tt tt false (bench_batches fresh_frames 3) (bench_imu (seqZ 1 5))
    false 0 (KeypointVioEstimator_new tt tt bench_config).

Definition bench_worker : Worker :=
  match bench_worker_run with
  | Go w => w
  | Halt _ =>
      mkWorker (KeypointVioEstimator_new tt tt bench_config) false 0 [] None
        None None
  end.

(** A worker that holds the sample of time 2 after frame 3, with samples at
    3, 5, 6, 9 and 11 to come, and what [preintegrate] makes of it for a
    frame at time 8. *)
Definition bench_imu_worker : Worker :=
  mkWorker (w_est bench_worker) true 0 (bench_imu [3; 5; 6; 9; 11])
    (Some (mkImuData 2 tt tt)) (Some (bench_flow 3 (fresh_frames 3))) None.

Definition bench_imu_frame : OpticalFlowResult := bench_flow 8 (fresh_frames 8).

Definition bench_imu_worker_next : Worker :=
  match preintegrate bench_imu_frame bench_imu_worker with
  | Go (w2, _) => w2
  | Halt _ => bench_imu_worker
  end.

(** * Properties *)

Set Warnings "-clear-no-such-hyp".

(** ** Outcomes *)

Lemma bind_Ok {A B} (m : outcome A) (k : A → outcome B) (b : B) :
  m ≫= k = Ok b ↔ ∃ a, m = Ok a ∧ k a = Ok b.
Proof.
  destruct m as [a|f]; simpl.
  - split; [intros Hk; by exists a | intros (a' & Ha & Hk); congruence].
  - split; [done | by intros (a' & Ha & _)].
Qed.

Lemma BASALT_ASSERT_Ok (b : bool) (u : unit) :
  BASALT_ASSERT b = Ok u ↔ b = true.
Proof. destruct b, u; simpl; split; congruence. Qed.

Lemma map_at_Ok {A} (m : gmap Z A) (k : Z) (x : A) :
  map_at m k = Ok x ↔ m !! k = Some x.
Proof. unfold map_at. destruct (m !! k); split; congruence. Qed.

Lemma vec_at_Ok {A} (v : list A) (i : Z) (x : A) :
  vec_at v i = Ok x ↔ 0 ≤ i ∧ v !! Z.to_nat i = Some x.
Proof.
  unfold vec_at. case_decide; [|split; [done | lia]].
  destruct (v !! Z.to_nat i); split.
  - intros [= ->]. done.
  - intros [_ [= ->]]. done.
  - done.
  - intros [_ [=]].
Qed.

(** Inversion of a successful run of monadic code. *)
Ltac inv_ok :=
  repeat match goal with
  | H : _ ≫= _ = Ok _ |- _ => apply bind_Ok in H as (? & ? & H)
  | H : mret _ = Ok _ |- _ => injection H as H
  | H : Ok _ = Ok _ |- _ => injection H as H
  | H : Fault _ = Ok _ |- _ => discriminate H
  | H : BASALT_ASSERT _ = Ok _ |- _ => apply BASALT_ASSERT_Ok in H
  | H : map_at _ _ = Ok _ |- _ => apply map_at_Ok in H
  end.

(** ** Ordered iteration *)

Lemma asc_elem_of (s : gset Z) (k : Z) : k ∈ asc s ↔ k ∈ s.
Proof. unfold asc. by rewrite merge_sort_Permutation, elem_of_elements. Qed.

Lemma asc_length (s : gset Z) : length (asc s) = size s.
Proof. unfold asc. by rewrite merge_sort_Permutation. Qed.

Lemma asc_NoDup (s : gset Z) : NoDup (asc s).
Proof. unfold asc. rewrite merge_sort_Permutation. apply NoDup_elements. Qed.

Lemma asc_sorted (s : gset Z) : StronglySorted Z.le (asc s).
Proof. unfold asc. apply (StronglySorted_merge_sort _). Qed.

(** Keys come out strictly increasing. *)
Lemma asc_lookup_lt (s : gset Z) (i j : nat) (a b : Z) :
  asc s !! i = Some a → asc s !! j = Some b → (i < j)%nat → a < b.
Proof.
  intros Hi Hj Hlt.
  assert (a ≤ b).
  { pose proof (asc_sorted s) as Hs.
    revert i j Hi Hj Hlt. induction Hs as [|x l Hs IH Hx]; intros i j Hi Hj Hlt.
    - done.
    - destruct j as [|j]; [lia|]. destruct i as [|i]; simplify_eq/=.
      + rewrite list.Forall_forall in Hx. apply Hx. by eapply list_elem_of_lookup_2.
      + eapply IH; eauto. lia. }
  assert (a ≠ b); [|lia].
  intros ->. pose proof (asc_NoDup s) as Hnd.
  pose proof (NoDup_lookup _ _ _ _ Hnd Hi Hj). lia.
Qed.

(** ** The relinearised observations *)

Section ObsToLin.
Context `{Kernels}.

#[local] Abbreviation ObsMap :=
  (gmap TimeCamId (gmap TimeCamId (list KeypointObservation))).





End ObsToLin.

(** ** [marginalize] within bounds *)

Section MarginalizeNoop.
Context `{Kernels}.

(** C6.  With the optimiser not yet started, or with the window within its
    bounds, [marginalize] returns the estimator as it was: the prior
    ([marg_H], [marg_b], [marg_order]), [frame_states], [frame_poses],
    [kf_ids], the landmark database and every other member. *)
Theorem marginalize_within_bounds_is_noop (num_points_connected : gmap Z Z)
    (e : KeypointVioEstimator) :
  opt_started e = false
  ∨ (Z.of_nat (size (frame_poses e)) ≤ max_kfs e
     ∧ Z.of_nat (size (frame_states e)) < max_states e) →
  marginalize num_points_connected e = Ok e.
Proof.
  intros [Hoff | [Hposes Hstates]]; unfold marginalize.
  - by rewrite Hoff.
  - destruct (opt_started e); simpl; [|done].
    rewrite decide_False; [done | lia].
Qed.

End MarginalizeNoop.

Lemma marginalize_within_bounds_is_noop_witness :
  marginalize (∅ : gmap Z Z) (set_opt_started true (bench_start bench_config))
  = Ok (set_opt_started true (bench_start bench_config)).
Proof.
  apply (marginalize_within_bounds_is_noop
           ∅ (set_opt_started true (bench_start bench_config))).
  right. vm_compute. split; [intros [=] | reflexivity].
Defined.

(** ** The covisibility rule *)

Section CovisibilityRule.
Context `{Numerics}.

Lemma covis_holds_quot (q : Z) : covis_holds (CovisQuot q) = true ↔ q ≤ 0.
Proof.
  unfold covis_holds, of_int, dlt, Qltb. rewrite negb_true_iff.
  rewrite <- not_true_iff_false, Qle_bool_iff.
  unfold Qle. simpl. lia.
Qed.

(** What a run of the loop from index [i] returns: the first candidate
    that passes, every one before it being kept, or [-1] after all
    candidates were kept. *)
Lemma covis_for_Ok (fuel : nat) (npc npkf : gmap Z Z) (ids : list Z)
    (bound i r : Z) :
  0 ≤ i →
  covis_for fuel npc npkf ids bound i = Ok r →
  (r = -1 ∧ ∀ j, i ≤ j < bound →
     ∃ k, ids !! Z.to_nat j = Some k ∧ covis_keep npc npkf k)
  ∨ (∃ j, i ≤ j < bound ∧ ids !! Z.to_nat j = Some r
       ∧ covis_pass npc npkf r
       ∧ ∀ j', i ≤ j' < j →
           ∃ k, ids !! Z.to_nat j' = Some k ∧ covis_keep npc npkf k).
Proof.
  revert i. induction fuel as [|fuel IH]; intros i Hi Hrun; [done|].
  simpl in Hrun. case_decide as Hlt.
  - apply bind_Ok in Hrun as (k & Hk & Hrun).
    apply vec_at_Ok in Hk as [_ Hk].
    apply bind_Ok in Hrun as (t & Ht & Hrun).
    destruct (covis_holds t) eqn:Hholds.
    + injection Hrun as <-. right. exists i.
      split; [lia|]. split; [done|]. split; [by exists t|]. lia.
    + assert (covis_keep npc npkf k) as Hkeep by by exists t.
      destruct (IH (i + 1) ltac:(lia) Hrun)
        as [[-> Hall] | (j & Hj & Hr & Hpass & Hbefore)].
      * left. split; [done|]. intros j Hj.
        destruct (decide (j = i)) as [->|]; [by exists k | apply Hall; lia].
      * right. exists j. split; [lia|]. split; [done|]. split; [done|].
        intros j' Hj'.
        destruct (decide (j' = i)) as [->|]; [by exists k | apply Hbefore; lia].
  - injection Hrun as <-. left. split; [done|]. lia.
Qed.

(** The fuel of [covis_rule] is never the reason of a fault: the loop ends
    or faults at the latest on the subscript [ids[length ids]]. *)
Lemma covis_for_fuel (fuel : nat) (npc npkf : gmap Z Z) (ids : list Z)
    (bound i : Z) :
  0 ≤ i ≤ Z.of_nat (length ids) →
  (length ids + 1 ≤ fuel + Z.to_nat i)%nat →
  covis_for fuel npc npkf ids bound i
  = covis_for (S fuel) npc npkf ids bound i.
Proof.
  revert i. induction fuel as [|fuel IH]; intros i Hi Hfuel.
  - lia.
  - change (covis_for (S fuel) npc npkf ids bound i) with
      (if decide (i < bound) then
         k ← vec_at ids i;
         t ← covis_eval npc npkf k;
         if covis_holds t then mret k
         else covis_for fuel npc npkf ids bound (i + 1)
       else mret (-1)).
    change (covis_for (S (S fuel)) npc npkf ids bound i) with
      (if decide (i < bound) then
         k ← vec_at ids i;
         t ← covis_eval npc npkf k;
         if covis_holds t then mret k
         else covis_for (S fuel) npc npkf ids bound (i + 1)
       else mret (-1)).
    case_decide; [|done].
    destruct (vec_at ids i) as [k|] eqn:Hk; [|done]. simpl.
    destruct (covis_eval npc npkf k) as [t|]; [|done]. simpl.
    destruct (covis_holds t); [done|].
    apply vec_at_Ok in Hk as [_ Hk]. apply lookup_lt_Some in Hk.
    apply IH; lia.
Qed.

End CovisibilityRule.

(** ** The covisibility rule on a tracked sequence *)

(** C1.  On the sequence [tracked_frames], when frame 12 is measured the
    keyframes are 1, 4, 7 and 10; five of the ten landmarks of keyframe 1
    are seen (a fraction of 1/2) and none of keyframe 4.  The code picks
    keyframe 1, because the quotient of the two [int] counts is 0; the rule
    as specified picks keyframe 4. *)
Theorem covisibility_ratio_is_truncated :
  (e ← bench_run tracked_frames 11 bench_config_kfs3;
   '(e1, npc) ← measure_front (bench_flow 12 (tracked_frames 12))
                   (bench_meas 11 12) e;
   e2 ← optimize e1;
   mret (asc (kf_ids e2), npc !! 1, num_points_kf e2 !! 1, npc !! 4,
         covis_rule npc (num_points_kf e2) (asc (kf_ids e2)),
         covis_rule_as_specified npc (num_points_kf e2) (asc (kf_ids e2))))
  = Ok ([1; 4; 7; 10], Some 5, Some 10, None, Ok 1, Some 4).
Proof. vm_compute. reflexivity. Qed.

(** C8.  With [vio_max_kfs = 0], when frame 5 is measured the only keyframe
    is frame 1.  [ids.size() - 2] wraps around, the covisibility loop
    examines [ids[0]], and the eviction loop removes the keyframe: it
    returns the empty [kf_ids] with [kfs_to_marg = poses_to_marg = {1}]. *)
Theorem single_keyframe_is_evicted :
  (e ← bench_run fresh_frames 4 bench_config_kfs0;
   '(e1, npc) ← measure_front (bench_flow 5 (fresh_frames 5))
                   (bench_meas 4 5) e;
   e2 ← optimize e1;
   sel ← marg_select e2;
   mret (asc (kf_ids e2), max_kfs e2,
         select_id_to_marg npc (num_points_kf e2) (frame_poses e2)
           (frame_states e2) (kf_ids e2),
         evict_keyframes (max_kfs e2) npc (num_points_kf e2) (frame_poses e2)
           (frame_states e2) (states_to_marg_vel_bias sel) (kf_ids e2)
           (sel_poses_to_marg sel)))
  = Ok ([1], 0, Ok 1, Ok (∅, {[1]}, {[1]})).
Proof. vm_compute. reflexivity. Qed.

(** ** The eviction loop *)

Section EvictionLoop.
Context `{Numerics}.

Lemma distance_for_Ok (fuel : nat) (frame_poses : gmap Z PoseStateWithLin)
    (frame_states : gmap Z PoseVelBiasStateWithLin) (last_kf : Z)
    (ids : list Z) (bound i : Z) (min_score : double) (min_score_id r : Z) :
  0 ≤ i →
  distance_for fuel frame_poses frame_states last_kf ids bound i min_score
    min_score_id = Ok r →
  r = min_score_id ∨ ∃ j, i ≤ j < bound ∧ ids !! Z.to_nat j = Some r.
Proof.
  revert i min_score min_score_id.
  induction fuel as [|fuel IH]; intros i ms mid Hi Hrun; [done|].
  simpl in Hrun. case_decide as Hlt; [|injection Hrun as <-; by left].
  apply bind_Ok in Hrun as (k & Hk & Hrun).
  apply vec_at_Ok in Hk as [_ Hk].
  apply bind_Ok in Hrun as (p & _ & Hrun).
  apply bind_Ok in Hrun as (ps & _ & Hrun).
  apply bind_Ok in Hrun as (st & _ & Hrun).
  destruct (dlt _ ms);
    (destruct (IH (i + 1) _ _ ltac:(lia) Hrun) as [-> | (j & Hj & Hr)];
     [|right; exists j; split; [lia | done]]).
  - right. exists i. split; [lia | done].
  - by left.
Qed.

(** The keyframe chosen in a pass is [-1] or one of the first
    [ids.size() - 2] entries of [ids], the difference being the one of
    [size_t]. *)
Lemma select_id_to_marg_Ok (npc npkf : gmap Z Z)
    (frame_poses : gmap Z PoseStateWithLin)
    (frame_states : gmap Z PoseVelBiasStateWithLin) (kf_ids : gset Z)
    (r : Z) :
  select_id_to_marg npc npkf frame_poses frame_states kf_ids = Ok r →
  r = -1
  ∨ ∃ j, 0 ≤ j < to_size_t (Z.of_nat (size kf_ids) - 2)
         ∧ asc kf_ids !! Z.to_nat j = Some r.
Proof.
  unfold select_id_to_marg, covis_rule, distance_rule. intros Hrun.
  rewrite asc_length in Hrun.
  apply bind_Ok in Hrun as (id & Hcovis & Hrun).
  case_decide as Hneg.
  - apply bind_Ok in Hrun as (last_kf & _ & Hrun).
    apply distance_for_Ok in Hrun; [|lia]. done.
  - injection Hrun as <-.
    apply covis_for_Ok in Hcovis; [|lia].
    destruct Hcovis as [[-> _] | (j & Hj & Hr & _)].
    + by left.
    + right. by exists j.
Qed.

(** With two keyframes or more, a chosen keyframe of [kf_ids] that is not
    the value [-1] has two newer keyframes above it. *)
Lemma select_spares_two_newest (npc npkf : gmap Z Z)
    (frame_poses : gmap Z PoseStateWithLin)
    (frame_states : gmap Z PoseVelBiasStateWithLin) (kf_ids : gset Z)
    (r : Z) :
  (2 ≤ size kf_ids)%nat →
  select_id_to_marg npc npkf frame_poses frame_states kf_ids = Ok r →
  r ≠ -1 →
  ∃ a b, a ∈ kf_ids ∧ b ∈ kf_ids ∧ r < a ∧ a < b.
Proof.
  intros Hsize Hrun Hr.
  apply select_id_to_marg_Ok in Hrun as [-> | (j & Hj & Hlook)]; [done|].
  assert (to_size_t (Z.of_nat (size kf_ids) - 2) ≤ Z.of_nat (size kf_ids) - 2)
    as Hle.
  { unfold to_size_t, size_t_mod. apply Z.mod_le; lia. }
  destruct (lookup_lt_is_Some_2 (asc kf_ids) (S (Z.to_nat j))) as [a Ha].
  { rewrite asc_length. lia. }
  destruct (lookup_lt_is_Some_2 (asc kf_ids) (S (S (Z.to_nat j)))) as [b Hb].
  { rewrite asc_length. lia. }
  exists a, b. split; [|split; [|split]].
  - apply asc_elem_of. by eapply list_elem_of_lookup_2.
  - apply asc_elem_of. by eapply list_elem_of_lookup_2.
  - eapply asc_lookup_lt; eauto.
  - eapply asc_lookup_lt; eauto.
Qed.

(** With two keyframes, or none, no pass chooses a keyframe. *)
Lemma select_none_of_two (npc npkf : gmap Z Z)
    (frame_poses : gmap Z PoseStateWithLin)
    (frame_states : gmap Z PoseVelBiasStateWithLin) (kf_ids : gset Z)
    (r : Z) :
  size kf_ids = 2%nat →
  select_id_to_marg npc npkf frame_poses frame_states kf_ids = Ok r →
  r = -1.
Proof.
  intros Hsize Hrun.
  apply select_id_to_marg_Ok in Hrun as [-> | (j & Hj & _)]; [done|].
  rewrite Hsize in Hj. vm_compute in Hj. destruct Hj as [Hj1 Hj2].
  destruct j; done.
Qed.

Lemma evict_loop_Ok (fuel : nat) (max_kfs : Z) (npc npkf : gmap Z Z)
    (frame_poses : gmap Z PoseStateWithLin)
    (frame_states : gmap Z PoseVelBiasStateWithLin)
    (vel_bias kf_ids kfs_to_marg poses_to_marg kf_ids' kfs_to_marg'
       poses_to_marg' : gset Z) :
  evict_loop fuel max_kfs npc npkf frame_poses frame_states vel_bias kf_ids
    kfs_to_marg poses_to_marg = Ok (kf_ids', kfs_to_marg', poses_to_marg') →
  kf_ids' ⊆ kf_ids
  ∧ kfs_to_marg' = (kf_ids ∖ kf_ids') ∪ kfs_to_marg
  ∧ poses_to_marg' = (kf_ids ∖ kf_ids') ∪ poses_to_marg
  ∧ ¬ (max_kfs < Z.of_nat (size kf_ids') ∧ vel_bias ≠ ∅)
  ∧ (vel_bias = ∅ → kf_ids' = kf_ids).
Proof.
  revert kf_ids kfs_to_marg poses_to_marg.
  induction fuel as [|fuel IH]; intros kf kfs poses Hrun; simpl in Hrun.
  - case_decide as Hcond; [done|]. injection Hrun as <- <- <-.
    split; [done|]. split; [set_solver|]. split; [set_solver|]. done.
  - case_decide as Hcond.
    + apply bind_Ok in Hrun as (id & _ & Hrun).
      case_decide as Hin; [|done].
      apply IH in Hrun as (Hsub & -> & -> & Hexit & Hsame).
      split; [set_solver|]. split; [|split; [|split; [done|]]].
      * apply set_eq. intros x. set_unfold.
        destruct (decide (x = id)) as [->|]; [|tauto]. specialize (Hsub id).
        set_unfold. tauto.
      * apply set_eq. intros x. set_unfold.
        destruct (decide (x = id)) as [->|]; [|tauto]. specialize (Hsub id).
        set_unfold. tauto.
      * intros Hvb. tauto.
    + injection Hrun as <- <- <-.
      split; [done|]. split; [set_solver|]. split; [set_solver|]. done.
Qed.

(** The fuel of [evict_keyframes] is never the reason of a fault. *)
Lemma evict_loop_fuel (fuel : nat) (max_kfs : Z) (npc npkf : gmap Z Z)
    (frame_poses : gmap Z PoseStateWithLin)
    (frame_states : gmap Z PoseVelBiasStateWithLin)
    (vel_bias kf_ids kfs_to_marg poses_to_marg : gset Z) :
  0 ≤ max_kfs →
  (size kf_ids ≤ fuel)%nat →
  evict_loop fuel max_kfs npc npkf frame_poses frame_states vel_bias kf_ids
    kfs_to_marg poses_to_marg
  = evict_loop (S fuel) max_kfs npc npkf frame_poses frame_states vel_bias
      kf_ids kfs_to_marg poses_to_marg.
Proof.
  intros Hmax. revert kf_ids kfs_to_marg poses_to_marg.
  induction fuel as [|fuel IH]; intros kf kfs poses Hfuel.
  - simpl. rewrite !decide_False by lia. done.
  - change (evict_loop (S (S fuel)) max_kfs npc npkf frame_poses frame_states
              vel_bias kf kfs poses) with
      (if decide (max_kfs < Z.of_nat (size kf) ∧ vel_bias ≠ ∅) then
         id_to_marg ← select_id_to_marg npc npkf frame_poses frame_states kf;
         if decide (id_to_marg ∈ kf) then
           evict_loop (S fuel) max_kfs npc npkf frame_poses frame_states
             vel_bias (kf ∖ {[id_to_marg]}) ({[id_to_marg]} ∪ kfs)
             ({[id_to_marg]} ∪ poses)
         else Fault NoProgress
       else mret (kf, kfs, poses)).
    simpl. case_decide; [|done].
    destruct (select_id_to_marg _ _ _ _ _) as [id|]; [|done]. simpl.
    case_decide as Hin; [|done].
    apply IH. rewrite size_difference by set_solver.
    rewrite size_singleton.
    assert (size kf ≠ 0)%nat; [|lia].
    intros Hz. apply size_empty_inv in Hz. set_solver.
Qed.

End EvictionLoop.

(** ** [measure]: association and keyframe decision *)

Section MeasureFront.
Context `{Kernels}.

Lemma propagate_state_Ok (t : Z) (meas : option IntegratedImuMeasurement)
    (e e1 : KeypointVioEstimator) :
  propagate_state t meas e = Ok e1 →
  (meas = None ∧ e1 = e)
  ∨ (∃ m frame_states1,
       meas = Some m
       ∧ e1 = set_imu_meas (<[get_start_t_ns m := m]> (imu_meas e))
                (set_frame_states frame_states1 (set_last_state_t_ns t e))
       ∧ dom frame_states1 = {[t]} ∪ ({[last_state_t_ns e]} ∪ dom (frame_states e))).
Proof.
  unfold propagate_state. destruct meas as [m|]; intros Hrun.
  - right. inv_ok. subst e1. eexists m, _. split; [done|]. split; [done|].
    rewrite dom_insert_L. f_equal.
    destruct (frame_states e !! last_state_t_ns e) eqn:Hlast.
    + apply elem_of_dom_2 in Hlast. set_solver.
    + by rewrite dom_insert_L.
  - left. by inv_ok.
Qed.

Lemma addObservation_kpts (tcid : TimeCamId) (o : KeypointObservation)
    (db db' : LandmarkDatabase) :
  addObservation tcid o db = Ok db' → kpts db' = kpts db.
Proof.
  unfold addObservation. destruct (kpts db !! kpt_id o); [|done].
  by intros [= <-].
Qed.

Lemma associate_obs_Ok (t cam : Z) (kv : Z * Affine) (a a' : Association) :
  associate_obs t cam kv a = Ok a' →
  kpts (assoc_lmdb a') = kpts (assoc_lmdb a)
  ∧ (connected_to_hosts a → connected_to_hosts a').
Proof.
  unfold associate_obs. destruct (landmarkExists _ _); intros Hrun.
  - inv_ok. subst a'. simpl.
    match goal with Hadd : addObservation _ _ _ = Ok _ |- _ =>
      apply addObservation_kpts in Hadd as Hk end.
    split; [done|]. intros Hinv k. unfold connected_to_hosts in *. simpl.
    rewrite Hk. destruct (decide (k = frame_id (kf_id x))) as [->|Hne].
    + intros _. eauto.
    + rewrite lookup_insert_ne by done. apply Hinv.
  - inv_ok. subst a'. simpl. done.
Qed.

Lemma associate_cam_Ok (t cam : Z) (kvs : list (Z * Affine))
    (a a' : Association) :
  associate_cam t cam kvs a = Ok a' →
  kpts (assoc_lmdb a') = kpts (assoc_lmdb a)
  ∧ (connected_to_hosts a → connected_to_hosts a').
Proof.
  revert a. induction kvs as [|kv kvs IH]; intros a Hrun; simpl in Hrun.
  - by inv_ok; subst.
  - apply bind_Ok in Hrun as (a1 & H1 & Hrun).
    apply associate_obs_Ok in H1 as [Hk1 Hc1].
    apply IH in Hrun as [Hk Hc]. split; [congruence | tauto].
Qed.

Lemma associate_cams_Ok (t cam : Z) (cams : list (gmap Z Affine))
    (a a' : Association) :
  associate_cams t cam cams a = Ok a' →
  kpts (assoc_lmdb a') = kpts (assoc_lmdb a)
  ∧ (connected_to_hosts a → connected_to_hosts a').
Proof.
  revert cam a. induction cams as [|m cams IH]; intros cam a Hrun;
    simpl in Hrun.
  - by inv_ok; subst.
  - apply bind_Ok in Hrun as (a1 & H1 & Hrun).
    apply associate_cam_Ok in H1 as [Hk1 Hc1].
    apply IH in Hrun as [Hk Hc]. split; [congruence | tauto].
Qed.

(** The state at the test [if (take_kf)]. *)
Lemma measure_decide_Ok (flow : OpticalFlowResult)
    (meas : option IntegratedImuMeasurement)
    (e e4 : KeypointVioEstimator) (a : Association) :
  measure_decide flow meas e = Ok (e4, a) →
  ∃ e1,
    propagate_state (of_t_ns flow) meas e = Ok e1
    ∧ e4 = set_take_kf
             (take_kf e
              || new_kf_condition (config e) (connected0 a)
                   (size (unconnected_obs0 a)) (frames_after_kf e))
             (set_lmdb (assoc_lmdb a)
                (set_prev_opt_flow_res
                   (<[of_t_ns flow := flow]> (prev_opt_flow_res e1)) e1))
    ∧ kpts (assoc_lmdb a) = kpts (lmdb e)
    ∧ connected_to_hosts a.
Proof.
  unfold measure_decide. intros Hrun.
  apply bind_Ok in Hrun as (e1 & Hprop & Hrun).
  apply bind_Ok in Hrun as (a' & Hassoc & Hrun).
  injection Hrun as <- <-.
  apply associate_cams_Ok in Hassoc as [Hk Hc]. simpl in Hk.
  exists e1. split; [done|].
  assert (config e1 = config e ∧ frames_after_kf e1 = frames_after_kf e
          ∧ take_kf e1 = take_kf e ∧ lmdb e1 = lmdb e) as (Hcfg & Hfak & Htk & Hdb).
  { apply propagate_state_Ok in Hprop
      as [[_ ->] | (m & fs & _ & -> & _)]; done. }
  split; [|split].
  - simpl. rewrite Hcfg, Hfak, <- Htk.
    destruct (new_kf_condition _ _ _ _); [by rewrite orb_true_r|].
    rewrite orb_false_r. by destruct e1.
  - by rewrite Hk, Hdb.
  - apply Hc. intros k. simpl. rewrite lookup_empty. by intros [? [=]].
Qed.

End MeasureFront.

(** ** [measure]: triangulation and the keyframe block *)

Section Triangulation.
Context `{Kernels}.

Lemma Qltb_true (x y : Q) : Qltb x y = true ↔ (x < y)%Q.
Proof.
  unfold Qltb. rewrite negb_true_iff, <- not_true_iff_false, Qle_bool_iff.
  split; [apply Qnot_le_lt | apply Qlt_not_le].
Qed.

Lemma triangulation_ok_spec (p : Vector4d) :
  triangulation_ok p = true ↔ finite_in_range p.
Proof.
  unfold triangulation_ok, finite_in_range, dgt. destruct p as [x y z w].
  simpl. rewrite !andb_true_iff. split.
  - intros [[[[[Hx Hy] Hz] Hw] Hpos] Hlt].
    destruct x as [x| |], y as [y| |], z as [z| |], w as [w| |]; try done.
    simpl in Hpos, Hlt. apply Qltb_true in Hpos, Hlt. by exists x, y, z, w.
  - intros (x' & y' & z' & w' & [= -> -> -> ->] & Hpos & Hlt). simpl.
    by rewrite !(proj2 (Qltb_true _ _)).
Qed.

Lemma try_candidate_verdict (e : KeypointVioEstimator)
    (flow : OpticalFlowResult) (lm_id : Z) (tcidl tcido : TimeCamId)
    (r : candidate_result) :
  try_candidate e flow lm_id tcidl tcido = Ok r →
  match r with
  | Accepted p => triangulation_ok p = true
  | Rejected p => triangulation_ok p = false
  | SkipBaseline =>
      ∃ pose0 pose1,
        getPoseStateWithLin (frame_id tcidl) e = Ok pose0
        ∧ getPoseStateWithLin (frame_id tcido) e = Ok pose1
        ∧ dlt (translation_squaredNorm
                 (rel_cam_pose (calib e) (getPose pose0) (getPose pose1)
                    (cam_id tcido)))
              (dmul (vio_min_triangulation_dist (config e))
                 (vio_min_triangulation_dist (config e))) = true
  | SkipUnproject => True
  end.
Proof.
  unfold try_candidate. intros Hrun.
  apply bind_Ok in Hrun as (cam0 & _ & Hrun).
  apply bind_Ok in Hrun as (a0 & _ & Hrun).
  apply bind_Ok in Hrun as (flow1 & _ & Hrun).
  apply bind_Ok in Hrun as (cam1 & _ & Hrun).
  apply bind_Ok in Hrun as (a1 & _ & Hrun).
  destruct (unproject _ 0 _) as [valid1 p0].
  destruct (unproject _ (cam_id tcido) _) as [valid2 p1].
  destruct (negb valid1 || negb valid2); [by injection Hrun as <-|].
  apply bind_Ok in Hrun as (pose0 & Hp0 & Hrun).
  apply bind_Ok in Hrun as (pose1 & Hp1 & Hrun).
  destruct (dlt _ _) eqn:Hbase.
  - injection Hrun as <-. by exists pose0, pose1.
  - destruct (triangulation_ok _) eqn:Hok; by injection Hrun as <-.
Qed.

(** A pair whose baseline is too short is never triangulated. *)
Lemma try_candidate_short_baseline (e : KeypointVioEstimator)
    (flow : OpticalFlowResult) (lm_id : Z) (tcidl tcido : TimeCamId)
    (pose0 pose1 : PoseStateWithLin) (r : candidate_result) :
  getPoseStateWithLin (frame_id tcidl) e = Ok pose0 →
  getPoseStateWithLin (frame_id tcido) e = Ok pose1 →
  dlt (translation_squaredNorm
         (rel_cam_pose (calib e) (getPose pose0) (getPose pose1)
            (cam_id tcido)))
      (dmul (vio_min_triangulation_dist (config e))
         (vio_min_triangulation_dist (config e))) = true →
  try_candidate e flow lm_id tcidl tcido = Ok r →
  r = SkipUnproject ∨ r = SkipBaseline.
Proof.
  unfold try_candidate. intros Hp0 Hp1 Hbase Hrun.
  apply bind_Ok in Hrun as (cam0 & _ & Hrun).
  apply bind_Ok in Hrun as (a0 & _ & Hrun).
  apply bind_Ok in Hrun as (flow1 & _ & Hrun).
  apply bind_Ok in Hrun as (cam1 & _ & Hrun).
  apply bind_Ok in Hrun as (a1 & _ & Hrun).
  destruct (unproject _ 0 _) as [valid1 p0].
  destruct (unproject _ (cam_id tcido) _) as [valid2 p1].
  destruct (negb valid1 || negb valid2); [injection Hrun as <-; by left|].
  rewrite Hp0, Hp1 in Hrun. simpl in Hrun. rewrite Hbase in Hrun.
  injection Hrun as <-. by right.
Qed.

(** The loop returns the first accepted point. *)
Lemma triangulate_loop_Some (e : KeypointVioEstimator)
    (flow : OpticalFlowResult) (lm_id : Z) (tcidl : TimeCamId)
    (kp_obs : list (TimeCamId * KeypointObservation)) (p : Vector4d) :
  triangulate_loop e flow lm_id tcidl kp_obs = Ok (Some p) →
  ∃ before c after,
    kp_obs = before ++ c :: after
    ∧ try_candidate e flow lm_id tcidl c.1 = Ok (Accepted p)
    ∧ Forall (λ c', candidate_passed_over e flow lm_id tcidl c'.1) before.
Proof.
  induction kp_obs as [|c kp_obs IH]; intros Hrun; simpl in Hrun; [done|].
  apply bind_Ok in Hrun as (r & Hr & Hrun).
  assert ((∃ p', r = Accepted p') ∨ ∀ p', r ≠ Accepted p') as [[p' ->] | Hno].
  { destruct r; eauto; right; done. }
  - injection Hrun as ->. exists [], c, kp_obs. by repeat split.
  - assert (triangulate_loop e flow lm_id tcidl kp_obs = Ok (Some p)) as Hrest.
    { destruct r; try done. by destruct (Hno p0). }
    destruct (IH Hrest) as (before & c' & after & -> & Hacc & Hbefore).
    exists (c :: before), c', after. split; [done|]. split; [done|].
    constructor; [by exists r | done].
Qed.

Lemma triangulate_loop_None (e : KeypointVioEstimator)
    (flow : OpticalFlowResult) (lm_id : Z) (tcidl : TimeCamId)
    (kp_obs : list (TimeCamId * KeypointObservation)) :
  triangulate_loop e flow lm_id tcidl kp_obs = Ok None →
  Forall (λ c', candidate_passed_over e flow lm_id tcidl c'.1) kp_obs.
Proof.
  induction kp_obs as [|c kp_obs IH]; intros Hrun; simpl in Hrun; [done|].
  apply bind_Ok in Hrun as (r & Hr & Hrun).
  destruct r; try done; (constructor; [by eexists | by apply IH]).
Qed.

Lemma add_observations_kpts (kp_obs : list (TimeCamId * KeypointObservation))
    (db db' : LandmarkDatabase) :
  add_observations kp_obs db = Ok db' → kpts db' = kpts db.
Proof.
  revert db. induction kp_obs as [|kv kp_obs IH]; intros db Hrun;
    simpl in Hrun.
  - by injection Hrun as <-.
  - apply bind_Ok in Hrun as (db1 & H1 & Hrun).
    apply addObservation_kpts in H1. apply IH in Hrun. congruence.
Qed.

(** The body of the loop over [unconnected_obs0]: either nothing changes,
    or the landmark gets its position from the first accepted point and
    [num_points_added] grows by one. *)
Lemma triangulate_landmark_Ok (flow : OpticalFlowResult) (lm_id : Z)
    (e e' : KeypointVioEstimator) (n n' : Z) :
  triangulate_landmark flow lm_id (e, n) = Ok (e', n') →
  let tcidl : TimeCamId := (of_t_ns flow, 0) in
  let kp_obs := collect_kp_obs lm_id (prev_opt_flow_res e) in
  (triangulate_loop e flow lm_id tcidl kp_obs = Ok None ∧ e' = e ∧ n' = n)
  ∨ (∃ p db,
       triangulate_loop e flow lm_id tcidl kp_obs = Ok (Some p)
       ∧ e' = set_lmdb db e ∧ n' = n + 1
       ∧ kpts db
         = <[lm_id := mkKeypointPosition tcidl (stereographic_project p)
                        (v4_w p)]> (kpts (lmdb e))).
Proof.
  unfold triangulate_landmark. simpl. intros Hrun.
  apply bind_Ok in Hrun as (r & Hr & Hrun). destruct r as [p|].
  - apply bind_Ok in Hrun as (db & Hdb & Hrun). injection Hrun as <- <-.
    right. exists p, db. apply add_observations_kpts in Hdb. by repeat split.
  - injection Hrun as <- <-. by left.
Qed.

(** Landmarks after the loop: the old ones, and new ones hosted by the
    frame, of which [num_points_added] counts at least one. *)
Lemma triangulate_landmarks_Ok (flow : OpticalFlowResult) (lm_ids : list Z)
    (e e' : KeypointVioEstimator) (n n' : Z) :
  triangulate_landmarks flow lm_ids (e, n) = Ok (e', n') →
  ∃ db, e' = set_lmdb db e ∧ n ≤ n'
    ∧ ∀ id kp, kpts db !! id = Some kp →
        kpts (lmdb e) !! id = Some kp
        ∨ (kf_id kp = (of_t_ns flow, 0) ∧ n < n').
Proof.
  revert e n. induction lm_ids as [|lm_id lm_ids IH]; intros e n Hrun;
    simpl in Hrun.
  - injection Hrun as <- <-. exists (lmdb e).
    split; [by destruct e|]. split; [lia | by left].
  - apply bind_Ok in Hrun as ([e1 n1] & H1 & Hrun).
    apply IH in Hrun as (db & -> & Hn & Hkp).
    apply triangulate_landmark_Ok in H1
      as [(_ & -> & ->) | (p & db1 & _ & -> & -> & Hdb1)].
    + by exists db.
    + exists db. split; [by destruct e|]. split; [lia|].
      intros id kp Hlook. destruct (Hkp id kp Hlook) as [Hold | [Hhost Hlt]].
      * simpl in Hold. rewrite Hdb1 in Hold.
        destruct (decide (id = lm_id)) as [->|Hne].
        -- rewrite lookup_insert_eq in Hold. injection Hold as <-.
           right. split; [done | lia].
        -- rewrite lookup_insert_ne in Hold by done. by left.
      * right. split; [done | lia].
Qed.

(** The [if (take_kf)] block. *)
Lemma keyframe_step_Ok (flow : OpticalFlowResult) (unconnected : gset Z)
    (e e' : KeypointVioEstimator) :
  keyframe_step flow unconnected e = Ok e' →
  (take_kf e = false
   ∧ e' = set_frames_after_kf (frames_after_kf e + 1) e)
  ∨ (∃ e2 n db,
       take_kf e = true
       ∧ triangulate_landmarks flow (elements unconnected)
           (set_kf_ids ({[last_state_t_ns e]} ∪ kf_ids e)
              (set_frames_after_kf 0 (set_take_kf false e)), 0)
         = Ok (e2, n)
       ∧ e' = set_num_points_kf (<[of_t_ns flow := n]> (num_points_kf e))
                (set_lmdb db
                   (set_kf_ids ({[last_state_t_ns e]} ∪ kf_ids e)
                      (set_frames_after_kf 0 (set_take_kf false e))))
       ∧ 0 ≤ n
       ∧ ∀ id kp, kpts db !! id = Some kp →
           kpts (lmdb e) !! id = Some kp
           ∨ (kf_id kp = (of_t_ns flow, 0) ∧ 0 < n)).
Proof.
  unfold keyframe_step. destruct (take_kf e) eqn:Htk; intros Hrun.
  - right. apply bind_Ok in Hrun as ([e2 n] & Htri & Hrun).
    injection Hrun as <-. exists e2, n.
    apply triangulate_landmarks_Ok in Htri as Hform.
    destruct Hform as (db & -> & Hn & Hkp).
    exists db. by repeat split.
  - left. by injection Hrun as <-.
Qed.

End Triangulation.

Section KeyframeClaims.
Context `{Kernels}.

(** C3, amended.  The frame is promoted to a keyframe exactly when
    [take_kf] was already set on entry or the ratio of camera 0 is under
    [vio_new_kf_keypoints_thresh] with [frames_after_kf] above
    [vio_min_frames_after_kf].  Promotion puts [last_state_t_ns] in
    [kf_ids], resets [frames_after_kf] and records [num_points_kf];
    otherwise [frames_after_kf] is incremented.  Either way [take_kf] is
    clear afterwards, so from the second call on the condition alone
    decides. *)
Theorem keyframe_decision (flow : OpticalFlowResult)
    (meas : option IntegratedImuMeasurement)
    (e e5 : KeypointVioEstimator) (npc : gmap Z Z) :
  measure_front flow meas e = Ok (e5, npc) →
  ∃ e4 a,
    measure_decide flow meas e = Ok (e4, a)
    ∧ take_kf e4
      = take_kf e
        || new_kf_condition (config e) (connected0 a)
             (size (unconnected_obs0 a)) (frames_after_kf e)
    ∧ (take_kf e4 = true →
       kf_ids e5 = {[last_state_t_ns e4]} ∪ kf_ids e
       ∧ frames_after_kf e5 = 0
       ∧ is_Some (num_points_kf e5 !! of_t_ns flow))
    ∧ (take_kf e4 = false →
       kf_ids e5 = kf_ids e
       ∧ frames_after_kf e5 = frames_after_kf e + 1
       ∧ num_points_kf e5 = num_points_kf e)
    ∧ take_kf e5 = false.
Proof.
  unfold measure_front. intros Hrun.
  apply bind_Ok in Hrun as ([e4 a] & Hdec & Hrun).
  apply bind_Ok in Hrun as (e5' & Hstep & Hrun). injection Hrun as <- <-.
  exists e4, a. split; [done|].
  apply measure_decide_Ok in Hdec as (e1 & Hprop & He4 & _ & _).
  assert (kf_ids e1 = kf_ids e ∧ frames_after_kf e1 = frames_after_kf e
          ∧ num_points_kf e1 = num_points_kf e) as (Hkf & Hfak & Hnpk).
  { apply propagate_state_Ok in Hprop
      as [[_ ->] | (m & fs & _ & -> & _)]; done. }
  split; [by rewrite He4|].
  apply keyframe_step_Ok in Hstep
    as [[Htk ->] | (e2 & n & db & Htk & _ & -> & _ & _)].
  - split; [congruence|]. split; [|done]. intros _. subst e4. simpl.
    by rewrite Hkf, Hfak, Hnpk.
  - split; [|split; [congruence | done]]. intros _. subst e4. simpl.
    rewrite Hkf. split; [done|]. split; [done|].
    rewrite lookup_insert_eq. by eexists.
Qed.

End KeyframeClaims.

(** C3 as specified fails on the first frame: with [frames_after_kf = 0]
    the condition is false, and the frame is promoted all the same. *)
Lemma first_frame_promoted_without_condition :
  ¬ promoted_iff_condition (bench_flow 1 (fresh_frames 1)) None
      (bench_start bench_config).
Proof.
  unfold promoted_iff_condition. intros Hclaim.
  assert ((x ← measure_decide (bench_flow 1 (fresh_frames 1)) None
                 (bench_start bench_config);
           mret (take_kf x.1,
                 new_kf_condition (config (bench_start bench_config))
                   (connected0 x.2) (size (unconnected_obs0 x.2))
                   (frames_after_kf (bench_start bench_config))))
          = Ok (true, false)) as Hrun by (vm_compute; reflexivity).
  apply bind_Ok in Hrun as ([e4 a] & Hrun & Hres).
  injection Hres as Htk Hcond. cbn [fst snd] in Htk, Hcond.
  destruct (Hclaim e4 a Hrun) as [Hclaim' _].
  specialize (Hclaim' Htk).
  change (config (bench_start bench_config)) with bench_config in Hclaim'.
  change (frames_after_kf (bench_start bench_config)) with 0 in Hclaim'.
  rewrite Hclaim' in Hcond. discriminate Hcond.
Qed.

Lemma keyframe_decision_witness :
  measure_front (bench_flow 1 (tracked_frames 1)) None
    (bench_start bench_config)
  = Ok (bench_first_front.1, bench_first_front.2)
  ∧ take_kf bench_first_front.1 = false.
Proof.
  assert (measure_front (bench_flow 1 (tracked_frames 1)) None
            (bench_start bench_config)
          = Ok (bench_first_front.1, bench_first_front.2)) as Hrun
    by (vm_compute; reflexivity).
  split; [exact Hrun|].
  destruct (keyframe_decision _ _ _ _ _ Hrun) as (e4 & a & Hdec). apply Hdec.
Defined.

(** ** [optimize] *)

Section OptimizeProps.
Context `{Kernels}.

Lemma opt_stable_refl (e : KeypointVioEstimator) : opt_stable e e.
Proof. unfold opt_stable. repeat split; eauto. Qed.

Lemma opt_stable_trans (e1 e2 e3 : KeypointVioEstimator) :
  opt_stable e1 e2 → opt_stable e2 e3 → opt_stable e1 e3.
Proof.
  unfold opt_stable.
  intros (A1&A2&A3&A4&A5&A6&A7&A8&A9&A10&A11&A12&Hk1)
         (B1&B2&B3&B4&B5&B6&B7&B8&B9&B10&B11&B12&Hk2).
  repeat split; try congruence.
  intros id kp3 Hl3. destruct (Hk2 id kp3 Hl3) as (kp2 & Hl2 & Hh2).
  destruct (Hk1 id kp2 Hl2) as (kp1 & Hl1 & Hh1). exists kp1.
  split; [done | congruence].
Qed.

Lemma dom_imap_Some {A B} (f : Z → A → B) (m : gmap Z A) :
  dom (map_imap (λ k x, Some (f k x)) m) = dom m.
Proof.
  apply set_eq. intros k. rewrite !elem_of_dom, map_lookup_imap.
  destruct (m !! k); simpl; split; intros [? ?]; eauto; done.
Qed.

Lemma apply_inc_stable (aom : AbsOrderMap) (accum : Accum) (inc : VecX)
    (e : KeypointVioEstimator) :
  opt_stable e (apply_inc aom accum inc e)
  ∧ lambda (apply_inc aom accum inc e) = lambda e
  ∧ lambda_vee (apply_inc aom accum inc e) = lambda_vee e
  ∧ opt_started (apply_inc aom accum inc e) = opt_started e.
Proof.
  unfold opt_stable, apply_inc. simpl.
  repeat split; try done; try apply dom_imap_Some.
  intros id kp' Hlook. rewrite map_lookup_imap in Hlook.
  destruct (kpts (lmdb e) !! id) as [kp|]; simplify_eq/=. by exists kp.
Qed.

Lemma filterOutliers_stable (threshold : double) (min_num_obs : Z)
    (e : KeypointVioEstimator) :
  opt_stable e (filterOutliers threshold min_num_obs e)
  ∧ lambda (filterOutliers threshold min_num_obs e) = lambda e
  ∧ lambda_vee (filterOutliers threshold min_num_obs e) = lambda_vee e
  ∧ opt_started (filterOutliers threshold min_num_obs e) = opt_started e.
Proof.
  unfold opt_stable, filterOutliers. simpl. repeat split; try done.
  intros id kp' Hlook. apply map_lookup_filter_Some in Hlook as [Hlook _].
  by exists kp'.
Qed.

(** The parts of a damping trial. *)
Lemma lm_trial_unfold (aom : AbsOrderMap) (accum : Accum)
    (error_before : double) (e : KeypointVioEstimator) :
  let inc := solve accum (dampen (Hdiagonal accum) (lambda e) (min_lambda e)) in
  let e1 := apply_inc aom accum inc e in
  lm_trial aom accum error_before e
  = if dlt (dsub error_before (lm_after_error aom accum e)) (DFin 0) then
      (false, dlt (max_abs_coeff inc) converge_thresh,
       restore e
         (set_lambda_vee (dmul (lambda_vee e) (DFin 2))
            (set_lambda (dmin (max_lambda e) (dmul (lambda_vee e) (lambda e)))
               e1)))
    else
      (true, dlt (max_abs_coeff inc) converge_thresh,
       set_lambda_vee (DFin 2)
         (set_lambda (dmax (min_lambda e) (ddiv (lambda e) (DFin 3))) e1)).
Proof. reflexivity. Qed.

Lemma lm_trial_stable (aom : AbsOrderMap) (accum : Accum)
    (error_before : double) (e : KeypointVioEstimator) :
  opt_stable e (lm_trial aom accum error_before e).2
  ∧ opt_started (lm_trial aom accum error_before e).2 = opt_started e.
Proof.
  rewrite lm_trial_unfold. simpl.
  destruct (apply_inc_stable aom accum
    (solve accum (dampen (Hdiagonal accum) (lambda e) (min_lambda e))) e)
    as (Hst & _ & _ & Hos).
  destruct (dlt _ (DFin 0)); simpl.
  - split; [|done]. unfold opt_stable in *. simpl.
    destruct Hst as (A1&A2&A3&A4&A5&A6&A7&A8&A9&A10&A11&A12&Hk1).
    repeat split; try done. intros id kp' Hlook. by exists kp'.
  - split; [|done]. unfold opt_stable in *. simpl. done.
Qed.

Lemma Qltb_false (x y : Q) : Qltb x y = false ↔ (y <= x)%Q.
Proof.
  unfold Qltb. rewrite negb_false_iff. apply Qle_bool_iff.
Qed.

(** The damping parameters after a trial. *)
Lemma lm_trial_params (aom : AbsOrderMap) (accum : Accum)
    (error_before : double) (e : KeypointVioEstimator) :
  lm_params_ok e → lm_params_ok (lm_trial aom accum error_before e).2.
Proof.
  intros (l & lo & hi & v & Hl & Hlo & Hhi & Hv & Q0 & Q1 & Q2 & Q3).
  rewrite lm_trial_unfold. simpl.
  destruct (dlt _ (DFin 0)); unfold lm_params_ok; simpl;
    rewrite Hl, Hlo, Hhi, ?Hv; simpl.
  - unfold dmin, dlt. destruct (Qltb (v * l) hi) eqn:Hcmp.
    + apply Qltb_true in Hcmp. exists (v * l)%Q, lo, hi, (v * 2)%Q.
      repeat split; try done; try lra; nra.
    + exists hi, lo, hi, (v * 2)%Q. repeat split; try done; lra.
  - unfold dmax, dlt. change (Qis_zero 3) with false. cbn iota.
    assert (l / 3 == l * (1 # 3))%Q as Hdiv by field.
    destruct (Qltb lo (l / 3)) eqn:Hcmp.
    + apply Qltb_true in Hcmp. exists (l / 3)%Q, lo, hi, 2%Q.
      repeat split; try done; try lra.
    + exists lo, lo, hi, 2%Q. repeat split; try done; lra.
Qed.

End OptimizeProps.

Section OptimizeLoops.
Context `{Kernels}.

Lemma lm_params_ok_ext (e e' : KeypointVioEstimator) :
  lambda e' = lambda e → lambda_vee e' = lambda_vee e →
  min_lambda e' = min_lambda e → max_lambda e' = max_lambda e →
  lm_params_ok e → lm_params_ok e'.
Proof.
  unfold lm_params_ok. intros -> -> -> ->. done.
Qed.

Lemma lm_loop_stable (max_iter : nat) (aom : AbsOrderMap) (accum : Accum)
    (error_before : double) (e : KeypointVioEstimator) :
  opt_stable e (lm_loop max_iter aom accum error_before e).2
  ∧ opt_started (lm_loop max_iter aom accum error_before e).2 = opt_started e
  ∧ (lm_params_ok e →
     lm_params_ok (lm_loop max_iter aom accum error_before e).2).
Proof.
  revert e. induction max_iter as [|n IH]; intros e; simpl.
  - split; [apply opt_stable_refl | done].
  - destruct (lm_trial_stable aom accum error_before e) as [Hst Hos].
    pose proof (lm_trial_params aom accum error_before e) as Hpar.
    destruct (lm_trial aom accum error_before e) as [[step converged] e1].
    simpl in *. destruct (step || converged); simpl; [done|].
    destruct (IH e1) as (Hst' & Hos' & Hpar').
    split; [by eapply opt_stable_trans|]. split; [congruence | tauto].
Qed.

Lemma gn_step_stable (aom : AbsOrderMap) (accum : Accum)
    (e : KeypointVioEstimator) :
  opt_stable e (gn_step aom accum e).2
  ∧ opt_started (gn_step aom accum e).2 = opt_started e
  ∧ (lm_params_ok e → lm_params_ok (gn_step aom accum e).2).
Proof.
  unfold gn_step. simpl.
  destruct (apply_inc_stable aom accum
    (solve accum (dampen (Hdiagonal accum) (min_lambda e) (min_lambda e))) e)
    as (Hst & Hl & Hv & Hos).
  split; [done|]. split; [done|].
  apply lm_params_ok_ext; try done; apply Hst.
Qed.

Lemma opt_iterations_S (todo : nat) (iter : Z) (aom : AbsOrderMap)
    (e : KeypointVioEstimator) :
  opt_iterations (S todo) iter aom e
  = let r :=
      if vio_use_lm (config e)
      then lm_loop 10 aom (opt_linearize e aom)
             (error_total (lin_errors e aom)) e
      else gn_step aom (opt_linearize e aom) e in
    let e2 :=
      if decide (iter = vio_filter_iteration (config r.2))
      then filterOutliers (vio_outlier_threshold (config r.2)) 4 r.2
      else r.2 in
    if r.1 then e2 else opt_iterations todo (iter + 1) aom e2.
Proof.
  cbn [opt_iterations].
  by destruct (if vio_use_lm (config e) then _ else _) as [converged e1].
Qed.

Lemma opt_iterations_stable (todo : nat) (iter : Z) (aom : AbsOrderMap)
    (e : KeypointVioEstimator) :
  opt_stable e (opt_iterations todo iter aom e)
  ∧ opt_started (opt_iterations todo iter aom e) = opt_started e
  ∧ (lm_params_ok e → lm_params_ok (opt_iterations todo iter aom e)).
Proof.
  revert iter e. induction todo as [|n IH]; intros iter e.
  - split; [apply opt_stable_refl | done].
  - rewrite opt_iterations_S.
    assert (∃ r : bool * KeypointVioEstimator,
      (if vio_use_lm (config e)
       then lm_loop 10 aom (opt_linearize e aom)
              (error_total (lin_errors e aom)) e
       else gn_step aom (opt_linearize e aom) e) = r
      ∧ opt_stable e r.2 ∧ opt_started r.2 = opt_started e
      ∧ (lm_params_ok e → lm_params_ok r.2)) as (r & -> & Hst & Hos & Hpar).
    { eexists. split; [done|]. destruct (vio_use_lm (config e));
        [apply lm_loop_stable | apply gn_step_stable]. }
    destruct r as [converged e1]. cbn [fst snd] in *. cbv zeta.
    assert (∃ e2,
      (if decide (iter = vio_filter_iteration (config e1))
       then filterOutliers (vio_outlier_threshold (config e1)) 4 e1
       else e1) = e2
      ∧ opt_stable e1 e2 ∧ opt_started e2 = opt_started e1
      ∧ (lm_params_ok e1 → lm_params_ok e2)) as (e2 & -> & Hst2 & Hos2 & Hpar2).
    { eexists. split; [done|]. case_decide.
      - destruct (filterOutliers_stable (vio_outlier_threshold (config e1)) 4
                    e1) as (Hf & Hl & Hv & Ho).
        split; [done|]. split; [done|].
        apply lm_params_ok_ext; try done; apply Hf.
      - split; [apply opt_stable_refl | done]. }
    destruct converged.
    + split; [by eapply opt_stable_trans|]. split; [congruence | tauto].
    + destruct (IH (iter + 1) e2) as (Hst3 & Hos3 & Hpar3).
      split; [eapply opt_stable_trans; [|done]; by eapply opt_stable_trans|].
      split; [congruence | tauto].
Qed.

(** [optimize] keeps the bookkeeping of the window and the damping
    parameters in range; it starts once five states are in the window and
    stays started. *)
Lemma optimize_Ok (e e' : KeypointVioEstimator) :
  optimize e = Ok e' →
  opt_stable e e'
  ∧ opt_started e'
    = opt_started e || bool_decide (4 < Z.of_nat (size (frame_states e)))
  ∧ (lm_params_ok e → lm_params_ok e').
Proof.
  unfold optimize. intros Hrun.
  destruct (opt_started e || bool_decide _) eqn:Hstart.
  - apply bind_Ok in Hrun as (aom0 & _ & Hrun).
    apply bind_Ok in Hrun as (aom & _ & Hrun). injection Hrun as <-.
    destruct (opt_iterations_stable
      (Z.to_nat (vio_max_iterations (config (set_opt_started true e)))) 0 aom
      (set_opt_started true e)) as (Hst & Hos & Hpar).
    split; [|split].
    + eapply opt_stable_trans; [|exact Hst].
      unfold opt_stable. simpl. repeat split; try done.
      intros id kp' Hlook. by exists kp'.
    + transitivity (opt_started (set_opt_started true e)); [exact Hos|done].
    + intros Hok. apply Hpar. revert Hok. by apply lm_params_ok_ext.
  - injection Hrun as <-. split; [apply opt_stable_refl|]. split; [|done].
    apply orb_false_iff in Hstart as [-> _]. done.
Qed.

(** C2, amended.  In every damping trial of the Levenberg-Marquardt branch:
    the step is accepted exactly when the error difference is not negative,
    so the total error does not increase (it may stay equal), and then
    [lambda] becomes [max(min_lambda, lambda / 3)] and [lambda_vee] 2;
    a rejected step restores poses, states and landmarks, sets [lambda] to
    [min(max_lambda, lambda_vee * lambda)], which is not below the old
    value and is above it when [0 < lambda < max_lambda], and doubles
    [lambda_vee]; and [lambda] stays within [min_lambda, max_lambda], over
    the trial and over the whole of [optimize]. *)
Theorem lm_damping_trial (aom : AbsOrderMap) (accum : Accum)
    (error_before : double) (e : KeypointVioEstimator) :
  lm_params_ok e →
  let f_diff := dsub error_before (lm_after_error aom accum e) in
  let step := (lm_trial aom accum error_before e).1.1 in
  let e' := (lm_trial aom accum error_before e).2 in
  step = negb (dlt f_diff (DFin 0))
  ∧ (step = true →
     (∀ b a : Q, error_before = DFin b →
        lm_after_error aom accum e = DFin a → (a <= b)%Q)
     ∧ lambda e' = dmax (min_lambda e) (ddiv (lambda e) (DFin 3))
     ∧ lambda_vee e' = DFin 2)
  ∧ (step = false →
     frame_poses e' = frame_poses e ∧ frame_states e' = frame_states e
     ∧ lmdb e' = lmdb e
     ∧ lambda e' = dmin (max_lambda e) (dmul (lambda_vee e) (lambda e))
     ∧ lambda_vee e' = dmul (lambda_vee e) (DFin 2)
     ∧ dlt (lambda e') (lambda e) = false
     ∧ (dlt (DFin 0) (lambda e) = true →
        dlt (lambda e) (max_lambda e) = true →
        dlt (lambda e) (lambda e') = true))
  ∧ min_lambda e' = min_lambda e ∧ max_lambda e' = max_lambda e
  ∧ lm_params_ok e'
  ∧ (∀ e2, optimize e = Ok e2 → lm_params_ok e2).
Proof.
  intros Hok. simpl.
  pose proof (lm_trial_params aom accum error_before e Hok) as Hpar.
  destruct (lm_trial_stable aom accum error_before e) as [Hst _].
  rewrite lm_trial_unfold in *. simpl in *.
  destruct Hok as (l & lo & hi & v & Hl & Hlo & Hhi & Hv & Q0 & Q1 & Q2 & Q3).
  destruct (dlt (dsub error_before (lm_after_error aom accum e)) (DFin 0))
    eqn:Hdiff; simpl in *.
  - split; [done|]. split; [done|]. split.
    + intros _. repeat split; try done.
      * rewrite Hl, Hhi, Hv. simpl. unfold dmin, dlt.
        destruct (Qltb (v * l) hi) eqn:Hcmp; simpl.
        -- apply Qltb_true in Hcmp. apply Qltb_false. nra.
        -- by apply Qltb_false.
      * rewrite Hl, Hhi, Hv. simpl. unfold dmin, dlt. intros Hpos Hlt.
        apply Qltb_true in Hpos, Hlt.
        destruct (Qltb (v * l) hi) eqn:Hcmp; simpl; apply Qltb_true;
          [nra | done].
    + split; [done|]. split; [done|]. split; [done|].
      intros e2 Hopt. apply optimize_Ok in Hopt as (_ & _ & Hp). apply Hp.
      by exists l, lo, hi, v.
  - split; [done|]. split.
    + intros _. split; [|done]. intros b a -> Ha. rewrite Ha in Hdiff.
      simpl in Hdiff. apply Qltb_false in Hdiff. lra.
    + split; [done|]. split; [done|]. split; [done|]. split; [done|].
      intros e2 Hopt. apply optimize_Ok in Hopt as (_ & _ & Hp). apply Hp.
      by exists l, lo, hi, v.
Qed.

End OptimizeLoops.

(** C2 as specified fails when a trial leaves the total error unchanged:
    the step is accepted although the error did not strictly decrease. *)
Lemma accepted_step_without_decrease :
  ¬ lm_trial_as_specified AbsOrderMap_empty
      (opt_linearize (bench_start bench_config) AbsOrderMap_empty)
      (error_total (lin_errors (bench_start bench_config) AbsOrderMap_empty))
      (bench_start bench_config).
Proof.
  unfold lm_trial_as_specified. rewrite lm_trial_unfold.
  vm_compute. intros [Hacc _]. destruct (Hacc eq_refl) as [Hlt _].
  discriminate Hlt.
Qed.

Lemma lm_damping_trial_witness :
  lm_params_ok (bench_start bench_config)
  ∧ lm_params_ok
      (lm_trial AbsOrderMap_empty
         (opt_linearize (bench_start bench_config) AbsOrderMap_empty)
         (error_total
            (lin_errors (bench_start bench_config) AbsOrderMap_empty))
         (bench_start bench_config)).2.
Proof.
  assert (lm_params_ok (bench_start bench_config)) as Hok.
  { exists (1 # 1000000)%Q, (1 # 1000000)%Q, 100%Q, 2%Q.
    repeat split; try reflexivity; done. }
  split; [exact Hok|].
  destruct (lm_damping_trial AbsOrderMap_empty
              (opt_linearize (bench_start bench_config) AbsOrderMap_empty)
              (error_total
                 (lin_errors (bench_start bench_config) AbsOrderMap_empty))
              (bench_start bench_config) Hok)
    as (_ & _ & _ & _ & _ & Hpar & _).
  exact Hpar.
Defined.

(** ** [marginalize]: what is removed *)

Section MarginalizeProps.
Context `{Kernels}.

Lemma foldr_delete_lookup {A} (l : list Z) (m : gmap Z A) (k : Z) :
  (k ∈ l → foldr delete m l !! k = None)
  ∧ (k ∉ l → foldr delete m l !! k = m !! k).
Proof.
  induction l as [|x l [IH1 IH2]]; cbn [foldr].
  - split; [by intros ?%elem_of_nil | done].
  - destruct (decide (k = x)) as [->|Hne].
    + rewrite lookup_delete_eq. split; [done|]. intros Hnot.
      destruct Hnot. apply list_elem_of_here.
    + rewrite lookup_delete_ne by done. rewrite !elem_of_cons. split.
      * intros [?|?]; [done | by apply IH1].
      * intros Hnot. apply IH2. tauto.
Qed.

Lemma erase_all_lookup {A} (ids : gset Z) (m : gmap Z A) (k : Z) :
  erase_all ids m !! k = if decide (k ∈ ids) then None else m !! k.
Proof.
  unfold erase_all.
  destruct (foldr_delete_lookup (asc ids) m k) as [Hin Hnot].
  rewrite asc_elem_of in Hin, Hnot. case_decide; auto.
Qed.

Lemma erase_all_dom {A} (ids : gset Z) (m : gmap Z A) :
  dom (erase_all ids m) = dom m ∖ ids.
Proof.
  apply set_eq. intros k. rewrite elem_of_difference, !elem_of_dom.
  rewrite erase_all_lookup. case_decide; [|tauto].
  split; [by intros [? ?] | tauto].
Qed.

Lemma demote_states_Ok (ids : list Z)
    (frame_states frame_states' : gmap Z PoseVelBiasStateWithLin)
    (frame_poses frame_poses' : gmap Z PoseStateWithLin)
    (imu_meas imu_meas' : gmap Z IntegratedImuMeasurement) :
  demote_states ids frame_states frame_poses imu_meas
  = Ok (frame_states', frame_poses', imu_meas') →
  dom frame_states' = dom frame_states ∖ list_to_set ids
  ∧ dom frame_poses' = dom frame_poses ∪ list_to_set ids.
Proof.
  revert frame_states frame_poses imu_meas.
  induction ids as [|id ids IH]; intros fs fp im Hrun; simpl in Hrun.
  - injection Hrun as <- <- <-. simpl. set_solver.
  - apply bind_Ok in Hrun as (state & _ & Hrun).
    apply IH in Hrun as [-> ->].
    rewrite dom_delete_L, dom_insert_L. simpl. set_solver.
Qed.

(** Keys in iteration order are strictly increasing. *)
Lemma asc_sorted_lt (s : gset Z) : StronglySorted Z.lt (asc s).
Proof.
  pose proof (asc_sorted s) as Hs. pose proof (asc_NoDup s) as Hnd.
  induction Hs as [|x l Hs IH Hx]; [constructor|].
  apply list.NoDup_cons in Hnd as [Hnotin Hnd]. constructor; [by apply IH|].
  rewrite list.Forall_forall in *. intros y Hy.
  specialize (Hx y Hy). assert (x ≠ y) by (intros ->; done). lia.
Qed.

(** The loop over the states splits the keys older than
    [last_state_to_marg] between the two sets. *)
Lemma marg_states_loop_Ok (marg_order : AbsOrderMap) (kf_ids : gset Z)
    (last : Z) (keys : list Z) (aom aom' : AbsOrderMap)
    (vel_bias all vel_bias' all' : gset Z) :
  StronglySorted Z.lt keys →
  marg_states_loop marg_order kf_ids last keys aom vel_bias all
  = Ok (aom', vel_bias', all') →
  (∀ k, k ∈ vel_bias' ↔ k ∈ vel_bias ∨ (k ∈ keys ∧ k < last ∧ k ∈ kf_ids))
  ∧ (∀ k, k ∈ all' ↔ k ∈ all ∨ (k ∈ keys ∧ k < last ∧ k ∉ kf_ids)).
Proof.
  intros Hsorted. revert aom vel_bias all.
  induction Hsorted as [|k0 keys Hsorted IH Hk0]; intros aom vb al Hrun;
    simpl in Hrun.
  - injection Hrun as <- <- <-. split; intros k; rewrite elem_of_nil; tauto.
  - rewrite list.Forall_forall in Hk0. case_decide as Hbreak.
    + injection Hrun as <- <- <-.
      split; intros k; rewrite elem_of_cons;
        (split; [tauto|]); (intros [?|([->|Hin] & Hlt & _)]; [done|lia|]);
        specialize (Hk0 k Hin); lia.
    + apply bind_Ok in Hrun as (u & _ & Hrun).
      apply IH in Hrun as [Hvb Hall].
      assert (k0 ≤ last) as Hle by lia.
      assert (∀ (P : Prop) (d : Decision P) (s : gset Z) (k : Z),
                k ∈ (if d then {[k0]} ∪ s else s) ↔ k ∈ s ∨ (k = k0 ∧ P))
        as Hif.
      { intros P d s k. destruct d; set_solver. }
      split; intros k; [rewrite Hvb | rewrite Hall];
        rewrite Hif, elem_of_cons; split.
      * intros [[?|(-> & ? & ?)]|(?&?&?)]; [tauto| |tauto].
        right. split; [by left|]. split; [lia | done].
      * intros [?|([->|?]&?&?)]; [tauto| |tauto].
        left. right. split; [done|]. split; [lia | done].
      * intros [[?|(-> & ? & ?)]|(?&?&?)]; [tauto| |tauto].
        right. split; [by left|]. split; [lia | done].
      * intros [?|([->|?]&?&?)]; [tauto| |tauto].
        left. right. split; [done|]. split; [lia | done].
Qed.

End MarginalizeProps.

Section MarginalizeEffect.
Context `{Kernels}.

Lemma list_to_set_asc (s : gset Z) : list_to_set (asc s) = s.
Proof.
  apply set_eq. intros k. by rewrite elem_of_list_to_set, asc_elem_of.
Qed.

(** A set made of keys not before the key at position [idx] has at most
    [size s - idx] elements. *)
Lemma size_from_index (s s' : gset Z) (idx : nat) (last : Z) :
  asc s !! idx = Some last →
  (∀ k, k ∈ s' → k ∈ s ∧ last ≤ k) →
  (size s' + idx ≤ size s)%nat.
Proof.
  intros Hidx Hsub.
  assert (s' ⊆ list_to_set (drop idx (asc s))) as Hincl.
  { intros k Hk. destruct (Hsub k Hk) as [Hin Hle].
    apply elem_of_list_to_set. apply asc_elem_of in Hin.
    apply list_elem_of_lookup in Hin as [j Hj].
    destruct (decide (j < idx)%nat) as [Hlt|Hge].
    - pose proof (asc_lookup_lt s j idx k last Hj Hidx Hlt). lia.
    - apply list_elem_of_lookup. exists (j - idx)%nat.
      rewrite lookup_drop. by replace (idx + (j - idx))%nat with j by lia. }
  apply subseteq_size in Hincl.
  rewrite size_list_to_set in Hincl.
  - rewrite length_drop, asc_length in Hincl.
    apply lookup_lt_Some in Hidx. rewrite asc_length in Hidx. lia.
  - eapply sublist_NoDup; [apply asc_NoDup | apply sublist_drop].
Qed.

Lemma marg_select_Ok (e : KeypointVioEstimator) (sel : MargSelection) :
  marg_select e = Ok sel →
  asc (dom (frame_states e))
    !! Z.to_nat
         (Z.max 0 (to_int (to_size_t (Z.of_nat (size (frame_states e))
                                      - max_states e + 1))))
  = Some (last_state_to_marg sel)
  ∧ (∀ k, k ∈ states_to_marg_vel_bias sel ↔
          k ∈ dom (frame_states e) ∧ k < last_state_to_marg sel
          ∧ k ∈ kf_ids e)
  ∧ (∀ k, k ∈ states_to_marg_all sel ↔
          k ∈ dom (frame_states e) ∧ k < last_state_to_marg sel
          ∧ k ∉ kf_ids e).
Proof.
  unfold marg_select. intros Hrun.
  apply bind_Ok in Hrun as (last & Hlast & Hrun).
  apply vec_at_Ok in Hlast as [_ Hlast].
  apply bind_Ok in Hrun as ([aom0 poses0] & _ & Hrun).
  apply bind_Ok in Hrun as ([[aom vb] al] & Hloop & Hrun).
  injection Hrun as <-. simpl.
  apply marg_states_loop_Ok in Hloop as [Hvb Hall]; [|apply asc_sorted_lt].
  split; [done|].
  split; intros k; [rewrite Hvb | rewrite Hall]; rewrite asc_elem_of;
    set_solver.
Qed.

(** The effect of the body of [marginalize] on the bookkeeping. *)
Lemma marg_apply_Ok (npc : gmap Z Z) (sel : MargSelection)
    (e e' : KeypointVioEstimator) :
  marg_apply npc sel e = Ok e' →
  num_points_kf e' = num_points_kf e
  ∧ max_kfs e' = max_kfs e
  ∧ max_states e' = max_states e
  ∧ opt_started e' = opt_started e
  ∧ kf_ids e' ⊆ kf_ids e
  ∧ ¬ (max_kfs e < Z.of_nat (size (kf_ids e'))
       ∧ states_to_marg_vel_bias sel ≠ ∅)
  ∧ (states_to_marg_vel_bias sel = ∅ → kf_ids e' = kf_ids e)
  ∧ dom (frame_states e')
    = dom (frame_states e) ∖ states_to_marg_all sel
        ∖ states_to_marg_vel_bias sel
  ∧ (∀ id kp, kpts (lmdb e') !! id = Some kp →
       kpts (lmdb e) !! id = Some kp).
Proof.
  unfold marg_apply. intros Hrun.
  apply bind_Ok in Hrun as ([[kf1 kfs] poses] & Hevict & Hrun).
  apply bind_Ok in Hrun as (queue & _ & Hrun).
  apply bind_Ok in Hrun as ([keep marg] & _ & Hrun).
  destruct (marginalizeHelper _ _ _ _) as [marg_H_new marg_b_new].
  apply bind_Ok in Hrun as (last_state & Hlast & Hrun).
  apply map_at_Ok in Hlast.
  apply bind_Ok in Hrun as (u1 & _ & Hrun).
  apply bind_Ok in Hrun as ([[fs2 fp2] im2] & Hdemote & Hrun).
  apply bind_Ok in Hrun as (u2 & _ & Hrun).
  injection Hrun as <-. simpl.
  apply evict_loop_Ok in Hevict as (Hsub & _ & _ & Hexit & Hsame).
  apply demote_states_Ok in Hdemote as [Hfs _].
  repeat split; try done.
  - rewrite Hfs, erase_all_dom, dom_insert_L, list_to_set_asc.
    apply elem_of_dom_2 in Hlast. set_solver.
  - intros id kp Hlook. unfold removeKeyframes in Hlook. simpl in Hlook.
    apply map_lookup_filter_Some in Hlook as [Hlook _].
    by apply map_lookup_filter_Some in Hlook as [Hlook _].
Qed.

Lemma marginalize_Ok (npc : gmap Z Z) (e e' : KeypointVioEstimator) :
  marginalize npc e = Ok e' →
  (e' = e
   ∧ (opt_started e = false
      ∨ (Z.of_nat (size (frame_poses e)) ≤ max_kfs e
         ∧ Z.of_nat (size (frame_states e)) < max_states e)))
  ∨ (opt_started e = true
     ∧ (max_kfs e < Z.of_nat (size (frame_poses e))
        ∨ max_states e ≤ Z.of_nat (size (frame_states e)))
     ∧ ∃ sel, marg_select e = Ok sel ∧ marg_apply npc sel e = Ok e').
Proof.
  unfold marginalize. destruct (opt_started e); simpl; intros Hrun.
  - case_decide as Htrig.
    + right. split; [done|]. split; [done|].
      apply bind_Ok in Hrun as (sel & Hsel & Hrun). by exists sel.
    + left. injection Hrun as <-. split; [done|]. right. lia.
  - left. injection Hrun as <-. split; [done|]. by left.
Qed.

(** After [marginalize], once the optimiser has started, fewer than
    [max_states] states are left. *)
Lemma marginalize_bounds_states (npc : gmap Z Z)
    (e e' : KeypointVioEstimator) :
  marginalize npc e = Ok e' →
  opt_started e = true →
  0 ≤ max_states e →
  Z.of_nat (size (frame_states e)) < 2 ^ 31 - 1 →
  Z.of_nat (size (frame_states e')) < max_states e.
Proof.
  intros Hrun Hstarted Hmax Hint.
  apply marginalize_Ok in Hrun
    as [[-> [Hoff | [_ Hlt]]] | (_ & Htrig & sel & Hsel & Happly)];
    [congruence | done |].
  apply marg_select_Ok in Hsel as (Hidx & Hvb & Hall).
  apply marg_apply_Ok in Happly as (_ & _ & _ & _ & _ & _ & _ & Hdom & _).
  set (n := Z.of_nat (size (frame_states e))) in *.
  set (idx := Z.to_nat (Z.max 0 (to_int (to_size_t (n - max_states e + 1)))))
    in *.
  assert (size (dom (frame_states e')) + idx ≤ size (dom (frame_states e)))%nat
    as Hsize.
  { eapply size_from_index; [exact Hidx|]. intros k Hk. rewrite Hdom in Hk.
    apply elem_of_difference in Hk as [Hk Hnvb].
    apply elem_of_difference in Hk as [Hk Hnall]. split; [done|].
    destruct (decide (k < last_state_to_marg sel)) as [Hlt|]; [|lia].
    destruct (decide (k ∈ kf_ids e)).
    - destruct Hnvb. apply Hvb. done.
    - destruct Hnall. apply Hall. done. }
  rewrite !size_dom in Hsize. fold n in Hsize.
  destruct (decide (max_states e ≤ n)) as [Hge|Hlt]; [|lia].
  assert (to_int (to_size_t (n - max_states e + 1)) = n - max_states e + 1)
    as Hconv.
  { unfold to_int, to_size_t, size_t_mod.
    rewrite (Z.mod_small (n - max_states e + 1)) by lia.
    rewrite Z.mod_small by lia. lia. }
  subst idx. rewrite Hconv in Hsize. lia.
Qed.

End MarginalizeEffect.

(** ** The window after [measure] *)

Section MeasureBounds.
Context `{Kernels}.

Lemma size_union_le (X Y : gset Z) : (size (X ∪ Y) ≤ size X + size Y)%nat.
Proof.
  rewrite size_union_alt.
  assert (size (Y ∖ X) ≤ size Y)%nat; [|lia].
  apply subseteq_size. set_solver.
Qed.

Lemma measure_Ok (flow : OpticalFlowResult)
    (meas : option IntegratedImuMeasurement) (e e' : KeypointVioEstimator) :
  measure flow meas e = Ok e' ↔
  ∃ e1 npc e2,
    measure_front flow meas e = Ok (e1, npc)
    ∧ optimize e1 = Ok e2 ∧ marginalize npc e2 = Ok e'.
Proof.
  unfold measure. split.
  - intros Hrun. apply bind_Ok in Hrun as ([e1 npc] & Hfront & Hrun).
    apply bind_Ok in Hrun as (e2 & Hopt & Hrun). by exists e1, npc, e2.
  - intros (e1 & npc & e2 & -> & Hopt & Hmarg). simpl. by rewrite Hopt.
Qed.

(** What the first half of [measure] does to the bookkeeping. *)
Lemma measure_front_Ok (flow : OpticalFlowResult)
    (meas : option IntegratedImuMeasurement)
    (e e1 : KeypointVioEstimator) (npc : gmap Z Z) :
  measure_front flow meas e = Ok (e1, npc) →
  max_states e1 = max_states e
  ∧ max_kfs e1 = max_kfs e
  ∧ opt_started e1 = opt_started e
  ∧ dom (frame_states e1)
    ⊆ {[of_t_ns flow]} ∪ ({[last_state_t_ns e]} ∪ dom (frame_states e))
  ∧ (∀ k, is_Some (npc !! k) →
       ∃ id kp, kpts (lmdb e) !! id = Some kp ∧ frame_id (kf_id kp) = k)
  ∧ (∀ id kp, kpts (lmdb e1) !! id = Some kp →
       kpts (lmdb e) !! id = Some kp
       ∨ (kf_id kp = (of_t_ns flow, 0)
          ∧ ∃ n, num_points_kf e1 !! of_t_ns flow = Some n ∧ 0 < n))
  ∧ (∀ k, k ≠ of_t_ns flow → num_points_kf e1 !! k = num_points_kf e !! k).
Proof.
  unfold measure_front. intros Hrun.
  apply bind_Ok in Hrun as ([e4 a] & Hdec & Hrun).
  apply bind_Ok in Hrun as (e5 & Hstep & Hrun). injection Hrun as <- <-.
  apply measure_decide_Ok in Hdec as (e0 & Hprop & -> & Hkpts & Hconn).
  assert (max_states e0 = max_states e ∧ max_kfs e0 = max_kfs e
          ∧ opt_started e0 = opt_started e
          ∧ dom (frame_states e0)
            ⊆ {[of_t_ns flow]} ∪ ({[last_state_t_ns e]} ∪ dom (frame_states e))
          ∧ num_points_kf e0 = num_points_kf e)
    as (Hms & Hmk & Hos & Hdom & Hnpk).
  { apply propagate_state_Ok in Hprop
      as [[_ ->] | (m & fs & _ & -> & Hfs)]; simpl.
    - repeat split; try done. set_solver.
    - repeat split; try done. by rewrite Hfs. }
  assert (∀ k, is_Some (num_points_connected a !! k) →
            ∃ id kp, kpts (lmdb e) !! id = Some kp ∧ frame_id (kf_id kp) = k)
    as Hnpc.
  { intros k Hk. destruct (Hconn k Hk) as (id & kp & Hlook & Hhost).
    exists id, kp. by rewrite <- Hkpts. }
  apply keyframe_step_Ok in Hstep
    as [[_ ->] | (e2 & n & db & _ & _ & -> & Hn & Hdb)]; simpl.
  - repeat split; try done.
    + intros id kp Hlook. left. by rewrite <- Hkpts.
    + intros k _. by rewrite Hnpk.
  - repeat split; try done.
    + intros id kp Hlook. destruct (Hdb id kp Hlook) as [Hold | [Hhost Hpos]].
      * left. simpl in Hold. by rewrite <- Hkpts.
      * right. split; [done|]. exists n. by rewrite lookup_insert_eq.
    + intros k Hk. rewrite lookup_insert_ne by done. by rewrite Hnpk.
Qed.

(** C5, amended.  After a call of [measure] that leaves the optimiser
    started, [frame_states] holds fewer than [max_states] states.  [kf_ids]
    is within [max_kfs] when the marginalisation of this call moved a
    keyframe out of [frame_states]; when it did not, [kf_ids] is what the
    keyframe block left, whatever its size. *)
Theorem window_bounds_after_measure (flow : OpticalFlowResult)
    (meas : option IntegratedImuMeasurement) (e e' : KeypointVioEstimator) :
  measure flow meas e = Ok e' →
  opt_started e' = true →
  0 ≤ max_states e →
  Z.of_nat (size (frame_states e)) < 2 ^ 31 - 3 →
  Z.of_nat (size (frame_states e')) < max_states e'
  ∧ ∃ e1 npc e2,
      measure_front flow meas e = Ok (e1, npc)
      ∧ optimize e1 = Ok e2
      ∧ marginalize npc e2 = Ok e'
      ∧ (demotes_keyframe e2 → Z.of_nat (size (kf_ids e')) ≤ max_kfs e')
      ∧ (¬ demotes_keyframe e2 → kf_ids e' = kf_ids e1).
Proof.
  intros Hrun Hstarted Hmax Hint.
  apply measure_Ok in Hrun as (e1 & npc & e2 & Hfront & Hopt & Hmarg).
  apply measure_front_Ok in Hfront as Hf.
  destruct Hf as (Hms1 & Hmk1 & Hos1 & Hdom1 & _).
  apply optimize_Ok in Hopt as Ho. destruct Ho as (Hst & Hos2 & _).
  destruct Hst as (Hkf2 & _ & Hmk2 & Hms2 & _ & _ & _ & Hfs2 & _).
  assert (Z.of_nat (size (frame_states e2)) < 2 ^ 31 - 1) as Hint2.
  { rewrite <- size_dom, Hfs2. apply subseteq_size in Hdom1.
    pose proof (size_union_le {[of_t_ns flow]}
                  ({[last_state_t_ns e]} ∪ dom (frame_states e))) as Hu1.
    pose proof (size_union_le {[last_state_t_ns e]}
                  (dom (frame_states e))) as Hu2.
    rewrite !size_singleton in *. rewrite size_dom in *. lia. }
  assert (opt_started e2 = true ∧ max_states e' = max_states e2
          ∧ max_kfs e' = max_kfs e2) as (Hstarted2 & Hms3 & Hmk3).
  { apply marginalize_Ok in Hmarg as Hm.
    destruct Hm as [[-> _] | (Hs & _ & sel & _ & Happly)]; [done|].
    apply marg_apply_Ok in Happly as (_ & Hk & Hs' & Ho & _). done. }
  split.
  - rewrite Hms3. eapply marginalize_bounds_states; eauto. lia.
  - exists e1, npc, e2. split; [done|]. split; [done|]. split; [done|].
    rewrite <- Hkf2.
    apply marginalize_Ok in Hmarg
      as [[-> Hcase] | (_ & Htrig & sel & Hsel & Happly)].
    + split; [|done]. intros [Htrig _].
      destruct Hcase as [? | ?]; [congruence | lia].
    + apply marg_apply_Ok in Happly
        as (_ & Hk & _ & _ & _ & Hexit & Hsame & _).
      split.
      * intros (_ & sel' & Hsel' & Hvb). rewrite Hsel in Hsel'.
        injection Hsel' as <-. rewrite Hk.
        destruct (decide (max_kfs e2 < Z.of_nat (size (kf_ids e'))));
          [tauto | lia].
      * intros Hno. apply Hsame.
        destruct (decide (states_to_marg_vel_bias sel = ∅)) as [|Hne];
          [done|]. destruct Hno. split; [done|]. by exists sel.
Qed.

End MeasureBounds.

(** C5 as specified fails on the seventh frame of [fresh_frames]: the frame
    becomes the third keyframe while the oldest state of the window is no
    keyframe, so no keyframe is evicted and three are left where
    [max_kfs = 2]. *)
Lemma keyframes_exceed_max_kfs :
  bench_run fresh_frames 6 bench_config = Ok bench_after_six
  ∧ ¬ bounds_after_measure_as_specified (bench_flow 7 (fresh_frames 7))
        (bench_meas 6 7) bench_after_six.
Proof.
  split; [vm_compute; reflexivity|].
  unfold bounds_after_measure_as_specified. intros Hclaim.
  assert ((e' ← measure (bench_flow 7 (fresh_frames 7)) (bench_meas 6 7)
                  bench_after_six;
           mret (opt_started e', size (kf_ids e'), max_kfs e'))
          = Ok (true, 3%nat, 2)) as Hrun by (vm_compute; reflexivity).
  apply bind_Ok in Hrun as (e' & Hrun & Hres).
  injection Hres as Hos Hsize Hmax.
  destruct (Hclaim e' Hrun Hos) as [Hkf _]. lia.
Qed.

Lemma window_bounds_after_measure_witness :
  measure (bench_flow 7 (fresh_frames 7)) (bench_meas 6 7) bench_after_six
  = Ok (outcome_get bench_after_six
          (measure (bench_flow 7 (fresh_frames 7)) (bench_meas 6 7)
             bench_after_six))
  ∧ Z.of_nat (size (frame_states
       (outcome_get bench_after_six
          (measure (bench_flow 7 (fresh_frames 7)) (bench_meas 6 7)
             bench_after_six)))) < 3.
Proof.
  assert (measure (bench_flow 7 (fresh_frames 7)) (bench_meas 6 7)
            bench_after_six
          = Ok (outcome_get bench_after_six
                  (measure (bench_flow 7 (fresh_frames 7)) (bench_meas 6 7)
                     bench_after_six))) as Hrun by (vm_compute; reflexivity).
  split; [exact Hrun|].
  destruct (window_bounds_after_measure _ _ _ _ Hrun) as [Hstates _].
  - vm_compute. reflexivity.
  - vm_compute. discriminate.
  - vm_compute. reflexivity.
  - exact Hstates.
Defined.

(** ** The division of the covisibility rule *)

Section CovisibilityDivision.
Context `{Kernels}.


End CovisibilityDivision.

(** ** Fuel of the distance rule *)

Section DistanceFuel.
Context `{Numerics}.

Lemma bind_ext {A B} (m : outcome A) (f g : A → outcome B) :
  (∀ a, m = Ok a → f a = g a) → m ≫= f = m ≫= g.
Proof. intros Hfg. destruct m as [a|]; simpl; [by apply Hfg | done]. Qed.

Lemma poses_for_fuel (fuel : nat) (frame_poses : gmap Z PoseStateWithLin)
    (ids : list Z) (bound j : Z) :
  0 ≤ j ≤ Z.of_nat (length ids) →
  (length ids + 1 ≤ fuel + Z.to_nat j)%nat →
  poses_for fuel frame_poses ids bound j
  = poses_for (S fuel) frame_poses ids bound j.
Proof.
  revert j. induction fuel as [|fuel IH]; intros j Hj Hfuel; [lia|].
  change (poses_for (S fuel) frame_poses ids bound j) with
    (if decide (j < bound) then
       k ← vec_at ids j;
       p ← map_at frame_poses k;
       ps ← poses_for fuel frame_poses ids bound (j + 1);
       mret (getPose p :: ps)
     else mret []).
  change (poses_for (S (S fuel)) frame_poses ids bound j) with
    (if decide (j < bound) then
       k ← vec_at ids j;
       p ← map_at frame_poses k;
       ps ← poses_for (S fuel) frame_poses ids bound (j + 1);
       mret (getPose p :: ps)
     else mret []).
  case_decide; [|done].
  apply bind_ext; intros k Hk. apply bind_ext; intros p _.
  apply vec_at_Ok in Hk as [_ Hk]. apply lookup_lt_Some in Hk.
  rewrite IH by lia. done.
Qed.

(** The loops of the distance rule end or fault at the latest on the
    subscript [ids[length ids]]: their fuel is never the reason of a
    fault. *)
Lemma distance_for_fuel (fuel : nat) (frame_poses : gmap Z PoseStateWithLin)
    (frame_states : gmap Z PoseVelBiasStateWithLin) (last_kf : Z)
    (ids : list Z) (bound i : Z) (min_score : double) (min_score_id : Z) :
  0 ≤ i ≤ Z.of_nat (length ids) →
  (length ids + 1 ≤ fuel + Z.to_nat i)%nat →
  distance_for fuel frame_poses frame_states last_kf ids bound i min_score
    min_score_id
  = distance_for (S fuel) frame_poses frame_states last_kf ids bound i
      min_score min_score_id.
Proof.
  revert i min_score min_score_id.
  induction fuel as [|fuel IH]; intros i ms mid Hi Hfuel; [lia|].
  change (distance_for (S fuel) frame_poses frame_states last_kf ids bound i
            ms mid) with
    (if decide (i < bound) then
       k ← vec_at ids i;
       p ← map_at frame_poses k;
       ps ← poses_for (S (length ids)) frame_poses ids bound 0;
       st ← map_at frame_states last_kf;
       let score := kf_spread_score (getPose p) ps (T_w_i (getState st)) in
       if dlt score ms
       then distance_for fuel frame_poses frame_states last_kf ids bound
              (i + 1) score k
       else distance_for fuel frame_poses frame_states last_kf ids bound
              (i + 1) ms mid
     else mret mid).
  change (distance_for (S (S fuel)) frame_poses frame_states last_kf ids bound
            i ms mid) with
    (if decide (i < bound) then
       k ← vec_at ids i;
       p ← map_at frame_poses k;
       ps ← poses_for (S (length ids)) frame_poses ids bound 0;
       st ← map_at frame_states last_kf;
       let score := kf_spread_score (getPose p) ps (T_w_i (getState st)) in
       if dlt score ms
       then distance_for (S fuel) frame_poses frame_states last_kf ids bound
              (i + 1) score k
       else distance_for (S fuel) frame_poses frame_states last_kf ids bound
              (i + 1) ms mid
     else mret mid).
  case_decide; [|done].
  apply bind_ext; intros k Hk. apply bind_ext; intros p _.
  apply bind_ext; intros ps _. apply bind_ext; intros st _. cbv zeta.
  apply vec_at_Ok in Hk as [_ Hk]. apply lookup_lt_Some in Hk.
  destruct (dlt _ ms); apply IH; lia.
Qed.

End DistanceFuel.

(** ** The default window

    With room for three states and seven keyframes, and at least six frames
    between keyframes, the fiftieth frame of [fresh_frames] is the eighth
    keyframe; eight keyframes are left after its [measure] call, and the
    oldest is evicted two frames later. *)
Example keyframes_exceed_default_max_kfs :
  (e ← bench_run fresh_frames 50 bench_config_default;
   mret (opt_started e, asc (kf_ids e), max_kfs e, asc (dom (frame_states e))))
  = Ok (true, [1; 8; 15; 22; 29; 36; 43; 50], 7, [49; 50])
  ∧ (e ← bench_run fresh_frames 52 bench_config_default;
     mret (asc (kf_ids e)))
    = Ok [8; 15; 22; 29; 36; 43; 50].
Proof. split; vm_compute; reflexivity. Qed.

(** ** The damping parameters over [measure] *)

Section DampingOverMeasure.
Context `{Kernels}.

(** The constructor puts [lambda] at [min_lambda], inside the range of a
    configuration with [0 <= vio_lm_lambda_min <= vio_lm_lambda_max]. *)
Lemma constructor_lm_params_ok (g0 : Vec3) (calib0 : Calib) (cfg : VioConfig)
    (t : Z) (T : SE3) (vel bg ba : Vec3) (lo hi : Q) :
  vio_lm_lambda_min cfg = DFin lo → vio_lm_lambda_max cfg = DFin hi →
  (0 <= lo)%Q → (lo <= hi)%Q →
  lm_params_ok
    (initialize t T vel bg ba (KeypointVioEstimator_new g0 calib0 cfg)).
Proof.
  intros Hlo Hhi H0lo Hlohi. exists lo, lo, hi, 2%Q. simpl.
  repeat split; try done; lra.
Qed.

Lemma marg_apply_lm_params (npc : gmap Z Z) (sel : MargSelection)
    (e e' : KeypointVioEstimator) :
  marg_apply npc sel e = Ok e' → lm_params_ok e → lm_params_ok e'.
Proof.
  unfold marg_apply. intros Hrun.
  apply bind_Ok in Hrun as ([[kf1 kfs] poses] & _ & Hrun).
  apply bind_Ok in Hrun as (queue & _ & Hrun).
  apply bind_Ok in Hrun as ([keep marg] & _ & Hrun).
  destruct (marginalizeHelper _ _ _ _) as [marg_H_new marg_b_new].
  apply bind_Ok in Hrun as (last_state & _ & Hrun).
  apply bind_Ok in Hrun as (u1 & _ & Hrun).
  apply bind_Ok in Hrun as ([[fs2 fp2] im2] & _ & Hrun).
  apply bind_Ok in Hrun as (u2 & _ & Hrun).
  injection Hrun as <-. by apply lm_params_ok_ext.
Qed.

(** [lambda] stays within [min_lambda, max_lambda] over a whole call of
    [measure]. *)
Lemma measure_lm_params (flow : OpticalFlowResult)
    (meas : option IntegratedImuMeasurement) (e e' : KeypointVioEstimator) :
  measure flow meas e = Ok e' → lm_params_ok e → lm_params_ok e'.
Proof.
  intros Hrun Hok.
  apply measure_Ok in Hrun as (e1 & npc & e2 & Hfront & Hopt & Hmarg).
  assert (lm_params_ok e1) as Hok1.
  { unfold measure_front in Hfront.
    apply bind_Ok in Hfront as ([e4 a] & Hdec & Hfront).
    apply bind_Ok in Hfront as (e5 & Hstep & Hfront).
    injection Hfront as <- <-.
    apply measure_decide_Ok in Hdec as (e0 & Hprop & -> & _ & _).
    assert (lm_params_ok e0) as Hok0.
    { apply propagate_state_Ok in Hprop
        as [[_ ->] | (m & fs & _ & -> & _)]; [done|].
      revert Hok. by apply lm_params_ok_ext. }
    apply keyframe_step_Ok in Hstep
      as [[_ ->] | (e2' & n & db & _ & _ & -> & _ & _)];
      revert Hok0; by apply lm_params_ok_ext. }
  apply optimize_Ok in Hopt as (_ & _ & Hpar).
  apply marginalize_Ok in Hmarg
    as [[-> _] | (_ & _ & sel & _ & Happly)]; [by apply Hpar|].
  eapply marg_apply_lm_params; [exact Happly | by apply Hpar].
Qed.

End DampingOverMeasure.

(** * Further properties *)

(** ** Data association in [measure] *)

Section AssociationCounts.
Context `{Kernels}.

Lemma flow_entries_keys (m : gmap Z Affine) :
  (flow_entries m).*1 = asc (dom m).
Proof.
  unfold flow_entries.
  assert (∀ l : list Z, (∀ k, k ∈ l → is_Some (m !! k)) →
            (omap (λ k, (λ v, (k, v)) <$> m !! k) l).*1 = l) as Hgen.
  { induction l as [|k l IH]; intros Hl; [done|]. simpl.
    destruct (Hl k) as [v Hv]; [apply list_elem_of_here|]. rewrite Hv. simpl.
    f_equal. apply IH. intros k' Hk'. apply Hl. by apply list_elem_of_further. }
  apply Hgen. intros k Hk. apply asc_elem_of in Hk. by apply elem_of_dom.
Qed.

(** Camera 0: the loop counts the keypoints that are landmarks and collects
    the others; [seen] is the set of keypoints already visited. *)
Lemma associate_cam0_counts (t : Z) (kvs : list (Z * Affine))
    (a a' : Association) (seen : gset Z) :
  NoDup kvs.*1 → (∀ k, k ∈ kvs.*1 → k ∉ seen) →
  associate_cam t 0 kvs a = Ok a' →
  connected0 a = Z.of_nat (size (seen ∩ dom (kpts (assoc_lmdb a)))) →
  unconnected_obs0 a = seen ∖ dom (kpts (assoc_lmdb a)) →
  connected0 a'
  = Z.of_nat (size ((list_to_set kvs.*1 ∪ seen) ∩ dom (kpts (assoc_lmdb a))))
  ∧ unconnected_obs0 a'
    = (list_to_set kvs.*1 ∪ seen) ∖ dom (kpts (assoc_lmdb a)).
Proof.
  revert a seen.
  induction kvs as [|[id aff] kvs IH]; intros a seen Hnd Hfresh Hrun Hc Hu.
  - injection Hrun as <-.
    change (list_to_set ([] : list (Z * Affine)).*1) with (∅ : gset Z).
    replace (∅ ∪ seen) with seen by (clear; set_solver). done.
  - change (associate_cam t 0 ((id, aff) :: kvs) a)
      with (associate_obs t 0 (id, aff) a ≫= associate_cam t 0 kvs) in Hrun.
    apply bind_Ok in Hrun as (a1 & Hobs & Hrun).
    change (((id, aff) :: kvs).*1) with (id :: kvs.*1) in *.
    apply list.NoDup_cons in Hnd as [Hid Hnd].
    pose proof (associate_obs_Ok _ _ _ _ _ Hobs) as [Hk _].
    assert (id ∉ seen) as Hidseen by (apply Hfresh; apply list_elem_of_here).
    assert (connected0 a1
            = Z.of_nat (size (({[id]} ∪ seen) ∩ dom (kpts (assoc_lmdb a))))
            ∧ unconnected_obs0 a1
              = ({[id]} ∪ seen) ∖ dom (kpts (assoc_lmdb a))) as [Hc1 Hu1].
    { clear IH Hrun Hfresh Hk Hnd Hid.
      unfold associate_obs, landmarkExists in Hobs.
      cbn [fst snd] in Hobs. case_bool_decide as Hex.
      - assert (id ∈ dom (kpts (assoc_lmdb a))) as Hin by by apply elem_of_dom.
        inv_ok. subst a1. cbn [connected0 unconnected_obs0].
        try rewrite decide_True by done. rewrite Hc, Hu. clear -Hin Hidseen.
        replace (({[id]} ∪ seen) ∩ dom (kpts (assoc_lmdb a)))
          with ({[id]} ∪ seen ∩ dom (kpts (assoc_lmdb a))) by set_solver.
        rewrite (size_union {[id]} (seen ∩ _)) by set_solver.
        rewrite size_singleton. split; [lia | set_solver].
      - assert (id ∉ dom (kpts (assoc_lmdb a))) as Hin
          by (by rewrite elem_of_dom).
        injection Hobs as <-. cbn [connected0 unconnected_obs0].
        try rewrite decide_True by done. rewrite Hc, Hu. clear -Hin Hidseen.
        split; [do 2 f_equal|]; set_solver. }
    destruct (IH a1 ({[id]} ∪ seen) Hnd) as [IHc IHu].
    + intros k Hk' [->%elem_of_singleton|HS]%elem_of_union; [done|].
      revert HS. apply Hfresh. by apply list_elem_of_further.
    + exact Hrun.
    + by rewrite Hk.
    + by rewrite Hk.
    + rewrite Hk in IHc, IHu.
      change (list_to_set (id :: kvs.*1) : gset Z)
        with ({[id]} ∪ list_to_set kvs.*1 : gset Z).
      replace ({[id]} ∪ list_to_set kvs.*1 ∪ seen)
        with (list_to_set kvs.*1 ∪ ({[id]} ∪ seen)) by (clear; set_solver).
      done.
Qed.

(** The other cameras leave the two counts of camera 0 alone. *)
Lemma associate_cam_other (t cam : Z) (kvs : list (Z * Affine))
    (a a' : Association) :
  cam ≠ 0 → associate_cam t cam kvs a = Ok a' →
  connected0 a' = connected0 a ∧ unconnected_obs0 a' = unconnected_obs0 a.
Proof.
  intros Hcam. revert a. induction kvs as [|kv kvs IH]; intros a Hrun.
  - by injection Hrun as <-.
  - simpl in Hrun. apply bind_Ok in Hrun as (a1 & Hobs & Hrun).
    destruct (IH _ Hrun) as [-> ->].
    unfold associate_obs in Hobs. destruct (landmarkExists _ _).
    + inv_ok. subst a1. simpl. by rewrite decide_False by done.
    + injection Hobs as <-. simpl. by rewrite decide_False by done.
Qed.

Lemma associate_cams_other (t cam : Z) (cams : list (gmap Z Affine))
    (a a' : Association) :
  0 < cam → associate_cams t cam cams a = Ok a' →
  connected0 a' = connected0 a ∧ unconnected_obs0 a' = unconnected_obs0 a.
Proof.
  revert cam a. induction cams as [|m cams IH]; intros cam a Hcam Hrun.
  - by injection Hrun as <-.
  - simpl in Hrun. apply bind_Ok in Hrun as (a1 & Hone & Hrun).
    apply associate_cam_other in Hone as [<- <-]; [|lia].
    apply (IH (cam + 1)); [lia | done].
Qed.

(** The whole loop, started as [measure] starts it. *)
Lemma associate_cams_counts (t : Z) (cams : list (gmap Z Affine))
    (db : LandmarkDatabase) (a : Association) :
  associate_cams t 0 cams (mkAssociation db 0 ∅ ∅) = Ok a →
  let cam0 := default ∅ (cams !! 0%nat) in
  unconnected_obs0 a = dom cam0 ∖ dom (kpts db)
  ∧ connected0 a = Z.of_nat (size (dom cam0 ∩ dom (kpts db))).
Proof.
  destruct cams as [|m cams]; intros Hrun; simpl.
  - injection Hrun as <-. simpl. split; [set_solver|].
    replace (dom (∅ : gmap Z Affine) ∩ dom (kpts db)) with (∅ : gset Z)
      by set_solver. done.
  - simpl in Hrun. apply bind_Ok in Hrun as (a1 & Hone & Hrun).
    apply associate_cams_other in Hrun as [-> ->]; [|lia].
    destruct (associate_cam0_counts t (flow_entries m)
                (mkAssociation db 0 ∅ ∅) a1 ∅) as [Hc Hu].
    + rewrite flow_entries_keys. apply asc_NoDup.
    + set_solver.
    + exact Hone.
    + simpl. replace (∅ ∩ dom (kpts db)) with (∅ : gset Z) by set_solver. done.
    + simpl. set_solver.
    + simpl in Hc, Hu. rewrite flow_entries_keys, list_to_set_asc in Hc, Hu.
      replace (dom m ∪ ∅) with (dom m) in Hc, Hu by set_solver. done.
Qed.

End AssociationCounts.

Section AssociationClaims.
Context `{Kernels}.

Lemma propagate_state_lmdb (t : Z) (meas : option IntegratedImuMeasurement)
    (e e1 : KeypointVioEstimator) :
  propagate_state t meas e = Ok e1 →
  lmdb e1 = lmdb e ∧ config e1 = config e
  ∧ frames_after_kf e1 = frames_after_kf e ∧ take_kf e1 = take_kf e.
Proof.
  intros Hrun.
  apply propagate_state_Ok in Hrun as [[_ ->] | (m & fs & _ & -> & _)]; done.
Qed.

Lemma measure_decide_counts (flow : OpticalFlowResult)
    (meas : option IntegratedImuMeasurement)
    (e e4 : KeypointVioEstimator) (a : Association) :
  measure_decide flow meas e = Ok (e4, a) →
  unconnected_obs0 a = dom (cam_obs flow 0) ∖ dom (kpts (lmdb e))
  ∧ connected0 a
    = Z.of_nat (size (dom (cam_obs flow 0) ∩ dom (kpts (lmdb e)))).
Proof.
  unfold measure_decide. intros Hrun.
  apply bind_Ok in Hrun as (e1 & Hprop & Hrun).
  apply bind_Ok in Hrun as (a1 & Hassoc & Hrun).
  injection Hrun as _ <-.
  apply propagate_state_lmdb in Hprop as (Hdb & _).
  apply associate_cams_counts in Hassoc. cbn [lmdb set_prev_opt_flow_res] in Hassoc.
  rewrite Hdb in Hassoc. exact Hassoc.
Qed.

(** [X1] The data association loop of [measure] splits the keypoints of
    camera 0 by membership in the landmark database: [unconnected_obs0] is
    the set of those that are no landmarks, [connected0] counts the others,
    and the denominator [connected0 + unconnected_obs0.size()] of the
    keyframe ratio is the number of keypoints camera 0 tracks.  The other
    cameras do not contribute to either. *)
Theorem association_splits_camera0 (flow : OpticalFlowResult)
    (meas : option IntegratedImuMeasurement)
    (e e4 : KeypointVioEstimator) (a : Association) :
  measure_decide flow meas e = Ok (e4, a) →
  unconnected_obs0 a = dom (cam_obs flow 0) ∖ dom (kpts (lmdb e))
  ∧ connected0 a
    = Z.of_nat (size (dom (cam_obs flow 0) ∩ dom (kpts (lmdb e))))
  ∧ connected0 a + Z.of_nat (size (unconnected_obs0 a))
    = Z.of_nat (size (cam_obs flow 0)).
Proof.
  intros Hrun. apply measure_decide_counts in Hrun as [Hu Hc].
  split; [done|]. split; [done|]. rewrite Hu, Hc, <- size_dom.
  rewrite <- Nat2Z.inj_add. f_equal.
  rewrite <- (size_union (dom (cam_obs flow 0) ∩ dom (kpts (lmdb e)))
                (dom (cam_obs flow 0) ∖ dom (kpts (lmdb e))))
    by set_solver.
  f_equal. apply set_eq. intros k.
  rewrite elem_of_union, elem_of_intersection, elem_of_difference.
  destruct (decide (k ∈ dom (kpts (lmdb e)))); tauto.
Qed.

(** [X2] A frame in which camera 0 tracks no keypoint fails the ratio test
    of [measure] whatever the thresholds are: the quotient is 0/0, a NaN
    that compares false, so the frame is promoted only when [take_kf] was
    already set. *)
Theorem empty_camera0_fails_ratio_test (flow : OpticalFlowResult)
    (meas : option IntegratedImuMeasurement)
    (e e4 : KeypointVioEstimator) (a : Association) :
  measure_decide flow meas e = Ok (e4, a) →
  cam_obs flow 0 = ∅ →
  new_kf_condition (config e) (connected0 a) (size (unconnected_obs0 a))
    (frames_after_kf e) = false
  ∧ take_kf e4 = take_kf e.
Proof.
  intros Hrun Hempty.
  pose proof (measure_decide_counts _ _ _ _ _ Hrun) as [Hu Hc].
  rewrite Hempty in Hu, Hc.
  assert (unconnected_obs0 a = ∅) as Hu0 by (rewrite Hu; set_solver).
  assert (connected0 a = 0) as Hc0.
  { rewrite Hc.
    replace (dom (∅ : gmap Z Affine) ∩ dom (kpts (lmdb e))) with (∅ : gset Z)
      by set_solver. done. }
  assert (new_kf_condition (config e) (connected0 a)
            (size (unconnected_obs0 a)) (frames_after_kf e) = false) as Hcond.
  { rewrite Hu0, Hc0. reflexivity. }
  split; [exact Hcond|].
  apply measure_decide_Ok in Hrun as (e1 & _ & -> & _).
  cbn [take_kf set_take_kf]. rewrite Hcond. apply orb_false_r.
Qed.

End AssociationClaims.

Lemma association_splits_camera0_witness :
  measure_decide (bench_flow 2 (tracked_frames 2)) (bench_meas 1 2)
    bench_after_one
  = Ok (bench_second_decide.1, bench_second_decide.2)
  ∧ connected0 bench_second_decide.2
    + Z.of_nat (size (unconnected_obs0 bench_second_decide.2)) = 10.
Proof.
  assert (measure_decide (bench_flow 2 (tracked_frames 2)) (bench_meas 1 2)
            bench_after_one
          = Ok (bench_second_decide.1, bench_second_decide.2)) as Hrun
    by (vm_compute; reflexivity).
  split; [exact Hrun|].
  destruct (association_splits_camera0 _ _ _ _ _ Hrun) as (_ & _ & ->).
  vm_compute. reflexivity.
Defined.

Lemma empty_camera0_fails_ratio_test_witness :
  measure_decide (bench_flow 2 [[]; [101]]) (bench_meas 1 2) bench_after_one
  = Ok (bench_empty_decide.1, bench_empty_decide.2)
  ∧ take_kf bench_empty_decide.1 = false.
Proof.
  assert (measure_decide (bench_flow 2 [[]; [101]]) (bench_meas 1 2)
            bench_after_one
          = Ok (bench_empty_decide.1, bench_empty_decide.2)) as Hrun
    by (vm_compute; reflexivity).
  split; [exact Hrun|].
  destruct (empty_camera0_fails_ratio_test _ _ _ _ _ Hrun) as [_ ->].
  - vm_compute. reflexivity.
  - vm_compute. reflexivity.
Defined.


(** ** Landmarks added by a new keyframe *)

Section KeyframeLandmarks.
Context `{Kernels}.

(** The triangulation loop over fresh keypoints: the counter grows with
    the database, old landmarks stay, new ones are hosted by the frame. *)
Lemma triangulate_landmarks_count (flow : OpticalFlowResult) (lm_ids : list Z)
    (e e' : KeypointVioEstimator) (n n' : Z) :
  NoDup lm_ids →
  (∀ id, id ∈ lm_ids → kpts (lmdb e) !! id = None) →
  triangulate_landmarks flow lm_ids (e, n) = Ok (e', n') →
  Z.of_nat (size (kpts (lmdb e'))) = Z.of_nat (size (kpts (lmdb e))) + (n' - n)
  ∧ (∀ id kp, kpts (lmdb e) !! id = Some kp → kpts (lmdb e') !! id = Some kp)
  ∧ (∀ id kp, kpts (lmdb e') !! id = Some kp → kpts (lmdb e) !! id = None →
       id ∈ lm_ids ∧ kf_id kp = (of_t_ns flow, 0)).
Proof.
  revert e n. induction lm_ids as [|lm_id lm_ids IH]; intros e n Hnd Hfresh Hrun.
  - injection Hrun as <- <-. split; [lia|]. split; [done|].
    intros id kp Hin Hout. congruence.
  - apply list.NoDup_cons in Hnd as [Hid Hnd].
    change (triangulate_landmarks flow (lm_id :: lm_ids) (e, n))
      with (triangulate_landmark flow lm_id (e, n)
              ≫= triangulate_landmarks flow lm_ids) in Hrun.
    apply bind_Ok in Hrun as ([e1 n1] & Hone & Hrun).
    assert (kpts (lmdb e) !! lm_id = None) as Hfree
      by (apply Hfresh, list_elem_of_here).
    apply triangulate_landmark_Ok in Hone
      as [(_ & -> & ->) | (p & db & _ & -> & -> & Hdb)].
    + destruct (IH e n Hnd) as (Hsize & Hold & Hnew); [|done|].
      { intros id Hin. apply Hfresh. by apply list_elem_of_further. }
      split; [done|]. split; [done|].
      intros id kp Hin Hout. destruct (Hnew id kp Hin Hout) as [Hmem Hhost].
      split; [by apply list_elem_of_further | done].
    + destruct (IH (set_lmdb db e) (n + 1) Hnd) as (Hsize & Hold & Hnew);
        [|done|].
      { intros id Hin. cbn [lmdb set_lmdb]. rewrite Hdb.
        rewrite lookup_insert_ne by (intros ->; done).
        apply Hfresh. by apply list_elem_of_further. }
      cbn [lmdb set_lmdb] in Hsize, Hold, Hnew. rewrite Hdb in Hsize, Hold, Hnew.
      rewrite map_size_insert_None in Hsize by done.
      split; [lia|]. split.
      * intros id kp Hin. apply Hold. rewrite lookup_insert_ne; [done|].
        intros ->. congruence.
      * intros id kp Hin Hout.
        destruct (decide (id = lm_id)) as [->|Hne].
        -- split; [apply list_elem_of_here|].
           destruct (kpts (lmdb e') !! lm_id) as [kp'|] eqn:Hlook; [|done].
           injection Hin as ->.
           pose proof (Hold lm_id _ (lookup_insert_eq _ _ _)) as Hkept.
           rewrite Hlook in Hkept. by injection Hkept as ->.
        -- destruct (Hnew id kp Hin) as [Hmem Hhost].
           { by rewrite lookup_insert_ne. }
           split; [by apply list_elem_of_further | done].
Qed.

(** [X3] When [measure] promotes the frame, [num_points_kf] of the frame
    is exactly the number of landmarks the keyframe block added: the
    database grows by that many, every landmark it already held stays as it
    was, and every new landmark is a keypoint of camera 0 that was not in
    the database, hosted by camera 0 of the frame. *)
Theorem new_keyframe_counts_its_landmarks (flow : OpticalFlowResult)
    (meas : option IntegratedImuMeasurement)
    (e e4 e5 : KeypointVioEstimator) (a : Association) :
  measure_decide flow meas e = Ok (e4, a) →
  take_kf e4 = true →
  keyframe_step flow (unconnected_obs0 a) e4 = Ok e5 →
  ∃ n, num_points_kf e5 !! of_t_ns flow = Some n
    ∧ Z.of_nat (size (kpts (lmdb e5))) = Z.of_nat (size (kpts (lmdb e))) + n
    ∧ (∀ id kp, kpts (lmdb e) !! id = Some kp →
         kpts (lmdb e5) !! id = Some kp)
    ∧ (∀ id kp, kpts (lmdb e5) !! id = Some kp → kpts (lmdb e) !! id = None →
         is_Some (cam_obs flow 0 !! id) ∧ kf_id kp = (of_t_ns flow, 0)).
Proof.
  intros Hdec Htk Hstep.
  pose proof (measure_decide_counts _ _ _ _ _ Hdec) as [Hu _].
  apply measure_decide_Ok in Hdec as (e1 & _ & He4 & Hk & _).
  assert (kpts (lmdb e4) = kpts (lmdb e)) as Hk4 by (by rewrite He4).
  unfold keyframe_step in Hstep. rewrite Htk in Hstep.
  apply bind_Ok in Hstep as ([e2 n] & Htri & Hstep). injection Hstep as <-.
  apply triangulate_landmarks_count in Htri as (Hsize & Hold & Hnew).
  - cbn [lmdb set_kf_ids set_frames_after_kf set_take_kf] in Hsize, Hold, Hnew.
    rewrite Hk4 in Hsize, Hold, Hnew.
    exists n. cbn [num_points_kf set_num_points_kf lmdb].
    rewrite lookup_insert_eq. split; [done|]. split; [lia|]. split; [done|].
    intros id kp Hin Hout. destruct (Hnew id kp Hin Hout) as [Hmem Hhost].
    split; [|done]. apply elem_of_elements in Hmem. rewrite Hu in Hmem.
    apply elem_of_difference in Hmem as [Hmem _]. by apply elem_of_dom.
  - apply NoDup_elements.
  - intros id Hin. apply elem_of_elements in Hin. rewrite Hu in Hin.
    apply elem_of_difference in Hin as [_ Hin].
    cbn [lmdb set_kf_ids set_frames_after_kf set_take_kf]. rewrite Hk4.
    by apply not_elem_of_dom.
Qed.

End KeyframeLandmarks.

Lemma new_keyframe_counts_its_landmarks_witness :
  measure_decide (bench_flow 1 (tracked_frames 1)) None
    (bench_start bench_config)
  = Ok (bench_first_decide.1, bench_first_decide.2)
  ∧ ∃ n, num_points_kf bench_first_front.1 !! 1 = Some n
      ∧ Z.of_nat (size (kpts (lmdb bench_first_front.1))) = 0 + n.
Proof.
  assert (measure_decide (bench_flow 1 (tracked_frames 1)) None
            (bench_start bench_config)
          = Ok (bench_first_decide.1, bench_first_decide.2)) as Hdec
    by (vm_compute; reflexivity).
  split; [exact Hdec|].
  destruct (new_keyframe_counts_its_landmarks _ _ _ _ bench_first_front.1 _
              Hdec) as (n & Hn & Hsize & _).
  - vm_compute. reflexivity.
  - vm_compute. reflexivity.
  - exists n. split; [exact Hn | exact Hsize].
Defined.


(** ** The eviction loop of [marginalize] *)

Section EvictionSpares.
Context `{Numerics}.

Lemma size_two_elements (X : gset Z) (a b : Z) :
  a ∈ X → b ∈ X → a ≠ b → (2 ≤ size X)%nat.
Proof.
  intros Ha Hb Hne.
  assert (({[a]} ∪ {[b]} : gset Z) ⊆ X) as Hsub by set_solver.
  apply subseteq_size in Hsub.
  rewrite (size_union {[a]} {[b]}) in Hsub by set_solver.
  by rewrite !size_singleton in Hsub.
Qed.

Lemma evict_loop_spares (fuel : nat) (max_kfs : Z) (npc npkf : gmap Z Z)
    (frame_poses : gmap Z PoseStateWithLin)
    (frame_states : gmap Z PoseVelBiasStateWithLin)
    (vel_bias kf_ids kfs_to_marg poses_to_marg kf_ids' kfs_to_marg'
       poses_to_marg' : gset Z) :
  (2 ≤ size kf_ids)%nat → -1 ∉ kf_ids →
  evict_loop fuel max_kfs npc npkf frame_poses frame_states vel_bias kf_ids
    kfs_to_marg poses_to_marg = Ok (kf_ids', kfs_to_marg', poses_to_marg') →
  ∀ r, r ∈ kf_ids → r ∉ kf_ids' →
    ∃ a b, a ∈ kf_ids' ∧ b ∈ kf_ids' ∧ r < a ∧ a < b.
Proof.
  revert kf_ids kfs_to_marg poses_to_marg.
  induction fuel as [|fuel IH]; intros kf kfs poses Hsize Hneg Hrun;
    simpl in Hrun.
  - case_decide as Hcond; [done|]. injection Hrun as <- <- <-. done.
  - case_decide as Hcond; [|injection Hrun as <- <- <-; done].
    apply bind_Ok in Hrun as (id & Hsel & Hrun).
    case_decide as Hin; [|done].
    assert (id ≠ -1) as Hid by (intros ->; done).
    destruct (select_spares_two_newest _ _ _ _ _ _ Hsize Hsel Hid)
      as (a & b & Ha & Hb & Hida & Hab).
    assert (a ∈ kf ∖ {[id]}) as Ha'
      by (apply elem_of_difference; split; [done | set_unfold; lia]).
    assert (b ∈ kf ∖ {[id]}) as Hb'
      by (apply elem_of_difference; split; [done | set_unfold; lia]).
    assert (2 ≤ size (kf ∖ {[id]}))%nat as Hsize'
      by (apply (size_two_elements _ a b); [done | done | lia]).
    assert (-1 ∉ kf ∖ {[id]}) as Hneg' by set_solver.
    specialize (IH _ _ _ Hsize' Hneg' Hrun).
    assert (∀ x, x ∈ kf ∖ {[id]} → ∃ y, y ∈ kf_ids' ∧ x ≤ y) as Habove.
    { intros x Hx. destruct (decide (x ∈ kf_ids')) as [Hk|Hk].
      - exists x. split; [done | lia].
      - destruct (IH x Hx Hk) as (y & _ & Hy & _ & Hxy & _).
        exists y. split; [done | lia]. }
    intros r Hr Hout. destruct (decide (r = id)) as [->|Hne].
    + destruct (decide (a ∈ kf_ids')) as [Hak|Hak].
      * destruct (decide (b ∈ kf_ids')) as [Hbk|Hbk].
        -- by exists a, b.
        -- destruct (IH b Hb' Hbk) as (a2 & b2 & Ha2 & Hb2 & Hlt1 & Hlt2).
           exists a2, b2. repeat split; [done | done | lia | done].
      * destruct (IH a Ha' Hak) as (a2 & b2 & Ha2 & Hb2 & Hlt1 & Hlt2).
        exists a2, b2. repeat split; [done | done | lia | done].
    + apply IH; [set_solver | done].
Qed.

(** [X4] The eviction loop of [marginalize] never touches the newest
    keyframes: started on at least two keyframes, none of them with the
    timestamp -1 that the loop uses for "no choice", every keyframe it
    moves to [kfs_to_marg] is older than two keyframes that stay in
    [kf_ids]. *)
Theorem eviction_spares_two_newest (max_kfs : Z) (npc npkf : gmap Z Z)
    (frame_poses : gmap Z PoseStateWithLin)
    (frame_states : gmap Z PoseVelBiasStateWithLin)
    (vel_bias kf_ids poses_to_marg kf_ids' kfs_to_marg' poses_to_marg'
       : gset Z) :
  (2 ≤ size kf_ids)%nat → -1 ∉ kf_ids →
  evict_keyframes max_kfs npc npkf frame_poses frame_states vel_bias kf_ids
    poses_to_marg = Ok (kf_ids', kfs_to_marg', poses_to_marg') →
  kfs_to_marg' = kf_ids ∖ kf_ids'
  ∧ ∀ r, r ∈ kfs_to_marg' →
      ∃ a b, a ∈ kf_ids' ∧ b ∈ kf_ids' ∧ r < a ∧ a < b.
Proof.
  unfold evict_keyframes. intros Hsize Hneg Hrun.
  pose proof (evict_loop_Ok _ _ _ _ _ _ _ _ _ _ _ _ _ Hrun)
    as (_ & Hkfs & _).
  assert (kfs_to_marg' = kf_ids ∖ kf_ids') as -> by set_solver.
  split; [done|]. intros r [Hr Hout]%elem_of_difference.
  by eapply evict_loop_spares.
Qed.

End EvictionSpares.

Lemma eviction_spares_two_newest_witness :
  evict_keyframes (max_kfs bench_before_eviction.1)
    bench_before_eviction.2 (num_points_kf bench_before_eviction.1)
    (frame_poses bench_before_eviction.1)
    (frame_states bench_before_eviction.1)
    (states_to_marg_vel_bias bench_eviction_selection)
    (kf_ids bench_before_eviction.1)
    (sel_poses_to_marg bench_eviction_selection)
  = Ok (bench_eviction.1.1, bench_eviction.1.2, bench_eviction.2)
  ∧ 1 ∈ bench_eviction.1.2
  ∧ ∃ a b, a ∈ bench_eviction.1.1 ∧ b ∈ bench_eviction.1.1 ∧ 1 < a ∧ a < b.
Proof.
  assert (evict_keyframes (max_kfs bench_before_eviction.1)
            bench_before_eviction.2 (num_points_kf bench_before_eviction.1)
            (frame_poses bench_before_eviction.1)
            (frame_states bench_before_eviction.1)
            (states_to_marg_vel_bias bench_eviction_selection)
            (kf_ids bench_before_eviction.1)
            (sel_poses_to_marg bench_eviction_selection)
          = Ok (bench_eviction.1.1, bench_eviction.1.2, bench_eviction.2))
    as Hrun by (vm_compute; reflexivity).
  assert (1 ∈ bench_eviction.1.2) as Hin
    by (apply (bool_decide_unpack _); vm_compute; exact I).
  split; [exact Hrun|]. split; [exact Hin|].
  assert (2 ≤ size (kf_ids bench_before_eviction.1))%nat as Hsize
    by (vm_compute; lia).
  assert (-1 ∉ kf_ids bench_before_eviction.1) as Hneg
    by (apply (bool_decide_unpack _); vm_compute; exact I).
  destruct (eviction_spares_two_newest _ _ _ _ _ _ _ _ _ _ _
              Hsize Hneg Hrun) as [_ Hspare].
  apply Hspare. exact Hin.
Defined.


(** ** The order of doubles *)

Lemma dlt_true_not_nan (x y : double) :
  dlt x y = true → x ≠ DNaN ∧ y ≠ DNaN.
Proof. destruct x, y; simpl; intros Hlt; split; congruence. Qed.

Lemma dlt_irrefl (x : double) : dlt x x = false.
Proof.
  destruct x as [q|[]|]; simpl; try done. apply Qltb_false. lra.
Qed.

Lemma dlt_trans (x y z : double) :
  dlt x y = true → dlt y z = true → dlt x z = true.
Proof.
  destruct x as [a|[]|], y as [b|[]|], z as [c|[]|]; simpl; try done.
  rewrite !Qltb_true. lra.
Qed.

Lemma dlt_asym (x y : double) : dlt x y = true → dlt y x = false.
Proof.
  destruct x as [a|[]|], y as [b|[]|]; simpl; try done.
  rewrite Qltb_true, Qltb_false. lra.
Qed.

(** [x < y] and not [z < y]: then [z] is a NaN or [x < z]. *)
Lemma dlt_below_others (x y z : double) :
  dlt x y = true → dlt z y = false → z = DNaN ∨ dlt x z = true.
Proof.
  destruct x as [a|[]|], y as [b|[]|], z as [c|[]|]; simpl; try done;
    try (by left); try (by right).
  rewrite Qltb_true, Qltb_false. intros Hab Hbc. right. apply Qltb_true. lra.
Qed.

(** ** The distance rule of [marginalize] *)

Section DistanceRule.
Context `{Numerics}.
Variable frame_poses : gmap Z PoseStateWithLin.
Variable frame_states : gmap Z PoseVelBiasStateWithLin.
Variable ids : list Z.
Variable last_kf : Z.

Lemma distance_for_min (fuel : nat) (bound i : Z) (m : double) (mid r : Z) :
  0 ≤ i →
  distance_for fuel frame_poses frame_states last_kf ids bound i m mid
  = Ok r →
  m ≠ DNaN →
  ∃ M, M ≠ DNaN ∧ (M = m ∨ dlt M m = true)
    ∧ (∀ j, i ≤ j < bound →
         ∃ k s, ids !! Z.to_nat j = Some k ∧ pass_score frame_poses frame_states ids last_kf bound k = Ok s
                ∧ dlt s M = false)
    ∧ ((r = mid ∧ M = m)
       ∨ ∃ i', i ≤ i' < bound ∧ ids !! Z.to_nat i' = Some r
           ∧ pass_score frame_poses frame_states ids last_kf bound r = Ok M ∧ dlt M m = true
           ∧ ∀ j k s, i ≤ j < i' → ids !! Z.to_nat j = Some k →
               pass_score frame_poses frame_states ids last_kf bound k = Ok s → s = DNaN ∨ dlt M s = true).
Proof.
  revert i m mid. induction fuel as [|fuel IH]; intros i m mid Hi Hrun Hm;
    simpl in Hrun; [done|].
  case_decide as Hlt.
  2:{ injection Hrun as <-. exists m. split; [done|]. split; [by left|].
      split; [intros j Hj; lia|]. by left. }
  apply bind_Ok in Hrun as (k & Hk & Hrun). apply vec_at_Ok in Hk as [_ Hk].
  apply bind_Ok in Hrun as (p & Hp & Hrun).
  apply bind_Ok in Hrun as (ps & Hps & Hrun).
  apply bind_Ok in Hrun as (st & Hst & Hrun).
  set (s := kf_spread_score (getPose p) ps (T_w_i (getState st))) in Hrun.
  assert (pass_score frame_poses frame_states ids last_kf bound k = Ok s) as Hsc.
  { unfold pass_score. rewrite Hp. simpl. rewrite Hps. simpl. rewrite Hst.
    done. }
  assert (∀ j k' s', i ≤ j < i + 1 → ids !! Z.to_nat j = Some k' →
            pass_score frame_poses frame_states ids last_kf bound k' = Ok s' → k' = k ∧ s' = s) as Hhere.
  { intros j k' s' Hj Hk' Hs'. assert (j = i) as -> by lia.
    rewrite Hk in Hk'. injection Hk' as <-. rewrite Hsc in Hs'.
    by injection Hs' as <-. }
  destruct (dlt s m) eqn:Hsm.
  - destruct (dlt_true_not_nan _ _ Hsm) as [Hs _].
    destruct (IH (i + 1) s k ltac:(lia) Hrun Hs)
      as (M & HM & HMs & Hall & Hres).
    assert (dlt s M = false) as HsM
      by (destruct HMs as [->|HMs]; [apply dlt_irrefl | by apply dlt_asym]).
    assert (dlt M m = true) as HMm
      by (destruct HMs as [->|HMs]; [done | by eapply dlt_trans]).
    exists M. split; [done|]. split; [by right|]. split.
    + intros j Hj. destruct (decide (j = i)) as [->|Hne]; [by exists k, s|].
      apply Hall. lia.
    + right. destruct Hres as [[-> ->] | (i' & Hi' & Hr & HrM & HMs' & Hbefore)].
      * exists i. split; [lia|]. split; [done|]. split; [done|].
        split; [done|]. intros j k' s' Hj. lia.
      * exists i'. split; [lia|]. split; [done|]. split; [done|].
        split; [done|]. intros j k' s' Hj Hk' Hs'.
        destruct (decide (j = i)) as [->|Hne].
        -- destruct (Hhere i k' s' ltac:(lia) Hk' Hs') as [_ ->]. by right.
        -- apply (Hbefore j k' s'); [lia | done | done].
  - destruct (IH (i + 1) m mid ltac:(lia) Hrun Hm)
      as (M & HM & HMm & Hall & Hres).
    assert (dlt s M = false) as HsM.
    { destruct HMm as [->|HMm]; [done|].
      destruct (dlt s M) eqn:HsM; [|done].
      rewrite (dlt_trans _ _ _ HsM HMm) in Hsm. done. }
    exists M. split; [done|]. split; [done|]. split.
    + intros j Hj. destruct (decide (j = i)) as [->|Hne]; [by exists k, s|].
      apply Hall. lia.
    + destruct Hres as [[-> ->] | (i' & Hi' & Hr & HrM & HMm' & Hbefore)];
        [by left|].
      right. exists i'. split; [lia|]. split; [done|]. split; [done|].
      split; [done|]. intros j k' s' Hj Hk' Hs'.
      destruct (decide (j = i)) as [->|Hne].
      * destruct (Hhere i k' s' ltac:(lia) Hk' Hs') as [_ ->].
        by apply (dlt_below_others M m s).
      * apply (Hbefore j k' s'); [lia | done | done].
Qed.

End DistanceRule.

Section DistanceRuleClaim.
Context `{Numerics}.

(** [X5] The distance rule of the eviction loop picks, among the keyframes
    other than the two newest, the first one whose score is the smallest:
    no score compares below the chosen one, and every earlier score is a
    NaN or strictly above it.  When no score is below
    [numeric_limits<double>::max()], NaN scores included, the rule leaves
    the choice at -1. *)
Theorem distance_rule_picks_first_minimum
    (frame_poses : gmap Z PoseStateWithLin)
    (frame_states : gmap Z PoseVelBiasStateWithLin) (ids : list Z) (r : Z) :
  distance_rule frame_poses frame_states ids = Ok r →
  let bound := to_size_t (Z.of_nat (length ids) - 2) in
  (∀ j, 0 ≤ j < bound →
     ∃ k s, ids !! Z.to_nat j = Some k
            ∧ kf_score frame_poses frame_states ids k = Ok s)
  ∧ ((r = -1
      ∧ ∀ j k s, 0 ≤ j < bound → ids !! Z.to_nat j = Some k →
          kf_score frame_poses frame_states ids k = Ok s →
          dlt s DBL_MAX = false)
     ∨ ∃ i s, 0 ≤ i < bound ∧ ids !! Z.to_nat i = Some r
         ∧ kf_score frame_poses frame_states ids r = Ok s
         ∧ dlt s DBL_MAX = true
         ∧ ∀ j k s', 0 ≤ j < bound → ids !! Z.to_nat j = Some k →
             kf_score frame_poses frame_states ids k = Ok s' →
             dlt s' s = false ∧ (j < i → s' = DNaN ∨ dlt s s' = true)).
Proof.
  intros Hrun. cbv zeta. unfold distance_rule in Hrun.
  apply bind_Ok in Hrun as (last_kf & Hlast & Hrun).
  assert (∀ k, kf_score frame_poses frame_states ids k
               = pass_score frame_poses frame_states ids last_kf
                   (to_size_t (Z.of_nat (length ids) - 2)) k)
    as Hscore.
  { intros k. unfold kf_score. rewrite Hlast. done. }
  destruct (distance_for_min _ _ _ _ _ _ 0 _ _ _ (Z.le_refl 0) Hrun)
    as (M & HM & HMmax & Hall & Hres); [done|].
  assert (∀ j k s, 0 ≤ j < to_size_t (Z.of_nat (length ids) - 2) → ids !! Z.to_nat j = Some k →
            kf_score frame_poses frame_states ids k = Ok s →
            dlt s M = false) as Hall'.
  { intros j k s Hj Hk Hs. destruct (Hall j Hj) as (k' & s' & Hk' & Hs' & Hlt).
    rewrite Hk in Hk'. injection Hk' as <-. rewrite Hscore, Hs' in Hs.
    by injection Hs as <-. }
  split.
  - intros j Hj. destruct (Hall j Hj) as (k & s & Hk & Hs & _).
    exists k, s. by rewrite Hscore.
  - destruct Hres as [[-> ->] | (i & Hi & Hr & HrM & HMlt & Hbefore)].
    + left. split; [done|]. exact Hall'.
    + right. exists i, M. split; [done|]. split; [done|].
      split; [by rewrite Hscore|]. split; [done|].
      intros j k s' Hj Hk Hs'. split; [by eapply Hall'|].
      intros Hji. apply (Hbefore j k s'); [lia | done | by rewrite <- Hscore].
Qed.

End DistanceRuleClaim.

Lemma distance_rule_picks_first_minimum_witness :
  distance_rule (frame_poses bench_before_eviction.1)
    (frame_states bench_before_eviction.1)
    (asc (kf_ids bench_before_eviction.1)) = Ok 1
  ∧ ∀ j,
      0 ≤ j < to_size_t
                (Z.of_nat (length (asc (kf_ids bench_before_eviction.1))) - 2) →
      ∃ k s, asc (kf_ids bench_before_eviction.1) !! Z.to_nat j = Some k
             ∧ kf_score (frame_poses bench_before_eviction.1)
                 (frame_states bench_before_eviction.1)
                 (asc (kf_ids bench_before_eviction.1)) k = Ok s.
Proof.
  assert (distance_rule (frame_poses bench_before_eviction.1)
            (frame_states bench_before_eviction.1)
            (asc (kf_ids bench_before_eviction.1)) = Ok 1) as Hrun
    by (vm_compute; reflexivity).
  split; [exact Hrun|].
  exact (proj1 (distance_rule_picks_first_minimum _ _ _ _ Hrun)).
Defined.


(** ** What [marginalize] does to the window *)

Section MarginalizeWindow.
Context `{Kernels}.

Lemma marg_poses_loop_Ok (marg_order : AbsOrderMap) (kf_ids : gset Z)
    (keys : list Z) (aom aom' : AbsOrderMap) (poses poses' : gset Z) :
  marg_poses_loop marg_order kf_ids keys aom poses = Ok (aom', poses') →
  ∀ k, k ∈ poses' ↔ k ∈ poses ∨ (k ∈ keys ∧ k ∉ kf_ids).
Proof.
  revert aom poses. induction keys as [|k0 keys IH]; intros aom poses Hrun k;
    simpl in Hrun.
  - injection Hrun as <- <-. rewrite elem_of_nil. tauto.
  - apply bind_Ok in Hrun as (u & _ & Hrun). rewrite (IH _ _ Hrun k).
    rewrite elem_of_cons. case_decide as Hkf; [|rewrite elem_of_union,
      elem_of_singleton]; split; try tauto.
    + intros [?|([->|?] & ?)]; tauto.
    + intros [[->|?]|?]; tauto.
Qed.

Lemma marg_select_poses (e : KeypointVioEstimator) (sel : MargSelection) :
  marg_select e = Ok sel →
  ∀ k, k ∈ sel_poses_to_marg sel ↔ k ∈ dom (frame_poses e) ∧ k ∉ kf_ids e.
Proof.
  unfold marg_select. intros Hrun k.
  apply bind_Ok in Hrun as (last & _ & Hrun).
  apply bind_Ok in Hrun as ([aom0 poses0] & Hloop & Hrun).
  apply bind_Ok in Hrun as ([[aom vb] al] & _ & Hrun).
  injection Hrun as <-. cbn [sel_poses_to_marg].
  rewrite (marg_poses_loop_Ok _ _ _ _ _ _ _ Hloop k), asc_elem_of.
  set_solver.
Qed.

Lemma demote_states_lookup (ids : list Z)
    (frame_states frame_states' : gmap Z PoseVelBiasStateWithLin)
    (frame_poses frame_poses' : gmap Z PoseStateWithLin)
    (imu_meas imu_meas' : gmap Z IntegratedImuMeasurement) :
  NoDup ids →
  demote_states ids frame_states frame_poses imu_meas
  = Ok (frame_states', frame_poses', imu_meas') →
  ∀ k,
    frame_states' !! k
    = (if decide (k ∈ ids) then None else frame_states !! k)
    ∧ frame_poses' !! k
      = (if decide (k ∈ ids) then PoseStateWithLin_of <$> frame_states !! k
         else frame_poses !! k)
    ∧ imu_meas' !! k = (if decide (k ∈ ids) then None else imu_meas !! k).
Proof.
  revert frame_states frame_poses imu_meas.
  induction ids as [|id ids IH]; intros fs fp im Hnd Hrun k; simpl in Hrun.
  - injection Hrun as <- <- <-.
    rewrite !decide_False by apply not_elem_of_nil. done.
  - apply list.NoDup_cons in Hnd as [Hid Hnd].
    apply bind_Ok in Hrun as (state & Hstate & Hrun).
    apply map_at_Ok in Hstate.
    destruct (IH _ _ _ Hnd Hrun k) as (-> & -> & ->).
    destruct (decide (k = id)) as [->|Hne].
    + rewrite !(decide_True (P := id ∈ id :: ids)) by apply list_elem_of_here.
      rewrite !lookup_delete_eq, lookup_insert_eq, Hstate. simpl.
      destruct (decide (id ∈ ids)); done.
    + rewrite !lookup_delete_ne, lookup_insert_ne by done.
      destruct (decide (k ∈ ids)) as [Hin|Hout].
      * rewrite !(decide_True (P := k ∈ id :: ids))
          by (by apply list_elem_of_further). done.
      * rewrite !(decide_False (P := k ∈ id :: ids)); [done|..];
          rewrite elem_of_cons; tauto.
Qed.

(** The body of [marginalize], member by member: the states from
    [last_state_to_marg] on stay, that one pinned as linearisation point;
    an older keyframe state becomes a pose unless it is evicted; the maps
    of preintegrations and optical flow results follow; the new prior is
    laid out over the poses that are left and [last_state_to_marg]. *)
Lemma marg_apply_window (npc : gmap Z Z) (sel : MargSelection)
    (e e' : KeypointVioEstimator) :
  marg_select e = Ok sel →
  marg_apply npc sel e = Ok e' →
  let last := last_state_to_marg sel in
  let older := states_to_marg_vel_bias sel ∪ states_to_marg_all sel in
  let gone := (kf_ids e ∖ kf_ids e') ∪ sel_poses_to_marg sel in
  kf_ids e' ⊆ kf_ids e
  ∧ (∀ k, frame_states e' !! k
          = if decide (k ∈ older) then None
            else if decide (k = last) then setLinTrue <$> frame_states e !! k
            else frame_states e !! k)
  ∧ (∀ k, frame_poses e' !! k
          = if decide (k ∈ gone) then None
            else if decide (k ∈ states_to_marg_vel_bias sel)
            then PoseStateWithLin_of <$> frame_states e !! k
            else frame_poses e !! k)
  ∧ (∀ k, imu_meas e' !! k
          = if decide (k ∈ older) then None else imu_meas e !! k)
  ∧ (∀ k, prev_opt_flow_res e' !! k
          = if decide (k ∈ states_to_marg_all sel ∪ gone) then None
            else prev_opt_flow_res e !! k)
  ∧ marg_order e' = marg_order_of (asc (dom (frame_poses e'))) last
  ∧ last_state_t_ns e' = last_state_t_ns e.
Proof.
  intros Hsel Happly last older gone.
  pose proof (marg_select_Ok _ _ Hsel) as (Hidx & Hvb & Hall).
  unfold marg_apply in Happly.
  apply bind_Ok in Happly as ([[kf1 kfs] poses] & Hevict & Hrun).
  apply bind_Ok in Hrun as (queue & _ & Hrun).
  apply bind_Ok in Hrun as ([keep marg] & _ & Hrun).
  destruct (marginalizeHelper _ _ _ _) as [marg_H_new marg_b_new].
  apply bind_Ok in Hrun as (last_state & Hlast & Hrun).
  apply map_at_Ok in Hlast.
  apply bind_Ok in Hrun as (u1 & _ & Hrun).
  apply bind_Ok in Hrun as ([[fs2 fp2] im2] & Hdemote & Hrun).
  apply bind_Ok in Hrun as (u2 & _ & Hrun).
  apply evict_loop_Ok in Hevict as (Hsub & _ & Hposes & _ & _).
  assert (∀ k,
    fs2 !! k
    = (if decide (k ∈ states_to_marg_vel_bias sel) then None
       else erase_all (states_to_marg_all sel)
              (<[last_state_to_marg sel := setLinTrue last_state]>
                 (frame_states e)) !! k)
    ∧ fp2 !! k
      = (if decide (k ∈ states_to_marg_vel_bias sel)
         then PoseStateWithLin_of
              <$> erase_all (states_to_marg_all sel)
                    (<[last_state_to_marg sel := setLinTrue last_state]>
                       (frame_states e)) !! k
         else frame_poses e !! k)
    ∧ im2 !! k
      = (if decide (k ∈ states_to_marg_vel_bias sel) then None
         else erase_all (states_to_marg_all sel) (imu_meas e) !! k))
    as Hdem.
  { intros k.
    destruct (demote_states_lookup _ _ _ _ _ _ _ (asc_NoDup _) Hdemote k)
      as (-> & -> & ->).
    rewrite !(decide_ext (k ∈ asc (states_to_marg_vel_bias sel))
                (k ∈ states_to_marg_vel_bias sel)) by apply asc_elem_of.
    done. }
  assert (e' = set_marg_b
            (sub_mul marg_b_new marg_H_new
               (computeDelta
                  (marg_order_of (asc (dom (erase_all poses fp2))) last)
                  fs2 (erase_all poses fp2)))
          (set_marg_H marg_H_new
          (set_marg_order
             (marg_order_of (asc (dom (erase_all poses fp2))) last)
          (set_lmdb
             (removeKeyframes kfs poses (states_to_marg_all sel) (lmdb e))
          (set_prev_opt_flow_res
             (erase_all poses
                (erase_all (states_to_marg_all sel) (prev_opt_flow_res e)))
          (set_imu_meas im2
          (set_frame_poses (erase_all poses fp2)
          (set_frame_states fs2
          (set_out_marg_queue queue
          (set_kf_ids kf1 e)))))))))) as He'
    by (by injection Hrun as <-).
  clear Hrun.
  assert (kf_ids e' = kf1) as Hkf by (by rewrite He').
  assert (poses = gone) as Hgone.
  { unfold gone. rewrite Hkf. rewrite Hposes. done. }
  assert (∀ k, k ∈ states_to_marg_vel_bias sel →
            (k ∉ states_to_marg_all sel) ∧ k ≠ last) as Hvb_other.
  { intros k Hk. apply Hvb in Hk as (_ & Hlt & Hk). split.
    - intros Hk'. apply Hall in Hk' as (_ & _ & Hk'). done.
    - unfold last. lia. }
  split; [by rewrite Hkf|]. split; [|split; [|split; [|split; [|split]]]].
  - intros k. rewrite He'. cbn [frame_states set_marg_b set_marg_H
      set_marg_order set_lmdb set_prev_opt_flow_res set_imu_meas
      set_frame_poses set_frame_states].
    destruct (Hdem k) as (-> & _ & _).
    rewrite erase_all_lookup. unfold older.
    destruct (decide (k ∈ states_to_marg_vel_bias sel)) as [Hk|Hk].
    { rewrite decide_True by set_solver. done. }
    destruct (decide (k ∈ states_to_marg_all sel)) as [Hk'|Hk'].
    { rewrite decide_True by set_solver. done. }
    rewrite decide_False by set_solver.
    destruct (decide (k = last)) as [->|Hne].
    + rewrite lookup_insert_eq. fold last in Hlast. by rewrite Hlast.
    + by rewrite lookup_insert_ne.
  - intros k. rewrite He'. cbn [frame_poses set_marg_b set_marg_H
      set_marg_order set_lmdb set_prev_opt_flow_res set_imu_meas
      set_frame_poses].
    rewrite erase_all_lookup, Hgone. case_decide; [done|].
    destruct (Hdem k) as (_ & -> & _).
    case_decide as Hk; [|done].
    destruct (Hvb_other k Hk) as [Hnall Hne].
    rewrite erase_all_lookup, decide_False by done.
    by rewrite lookup_insert_ne.
  - intros k. rewrite He'. cbn [imu_meas set_marg_b set_marg_H
      set_marg_order set_lmdb set_prev_opt_flow_res set_imu_meas].
    destruct (Hdem k) as (_ & _ & ->).
    rewrite erase_all_lookup. unfold older.
    destruct (decide (k ∈ states_to_marg_vel_bias sel)) as [Hk|Hk].
    { rewrite decide_True by set_solver. done. }
    destruct (decide (k ∈ states_to_marg_all sel)) as [Hk'|Hk'].
    { rewrite decide_True by set_solver. done. }
    rewrite decide_False by set_solver. done.
  - intros k. rewrite He'. cbn [prev_opt_flow_res set_marg_b set_marg_H
      set_marg_order set_lmdb set_prev_opt_flow_res].
    rewrite !erase_all_lookup, Hgone.
    destruct (decide (k ∈ gone)) as [Hk|Hk].
    { rewrite decide_True by set_solver. done. }
    destruct (decide (k ∈ states_to_marg_all sel)) as [Hk'|Hk'].
    { rewrite decide_True by set_solver. done. }
    rewrite decide_False by set_solver. done.
  - rewrite He'. done.
  - rewrite He'. done.
Qed.

End MarginalizeWindow.


(** ** What [optimize] leaves alone *)

Section OptimizeInvariant.
Context `{Kernels}.
Variable R : KeypointVioEstimator → KeypointVioEstimator → Prop.
Hypothesis R_refl : ∀ e, R e e.
Hypothesis R_trans : ∀ e1 e2 e3, R e1 e2 → R e2 e3 → R e1 e3.
Hypothesis R_trial : ∀ aom accum err e, R e (lm_trial aom accum err e).2.
Hypothesis R_gn : ∀ aom accum e, R e (gn_step aom accum e).2.
Hypothesis R_filter : ∀ thr n e, R e (filterOutliers thr n e).
Hypothesis R_started : ∀ e, R e (set_opt_started true e).

Lemma lm_loop_related (max_iter : nat) (aom : AbsOrderMap) (accum : Accum)
    (error_before : double) (e : KeypointVioEstimator) :
  R e (lm_loop max_iter aom accum error_before e).2.
Proof.
  revert e. induction max_iter as [|n IH]; intros e; simpl; [done|].
  pose proof (R_trial aom accum error_before e) as Hst.
  destruct (lm_trial aom accum error_before e) as [[step converged] e1].
  simpl in *. destruct (step || converged); simpl; [done|].
  by eapply R_trans.
Qed.

Lemma opt_iterations_related (todo : nat) (iter : Z) (aom : AbsOrderMap)
    (e : KeypointVioEstimator) :
  R e (opt_iterations todo iter aom e).
Proof.
  revert iter e. induction todo as [|n IH]; intros iter e; [done|].
  rewrite opt_iterations_S.
  assert (∃ r : bool * KeypointVioEstimator,
    (if vio_use_lm (config e)
     then lm_loop 10 aom (opt_linearize e aom)
            (error_total (lin_errors e aom)) e
     else gn_step aom (opt_linearize e aom) e) = r
    ∧ R e r.2) as (r & -> & Hst).
  { eexists. split; [done|]. destruct (vio_use_lm (config e));
      [apply lm_loop_related | apply R_gn]. }
  destruct r as [converged e1]. cbn [fst snd] in *. cbv zeta.
  assert (∃ e2,
    (if decide (iter = vio_filter_iteration (config e1))
     then filterOutliers (vio_outlier_threshold (config e1)) 4 e1
     else e1) = e2 ∧ R e1 e2) as (e2 & -> & Hst2).
  { eexists. split; [done|]. case_decide; [apply R_filter | apply R_refl]. }
  destruct converged; [by eapply R_trans|].
  eapply R_trans; [|apply IH]. by eapply R_trans.
Qed.

Lemma optimize_related (e e' : KeypointVioEstimator) :
  optimize e = Ok e' → R e e'.
Proof.
  unfold optimize. intros Hrun.
  destruct (opt_started e || bool_decide _).
  - apply bind_Ok in Hrun as (aom0 & _ & Hrun).
    apply bind_Ok in Hrun as (aom & _ & Hrun). injection Hrun as <-.
    eapply R_trans; [apply R_started | apply opt_iterations_related].
  - by injection Hrun as <-.
Qed.

End OptimizeInvariant.

Section OptimizeFrame.
Context `{Kernels}.

Lemma optimize_frame (e e' : KeypointVioEstimator) :
  optimize e = Ok e' → opt_frame e e'.
Proof.
  apply optimize_related.
  - intros e0. unfold opt_frame. done.
  - unfold opt_frame. intros e1 e2 e3 (A1&A2&A3&A4&A5&A6&A7&A8)
      (B1&B2&B3&B4&B5&B6&B7&B8). repeat split; congruence.
  - intros aom accum err e0. rewrite lm_trial_unfold. cbv zeta.
    destruct (dlt _ (DFin 0)); unfold opt_frame; done.
  - intros aom accum e0. unfold opt_frame. done.
  - intros thr n e0. unfold opt_frame. done.
  - intros e0. unfold opt_frame. done.
Qed.

(** [X6] [optimize] changes estimates only.  It leaves alone the
    marginalisation prior and its order, the preintegrated measurements,
    the stored optical flow results and the output queue, and it changes
    neither the set of frames in the window, nor which of them are
    keyframes, nor the counts taken at the keyframes; the landmarks it
    leaves are landmarks it found, with their host frame. *)
Theorem optimize_changes_estimates_only (e e' : KeypointVioEstimator) :
  optimize e = Ok e' →
  opt_frame e e' ∧ opt_stable e e'.
Proof.
  intros Hrun. split; [by apply optimize_frame|].
  by apply optimize_Ok in Hrun as [Hst _].
Qed.

End OptimizeFrame.

Lemma optimize_changes_estimates_only_witness :
  optimize bench_twelfth_front.1 = Ok bench_before_eviction.1
  ∧ opt_frame bench_twelfth_front.1 bench_before_eviction.1.
Proof.
  assert (optimize bench_twelfth_front.1 = Ok bench_before_eviction.1)
    as Hrun by (vm_compute; reflexivity).
  split; [exact Hrun|].
  exact (proj1 (optimize_changes_estimates_only _ _ Hrun)).
Defined.


(** ** The order of the prior and the checks against it *)

Section OrderLayout.
Context `{Kernels}.

Lemma aom_lay_cons (sz k : Z) (keys : list Z) (aom : AbsOrderMap) :
  aom_lay sz (k :: keys) aom
  = aom_lay sz keys (aom_advance sz (aom_assign k sz aom)).
Proof. reflexivity. Qed.

Lemma aom_lay_size (sz : Z) (keys : list Z) (aom : AbsOrderMap) :
  total_size (aom_lay sz keys aom)
  = total_size aom + sz * Z.of_nat (length keys)
  ∧ items (aom_lay sz keys aom) = items aom + Z.of_nat (length keys).
Proof.
  revert aom. induction keys as [|k keys IH]; intros aom.
  - simpl. lia.
  - rewrite aom_lay_cons. destruct (IH (aom_advance sz (aom_assign k sz aom)))
      as [-> ->]. cbn [total_size items aom_advance aom_assign length].
    lia.
Qed.

Lemma aom_lay_lookup_other (sz : Z) (keys : list Z) (aom : AbsOrderMap)
    (k : Z) :
  k ∉ keys →
  abs_order_map (aom_lay sz keys aom) !! k = abs_order_map aom !! k.
Proof.
  revert aom. induction keys as [|k0 keys IH]; intros aom Hk; [done|].
  rewrite aom_lay_cons, IH by (rewrite elem_of_cons in Hk; tauto).
  cbn [abs_order_map aom_advance aom_assign].
  rewrite lookup_insert_ne; [done|]. intros ->. apply Hk, list_elem_of_here.
Qed.

Lemma aom_lay_lookup (sz : Z) (keys : list Z) (aom : AbsOrderMap)
    (i : nat) (k : Z) :
  NoDup keys → keys !! i = Some k →
  abs_order_map (aom_lay sz keys aom) !! k
  = Some (total_size aom + sz * Z.of_nat i, sz).
Proof.
  revert aom i. induction keys as [|k0 keys IH]; intros aom i Hnd Hi; [done|].
  apply list.NoDup_cons in Hnd as [Hk0 Hnd]. rewrite aom_lay_cons.
  destruct i as [|i].
  - injection Hi as ->. rewrite aom_lay_lookup_other by done.
    cbn [abs_order_map aom_advance aom_assign]. rewrite lookup_insert_eq.
    do 2 f_equal. lia.
  - rewrite (IH _ i Hnd Hi). cbn [total_size aom_advance aom_assign].
    do 2 f_equal. lia.
Qed.

Lemma aom_lay_dom (sz : Z) (keys : list Z) (aom : AbsOrderMap) :
  dom (abs_order_map (aom_lay sz keys aom))
  = dom (abs_order_map aom) ∪ list_to_set keys.
Proof.
  revert aom. induction keys as [|k keys IH]; intros aom.
  - simpl. set_solver.
  - rewrite aom_lay_cons, IH. cbn [abs_order_map aom_advance aom_assign].
    rewrite dom_insert_L. set_solver.
Qed.

(** The order [marginalize] leaves: the poses, six columns each, then the
    oldest state. *)
Lemma marg_order_of_lookup_pose (keys : list Z) (last : Z) (i : nat) (k : Z) :
  NoDup keys → last ∉ keys → keys !! i = Some k →
  abs_order_map (marg_order_of keys last) !! k
  = Some (6 * Z.of_nat i, POSE_SIZE).
Proof.
  intros Hnd Hlast Hi. unfold marg_order_of.
  cbn [abs_order_map aom_advance aom_assign].
  rewrite lookup_insert_ne.
  - change (foldl _ AbsOrderMap_empty keys)
      with (aom_lay POSE_SIZE keys AbsOrderMap_empty).
    rewrite (aom_lay_lookup _ _ _ i k Hnd Hi). done.
  - intros ->. apply Hlast. by eapply list_elem_of_lookup_2.
Qed.

Lemma marg_order_of_lookup_last (keys : list Z) (last : Z) :
  abs_order_map (marg_order_of keys last) !! last
  = Some (6 * Z.of_nat (length keys), POSE_VEL_BIAS_SIZE).
Proof.
  unfold marg_order_of. cbn [abs_order_map aom_advance aom_assign].
  rewrite lookup_insert_eq.
  change (foldl _ AbsOrderMap_empty keys)
    with (aom_lay POSE_SIZE keys AbsOrderMap_empty).
  destruct (aom_lay_size POSE_SIZE keys AbsOrderMap_empty) as [-> _]. done.
Qed.

Lemma marg_order_of_size (keys : list Z) (last : Z) :
  NoDup keys → last ∉ keys →
  size (abs_order_map (marg_order_of keys last)) = S (length keys)
  ∧ total_size (marg_order_of keys last) = 6 * Z.of_nat (length keys) + 15
  ∧ items (marg_order_of keys last) = Z.of_nat (length keys) + 1.
Proof.
  intros Hnd Hlast. unfold marg_order_of.
  change (foldl _ AbsOrderMap_empty keys)
    with (aom_lay POSE_SIZE keys AbsOrderMap_empty).
  cbn [abs_order_map total_size items aom_advance aom_assign].
  destruct (aom_lay_size POSE_SIZE keys AbsOrderMap_empty) as [-> ->].
  split; [|done].
  rewrite map_size_insert_None.
  - rewrite <- size_dom, aom_lay_dom. cbn [abs_order_map AbsOrderMap_empty].
    rewrite dom_empty_L, (left_id_L ∅ (∪)). by rewrite size_list_to_set.
  - apply not_elem_of_dom. rewrite aom_lay_dom.
    cbn [abs_order_map AbsOrderMap_empty]. rewrite dom_empty_L.
    rewrite elem_of_union, elem_of_list_to_set. set_solver.
Qed.

(** The loops over the poses pass their checks when the prior lays the
    poses out the way the loop does. *)
Lemma assert_same_order_assigned (marg_order aom : AbsOrderMap) (k sz : Z) :
  abs_order_map marg_order !! k = Some (total_size aom, sz) →
  assert_same_order marg_order (aom_assign k sz aom) k = Ok tt.
Proof.
  intros Hk. unfold assert_same_order, map_at. rewrite Hk. simpl.
  rewrite lookup_insert_eq. simpl. by rewrite bool_decide_eq_true_2.
Qed.

Lemma opt_poses_loop_passes (marg_order : AbsOrderMap) (keys : list Z)
    (aom : AbsOrderMap) :
  (∀ i k, keys !! i = Some k →
     abs_order_map marg_order !! k
     = Some (total_size aom + 6 * Z.of_nat i, POSE_SIZE)) →
  opt_poses_loop marg_order keys aom = Ok (aom_lay POSE_SIZE keys aom).
Proof.
  revert aom. induction keys as [|k keys IH]; intros aom Hkeys; [done|].
  cbn [opt_poses_loop]. rewrite aom_lay_cons, assert_same_order_assigned.
  - cbn [mbind outcome_bind]. apply IH. intros i k' Hi.
    rewrite (Hkeys (S i) k' Hi).
    cbn [total_size aom_advance aom_assign]. unfold POSE_SIZE.
    do 2 f_equal. lia.
  - rewrite (Hkeys 0%nat k eq_refl). do 2 f_equal. lia.
Qed.

Lemma marg_poses_loop_passes (marg_order : AbsOrderMap) (kf_ids : gset Z)
    (keys : list Z) (aom : AbsOrderMap) (poses : gset Z) :
  (∀ i k, keys !! i = Some k →
     abs_order_map marg_order !! k
     = Some (total_size aom + 6 * Z.of_nat i, POSE_SIZE)) →
  ∃ poses',
    marg_poses_loop marg_order kf_ids keys aom poses
    = Ok (aom_lay POSE_SIZE keys aom, poses').
Proof.
  revert aom poses. induction keys as [|k keys IH]; intros aom poses Hkeys.
  - by exists poses.
  - cbn [marg_poses_loop]. cbv zeta.
    rewrite aom_lay_cons, assert_same_order_assigned.
    + cbn [mbind outcome_bind]. apply IH. intros i k' Hi.
      rewrite (Hkeys (S i) k' Hi).
      cbn [total_size aom_advance aom_assign]. unfold POSE_SIZE.
      do 2 f_equal. lia.
    + rewrite (Hkeys 0%nat k eq_refl). do 2 f_equal. lia.
Qed.

(** Past the entries of the prior the loops over the states check
    nothing. *)
Lemma opt_states_loop_unchecked (marg_order : AbsOrderMap) (keys : list Z)
    (aom : AbsOrderMap) :
  Z.of_nat (size (abs_order_map marg_order)) ≤ items aom →
  opt_states_loop marg_order keys aom
  = Ok (aom_lay POSE_VEL_BIAS_SIZE keys aom).
Proof.
  revert aom. induction keys as [|k keys IH]; intros aom Hitems; [done|].
  cbn [opt_states_loop]. cbv zeta.
  rewrite decide_False by (unfold aom_assign; cbn [items]; lia).
  cbn [mbind outcome_bind mret outcome_ret].
  rewrite aom_lay_cons. apply IH. cbn [items aom_advance aom_assign]. lia.
Qed.

Lemma marg_states_loop_unchecked (marg_order : AbsOrderMap) (kf_ids : gset Z)
    (last : Z) (keys : list Z) (aom : AbsOrderMap) (vb al : gset Z) :
  Z.of_nat (size (abs_order_map marg_order)) ≤ items aom →
  ∃ r, marg_states_loop marg_order kf_ids last keys aom vb al = Ok r.
Proof.
  revert aom vb al. induction keys as [|k keys IH]; intros aom vb al Hitems.
  - by eexists.
  - cbn [marg_states_loop]. cbv zeta. case_decide; [by eexists|].
    rewrite (decide_False (P := items _ < _))
      by (unfold aom_assign; cbn [items]; lia).
    cbn [mbind outcome_bind mret outcome_ret].
    apply IH. cbn [items aom_advance aom_assign]. lia.
Qed.

End OrderLayout.


(** ** Well-formed windows *)

Lemma asc_head (s : gset Z) (m : Z) :
  head (asc s) = Some m ↔ m ∈ s ∧ ∀ k, k ∈ s → m ≤ k.
Proof.
  split.
  - intros Hhead. destruct (asc s) as [|x l] eqn:Hasc; [done|].
    injection Hhead as ->. split.
    + apply asc_elem_of. rewrite Hasc. apply list_elem_of_here.
    + intros k Hk. apply asc_elem_of in Hk. rewrite Hasc in Hk.
      pose proof (asc_sorted s) as Hs. rewrite Hasc in Hs.
      apply StronglySorted_inv in Hs as [_ Hall].
      rewrite list.Forall_forall in Hall.
      apply elem_of_cons in Hk as [->|Hk]; [lia | by apply Hall].
  - intros [Hm Hmin]. destruct (asc s) as [|x l] eqn:Hasc.
    + apply asc_elem_of in Hm. rewrite Hasc in Hm. by apply elem_of_nil in Hm.
    + simpl. f_equal.
      assert (x ∈ s) as Hx
        by (apply asc_elem_of; rewrite Hasc; apply list_elem_of_here).
      assert (x ≤ m) as Hxm.
      { apply asc_elem_of in Hm. rewrite Hasc in Hm.
        pose proof (asc_sorted s) as Hs. rewrite Hasc in Hs.
        apply StronglySorted_inv in Hs as [_ Hall].
        rewrite list.Forall_forall in Hall.
        apply elem_of_cons in Hm as [->|Hm]; [lia | by apply Hall]. }
      specialize (Hmin x Hx). lia.
Qed.

Section OrderChecks.
Context `{Kernels}.

(** Against the order [marginalize] leaves, the loops over the poses and
    over the states pass every check. *)
Lemma order_checks_pass (keys : list Z) (first : Z) (rest : list Z) :
  NoDup keys → first ∉ keys →
  let mo := marg_order_of keys first in
  let aom0 := aom_lay POSE_SIZE keys AbsOrderMap_empty in
  opt_poses_loop mo keys AbsOrderMap_empty = Ok aom0
  ∧ opt_states_loop mo (first :: rest) aom0
    = Ok (aom_lay POSE_VEL_BIAS_SIZE (first :: rest) aom0)
  ∧ (∀ kf_ids, ∃ poses,
       marg_poses_loop mo kf_ids keys AbsOrderMap_empty ∅ = Ok (aom0, poses))
  ∧ (∀ kf_ids last, ∃ r,
       marg_states_loop mo kf_ids last (first :: rest) aom0 ∅ ∅ = Ok r).
Proof.
  intros Hnd Hfirst mo aom0.
  assert (∀ (i : nat) k, keys !! i = Some k →
            abs_order_map mo !! k
            = Some (total_size AbsOrderMap_empty + 6 * Z.of_nat i, POSE_SIZE))
    as Hposes.
  { intros i k Hi. unfold mo.
    by rewrite (marg_order_of_lookup_pose keys first i k Hnd Hfirst Hi). }
  destruct (marg_order_of_size keys first Hnd Hfirst) as (Hsize & _ & _).
  destruct (aom_lay_size POSE_SIZE keys AbsOrderMap_empty) as [Htot Hitems].
  fold aom0 in Htot, Hitems. fold mo in Hsize.
  cbn [total_size items AbsOrderMap_empty] in Htot, Hitems.
  assert (assert_same_order mo
            (aom_assign first POSE_VEL_BIAS_SIZE aom0) first = Ok tt)
    as Hcheck.
  { apply assert_same_order_assigned. unfold mo.
    rewrite marg_order_of_lookup_last, Htot. unfold POSE_SIZE.
    do 2 f_equal. }
  split; [by apply opt_poses_loop_passes|]. split; [|split].
  - cbn [opt_states_loop]. cbv zeta.
    rewrite decide_True by (unfold aom_assign; cbn [items]; lia).
    rewrite Hcheck. cbn [mbind outcome_bind]. rewrite aom_lay_cons.
    apply opt_states_loop_unchecked.
    unfold aom_assign, aom_advance. cbn [items]. lia.
  - intros kf_ids. by apply marg_poses_loop_passes.
  - intros kf_ids last. cbn [marg_states_loop]. cbv zeta.
    case_decide; [by eexists|].
    rewrite (decide_True (P := items _ < _))
      by (unfold aom_assign; cbn [items]; lia).
    rewrite Hcheck. cbn [mbind outcome_bind].
    apply marg_states_loop_unchecked.
    unfold aom_assign, aom_advance. cbn [items]. lia.
Qed.

Lemma window_wf_order (e : KeypointVioEstimator) :
  window_wf e →
  ∃ first rest,
    asc (dom (frame_states e)) = first :: rest
    ∧ marg_order e = marg_order_of (asc (dom (frame_poses e))) first
    ∧ first ∉ asc (dom (frame_poses e)).
Proof.
  intros (_ & _ & Hlt & (first & Hhead & Hmo) & _).
  destruct (asc (dom (frame_states e))) as [|x rest] eqn:Hasc; [done|].
  injection Hhead as ->. exists first, rest. split; [done|]. split; [done|].
  intros Hin. apply asc_elem_of in Hin.
  assert (first ∈ dom (frame_states e)) as Hfs
    by (apply asc_elem_of; rewrite Hasc; apply list_elem_of_here).
  specialize (Hlt first first Hin Hfs). lia.
Qed.

(** On a well-formed window [optimize] passes its checks of the order. *)
Lemma optimize_total (e : KeypointVioEstimator) :
  window_wf e → ∃ e', optimize e = Ok e'.
Proof.
  intros Hwf. destruct (window_wf_order e Hwf) as (first & rest & Hasc & Hmo & Hfirst).
  unfold optimize. destruct (opt_started e || bool_decide _); [|by eexists].
  cbn [marg_order frame_poses frame_states set_opt_started].
  rewrite Hmo, Hasc.
  destruct (order_checks_pass _ first rest (asc_NoDup _) Hfirst)
    as (-> & Hstates & _).
  cbn [mbind outcome_bind]. rewrite Hstates. cbn [mbind outcome_bind].
  by eexists.
Qed.

End OrderChecks.


Section WindowPreserved.
Context `{Kernels}.

(** [window_wf] reads seven members only. *)
Lemma window_wf_ext (e e' : KeypointVioEstimator) :
  last_state_t_ns e' = last_state_t_ns e →
  dom (frame_states e') = dom (frame_states e) →
  dom (frame_poses e') = dom (frame_poses e) →
  marg_order e' = marg_order e →
  kf_ids e' = kf_ids e →
  prev_opt_flow_res e' = prev_opt_flow_res e →
  max_kfs e' = max_kfs e →
  window_wf e → window_wf e'.
Proof.
  unfold window_wf. intros Hl Hfs Hfp Hmo Hkf Hpofr Hmax.
  rewrite <- !size_dom, Hl, Hfs, Hfp, Hmo, Hkf, Hpofr, Hmax. done.
Qed.

(** Construction and [initialize] leave a well-formed window. *)
Lemma initialize_wf (g0 : Vec3) (calib0 : Calib) (cfg : VioConfig)
    (t : Z) (T : SE3) (vel bg ba : Vec3) :
  window_wf (initialize t T vel bg ba (KeypointVioEstimator_new g0 calib0 cfg)).
Proof.
  unfold window_wf.
  cbn [initialize KeypointVioEstimator_new last_state_t_ns frame_states
       frame_poses marg_order kf_ids prev_opt_flow_res max_kfs set_marg_order
       set_frame_states set_imu_meas set_last_state_t_ns].
  rewrite insert_empty, dom_singleton_L, !dom_empty_L.
  split; [set_solver|]. split; [set_solver|]. split; [set_solver|].
  split.
  { exists t. split; [|done]. apply asc_head. set_solver. }
  split; [done|]. split; [set_solver|]. split; [done|]. split; [set_solver|].
  rewrite map_size_empty. unfold to_size_t, size_t_mod.
  pose proof (Z.mod_pos_bound (vio_max_kfs cfg) (2 ^ 64)). lia.
Qed.

(** What the front of [measure] does to the members [window_wf] reads. *)
Lemma measure_front_window (flow : OpticalFlowResult)
    (meas : option IntegratedImuMeasurement)
    (e e5 : KeypointVioEstimator) (npc : gmap Z Z) :
  measure_front flow meas e = Ok (e5, npc) →
  last_state_t_ns e5
  = (if meas is Some _ then of_t_ns flow else last_state_t_ns e)
  ∧ dom (frame_states e5)
    = (if meas is Some _
       then {[of_t_ns flow]} ∪ ({[last_state_t_ns e]} ∪ dom (frame_states e))
       else dom (frame_states e))
  ∧ frame_poses e5 = frame_poses e
  ∧ marg_order e5 = marg_order e
  ∧ (kf_ids e5 = kf_ids e ∨ kf_ids e5 = {[last_state_t_ns e5]} ∪ kf_ids e)
  ∧ dom (prev_opt_flow_res e5) = {[of_t_ns flow]} ∪ dom (prev_opt_flow_res e)
  ∧ max_kfs e5 = max_kfs e.
Proof.
  unfold measure_front. intros Hrun.
  apply bind_Ok in Hrun as ([e4 a] & Hdec & Hrun).
  apply bind_Ok in Hrun as (e5' & Hstep & Hrun). injection Hrun as -> _.
  apply measure_decide_Ok in Hdec as (e1 & Hprop & He4 & _).
  assert (last_state_t_ns e1
          = (if meas is Some _ then of_t_ns flow else last_state_t_ns e)
          ∧ dom (frame_states e1)
            = (if meas is Some _
               then {[of_t_ns flow]}
                    ∪ ({[last_state_t_ns e]} ∪ dom (frame_states e))
               else dom (frame_states e))
          ∧ frame_poses e1 = frame_poses e ∧ marg_order e1 = marg_order e
          ∧ kf_ids e1 = kf_ids e
          ∧ prev_opt_flow_res e1 = prev_opt_flow_res e
          ∧ max_kfs e1 = max_kfs e) as (Hl1 & Hfs1 & Hfp1 & Hmo1 & Hkf1 & Hpo1 & Hmax1).
  { apply propagate_state_Ok in Hprop
      as [[-> ->] | (m & fs & -> & -> & Hdom)]; done. }
  assert (last_state_t_ns e4 = last_state_t_ns e1
          ∧ frame_states e4 = frame_states e1
          ∧ frame_poses e4 = frame_poses e1 ∧ marg_order e4 = marg_order e1
          ∧ kf_ids e4 = kf_ids e1
          ∧ prev_opt_flow_res e4
            = <[of_t_ns flow := flow]> (prev_opt_flow_res e1)
          ∧ max_kfs e4 = max_kfs e1) as (Hl4 & Hfs4 & Hfp4 & Hmo4 & Hkf4 & Hpo4 & Hmax4)
    by (by rewrite He4).
  assert (last_state_t_ns e5 = last_state_t_ns e4
          ∧ frame_states e5 = frame_states e4
          ∧ frame_poses e5 = frame_poses e4 ∧ marg_order e5 = marg_order e4
          ∧ (kf_ids e5 = kf_ids e4
             ∨ kf_ids e5 = {[last_state_t_ns e4]} ∪ kf_ids e4)
          ∧ prev_opt_flow_res e5 = prev_opt_flow_res e4
          ∧ max_kfs e5 = max_kfs e4) as (Hl5 & Hfs5 & Hfp5 & Hmo5 & Hkf5 & Hpo5 & Hmax5).
  { apply keyframe_step_Ok in Hstep
      as [[_ ->] | (e2 & n & db & _ & _ & -> & _)].
    - repeat split; try done. by left.
    - repeat split; try done. by right. }
  split; [congruence|]. split; [congruence|]. split; [congruence|].
  split; [congruence|]. split.
  { rewrite Hl5, <- Hkf1, <- Hkf4. done. }
  split; [|congruence].
  rewrite Hpo5, Hpo4, Hpo1. apply dom_insert_L.
Qed.

(** The front of [measure] keeps the window well formed when the frame
    comes in time order. *)
Lemma measure_front_wf (flow : OpticalFlowResult)
    (meas : option IntegratedImuMeasurement)
    (e e5 : KeypointVioEstimator) (npc : gmap Z Z) :
  window_wf e →
  (if meas is Some _ then last_state_t_ns e < of_t_ns flow
   else of_t_ns flow = last_state_t_ns e) →
  measure_front flow meas e = Ok (e5, npc) →
  window_wf e5.
Proof.
  intros (Hlast & Hnewest & Hlt & (first & Hhead & Hmo) & Hpk & Hkw & Hkf
          & Hfw & Hmax) Htime Hrun.
  apply measure_front_window in Hrun
    as (Hl & Hfs & Hfp & Hmo' & Hkf' & Hpofr & Hmax').
  unfold window_wf. rewrite Hfp, Hmo', Hmax', Hpofr.
  apply asc_head in Hhead as [Hfirst Hmin].
  destruct meas as [m|].
  - rewrite Hl, Hfs in *.
    split; [set_solver|]. split.
    { intros k [Hk|[Hk|Hk]%elem_of_union]%elem_of_union.
      - apply elem_of_singleton in Hk. lia.
      - apply elem_of_singleton in Hk. lia.
      - specialize (Hnewest k Hk). lia. }
    split.
    { intros p s Hp [Hs|[Hs|Hs]%elem_of_union]%elem_of_union.
      - apply elem_of_singleton in Hs. subst s.
        specialize (Hlt p _ Hp Hlast). lia.
      - apply elem_of_singleton in Hs. subst s. by apply Hlt.
      - by apply Hlt. }
    split.
    { exists first. split; [|done]. apply asc_head. split; [set_solver|].
      intros k [Hk|[Hk|Hk]%elem_of_union]%elem_of_union.
      - apply elem_of_singleton in Hk. specialize (Hnewest first Hfirst). lia.
      - apply elem_of_singleton in Hk. subst k. by apply Hmin.
      - by apply Hmin. }
    split; [clear -Hkf' Hpk; destruct Hkf' as [->| ->]; set_solver|].
    split; [clear -Hkf' Hkw; destruct Hkf' as [->| ->]; set_solver|].
    split; [clear -Hkf' Hkf; destruct Hkf' as [->| ->]; set_solver|].
    split; [clear -Hfw; set_solver | done].
  - rewrite Hl, Hfs in *.
    split; [done|]. split; [done|]. split; [done|].
    split; [by exists first; split; [apply asc_head|]|].
    split; [clear -Hkf' Hpk; destruct Hkf' as [->| ->]; set_solver|].
    split; [clear -Hkf' Hkw Hlast; destruct Hkf' as [->| ->]; set_solver|].
    split; [clear -Hkf' Hkf Htime; destruct Hkf' as [->| ->]; set_solver|].
    split; [|done]. rewrite Htime.
    intros k [->%elem_of_singleton|Hk]%elem_of_union;
      [by apply elem_of_union_r | by apply Hfw].
Qed.

Lemma optimize_wf (e e' : KeypointVioEstimator) :
  window_wf e → optimize e = Ok e' → window_wf e'.
Proof.
  intros Hwf Hrun.
  pose proof (optimize_frame _ _ Hrun) as (Hmo & _ & _ & _ & Hpofr & _).
  apply optimize_Ok in Hrun
    as ((Hkf & _ & Hmax & _ & _ & _ & _ & Hfs & Hfp & _ & _ & Hl & _) & _).
  revert Hwf. by apply window_wf_ext.
Qed.

End WindowPreserved.


Section MarginalizePreserves.
Context `{Kernels}.

(** The frames of the window after the body of [marginalize]. *)
Lemma marg_apply_doms (npc : gmap Z Z) (sel : MargSelection)
    (e e' : KeypointVioEstimator) :
  marg_select e = Ok sel →
  marg_apply npc sel e = Ok e' →
  let last := last_state_to_marg sel in
  let gone k := (k ∈ kf_ids e ∧ k ∉ kf_ids e')
                ∨ (k ∈ dom (frame_poses e) ∧ k ∉ kf_ids e) in
  last ∈ dom (frame_states e)
  ∧ (∀ k, k ∈ dom (frame_states e') ↔ k ∈ dom (frame_states e) ∧ last ≤ k)
  ∧ (∀ k, k ∈ dom (frame_poses e') ↔
          ¬ gone k
          ∧ ((k ∈ dom (frame_states e) ∧ k < last ∧ k ∈ kf_ids e)
             ∨ k ∈ dom (frame_poses e)))
  ∧ (∀ k, k ∈ dom (prev_opt_flow_res e') ↔
          k ∈ dom (prev_opt_flow_res e)
          ∧ ¬ (k ∈ dom (frame_states e) ∧ k < last ∧ k ∉ kf_ids e)
          ∧ ¬ gone k).
Proof.
  intros Hsel Happly last gone.
  pose proof (marg_select_Ok _ _ Hsel) as (Hidx & Hvb & Hall).
  pose proof (marg_select_poses _ _ Hsel) as Hptm.
  pose proof (marg_apply_window _ _ _ _ Hsel Happly)
    as (_ & Hfs & Hfp & _ & Hpo & _).
  fold last in Hvb, Hall, Hfs.
  assert (last ∈ dom (frame_states e)) as Hlast.
  { apply asc_elem_of. by eapply list_elem_of_lookup_2. }
  assert (∀ k, k ∈ (kf_ids e ∖ kf_ids e') ∪ sel_poses_to_marg sel ↔ gone k)
    as Hgone.
  { intros k. unfold gone.
    by rewrite elem_of_union, elem_of_difference, Hptm. }
  assert (∀ k, k ∈ states_to_marg_vel_bias sel ∪ states_to_marg_all sel ↔
               k ∈ dom (frame_states e) ∧ k < last) as Holder.
  { intros k. rewrite elem_of_union, Hvb, Hall.
    destruct (decide (k ∈ kf_ids e)); tauto. }
  split; [done|]. split; [|split].
  - intros k. rewrite (elem_of_dom (frame_states e')), Hfs.
    case_decide as Hold.
    + apply Holder in Hold as [_ Hold]. split; [by intros [? ?] | lia].
    + rewrite Holder in Hold. case_decide as Heq.
      * subst k. rewrite fmap_is_Some, <- elem_of_dom.
        split; [intros ?; split; [done | lia] | tauto].
      * rewrite <- elem_of_dom. split; [|tauto].
        intros Hk. split; [done|].
        destruct (decide (k < last)); [tauto | lia].
  - intros k. rewrite (elem_of_dom (frame_poses e')), Hfp.
    case_decide as Hg.
    + apply Hgone in Hg. split; [by intros [? ?] | tauto].
    + rewrite Hgone in Hg. case_decide as Hk.
      * apply Hvb in Hk as Hk'. destruct Hk' as (Hin & _).
        rewrite fmap_is_Some, <- elem_of_dom. apply Hvb in Hk. tauto.
      * rewrite Hvb in Hk. rewrite <- elem_of_dom. tauto.
  - intros k. rewrite (elem_of_dom (prev_opt_flow_res e')), Hpo.
    case_decide as Hg.
    + apply elem_of_union in Hg as [Hg|Hg].
      * apply Hall in Hg. split; [by intros [? ?] | tauto].
      * apply Hgone in Hg. split; [by intros [? ?] | tauto].
    + rewrite elem_of_union, Hall, Hgone in Hg.
      rewrite <- elem_of_dom. tauto.
Qed.

Lemma marginalize_wf (npc : gmap Z Z) (e e' : KeypointVioEstimator) :
  window_wf e → marginalize npc e = Ok e' → window_wf e'.
Proof.
  intros Hwf Hrun.
  apply marginalize_Ok in Hrun
    as [[-> _] | (_ & _ & sel & Hsel & Happly)]; [done|].
  destruct Hwf as (Hlast & Hnewest & Hlt & _ & Hpk & Hkw & Hkf & Hfw & Hmax).
  pose proof (marg_apply_doms _ _ _ _ Hsel Happly)
    as (Hin & Hfs & Hfp & Hpo).
  pose proof (marg_apply_window _ _ _ _ Hsel Happly)
    as (Hsub & _ & _ & _ & _ & Hmo & Hl).
  pose proof (marg_select_Ok _ _ Hsel) as (_ & Hvb & _).
  pose proof (marg_apply_Ok _ _ _ _ Happly)
    as (_ & Hmax' & _ & _ & _ & Hexit & _).
  set (last := last_state_to_marg sel) in *.
  assert (∀ k, k ∈ kf_ids e' → k ∈ kf_ids e) as Hsub' by (intros k; apply Hsub).
  assert (∀ k, k ∈ kf_ids e' →
            ¬ ((k ∈ kf_ids e ∧ k ∉ kf_ids e')
               ∨ (k ∈ dom (frame_poses e) ∧ k ∉ kf_ids e))) as Hstays.
  { intros k Hk. specialize (Hsub' k Hk). tauto. }
  unfold window_wf. rewrite Hl, Hmax'.
  split; [apply Hfs; split; [done | by apply Hnewest]|].
  split; [intros k [Hk _]%Hfs; by apply Hnewest|].
  split.
  { intros p s [_ [(_ & Hp & _)|Hp]]%Hfp [Hs Hle]%Hfs; [lia | by apply Hlt]. }
  split.
  { exists last. split; [|done]. apply asc_head. split.
    - apply Hfs. split; [done | lia].
    - by intros k [_ Hk]%Hfs. }
  split.
  { intros p [Hg [(_ & _ & Hp)|Hp]]%Hfp.
    - destruct (decide (p ∈ kf_ids e')); tauto.
    - specialize (Hpk p Hp). destruct (decide (p ∈ kf_ids e')); tauto. }
  assert (∀ k, k ∈ kf_ids e → k ∈ dom (frame_poses e) ∪ dom (frame_states e) →
            ¬ ((k ∈ kf_ids e ∧ k ∉ kf_ids e')
               ∨ (k ∈ dom (frame_poses e) ∧ k ∉ kf_ids e)) →
            k ∈ dom (frame_poses e') ∪ dom (frame_states e')) as Hkept.
  { intros k Hk [Hp|Hs]%elem_of_union Hg.
    - apply elem_of_union_l, Hfp. tauto.
    - destruct (decide (k < last)).
      + apply elem_of_union_l, Hfp. tauto.
      + apply elem_of_union_r, Hfs. split; [done | lia]. }
  split.
  { intros k Hk. apply Hkept; [by apply Hsub' | by apply Hkw, Hsub'
      | by apply Hstays]. }
  split.
  { intros k Hk. apply Hpo. split; [by apply Hkf, Hsub'|].
    split; [|by apply Hstays]. specialize (Hsub' k Hk). tauto. }
  split.
  { intros k (Hk & Hnall & Hg)%Hpo. specialize (Hfw k Hk).
    apply elem_of_union in Hfw as [Hp|Hs].
    - apply elem_of_union_l, Hfp. tauto.
    - destruct (decide (k < last)).
      + apply elem_of_union_l, Hfp.
        destruct (decide (k ∈ kf_ids e)); tauto.
      + apply elem_of_union_r, Hfs. split; [done | lia]. }
  destruct (decide (states_to_marg_vel_bias sel = ∅)) as [Hvb0|Hvb0].
  - assert (dom (frame_poses e') ⊆ dom (frame_poses e)) as Hless.
    { intros k [_ [Hk|Hk]]%Hfp; [|done].
      assert (k ∈ states_to_marg_vel_bias sel) as Hk' by (by apply Hvb).
      rewrite Hvb0 in Hk'. by apply elem_of_empty in Hk'. }
    apply subseteq_size in Hless. rewrite !size_dom in Hless. lia.
  - assert (dom (frame_poses e') ⊆ kf_ids e') as Hless.
    { intros p [Hg [(_ & _ & Hp)|Hp]]%Hfp.
      - destruct (decide (p ∈ kf_ids e')); tauto.
      - specialize (Hpk p Hp). destruct (decide (p ∈ kf_ids e')); tauto. }
    apply subseteq_size in Hless. rewrite size_dom in Hless.
    destruct (decide (max_kfs e < Z.of_nat (size (kf_ids e')))); [tauto|lia].
Qed.

(** A call of [measure] on a frame in time order keeps the window well
    formed. *)
Lemma measure_wf (flow : OpticalFlowResult)
    (meas : option IntegratedImuMeasurement) (e e' : KeypointVioEstimator) :
  window_wf e →
  (if meas is Some _ then last_state_t_ns e < of_t_ns flow
   else of_t_ns flow = last_state_t_ns e) →
  measure flow meas e = Ok e' →
  window_wf e'.
Proof.
  intros Hwf Htime Hrun.
  apply measure_Ok in Hrun as (e1 & npc & e2 & Hfront & Hopt & Hmarg).
  eapply marginalize_wf; [|exact Hmarg].
  eapply optimize_wf; [|exact Hopt].
  by eapply measure_front_wf.
Qed.

Lemma driven_wf (e : KeypointVioEstimator) : driven e → window_wf e.
Proof.
  induction 1 as [| e flow e' _ IH Htime Hrun | e flow m e' _ IH Htime Hrun].
  - apply initialize_wf.
  - by eapply (measure_wf flow None).
  - by eapply (measure_wf flow (Some m)).
Qed.

End MarginalizePreserves.


(** ** Driven estimators *)

Lemma bench_run_driven (frames : Z → list (list Z)) (n : nat)
    (cfg : VioConfig) (e : KeypointVioEstimator) :
  bench_in_order frames n cfg = true →
  bench_run frames n cfg = Ok e →
  driven e.
Proof.
  revert e. induction n as [|n IH]; intros e Horder Hrun.
  - injection Hrun as <-. apply driven_start.
  - cbn [bench_in_order] in Horder. apply andb_true_iff in Horder as [Hn Hstep].
    cbn [bench_run] in Hrun. apply bind_Ok in Hrun as (e0 & Hrun0 & Hrun).
    rewrite Hrun0 in Hstep. specialize (IH e0 Hn Hrun0).
    unfold bench_measure in Hrun. case_decide as Hfirst.
    + apply bool_decide_eq_true_1 in Hstep.
      refine (driven_first e0 _ e IH _ Hrun). exact Hstep.
    + apply bool_decide_eq_true_1 in Hstep.
      refine (driven_next e0 _ _ e IH _ Hrun). exact Hstep.
Qed.

Lemma bench_after_eleven_driven : driven bench_after_eleven.
Proof.
  apply (bench_run_driven fresh_frames 11 bench_config_kfs3);
    vm_compute; reflexivity.
Qed.

Section DrivenClaims.
Context `{Kernels}.

(** [X7] Every estimator a driver reaches by construction, [initialize]
    and calls of [measure] on frames in time order has a well-formed
    window: [last_state_t_ns] is the newest full state; pose-only frames
    are older than all full states and are keyframes; every keyframe is in
    the window and has its optical flow result stored, and results are
    stored for frames of the window only; the order of the prior lists the
    poses in key order and then the oldest state; and at most [max_kfs]
    frames are pose-only. *)
Theorem driven_window_is_well_formed (e : KeypointVioEstimator) :
  driven e → window_wf e.
Proof. apply driven_wf. Qed.

(** [X8] In a call of [measure] on a frame in time order, [optimize] never
    fails an assertion: the order it rebuilds over the poses and the states
    of the window agrees with the order of the prior wherever it is
    checked. *)
Theorem optimize_never_fails_in_measure (flow : OpticalFlowResult)
    (meas : option IntegratedImuMeasurement)
    (e e1 : KeypointVioEstimator) (npc : gmap Z Z) :
  driven e →
  (if meas is Some _ then last_state_t_ns e < of_t_ns flow
   else of_t_ns flow = last_state_t_ns e) →
  measure_front flow meas e = Ok (e1, npc) →
  ∃ e2, optimize e1 = Ok e2.
Proof.
  intros Hdriven Htime Hfront. apply optimize_total.
  eapply measure_front_wf; [by apply driven_wf | exact Htime | exact Hfront].
Qed.

(** [X9] Once [marginalize] is triggered on a well-formed window of at
    least [max_states] states, with [2 <= max_states], the choice of the
    frames cannot fail: [last_state_to_marg] is the state at position
    [frame_states.size() - max_states + 1] in time order, inside the map,
    and both loops pass every check of the order against the prior. *)
Theorem marginalize_selection_succeeds (e : KeypointVioEstimator) :
  window_wf e →
  2 ≤ max_states e →
  max_states e ≤ Z.of_nat (size (frame_states e)) →
  Z.of_nat (size (frame_states e)) < 2 ^ 31 - 1 →
  ∃ sel,
    marg_select e = Ok sel
    ∧ asc (dom (frame_states e))
        !! Z.to_nat (Z.of_nat (size (frame_states e)) - max_states e + 1)
      = Some (last_state_to_marg sel).
Proof.
  intros Hwf Hmin Htrig Hint.
  destruct (window_wf_order e Hwf) as (first & rest & Hasc & Hmo & Hfirst).
  set (n := Z.of_nat (size (frame_states e))) in *.
  assert (to_int (to_size_t (n - max_states e + 1)) = n - max_states e + 1)
    as Hconv.
  { unfold to_int, to_size_t, size_t_mod.
    rewrite (Z.mod_small (n - max_states e + 1)) by lia.
    rewrite Z.mod_small by lia. lia. }
  destruct (lookup_lt_is_Some_2 (asc (dom (frame_states e)))
              (Z.to_nat (n - max_states e + 1))) as [last Hlast].
  { rewrite asc_length, size_dom. lia. }
  destruct (order_checks_pass _ first rest (asc_NoDup _) Hfirst)
    as (_ & _ & Hposes & Hstates).
  destruct (Hposes (kf_ids e)) as [poses Hposes'].
  destruct (Hstates (kf_ids e) last) as [[[aom vb] al] Hstates'].
  exists (mkMargSelection last aom poses vb al). split; [|done].
  unfold marg_select. fold n. rewrite Hconv.
  rewrite Z.max_r by lia.
  assert (vec_at (asc (dom (frame_states e))) (n - max_states e + 1) = Ok last)
    as -> by (apply vec_at_Ok; split; [lia | done]).
  cbn [mbind outcome_bind]. rewrite Hmo, Hposes'. cbn [mbind outcome_bind].
  rewrite Hasc, Hstates'. done.
Qed.

(** [X10] In a driven estimator the first trigger of [marginalize],
    [frame_poses.size() > max_kfs], never fires: the pose-only frames are
    keyframes that an earlier eviction kept, so [marginalize] runs its body
    exactly when the optimiser has started and the window holds
    [max_states] states or more. *)
Theorem marginalize_is_triggered_by_states_only (flow : OpticalFlowResult)
    (meas : option IntegratedImuMeasurement)
    (e e1 e2 : KeypointVioEstimator) (npc : gmap Z Z) :
  driven e →
  (if meas is Some _ then last_state_t_ns e < of_t_ns flow
   else of_t_ns flow = last_state_t_ns e) →
  measure_front flow meas e = Ok (e1, npc) →
  optimize e1 = Ok e2 →
  Z.of_nat (size (frame_poses e2)) ≤ max_kfs e2
  ∧ (marginalize npc e2 = Ok e2
     ∨ (opt_started e2 = true
        ∧ max_states e2 ≤ Z.of_nat (size (frame_states e2)))).
Proof.
  intros Hdriven Htime Hfront Hopt.
  assert (window_wf e2) as Hwf.
  { eapply optimize_wf; [|exact Hopt].
    eapply measure_front_wf; [by apply driven_wf | exact Htime | exact Hfront]. }
  destruct Hwf as (_ & _ & _ & _ & _ & _ & _ & _ & Hmax).
  split; [done|]. unfold marginalize.
  destruct (opt_started e2); [|by left]. cbn [negb].
  case_decide as Htrig; [|by left]. right. split; [done|]. lia.
Qed.

(** [X11] After a call of [measure] on a frame in time order, the state
    pushed to [out_state_queue] exists: [frame_states.at(last_state_t_ns)]
    does not throw, because [marginalize] removes only states older than
    [last_state_to_marg]. *)
Theorem output_state_exists (flow : OpticalFlowResult)
    (meas : option IntegratedImuMeasurement) (e e' : KeypointVioEstimator) :
  driven e →
  (if meas is Some _ then last_state_t_ns e < of_t_ns flow
   else of_t_ns flow = last_state_t_ns e) →
  measure flow meas e = Ok e' →
  ∃ s, state_for_output e' = Ok s.
Proof.
  intros Hdriven Htime Hrun.
  assert (window_wf e') as (Hlast & _)
    by (eapply measure_wf; [by apply driven_wf | exact Htime | exact Hrun]).
  apply elem_of_dom in Hlast as [p Hp]. exists (getState p).
  unfold state_for_output, map_at. by rewrite Hp.
Qed.

Lemma window_wf_sink (queue : option (list MargData))
    (e : KeypointVioEstimator) :
  window_wf e → window_wf (set_out_marg_queue queue e).
Proof. by apply window_wf_ext. Qed.

(** [X12] On a well-formed window the marginalisation data can always be
    assembled: [prev_opt_flow_res.at(t)] finds the optical flow result of
    every keyframe [t] of [kfs_all], so the push to [out_marg_queue] does
    not throw. *)
Theorem marg_data_push_succeeds (e : KeypointVioEstimator)
    (kf_ids1 kfs_to_marg : gset Z) (aom : AbsOrderMap) (accum : Accum) :
  window_wf e →
  ∃ queue,
    push_marg_data (set_kf_ids kf_ids1 e) aom accum (kf_ids e) kfs_to_marg
    = Ok queue.
Proof.
  intros (_ & _ & _ & _ & _ & _ & Hkf & _).
  assert (∀ ts : list Z, (∀ t, t ∈ ts → t ∈ dom (prev_opt_flow_res e)) →
            ∃ rs, collect_opt_flow (prev_opt_flow_res e) ts = Ok rs) as Hflow.
  { induction ts as [|t ts IH]; intros Hts; [by eexists|].
    destruct (IH ltac:(intros t' Ht'; by apply Hts, list_elem_of_further))
      as [rs Hrs].
    pose proof (Hts t (list_elem_of_here _ _)) as Hr.
    apply elem_of_dom in Hr as [r Hr].
    exists (r :: rs). cbn [collect_opt_flow]. unfold map_at. rewrite Hr.
    cbn [mbind outcome_bind]. rewrite Hrs. done. }
  unfold push_marg_data.
  cbn [out_marg_queue prev_opt_flow_res frame_poses frame_states set_kf_ids].
  destruct (out_marg_queue e) as [queue|]; [|by eexists].
  case_decide; [|by eexists].
  destruct (Hflow (asc (kf_ids e))) as [rs ->]; [|by eexists].
  intros t Ht. apply Hkf. by apply asc_elem_of.
Qed.

End DrivenClaims.


Lemma bench_before_eviction_wf : window_wf bench_before_eviction.1.
Proof.
  apply (optimize_wf bench_twelfth_front.1); [|vm_compute; reflexivity].
  apply (measure_front_wf (bench_flow 12 (fresh_frames 12)) (bench_meas 11 12)
           bench_after_eleven _ bench_twelfth_front.2).
  - apply driven_wf, bench_after_eleven_driven.
  - vm_compute. reflexivity.
  - vm_compute. reflexivity.
Qed.

Lemma driven_window_is_well_formed_witness :
  driven bench_after_eleven ∧ window_wf bench_after_eleven.
Proof.
  assert (driven bench_after_eleven) as Hdriven.
  { apply (bench_run_driven fresh_frames 11 bench_config_kfs3);
      vm_compute; reflexivity. }
  split; [exact Hdriven|]. exact (driven_window_is_well_formed _ Hdriven).
Defined.

Lemma optimize_never_fails_in_measure_witness :
  measure_front (bench_flow 12 (fresh_frames 12)) (bench_meas 11 12)
    bench_after_eleven
  = Ok (bench_twelfth_front.1, bench_twelfth_front.2)
  ∧ ∃ e2, optimize bench_twelfth_front.1 = Ok e2.
Proof.
  assert (measure_front (bench_flow 12 (fresh_frames 12)) (bench_meas 11 12)
            bench_after_eleven
          = Ok (bench_twelfth_front.1, bench_twelfth_front.2)) as Hfront
    by (vm_compute; reflexivity).
  assert (driven bench_after_eleven) as Hdriven.
  { apply (bench_run_driven fresh_frames 11 bench_config_kfs3);
      vm_compute; reflexivity. }
  assert (last_state_t_ns bench_after_eleven
          < of_t_ns (bench_flow 12 (fresh_frames 12))) as Htime
    by (vm_compute; reflexivity).
  split; [exact Hfront|].
  exact (optimize_never_fails_in_measure _ (bench_meas 11 12) _ _ _
           Hdriven Htime Hfront).
Defined.

Lemma marginalize_selection_succeeds_witness :
  window_wf bench_before_eviction.1
  ∧ ∃ sel, marg_select bench_before_eviction.1 = Ok sel
      ∧ asc (dom (frame_states bench_before_eviction.1))
          !! Z.to_nat
               (Z.of_nat (size (frame_states bench_before_eviction.1))
                - max_states bench_before_eviction.1 + 1)
        = Some (last_state_to_marg sel).
Proof.
  split; [exact bench_before_eviction_wf|].
  apply (marginalize_selection_succeeds _ bench_before_eviction_wf).
  - vm_compute. discriminate.
  - vm_compute. discriminate.
  - vm_compute. reflexivity.
Defined.

Lemma marginalize_is_triggered_by_states_only_witness :
  optimize bench_twelfth_front.1 = Ok bench_before_eviction.1
  ∧ Z.of_nat (size (frame_poses bench_before_eviction.1))
    ≤ max_kfs bench_before_eviction.1.
Proof.
  assert (measure_front (bench_flow 12 (fresh_frames 12)) (bench_meas 11 12)
            bench_after_eleven
          = Ok (bench_twelfth_front.1, bench_twelfth_front.2)) as Hfront
    by (vm_compute; reflexivity).
  assert (optimize bench_twelfth_front.1 = Ok bench_before_eviction.1)
    as Hopt by (vm_compute; reflexivity).
  assert (driven bench_after_eleven) as Hdriven.
  { apply (bench_run_driven fresh_frames 11 bench_config_kfs3);
      vm_compute; reflexivity. }
  assert (last_state_t_ns bench_after_eleven
          < of_t_ns (bench_flow 12 (fresh_frames 12))) as Htime
    by (vm_compute; reflexivity).
  split; [exact Hopt|].
  exact (proj1 (marginalize_is_triggered_by_states_only _ (bench_meas 11 12)
                  _ _ _ _ Hdriven Htime Hfront Hopt)).
Defined.

Lemma output_state_exists_witness :
  measure (bench_flow 12 (fresh_frames 12)) (bench_meas 11 12)
    bench_after_eleven = Ok bench_after_twelve
  ∧ ∃ s, state_for_output bench_after_twelve = Ok s.
Proof.
  assert (measure (bench_flow 12 (fresh_frames 12)) (bench_meas 11 12)
            bench_after_eleven = Ok bench_after_twelve) as Hrun
    by (vm_compute; reflexivity).
  assert (driven bench_after_eleven) as Hdriven.
  { apply (bench_run_driven fresh_frames 11 bench_config_kfs3);
      vm_compute; reflexivity. }
  assert (last_state_t_ns bench_after_eleven
          < of_t_ns (bench_flow 12 (fresh_frames 12))) as Htime
    by (vm_compute; reflexivity).
  split; [exact Hrun|].
  exact (output_state_exists _ (bench_meas 11 12) _ _ Hdriven Htime Hrun).
Defined.

Lemma marg_data_push_succeeds_witness :
  window_wf bench_with_sink
  ∧ ∃ queue,
      push_marg_data (set_kf_ids bench_eviction.1.1 bench_with_sink)
        (sel_aom bench_eviction_selection) 0 (kf_ids bench_with_sink)
        bench_eviction.1.2
      = Ok queue.
Proof.
  assert (window_wf bench_with_sink) as Hwf.
  { apply window_wf_sink, bench_before_eviction_wf. }
  split; [exact Hwf|].
  exact (marg_data_push_succeeds bench_with_sink bench_eviction.1.1
           bench_eviction.1.2 (sel_aom bench_eviction_selection) 0 Hwf).
Defined.


Section MarginalizeEffectClaim.
Context `{Kernels}.

(** [X13] What the body of [marginalize] does to the window, frame by
    frame.  The states newer than [last_state_to_marg] are untouched; that
    state stays and is pinned as linearisation point; every older state
    leaves [frame_states] and [imu_meas].  An older state that is still a
    keyframe after the eviction becomes a pose-only frame with the same
    pose; one that is no keyframe, or was evicted, leaves the window with
    its optical flow result.  A pose-only frame stays, unchanged, exactly
    when it is a keyframe after the eviction. *)
Theorem marginalize_window_effect (npc : gmap Z Z) (sel : MargSelection)
    (e e' : KeypointVioEstimator) :
  marg_select e = Ok sel →
  marg_apply npc sel e = Ok e' →
  let last := last_state_to_marg sel in
  (∀ k, last < k → frame_states e' !! k = frame_states e !! k)
  ∧ (∃ s, frame_states e !! last = Some s
          ∧ frame_states e' !! last = Some (setLinTrue s))
  ∧ (∀ k, k < last → frame_states e' !! k = None)
  ∧ (∀ k s, frame_states e !! k = Some s → k < last →
       imu_meas e' !! k = None
       ∧ (k ∈ kf_ids e' →
          frame_poses e' !! k = Some (PoseStateWithLin_of s))
       ∧ (k ∉ kf_ids e' →
          frame_poses e' !! k = None ∧ prev_opt_flow_res e' !! k = None))
  ∧ (∀ k, k ∈ dom (frame_poses e) → k ∉ dom (frame_states e) →
       frame_poses e' !! k
       = if decide (k ∈ kf_ids e') then frame_poses e !! k else None).
Proof.
  intros Hsel Happly last.
  pose proof (marg_select_Ok _ _ Hsel) as (Hidx & Hvb & Hall).
  pose proof (marg_select_poses _ _ Hsel) as Hptm.
  pose proof (marg_apply_window _ _ _ _ Hsel Happly)
    as (Hsub & Hfs & Hfp & Him & Hpo & _).
  fold last in Hvb, Hall, Hfs.
  assert (last ∈ dom (frame_states e)) as Hlast.
  { apply asc_elem_of. by eapply list_elem_of_lookup_2. }
  assert (∀ k, k ∈ (kf_ids e ∖ kf_ids e') ∪ sel_poses_to_marg sel ↔
               (k ∈ kf_ids e ∧ k ∉ kf_ids e')
               ∨ (k ∈ dom (frame_poses e) ∧ k ∉ kf_ids e)) as Hgone.
  { intros k. by rewrite elem_of_union, elem_of_difference, Hptm. }
  assert (∀ k, k ∈ states_to_marg_vel_bias sel ∪ states_to_marg_all sel ↔
               k ∈ dom (frame_states e) ∧ k < last) as Holder.
  { intros k. rewrite elem_of_union, Hvb, Hall.
    destruct (decide (k ∈ kf_ids e)); tauto. }
  assert (∀ k, k ∈ kf_ids e' → k ∈ kf_ids e) as Hsub'
    by (intros k; apply Hsub).
  split; [|split; [|split; [|split]]].
  - intros k Hk. rewrite Hfs.
    rewrite decide_False by (rewrite Holder; lia).
    rewrite decide_False by lia. done.
  - apply elem_of_dom in Hlast as [s Hs]. exists s. split; [done|].
    rewrite Hfs. rewrite decide_False by (rewrite Holder; lia).
    rewrite decide_True by done. by rewrite Hs.
  - intros k Hk. rewrite Hfs. case_decide as Hold; [done|].
    rewrite decide_False by lia. rewrite Holder in Hold.
    apply not_elem_of_dom. tauto.
  - intros k s Hs Hk. assert (k ∈ dom (frame_states e)) as Hin
      by (by apply elem_of_dom_2 in Hs).
    split; [|split].
    + rewrite Him. rewrite decide_True by (by apply Holder). done.
    + intros Hk'. rewrite Hfp.
      rewrite decide_False
        by (rewrite Hgone; specialize (Hsub' k Hk'); tauto).
      rewrite decide_True by (apply Hvb; auto). by rewrite Hs.
    + intros Hk'. destruct (decide (k ∈ kf_ids e)) as [Hkf|Hkf].
      * assert (k ∈ (kf_ids e ∖ kf_ids e') ∪ sel_poses_to_marg sel) as Hg
          by (apply Hgone; tauto).
        rewrite Hfp, Hpo. rewrite decide_True by done.
        rewrite decide_True by (by apply elem_of_union_r). done.
      * rewrite Hpo.
        rewrite (decide_True (P := k ∈ states_to_marg_all sel ∪ _))
          by (apply elem_of_union_l, Hall; auto).
        split; [|done]. rewrite Hfp. case_decide as Hg; [done|].
        rewrite decide_False by (rewrite Hvb; tauto).
        apply not_elem_of_dom. rewrite Hgone in Hg. tauto.
  - intros k Hp Hs. rewrite Hfp. case_decide as Hg.
    + apply Hgone in Hg. rewrite decide_False; [done|].
      intros Hk'. specialize (Hsub' k Hk'). tauto.
    + rewrite Hgone in Hg. rewrite decide_False by (rewrite Hvb; tauto).
      rewrite decide_True; [done|].
      destruct (decide (k ∈ kf_ids e')); [done|].
      destruct (decide (k ∈ kf_ids e)); tauto.
Qed.

End MarginalizeEffectClaim.

Lemma marginalize_window_effect_witness :
  marg_select bench_before_eviction.1 = Ok bench_eviction_selection
  ∧ marg_apply bench_before_eviction.2 bench_eviction_selection
      bench_before_eviction.1 = Ok bench_after_twelve
  ∧ ∀ k, k < last_state_to_marg bench_eviction_selection →
      frame_states bench_after_twelve !! k = None.
Proof.
  assert (marg_select bench_before_eviction.1 = Ok bench_eviction_selection)
    as Hsel by (vm_compute; reflexivity).
  assert (marg_apply bench_before_eviction.2 bench_eviction_selection
            bench_before_eviction.1 = Ok bench_after_twelve) as Happly
    by (vm_compute; reflexivity).
  split; [exact Hsel|]. split; [exact Happly|].
  destruct (marginalize_window_effect _ _ _ _ Hsel Happly)
    as (_ & _ & Hgone & _).
  exact Hgone.
Defined.


(** ** The processing loop *)

Lemma proc_bind_Go {A B} (m : proc A) (k : A → proc B) (b : B) :
  m ≫= k = Go b ↔ ∃ a, m = Go a ∧ k a = Go b.
Proof.
  destruct m as [a|h]; simpl.
  - split; [intros Hk; by exists a | intros (a' & Ha & Hk); congruence].
  - split; [done | by intros (a' & Ha & _)].
Qed.

Lemma raising_Go {A} (o : outcome A) (a : A) : raising o = Go a ↔ o = Ok a.
Proof. destruct o; simpl; split; congruence. Qed.

Section WorkerDrives.
Context `{DriverKernels}.

(** [measure] leaves [last_state_t_ns] at the time of the frame when it
    is given a preintegration, and alone otherwise. *)
Lemma measure_last_state (flow : OpticalFlowResult)
    (meas : option IntegratedImuMeasurement) (e e' : KeypointVioEstimator) :
  measure flow meas e = Ok e' →
  last_state_t_ns e'
  = (if meas is Some _ then of_t_ns flow else last_state_t_ns e).
Proof.
  intros Hrun.
  apply measure_Ok in Hrun as (e1 & npc & e2 & Hfront & Hopt & Hmarg).
  apply measure_front_window in Hfront as (<- & _).
  apply optimize_Ok in Hopt
    as ((_ & _ & _ & _ & _ & _ & _ & _ & _ & _ & _ & <- & _) & _).
  apply marginalize_Ok in Hmarg
    as [[-> _] | (_ & _ & sel & Hsel & Happly)]; [done|].
  by apply (marg_apply_window _ _ _ _ Hsel) in Happly
    as (_ & _ & _ & _ & _ & _ & ->).
Qed.

Lemma init_block_Go (bg ba : Vec3) (curr_frame : OpticalFlowResult)
    (w w1 : Worker) :
  init_block bg ba curr_frame w = Go w1 →
  w_prev_frame w1 = w_prev_frame w ∧ w_meas w1 = w_meas w
  ∧ w_initialized w1 = true
  ∧ ((w_initialized w = true ∧ w1 = w)
     ∨ (w_initialized w = false
        ∧ ∃ T,
            w_est w1
            = set_marg_order
                (mkAbsOrderMap
                   (<[of_t_ns curr_frame := (0, POSE_VEL_BIAS_SIZE)]>
                      (abs_order_map (marg_order (w_est w))))
                   POSE_VEL_BIAS_SIZE 1)
                (set_frame_states
                   (<[of_t_ns curr_frame :=
                        mkPoseVelBiasStateWithLin true
                          (mkPoseVelBiasState (of_t_ns curr_frame) T
                             Vec3_zero bg ba)
                          (mkPoseVelBiasState (of_t_ns curr_frame) T
                             Vec3_zero bg ba)]> (frame_states (w_est w)))
                (set_imu_meas
                   (<[of_t_ns curr_frame :=
                        mkIntegratedImuMeasurement (of_t_ns curr_frame) 0
                          (preint_init bg ba)]> (imu_meas (w_est w)))
                (set_last_state_t_ns (of_t_ns curr_frame) (w_est w)))))).
Proof.
  unfold init_block. destruct (w_initialized w) eqn:Hinit.
  - intros [= <-]. repeat split; try done. by left.
  - intros Hrun. apply proc_bind_Go in Hrun as (data & _ & Hrun).
    apply proc_bind_Go in Hrun as ([data1 queue1] & _ & Hrun).
    apply proc_bind_Go in Hrun as (data2 & _ & Hrun).
    injection Hrun as <-. cbn [w_prev_frame w_meas w_initialized w_est].
    repeat split; try done. right. split; [done|]. by eexists.
Qed.

Lemma preintegrate_Go (curr_frame : OpticalFlowResult) (w w2 : Worker)
    (go : bool) :
  preintegrate curr_frame w = Go (w2, go) →
  w_est w2 = w_est w ∧ w_initialized w2 = w_initialized w
  ∧ w_prev_frame w2 = w_prev_frame w
  ∧ match w_prev_frame w with
    | None => w_meas w2 = w_meas w ∧ go = true
    | Some _ => is_Some (w_meas w2)
    end.
Proof.
  unfold preintegrate. destruct (w_prev_frame w) as [prev|] eqn:Hprev.
  - intros Hrun. apply proc_bind_Go in Hrun as (last_state & _ & Hrun).
    apply proc_bind_Go in Hrun as (data & _ & Hrun).
    apply proc_bind_Go in Hrun as ([data1 queue1] & _ & Hrun).
    apply proc_bind_Go in Hrun as (data2 & _ & Hrun).
    apply proc_bind_Go in Hrun as ([[meas1 data3] queue2] & _ & Hrun).
    case_bool_decide.
    + destruct data3 as [d|].
      * apply proc_bind_Go in Hrun as (meas2 & _ & Hrun).
        injection Hrun as <- <-. cbn. eauto.
      * injection Hrun as <- <-. cbn. eauto.
    + injection Hrun as <- <-. cbn. eauto.
  - intros [= <- <-]. done.
Qed.

(** When [preintegrate] leaves the loop, the IMU queue has delivered its
    end. *)
Lemma preintegrate_break (curr_frame : OpticalFlowResult) (w w2 : Worker) :
  preintegrate curr_frame w = Go (w2, false) → w_data w2 = None.
Proof.
  unfold preintegrate. destruct (w_prev_frame w) as [prev|]; [|done].
  intros Hrun. apply proc_bind_Go in Hrun as (last_state & _ & Hrun).
  apply proc_bind_Go in Hrun as (data & _ & Hrun).
  apply proc_bind_Go in Hrun as ([data1 queue1] & _ & Hrun).
  apply proc_bind_Go in Hrun as (data2 & _ & Hrun).
  apply proc_bind_Go in Hrun as ([[meas1 data3] queue2] & _ & Hrun).
  case_bool_decide; [|done]. destruct data3 as [d|].
  - by apply proc_bind_Go in Hrun as (meas2 & _ & [=]).
  - by injection Hrun as <-.
Qed.

(** Frames fed in time order to a driven estimator leave it driven. *)
Lemma fed_driven (frames : list OpticalFlowResult)
    (e e' : KeypointVioEstimator) :
  fed e frames e' →
  driven e →
  StronglySorted Z.lt (last_state_t_ns e :: (of_t_ns <$> frames)) →
  driven e'.
Proof.
  induction 1 as [e|e flow m e1 frames e' Hmeasure _ IH];
    intros Hdriven Hsorted; [done|].
  rewrite fmap_cons in Hsorted.
  apply StronglySorted_inv in Hsorted as [Hsorted Hall].
  apply list.Forall_cons in Hall as [Hlt _].
  apply IH.
  - by apply (driven_next e flow m).
  - by rewrite (measure_last_state _ _ _ _ Hmeasure).
Qed.

(** After the first frame: the loop calls [measure], with a
    preintegration, for every frame up to the end of the vision queue, or
    up to the frame in which the IMU queue ends. *)
Lemma proc_loop_fed (bg ba : Vec3)
    (frames : list (option OpticalFlowResult)) (w w' : Worker)
    (prev : OpticalFlowResult) :
  w_initialized w = true →
  w_prev_frame w = Some prev →
  proc_loop bg ba frames w = Go w' →
  ∃ taken rest,
    frames = (Some <$> taken) ++ rest
    ∧ (head rest = Some None
       ∨ ((∃ f, head rest = Some (Some f)) ∧ w_data w' = None))
    ∧ fed (w_est w) taken (w_est w')
    ∧ w_prev_frame w' = list.last (prev :: taken).
Proof.
  revert w prev.
  induction frames as [|[curr|] frames IH];
    intros w prev Hinit Hprev Hrun; cbn [proc_loop] in Hrun.
  - done.
  - destruct (proc_frame bg ba curr w) as [[w1 go]|h] eqn:Hframe; [|done].
    unfold proc_frame in Hframe.
    apply proc_bind_Go in Hframe as (w0 & Hblock & Hframe).
    apply init_block_Go in Hblock as (_ & _ & _ & [[_ ->] | [Hfalse _]]);
      [|congruence].
    apply proc_bind_Go in Hframe as ([w2 go2] & Hpre & Hframe).
    apply preintegrate_Go in Hpre as Hpre'.
    destruct Hpre' as (Hest & Hinit2 & Hprev2 & Hmeas).
    rewrite Hprev in Hmeas. destruct Hmeas as [m Hm].
    destruct go2.
    + apply proc_bind_Go in Hframe as (e' & Hmeasure & Hframe).
      apply raising_Go in Hmeasure. injection Hframe as <- <-.
      rewrite Hm, Hest in Hmeasure.
      apply (IH _ curr) in Hrun
        as (taken & rest & -> & Hend & Hfed & Hlast);
        [|cbn [w_initialized]; congruence|done].
      exists (curr :: taken), rest. split; [done|]. split; [done|].
      split; [eapply fed_cons; [exact Hmeasure | exact Hfed]|].
      by rewrite Hlast.
    + injection Hframe as <- <-. injection Hrun as <-.
      exists [], (Some curr :: frames). split; [done|]. split.
      * right. split; [by exists curr|]. by apply preintegrate_break in Hpre.
      * rewrite Hest. split; [apply fed_nil|]. cbn [list.last]. congruence.
  - injection Hrun as <-. exists [], (None :: frames).
    split; [done|]. split; [by left|]. split; [apply fed_nil|done].
Qed.

(** [X14] What the worker does with the frames.  Started on a freshly
    constructed estimator, a worker that returns has taken the frames
    [taken] and left [rest]: it stopped at the end marker of the vision
    queue, or at a frame during which the IMU queue ended, and that frame
    was not measured.  [taken] is empty only when the end marker came
    first, and the estimator is untouched then.
    Otherwise the worker set up the first state at the time of the first
    frame, with zero velocity and the given biases, called [measure] for
    that frame without preintegration and then for every later frame of
    [taken], in order, with a preintegration; the estimator it ends with
    is the result of these calls, and the last frame of [taken] is its
    previous frame.  When the timestamps of [taken] increase, the estimator
    is a driven one, so its window is well formed. *)
Theorem worker_drives_in_time_order (bg ba g0 : Vec3) (calib0 : Calib)
    (cfg : VioConfig) (vio_enforce_realtime : bool)
    (batches : list (list (option OpticalFlowResult)))
    (imu : list (option ImuData)) (T_w_i_init : SE3) (w : Worker) :
  proc_func bg ba vio_enforce_realtime batches imu false T_w_i_init
    (KeypointVioEstimator_new g0 calib0 cfg) = Go w →
  ∃ taken rest,
    curr_frames vio_enforce_realtime batches = (Some <$> taken) ++ rest
    ∧ (head rest = Some None
       ∨ ((∃ f, head rest = Some (Some f)) ∧ w_data w = None))
    ∧ match taken with
      | [] =>
          w_est w = KeypointVioEstimator_new g0 calib0 cfg
          ∧ head rest = Some None
      | first :: later =>
          ∃ T e1,
            measure first None
              (initialize (of_t_ns first) T Vec3_zero bg ba
                 (KeypointVioEstimator_new g0 calib0 cfg)) = Ok e1
            ∧ fed e1 later (w_est w)
      end
    ∧ w_prev_frame w = list.last taken
    ∧ (StronglySorted Z.lt (of_t_ns <$> taken) →
       driven (w_est w)
       ∨ (taken = [] ∧ w_est w = KeypointVioEstimator_new g0 calib0 cfg)).
Proof.
  unfold proc_func. intros Hrun.
  destruct imu as [|data imu]; [done|].
  apply proc_bind_Go in Hrun as (d & _ & Hrun).
  destruct (curr_frames vio_enforce_realtime batches)
    as [|[curr|] frames]; cbn [proc_loop] in Hrun; [done| |].
  2:{ injection Hrun as <-. exists [], (None :: frames).
      split; [done|]. split; [by left|]. split; [done|]. split; [done|].
      intros _. by right. }
  destruct (proc_frame bg ba curr _) as [[w1 go]|h] eqn:Hframe; [|done].
  unfold proc_frame in Hframe.
  apply proc_bind_Go in Hframe as (w0 & Hblock & Hframe).
  apply init_block_Go in Hblock
    as (Hprev0 & Hmeas0 & Hinit0 & [[Htrue _] | (_ & T & Hest0)]); [done|].
  cbn [w_prev_frame w_meas w_est] in Hprev0, Hmeas0, Hest0.
  assert (w_est w0
          = initialize (of_t_ns curr) T Vec3_zero bg ba
              (KeypointVioEstimator_new g0 calib0 cfg)) as Hstart.
  { rewrite Hest0. unfold initialize.
    cbn [marg_order KeypointVioEstimator_new abs_order_map AbsOrderMap_empty].
    by rewrite insert_empty. }
  apply proc_bind_Go in Hframe as ([w2 go2] & Hpre & Hframe).
  apply preintegrate_Go in Hpre as (Hest & Hinit2 & Hprev2 & Hmeas).
  rewrite Hprev0 in Hmeas. destruct Hmeas as [Hmeas ->].
  apply proc_bind_Go in Hframe as (e' & Hmeasure & Hframe).
  apply raising_Go in Hmeasure. injection Hframe as <- <-.
  rewrite Hmeas, Hmeas0, Hest, Hstart in Hmeasure.
  apply (proc_loop_fed _ _ _ _ _ curr) in Hrun
    as (taken & rest & -> & Hend & Hfed & Hlast);
    [|cbn [w_initialized]; congruence|done].
  cbn [w_est] in Hfed.
  exists (curr :: taken), rest. split; [done|]. split; [done|].
  split; [by exists T, e'|]. split; [done|].
  intros Hsorted. left. rewrite fmap_cons in Hsorted.
  apply (fed_driven taken e'); [done| |].
  - eapply driven_first; [apply driven_start | | exact Hmeasure]. done.
  - by rewrite (measure_last_state _ _ _ _ Hmeasure).
Qed.

End WorkerDrives.

Lemma worker_drives_in_time_order_witness :
  bench_worker_run = Go bench_worker
  ∧ ∃ taken rest,
      curr_frames false (bench_batches fresh_frames 3)
      = (Some <$> taken) ++ rest
      ∧ w_prev_frame bench_worker = list.last taken.
Proof.
  assert (bench_worker_run = Go bench_worker) as Hrun
    by (vm_compute; reflexivity).
  split; [exact Hrun|].
  destruct (worker_drives_in_time_order _ _ _ _ _ _ _ _ _ _ Hrun)
    as (taken & rest & Hsplit & _ & _ & Hlast & _).
  exists taken, rest. split; [exact Hsplit | exact Hlast].
Defined.


Section ImuWindow.
Context `{DriverKernels}.

Lemma omap_some_cons (c : Calib) (d : ImuData) (queue : list (option ImuData)) :
  calibrated c <$> omap id (Some d :: queue)
  = calibrated c d :: (calibrated c <$> omap id queue).
Proof. done. Qed.

Lemma skip_imu_Go (c : Calib) (incl : bool) (t : Z)
    (queue queue' : list (option ImuData)) (data data' : ImuData) :
  skip_imu c incl t queue data = Go (Some data', queue') →
  ∃ skipped,
    data :: (calibrated c <$> omap id queue)
    = skipped ++ data' :: (calibrated c <$> omap id queue')
    ∧ Forall (λ s, imu_t_ns s ≤ t) skipped
    ∧ (if incl then t < imu_t_ns data' else t ≤ imu_t_ns data').
Proof.
  revert data. induction queue as [|[d|] queue IH]; intros data Hrun;
    cbn [skip_imu] in Hrun.
  - destruct (if incl then _ else _) eqn:Hcond; [done|].
    injection Hrun as <- <-. exists []. split; [done|]. split; [done|].
    destruct incl; case_bool_decide; try done; lia.
  - destruct (if incl then _ else _) eqn:Hcond.
    + destruct (IH _ Hrun) as (skipped & Heq & Hall & Hstop).
      exists (data :: skipped).
      split; [by rewrite omap_some_cons, Heq|]. split; [|done].
      constructor; [|done]. destruct incl; case_bool_decide; try done; lia.
    + injection Hrun as <- <-. exists []. split; [done|]. split; [done|].
      destruct incl; case_bool_decide; try done; lia.
  - destruct (if incl then _ else _) eqn:Hcond; [done|].
    injection Hrun as <- <-. exists []. split; [done|]. split; [done|].
    destruct incl; case_bool_decide; try done; lia.
Qed.

Lemma integrate_all_cons (c : Calib) (meas meas1 : IntegratedImuMeasurement)
    (s : ImuData) (samples : list ImuData) :
  integrate c meas s = Ok meas1 →
  integrate_all c meas (s :: samples) = integrate_all c meas1 samples.
Proof. unfold integrate_all. cbn [foldl mbind outcome_bind]. by intros ->. Qed.

Lemma integrate_imu_Go (c : Calib) (t : Z)
    (queue queue' : list (option ImuData)) (data next : ImuData)
    (meas meas1 : IntegratedImuMeasurement) :
  integrate_imu c t queue data meas = Go (meas1, Some next, queue') →
  ∃ used,
    data :: (calibrated c <$> omap id queue)
    = used ++ next :: (calibrated c <$> omap id queue')
    ∧ Forall (λ s, imu_t_ns s ≤ t) used
    ∧ t < imu_t_ns next
    ∧ integrate_all c meas used = Ok meas1.
Proof.
  revert data meas. induction queue as [|[d|] queue IH]; intros data meas Hrun;
    cbn [integrate_imu] in Hrun.
  - case_bool_decide as Hcond.
    + by destruct (integrate c meas data).
    + injection Hrun as <- <- <-. exists []. repeat split; [done|lia].
  - case_bool_decide as Hcond.
    + destruct (integrate c meas data) as [m|f] eqn:Hint; [|done].
      destruct (IH _ _ Hrun) as (used & Heq & Hall & Hstop & Hmeas).
      exists (data :: used).
      split; [by rewrite omap_some_cons, Heq|]. split; [by constructor|].
      split; [done|]. by rewrite (integrate_all_cons _ _ _ _ _ Hint).
    + injection Hrun as <- <- <-. exists []. repeat split; [done|lia].
  - case_bool_decide as Hcond.
    + by destruct (integrate c meas data).
    + injection Hrun as <- <- <-. exists []. repeat split; [done|lia].
Qed.

Lemma sorted_after (l1 l2 : list ImuData) (x : ImuData) :
  StronglySorted Z.lt (imu_t_ns <$> (l1 ++ x :: l2)) →
  Forall (λ s, imu_t_ns x < imu_t_ns s) l2.
Proof.
  rewrite fmap_app. intros Hs. apply StronglySorted_app_1_r in Hs.
  rewrite fmap_cons in Hs. apply StronglySorted_inv in Hs as [_ Hall].
  rewrite list.Forall_forall in Hall. apply list.Forall_forall.
  intros s Hs. apply Hall, list_elem_of_fmap. by exists s.
Qed.

Lemma filter_none {A} (P : A → Prop) `{∀ x, Decision (P x)} (l : list A) :
  Forall (λ x, ¬ P x) l → filter P l = [].
Proof.
  induction 1 as [|x l Hx _ IH]; [done|]. by rewrite filter_cons_False.
Qed.

Lemma filter_all {A} (P : A → Prop) `{∀ x, Decision (P x)} (l : list A) :
  Forall P l → filter P l = l.
Proof.
  induction 1 as [|x l Hx _ IH]; [done|]. by rewrite filter_cons_True, IH.
Qed.

(** [X15] Which IMU samples enter the preintegration of a frame.  For a
    frame that has a predecessor, with samples that arrive in increasing
    time order and a sample left after the frame: the worker integrates,
    into a preintegration that starts at the previous frame with the biases
    of the last state, exactly the samples later than the previous frame
    and not later than the current one, in order; the sample it keeps is
    the first one later than the frame, and nothing after it is consumed.
    When the preintegration ends before the frame, that sample is
    integrated once more with its time set to the time of the frame. *)
Theorem preintegration_window (curr_frame prev_frame : OpticalFlowResult)
    (w w2 : Worker) (go : bool) (data next : ImuData) :
  w_prev_frame w = Some prev_frame →
  w_data w = Some data →
  StronglySorted Z.lt (imu_t_ns <$> imu_stream w data) →
  preintegrate curr_frame w = Go (w2, go) →
  w_data w2 = Some next →
  ∃ last_state meas1,
    frame_states (w_est w) !! last_state_t_ns (w_est w) = Some last_state
    ∧ integrate_all (calib (w_est w)) (meas_from prev_frame last_state)
        (filter (in_interval prev_frame curr_frame) (imu_stream w data))
      = Ok meas1
    ∧ go = true
    ∧ Z.max (of_t_ns prev_frame) (of_t_ns curr_frame) < imu_t_ns next
    ∧ (∃ before,
         imu_stream w data = before ++ imu_stream w2 next
         ∧ Forall (λ s, imu_t_ns s
                        ≤ Z.max (of_t_ns prev_frame) (of_t_ns curr_frame))
             before)
    ∧ (if bool_decide (get_start_t_ns meas1 + get_dt_ns meas1
                       < of_t_ns curr_frame)
       then ∃ meas2,
              integrate (calib (w_est w)) meas1
                (mkImuData (of_t_ns curr_frame) (accel next) (gyro next))
              = Ok meas2
              ∧ w_meas w2 = Some meas2
       else w_meas w2 = Some meas1).
Proof.
  intros Hprev Hdata Hsorted Hrun Hnext. unfold preintegrate in Hrun.
  rewrite Hprev, Hdata in Hrun.
  apply proc_bind_Go in Hrun as (last_state & Hlast & Hrun).
  apply raising_Go, map_at_Ok in Hlast.
  cbn [deref] in Hrun. apply proc_bind_Go in Hrun as (d0 & [= <-] & Hrun).
  apply proc_bind_Go in Hrun as ([data1 queue1] & Hskip & Hrun).
  destruct data1 as [d1|]; [|by apply proc_bind_Go in Hrun as (? & ? & _)].
  apply proc_bind_Go in Hrun as (d1' & [= <-] & Hrun).
  apply proc_bind_Go in Hrun as ([[meas1 data3] queue2] & Hint & Hrun).
  fold (meas_from prev_frame last_state) in Hint.
  assert (data3 = Some next ∧ go = true
          ∧ w_imu_queue w2 = queue2 ∧ w_est w2 = w_est w
          ∧ (if bool_decide (get_start_t_ns meas1 + get_dt_ns meas1
                             < of_t_ns curr_frame)
             then ∃ meas2,
                    integrate (calib (w_est w)) meas1
                      (mkImuData (of_t_ns curr_frame) (accel next)
                         (gyro next)) = Ok meas2
                    ∧ w_meas w2 = Some meas2
             else w_meas w2 = Some meas1))
    as (-> & -> & Hqueue & Hest & Hmeas).
  { case_bool_decide.
    - destruct data3 as [d|].
      + apply proc_bind_Go in Hrun as (meas2 & Hm2%raising_Go & Hrun).
        injection Hrun as <- <-. cbn in Hnext. injection Hnext as ->.
        repeat split; try done. by exists meas2.
      + injection Hrun as <- <-. done.
    - injection Hrun as <- <-. cbn in Hnext. subst data3. done. }
  apply skip_imu_Go in Hskip as (skipped & Heq1 & Hskipped & Hstop1).
  apply integrate_imu_Go in Hint as (used & Heq2 & Hused & Hstop2 & Hall).
  fold (imu_stream w data) in Heq1. rewrite Heq2 in Heq1.
  assert (imu_stream w2 next
          = next :: (calibrated (calib (w_est w)) <$> omap id queue2))
    as Hstream2 by (unfold imu_stream; by rewrite Hqueue, Hest).
  rewrite <- Hstream2 in Heq1.
  exists last_state, meas1. split; [done|]. split.
  - rewrite Heq1, !list.filter_app. rewrite (filter_none _ skipped).
    2:{ eapply list.Forall_impl; [exact Hskipped|]. unfold in_interval.
        intros s Hs. cbn beta in Hs. lia. }
    rewrite (filter_none _ (imu_stream w2 next)).
    2:{ rewrite Hstream2. rewrite Heq1, Hstream2, app_assoc in Hsorted.
        apply sorted_after in Hsorted. constructor.
        - unfold in_interval. lia.
        - eapply list.Forall_impl; [exact Hsorted|]. unfold in_interval.
          intros s Hs. cbn beta in Hs. lia. }
    rewrite app_nil_l, app_nil_r. rewrite filter_all; [done|].
    destruct used as [|u used]; [done|].
    injection Heq2 as <- Heq2.
    assert (Forall (λ s, imu_t_ns d1 < imu_t_ns s) used) as Hlater.
    { rewrite Heq1 in Hsorted.
      change (skipped ++ (d1 :: used) ++ imu_stream w2 next)
        with (skipped ++ d1 :: (used ++ imu_stream w2 next)) in Hsorted.
      apply sorted_after in Hsorted. by apply Forall_app in Hsorted as [? _]. }
    apply list.Forall_cons in Hused as [Hu Hused].
    constructor; [unfold in_interval; lia|].
    rewrite list.Forall_forall in *. intros s Hs. unfold in_interval.
    specialize (Hused s Hs). specialize (Hlater s Hs). cbn beta in *. lia.
  - split; [done|].
    assert (of_t_ns prev_frame < imu_t_ns next) as Hafter.
    { destruct used as [|u used].
      - injection Heq2 as -> _. lia.
      - injection Heq2 as <- _. rewrite Heq1, Hstream2 in Hsorted.
        change (skipped ++ (d1 :: used) ++ next :: ?l)
          with (skipped ++ d1 :: (used ++ next :: l)) in Hsorted.
        apply sorted_after in Hsorted.
        apply Forall_app in Hsorted as [_ Hsorted].
        apply list.Forall_cons in Hsorted as [Hsorted _]. lia. }
    split; [lia|]. split; [|done].
    exists (skipped ++ used). split; [by rewrite <- app_assoc|].
    apply Forall_app. split.
    + eapply list.Forall_impl; [exact Hskipped|].
      intros s Hs. cbn beta in Hs. lia.
    + eapply list.Forall_impl; [exact Hused|].
      intros s Hs. cbn beta in Hs. lia.
Qed.

End ImuWindow.
Lemma preintegration_window_witness :
  preintegrate bench_imu_frame bench_imu_worker
  = Go (bench_imu_worker_next, true)
  ∧ ∃ last_state meas1,
      frame_states (w_est bench_imu_worker)
        !! last_state_t_ns (w_est bench_imu_worker) = Some last_state
      ∧ integrate_all (calib (w_est bench_imu_worker))
          (meas_from (bench_flow 3 (fresh_frames 3)) last_state)
          (filter (in_interval (bench_flow 3 (fresh_frames 3)) bench_imu_frame)
             (imu_stream bench_imu_worker (mkImuData 2 tt tt)))
        = Ok meas1
      ∧ true = true
      ∧ Z.max (of_t_ns (bench_flow 3 (fresh_frames 3)))
          (of_t_ns bench_imu_frame) < imu_t_ns (mkImuData 9 tt tt)
      ∧ (∃ before,
           imu_stream bench_imu_worker (mkImuData 2 tt tt)
           = before ++ imu_stream bench_imu_worker_next (mkImuData 9 tt tt)
           ∧ Forall (λ s, imu_t_ns s
                          ≤ Z.max (of_t_ns (bench_flow 3 (fresh_frames 3)))
                              (of_t_ns bench_imu_frame)) before)
      ∧ (if bool_decide (get_start_t_ns meas1 + get_dt_ns meas1
                         < of_t_ns bench_imu_frame)
         then ∃ meas2,
                integrate (calib (w_est bench_imu_worker)) meas1
                  (mkImuData (of_t_ns bench_imu_frame)
                     (accel (mkImuData 9 tt tt)) (gyro (mkImuData 9 tt tt)))
                = Ok meas2
                ∧ w_meas bench_imu_worker_next = Some meas2
         else w_meas bench_imu_worker_next = Some meas1).
Proof.
  assert (preintegrate bench_imu_frame bench_imu_worker
          = Go (bench_imu_worker_next, true)) as Hrun
    by (vm_compute; reflexivity).
  split; [exact Hrun|].
  assert (w_prev_frame bench_imu_worker = Some (bench_flow 3 (fresh_frames 3)))
    as Hprev by (vm_compute; reflexivity).
  assert (w_data bench_imu_worker = Some (mkImuData 2 tt tt)) as Hdata
    by (vm_compute; reflexivity).
  assert (w_data bench_imu_worker_next = Some (mkImuData 9 tt tt)) as Hnext
    by (vm_compute; reflexivity).
  assert (imu_t_ns <$> imu_stream bench_imu_worker (mkImuData 2 tt tt)
          = [2; 3; 5; 6; 9; 11]) as Htimes by (vm_compute; reflexivity).
  refine (preintegration_window _ _ _ _ _ _ _ Hprev Hdata _ Hrun Hnext).
  rewrite Htimes.
  repeat (constructor; [|repeat constructor; lia]). constructor.
Defined.


Section ColumnLayout.
Context `{Kernels}.

Lemma elem_of_idx_range (start_idx n i : Z) :
  i ∈ idx_range start_idx n ↔ start_idx ≤ i < start_idx + n.
Proof. unfold idx_range. by rewrite elem_of_list_to_set, elem_of_seqZ. Qed.

Lemma size_idx_range (start_idx n : Z) :
  0 ≤ n → Z.of_nat (size (idx_range start_idx n)) = n.
Proof.
  intros Hn. unfold idx_range.
  rewrite size_list_to_set by apply NoDup_seqZ. rewrite length_seqZ. lia.
Qed.

Lemma aom_entries_elem (aom : AbsOrderMap) (k start_idx sz : Z) :
  (k, (start_idx, sz)) ∈ aom_entries aom
  ↔ abs_order_map aom !! k = Some (start_idx, sz).
Proof.
  unfold aom_entries. rewrite list_elem_of_omap. split.
  - intros (k' & _ & Hk'). destruct (abs_order_map aom !! k') eqn:Hlk; [|done].
    cbn in Hk'. by injection Hk' as <- <-.
  - intros Hk. exists k. split.
    + apply asc_elem_of, elem_of_dom. by eexists.
    + by rewrite Hk.
Qed.

(** The loop over the order map never fails on sizes 6 and 15 when every
    state is one of the chosen ones, and sorts every column of an entry
    into one of the two sets. *)
Lemma idx_partition_Ok (poses_to_marg all vel_bias : gset Z) (last : Z)
    (entries : list (Z * (Z * Z))) (idx_to_keep idx_to_marg : gset Z) :
  Forall (λ entry, entry.2.2 = 6
                   ∨ (entry.2.2 = 15
                      ∧ (entry.1 ∈ all ∨ entry.1 ∈ vel_bias
                         ∨ entry.1 = last))) entries →
  ∃ keep marg,
    idx_partition poses_to_marg all vel_bias last entries idx_to_keep
      idx_to_marg = Ok (keep, marg)
    ∧ (∀ i, i ∈ keep ↔
         i ∈ idx_to_keep
         ∨ Exists (λ entry,
             entry.2.1 ≤ i < entry.2.1 + entry.2.2
             ∧ ((entry.2.2 = 6 ∧ entry.1 ∉ poses_to_marg)
                ∨ (entry.2.2 ≠ 6 ∧ (entry.1 ∉ all)
                   ∧ (entry.1 ∈ vel_bias → i < entry.2.1 + 6)))) entries)
    ∧ (∀ i, i ∈ marg ↔
         i ∈ idx_to_marg
         ∨ Exists (λ entry,
             entry.2.1 ≤ i < entry.2.1 + entry.2.2
             ∧ ((entry.2.2 = 6 ∧ entry.1 ∈ poses_to_marg)
                ∨ (entry.2.2 ≠ 6
                   ∧ (entry.1 ∈ all
                      ∨ (entry.1 ∈ vel_bias ∧ entry.2.1 + 6 ≤ i)))))
             entries).
Proof.
  revert idx_to_keep idx_to_marg.
  induction entries as [|[k [s sz]] entries IH]; intros keep0 marg0 Hok.
  - exists keep0, marg0. split; [done|].
    split; intros i; rewrite Exists_nil; tauto.
  - apply list.Forall_cons in Hok as [Hk Hok]. cbn [fst snd] in Hk.
    cbn [idx_partition].
    destruct Hk as [->|[-> Hk]].
    + rewrite (decide_True (P := 6 = POSE_SIZE)) by done.
      destruct (decide (k ∈ poses_to_marg)) as [Hp|Hp].
      * destruct (IH keep0 (idx_range s POSE_SIZE ∪ marg0) Hok)
          as (keep & marg & -> & Hkeep & Hmarg).
        exists keep, marg. split; [done|].
        split; intros i; [rewrite Hkeep | rewrite Hmarg];
          rewrite List.Exists_cons, ?elem_of_union, ?elem_of_idx_range;
          cbn [fst snd]; unfold POSE_SIZE; intuition lia.
      * destruct (IH (idx_range s POSE_SIZE ∪ keep0) marg0 Hok)
          as (keep & marg & -> & Hkeep & Hmarg).
        exists keep, marg. split; [done|].
        split; intros i; [rewrite Hkeep | rewrite Hmarg];
          rewrite List.Exists_cons, ?elem_of_union, ?elem_of_idx_range;
          cbn [fst snd]; unfold POSE_SIZE; intuition lia.
    + rewrite (decide_False (P := 15 = POSE_SIZE)) by done.
      rewrite (bool_decide_eq_true_2 (15 = POSE_VEL_BIAS_SIZE)) by done.
      cbn [BASALT_ASSERT mbind outcome_bind].
      destruct (decide (k ∈ all)) as [Ha|Ha];
        [|destruct (decide (k ∈ vel_bias)) as [Hv|Hv]].
      * destruct (IH keep0 (idx_range s POSE_VEL_BIAS_SIZE ∪ marg0) Hok)
          as (keep & marg & -> & Hkeep & Hmarg).
        exists keep, marg. split; [done|].
        split; intros i; [rewrite Hkeep | rewrite Hmarg];
          rewrite List.Exists_cons, ?elem_of_union, ?elem_of_idx_range;
          cbn [fst snd]; unfold POSE_VEL_BIAS_SIZE; intuition lia.
      * destruct (IH (idx_range s POSE_SIZE ∪ keep0)
                    (idx_range (s + POSE_SIZE)
                       (POSE_VEL_BIAS_SIZE - POSE_SIZE) ∪ marg0) Hok)
          as (keep & marg & -> & Hkeep & Hmarg).
        exists keep, marg. split; [done|].
        split; intros i; [rewrite Hkeep | rewrite Hmarg];
          rewrite List.Exists_cons, ?elem_of_union, ?elem_of_idx_range;
          cbn [fst snd]; unfold POSE_VEL_BIAS_SIZE, POSE_SIZE; intuition lia.
      * assert (k = last) as Hlast by tauto.
        rewrite (bool_decide_eq_true_2 (k = last)) by done.
        cbn [BASALT_ASSERT mbind outcome_bind].
        destruct (IH (idx_range s POSE_VEL_BIAS_SIZE ∪ keep0) marg0 Hok)
          as (keep & marg & -> & Hkeep & Hmarg).
        exists keep, marg. split; [done|].
        split; intros i; [rewrite Hkeep | rewrite Hmarg];
          rewrite List.Exists_cons, ?elem_of_union, ?elem_of_idx_range;
          cbn [fst snd]; unfold POSE_VEL_BIAS_SIZE; intuition lia.
Qed.

End ColumnLayout.


Section SelectionOrder.
Context `{Kernels}.

Lemma marg_poses_loop_aom (marg_order : AbsOrderMap) (kf_ids : gset Z)
    (keys : list Z) (aom aom' : AbsOrderMap) (poses poses' : gset Z) :
  marg_poses_loop marg_order kf_ids keys aom poses = Ok (aom', poses') →
  aom' = aom_lay POSE_SIZE keys aom.
Proof.
  revert aom poses. induction keys as [|k keys IH]; intros aom poses Hrun;
    cbn [marg_poses_loop] in Hrun.
  - by injection Hrun as <- _.
  - apply bind_Ok in Hrun as (u & _ & Hrun). rewrite aom_lay_cons.
    by apply IH in Hrun.
Qed.

Lemma marg_states_loop_aom (marg_order : AbsOrderMap) (kf_ids : gset Z)
    (last : Z) (keys : list Z) (aom aom' : AbsOrderMap)
    (vb al vb' al' : gset Z) :
  StronglySorted Z.lt keys →
  marg_states_loop marg_order kf_ids last keys aom vb al = Ok (aom', vb', al') →
  ∃ n, aom' = aom_lay POSE_VEL_BIAS_SIZE (take n keys) aom
       ∧ ∀ k, k ∈ take n keys ↔ k ∈ keys ∧ k ≤ last.
Proof.
  intros Hsorted. revert aom vb al.
  induction Hsorted as [|k0 keys Hsorted IH Hk0]; intros aom vb al Hrun;
    cbn [marg_states_loop] in Hrun.
  - injection Hrun as <- _ _. exists 0%nat. split; [done|].
    intros k. cbn [take]. rewrite elem_of_nil. tauto.
  - rewrite list.Forall_forall in Hk0. case_decide as Hbreak.
    + injection Hrun as <- _ _. exists 0%nat. split; [done|].
      intros k. cbn [take]. rewrite elem_of_nil, elem_of_cons.
      split; [tauto|]. intros [[->|Hin] Hle]; [lia|].
      specialize (Hk0 k Hin). lia.
    + cbv zeta in Hrun. apply bind_Ok in Hrun as (u & _ & Hrun).
      apply IH in Hrun as (n & -> & Hn). exists (S n).
      split; [by rewrite firstn_cons, aom_lay_cons|].
      intros k. rewrite firstn_cons, !elem_of_cons, Hn.
      split; [|tauto]. intros [->|?]; [|tauto]. split; [tauto|lia].
Qed.

Lemma marg_select_aom (e : KeypointVioEstimator) (sel : MargSelection) :
  marg_select e = Ok sel →
  ∃ n,
    sel_aom sel
    = aom_lay POSE_VEL_BIAS_SIZE (take n (asc (dom (frame_states e))))
        (aom_lay POSE_SIZE (asc (dom (frame_poses e))) AbsOrderMap_empty)
    ∧ ∀ k, k ∈ take n (asc (dom (frame_states e)))
           ↔ k ∈ dom (frame_states e) ∧ k ≤ last_state_to_marg sel.
Proof.
  unfold marg_select. intros Hrun.
  apply bind_Ok in Hrun as (last & _ & Hrun).
  apply bind_Ok in Hrun as ([aom0 poses0] & Hposes & Hrun).
  apply bind_Ok in Hrun as ([[aom vb] al] & Hstates & Hrun).
  injection Hrun as <-. cbn [sel_aom last_state_to_marg].
  apply marg_poses_loop_aom in Hposes as ->.
  apply marg_states_loop_aom in Hstates as (n & -> & Hn);
    [|apply asc_sorted_lt].
  exists n. split; [done|]. intros k. by rewrite Hn, asc_elem_of.
Qed.

(** The entries of an order laid out as poses, six columns each, then
    states, fifteen columns each. *)
Lemma aom_lay_entries (pk sk : list Z) (k start_idx sz : Z) :
  NoDup (pk ++ sk) →
  abs_order_map
    (aom_lay POSE_VEL_BIAS_SIZE sk (aom_lay POSE_SIZE pk AbsOrderMap_empty))
    !! k = Some (start_idx, sz)
  ↔ (∃ a : nat, pk !! a = Some k ∧ start_idx = 6 * Z.of_nat a ∧ sz = 6)
    ∨ (∃ b : nat, sk !! b = Some k
         ∧ start_idx = 6 * Z.of_nat (length pk) + 15 * Z.of_nat b ∧ sz = 15).
Proof.
  intros Hnd. apply list.NoDup_app in Hnd as (Hpk & Hdisj & Hsk).
  assert (total_size (aom_lay POSE_SIZE pk AbsOrderMap_empty)
          = 6 * Z.of_nat (length pk)) as Htot.
  { destruct (aom_lay_size POSE_SIZE pk AbsOrderMap_empty) as [-> _].
    cbn [total_size AbsOrderMap_empty]. unfold POSE_SIZE. lia. }
  assert (∀ b, sk !! b = Some k →
            abs_order_map
              (aom_lay POSE_VEL_BIAS_SIZE sk
                 (aom_lay POSE_SIZE pk AbsOrderMap_empty)) !! k
            = Some (6 * Z.of_nat (length pk) + 15 * Z.of_nat b, 15)) as Hs.
  { intros b Hb. rewrite (aom_lay_lookup _ _ _ b k Hsk Hb), Htot. done. }
  assert (∀ a, pk !! a = Some k →
            abs_order_map
              (aom_lay POSE_VEL_BIAS_SIZE sk
                 (aom_lay POSE_SIZE pk AbsOrderMap_empty)) !! k
            = Some (6 * Z.of_nat a, 6)) as Hp.
  { intros a Ha. rewrite aom_lay_lookup_other.
    - rewrite (aom_lay_lookup _ _ _ a k Hpk Ha).
      cbn [total_size AbsOrderMap_empty]. done.
    - apply Hdisj. by eapply list_elem_of_lookup_2. }
  split.
  - intros Hk.
    assert (k ∈ dom (abs_order_map
                       (aom_lay POSE_VEL_BIAS_SIZE sk
                          (aom_lay POSE_SIZE pk AbsOrderMap_empty)))) as Hin
      by (apply elem_of_dom; by eexists).
    rewrite !aom_lay_dom in Hin. cbn [abs_order_map AbsOrderMap_empty] in Hin.
    rewrite dom_empty_L, !elem_of_union, !elem_of_list_to_set in Hin.
    destruct Hin as [[Hin|Hin]|Hin]; [by apply elem_of_empty in Hin| |].
    + apply list_elem_of_lookup_1 in Hin as [a Ha]. left. exists a.
      rewrite (Hp a Ha) in Hk. by injection Hk as <- <-.
    + apply list_elem_of_lookup_1 in Hin as [b Hb]. right. exists b.
      rewrite (Hs b Hb) in Hk. by injection Hk as <- <-.
  - intros [(a & Ha & -> & ->)|(b & Hb & -> & ->)]; [by apply Hp|by apply Hs].
Qed.

(** Counting the columns of a layout: at the step [w] from [o] on, entry
    [a] takes [c k] columns. *)
Lemma lay_count (w o : Z) (c : Z → Z) (l : list Z) (cols : gset Z) :
  (∀ k, 0 ≤ c k ≤ w) →
  (∀ i, i ∈ cols ↔
     ∃ (a : nat) k, l !! a = Some k
       ∧ o + w * Z.of_nat a ≤ i < o + w * Z.of_nat a + c k) →
  Z.of_nat (size cols) = foldr (λ k acc, c k + acc) 0 l.
Proof.
  intros Hc. revert o cols. induction l as [|k0 l IH]; intros o cols Hcols.
  - assert (cols = ∅) as ->; [|by rewrite size_empty].
    apply set_eq. intros i. rewrite Hcols, elem_of_empty.
    split; [|done]. by intros (a & k & Ha & _).
  - assert (cols = idx_range o (c k0) ∪ cols ∖ idx_range o (c k0)) as Hsplit.
    { apply set_eq. intros i.
      rewrite elem_of_union, elem_of_difference.
      destruct (decide (i ∈ idx_range o (c k0))) as [Hi|Hi]; [|tauto].
      split; [tauto|]. intros _. apply Hcols. exists 0%nat, k0.
      split; [done|]. apply elem_of_idx_range in Hi. lia. }
    rewrite Hsplit, size_union by set_solver.
    rewrite Nat2Z.inj_add, size_idx_range by apply Hc.
    cbn [foldr]. f_equal. apply (IH (o + w)). intros i.
    rewrite elem_of_difference, elem_of_idx_range, Hcols. split.
    + intros [(a & k & Ha & Hi) Hout]. destruct a as [|a].
      * injection Ha as ->. lia.
      * exists a, k. split; [done|]. lia.
    + intros (a & k & Ha & Hi). pose proof (Hc k0). split; [|nia].
      exists (S a), k. split; [done|]. lia.
Qed.

Lemma sum_by_class (P Q : Z → Prop) `{∀ k, Decision (P k)}
    `{∀ k, Decision (Q k)} (l : list Z) :
  foldr (λ k acc, (if decide (P k) then 0
                   else if decide (Q k) then 6 else 15) + acc) 0 l
  = 6 * Z.of_nat (length (filter (λ k, ¬ P k ∧ Q k) l))
    + 15 * Z.of_nat (length (filter (λ k, ¬ P k ∧ ¬ Q k) l)).
Proof.
  induction l as [|k l IH]; [done|]. cbn [foldr]. rewrite IH.
  destruct (decide (P k)); [|destruct (decide (Q k))].
  - rewrite !filter_cons_False by tauto. lia.
  - rewrite filter_cons_True, filter_cons_False by tauto.
    cbn [length]. lia.
  - rewrite filter_cons_False, filter_cons_True by tauto.
    cbn [length]. lia.
Qed.

Lemma sum_poses (P : Z → Prop) `{∀ k, Decision (P k)} (l : list Z) :
  foldr (λ k acc, (if decide (P k) then 0 else 6) + acc) 0 l
  = 6 * Z.of_nat (length (filter (λ k, ¬ P k) l)).
Proof.
  induction l as [|k l IH]; [done|]. cbn [foldr]. rewrite IH.
  destruct (decide (P k)).
  - rewrite filter_cons_False by tauto. lia.
  - rewrite filter_cons_True by tauto. cbn [length]. lia.
Qed.

Lemma filter_length_size (P : Z → Prop) `{∀ k, Decision (P k)} (l : list Z)
    (s : gset Z) :
  NoDup l → (∀ k, k ∈ s ↔ P k ∧ k ∈ l) →
  length (filter P l) = size s.
Proof.
  intros Hnd Hs. rewrite <- (size_list_to_set (C := gset Z)).
  - f_equal. apply set_eq. intros k.
    by rewrite elem_of_list_to_set, list_elem_of_filter, Hs.
  - by apply list.NoDup_filter.
Qed.

End SelectionOrder.


Section ColumnPartition.
Context `{Kernels}.

(** [X16] How [marginalize] splits the columns of the linearised system.
    On a window whose poses and states have different timestamps, once the
    frames are chosen, the loop over the order map fails on no assertion
    and puts each of the columns [0 .. total_size - 1] into exactly one of
    [idx_to_keep] and [idx_to_marg], whatever [poses_to_marg] holds.  When
    no keyframe that is turned into a pose is among [poses_to_marg],
    [idx_to_keep] has as many columns as the order built afterwards, over
    the poses that remain and [last_state_to_marg], has in total. *)
Theorem marginalize_splits_columns (e : KeypointVioEstimator)
    (sel : MargSelection) (poses_to_marg : gset Z) :
  dom (frame_poses e) ## dom (frame_states e) →
  marg_select e = Ok sel →
  ∃ idx_to_keep idx_to_marg,
    idx_partition poses_to_marg (states_to_marg_all sel)
      (states_to_marg_vel_bias sel) (last_state_to_marg sel)
      (aom_entries (sel_aom sel)) ∅ ∅ = Ok (idx_to_keep, idx_to_marg)
    ∧ idx_to_keep ## idx_to_marg
    ∧ idx_to_keep ∪ idx_to_marg = idx_range 0 (total_size (sel_aom sel))
    ∧ (poses_to_marg ## states_to_marg_vel_bias sel →
       Z.of_nat (size idx_to_keep)
       = total_size
           (marg_order_of
              (asc ((dom (frame_poses e) ∪ states_to_marg_vel_bias sel)
                    ∖ poses_to_marg))
              (last_state_to_marg sel))).
Proof.
  intros Hdisj Hsel.
  destruct (marg_select_Ok _ _ Hsel) as (Hlast & Hvb & Hal).
  destruct (marg_select_aom _ _ Hsel) as (n & Haom & Hn).
  apply list_elem_of_lookup_2, asc_elem_of in Hlast.
  destruct sel as [last aom P0 V A].
  cbn [last_state_to_marg sel_aom states_to_marg_vel_bias
       states_to_marg_all] in *.
  clear Hsel.
  set (pk := asc (dom (frame_poses e))) in *.
  set (sk := take n (asc (dom (frame_states e)))) in *.
  set (off := 6 * Z.of_nat (length pk)).
  assert (NoDup sk) as Hsk
    by (eapply sublist_NoDup; [apply asc_NoDup | apply sublist_take]).
  assert (NoDup (pk ++ sk)) as Hnd.
  { apply list.NoDup_app. split; [apply asc_NoDup|]. split; [|done].
    intros k Hp Hs. apply asc_elem_of in Hp. apply Hn in Hs as [Hs _].
    by apply (Hdisj k). }
  assert (∀ k s sz, (k, (s, sz)) ∈ aom_entries aom
            ↔ (∃ a : nat, pk !! a = Some k ∧ s = 6 * Z.of_nat a ∧ sz = 6)
              ∨ (∃ b : nat, sk !! b = Some k
                   ∧ s = off + 15 * Z.of_nat b ∧ sz = 15)) as Hentries.
  { intros k s sz. rewrite aom_entries_elem, Haom.
    by apply aom_lay_entries. }
  assert (total_size aom = off + 15 * Z.of_nat (length sk)) as Htotal.
  { rewrite Haom.
    destruct (aom_lay_size POSE_VEL_BIAS_SIZE sk
                (aom_lay POSE_SIZE pk AbsOrderMap_empty)) as [-> _].
    destruct (aom_lay_size POSE_SIZE pk AbsOrderMap_empty) as [-> _].
    cbn [total_size AbsOrderMap_empty].
    unfold POSE_SIZE, POSE_VEL_BIAS_SIZE, off. lia. }
  assert (∀ k, k ∈ sk → k ∈ A ∨ k ∈ V ∨ k = last) as Hchosen.
  { intros k Hk. apply Hn in Hk as [Hfs Hle].
    destruct (decide (k = last)); [tauto|].
    destruct (decide (k ∈ kf_ids e));
      [right; left; apply Hvb | left; apply Hal];
      (split; [done|split; [lia|done]]). }
  destruct (idx_partition_Ok poses_to_marg A V last (aom_entries aom) ∅ ∅)
    as (keep & marg & Hrun & Hkeep & Hmarg).
  { apply list.Forall_forall. intros [k [s sz]] Hin. cbn [fst snd].
    apply Hentries in Hin as [(a & _ & _ & ->)|(b & Hb & _ & ->)];
      [by left|].
    right. split; [done|]. by eapply Hchosen, list_elem_of_lookup_2. }
  clear Haom.
  assert (∀ i, i ∈ keep ↔
            (∃ (a : nat) k, pk !! a = Some k
               ∧ 6 * Z.of_nat a ≤ i < 6 * Z.of_nat a + 6
               ∧ k ∉ poses_to_marg)
            ∨ (∃ (b : nat) k, sk !! b = Some k
                 ∧ off + 15 * Z.of_nat b ≤ i < off + 15 * Z.of_nat b + 15
                 ∧ (k ∉ A) ∧ (k ∈ V → i < off + 15 * Z.of_nat b + 6))) as Hk.
  { intros i. rewrite Hkeep, list.Exists_exists. split.
    - intros [Hemp|([k [s sz]] & Hin & Hrange & Hcond)];
        [by apply elem_of_empty in Hemp|].
      cbn [fst snd] in *.
      apply Hentries in Hin as [(a & Ha & -> & ->)|(b & Hb & -> & ->)].
      + left. exists a, k. destruct Hcond as [[_ ?]|[? _]]; [|done].
        split; [done|]. split; [lia|done].
      + right. exists b, k. destruct Hcond as [[? _]|(_ & ? & ?)]; [done|].
        split; [done|]. split; [lia|]. split; done.
    - intros [(a & k & Ha & Hi & Hp)|(b & k & Hb & Hi & Ha & Hv)]; right.
      + exists (k, (6 * Z.of_nat a, 6)). cbn [fst snd].
        split; [apply Hentries; left; by exists a|]. split; [lia|].
        left. done.
      + exists (k, (off + 15 * Z.of_nat b, 15)). cbn [fst snd].
        split; [apply Hentries; right; by exists b|]. split; [lia|].
        right. split; [done|]. split; done. }
  assert (∀ i, i ∈ marg ↔
            (∃ (a : nat) k, pk !! a = Some k
               ∧ 6 * Z.of_nat a ≤ i < 6 * Z.of_nat a + 6
               ∧ k ∈ poses_to_marg)
            ∨ (∃ (b : nat) k, sk !! b = Some k
                 ∧ off + 15 * Z.of_nat b ≤ i < off + 15 * Z.of_nat b + 15
                 ∧ (k ∈ A ∨ (k ∈ V ∧ off + 15 * Z.of_nat b + 6 ≤ i))))
    as Hm.
  { intros i. rewrite Hmarg, list.Exists_exists. split.
    - intros [Hemp|([k [s sz]] & Hin & Hrange & Hcond)];
        [by apply elem_of_empty in Hemp|].
      cbn [fst snd] in *.
      apply Hentries in Hin as [(a & Ha & -> & ->)|(b & Hb & -> & ->)].
      + left. exists a, k. destruct Hcond as [[_ ?]|[? _]]; [|done].
        split; [done|]. split; [lia|done].
      + right. exists b, k. destruct Hcond as [[? _]|(_ & ?)]; [done|].
        split; [done|]. split; [lia|done].
    - intros [(a & k & Ha & Hi & Hp)|(b & k & Hb & Hi & Hc)]; right.
      + exists (k, (6 * Z.of_nat a, 6)). cbn [fst snd].
        split; [apply Hentries; left; by exists a|]. split; [lia|].
        left. done.
      + exists (k, (off + 15 * Z.of_nat b, 15)). cbn [fst snd].
        split; [apply Hentries; right; by exists b|]. split; [lia|].
        right. split; done. }
  clear Hkeep Hmarg Hentries.
  assert (∀ (a : nat) k, pk !! a = Some k → Z.of_nat a < Z.of_nat (length pk))
    as Hpk_lt by (intros a k Ha%lookup_lt_Some; lia).
  assert (∀ (b : nat) k, sk !! b = Some k → Z.of_nat b < Z.of_nat (length sk))
    as Hsk_lt by (intros b k Hb%lookup_lt_Some; lia).
  exists keep, marg. split; [exact Hrun|]. clear Hrun.
  split; [|split].
  - intros i Hi1 Hi2. apply Hk in Hi1. apply Hm in Hi2.
    destruct Hi1 as [(a1 & k1 & Ha1 & Hr1 & Hc1)|(b1 & k1 & Hb1 & Hr1 & Hc1)];
      destruct Hi2 as [(a2 & k2 & Ha2 & Hr2 & Hc2)|(b2 & k2 & Hb2 & Hr2 & Hc2)].
    + assert (a1 = a2) as -> by lia. rewrite Ha1 in Ha2.
      injection Ha2 as ->. done.
    + pose proof (Hpk_lt _ _ Ha1). unfold off in Hr2. lia.
    + pose proof (Hpk_lt _ _ Ha2). unfold off in Hr1. lia.
    + assert (b1 = b2) as -> by lia. rewrite Hb1 in Hb2.
      injection Hb2 as ->. destruct Hc1 as [HA HV].
      destruct Hc2 as [?|[HV2 ?]]; [done|]. specialize (HV HV2). lia.
  - apply set_eq. intros i.
    rewrite elem_of_union, Hk, Hm, elem_of_idx_range, Htotal. split.
    + intros [[(a & k & Ha & Hr & _)|(b & k & Hb & Hr & _)]
             |[(a & k & Ha & Hr & _)|(b & k & Hb & Hr & _)]];
        try (pose proof (Hpk_lt _ _ Ha)); try (pose proof (Hsk_lt _ _ Hb));
        unfold off in *; lia.
    + intros Hi. destruct (decide (i < off)) as [Hlow|Hhigh].
      * assert (0 ≤ i / 6 ∧ i / 6 < Z.of_nat (length pk)
                ∧ 6 * (i / 6) ≤ i < 6 * (i / 6) + 6) as (? & ? & ?)
          by (unfold off in Hlow; Z.div_mod_to_equations; lia).
        destruct (lookup_lt_is_Some_2 pk (Z.to_nat (i / 6))) as [k Ha];
          [lia|].
        destruct (decide (k ∈ poses_to_marg)); [right|left]; left;
          exists (Z.to_nat (i / 6)), k; (split; [done|]);
          (split; [lia|done]).
      * assert (0 ≤ (i - off) / 15
                ∧ (i - off) / 15 < Z.of_nat (length sk)
                ∧ 15 * ((i - off) / 15) ≤ i - off
                  < 15 * ((i - off) / 15) + 15) as (? & ? & ?)
          by (Z.div_mod_to_equations; lia).
        destruct (lookup_lt_is_Some_2 sk (Z.to_nat ((i - off) / 15)))
          as [k Hb]; [lia|].
        destruct (decide (k ∈ A)) as [HA|HA].
        { right. right. exists (Z.to_nat ((i - off) / 15)), k.
          split; [done|]. split; [lia|]. by left. }
        destruct (decide (k ∈ V
                          ∧ off + 15 * Z.of_nat (Z.to_nat ((i - off) / 15))
                            + 6 ≤ i)) as [HV|HV].
        { right. right. exists (Z.to_nat ((i - off) / 15)), k.
          split; [done|]. split; [lia|]. by right. }
        left. right. exists (Z.to_nat ((i - off) / 15)), k.
        split; [done|]. split; [lia|]. split; [done|]. intros Hv.
        apply Z.lt_nge. intros Hge. apply HV. split; [done|lia].
  - intros HPV.
    assert (last ∉ V) as HlastV by (rewrite Hvb; intros (_ & ? & _); lia).
    assert (last ∉ A) as HlastA by (rewrite Hal; intros (_ & ? & _); lia).
    assert (last ∈ sk) as Hlast_sk by (apply Hn; split; [done|lia]).
    assert (∀ k, k ∈ V → k ∈ sk ∧ k ∉ A) as HV.
    { intros k Hv. apply Hvb in Hv as (? & ? & ?). split.
      - apply Hn. split; [done|lia].
      - rewrite Hal. tauto. }
    (* the new order *)
    destruct (marg_order_of_size
                (asc ((dom (frame_poses e) ∪ V) ∖ poses_to_marg)) last)
      as (_ & -> & _); [apply asc_NoDup| |].
    { rewrite asc_elem_of, elem_of_difference, elem_of_union.
      intros [[Hp|Hv] _]; [by apply (Hdisj last)|done]. }
    rewrite asc_length.
    assert ((dom (frame_poses e) ∪ V) ∖ poses_to_marg
            = dom (frame_poses e) ∖ poses_to_marg ∪ V) as ->.
    { apply set_eq. intros k.
      rewrite elem_of_difference, !elem_of_union, elem_of_difference.
      split; [tauto|]. intros [?|Hv]; [tauto|].
      split; [tauto|]. intros Hp. by apply (HPV k). }
    rewrite size_union.
    2:{ intros k [Hp _]%elem_of_difference Hv. apply Hvb in Hv as [Hs _].
        by apply (Hdisj k). }
    (* the columns kept *)
    assert (keep = filter (λ i, i < off) keep ∪ filter (λ i, off ≤ i) keep)
      as Hsplit.
    { apply set_eq. intros i. rewrite elem_of_union, !elem_of_filter.
      destruct (decide (i < off)); [tauto|]. split; [|tauto].
      intros ?. right. split; [lia|done]. }
    rewrite Hsplit, size_union.
    2:{ intros i [? _]%elem_of_filter [? _]%elem_of_filter. lia. }
    rewrite !Nat2Z.inj_add.
    rewrite (lay_count 6 0
               (λ k, if decide (k ∈ poses_to_marg) then 0 else 6) pk
               (filter (λ i, i < off) keep)).
    2:{ intros k. case_decide; lia. }
    2:{ intros i. rewrite elem_of_filter, Hk. split.
        - intros [Hlow [(a & k & Ha & Hr & Hc)|(b & k & Hb & Hr & _)]];
            [|lia].
          exists a, k. split; [done|]. rewrite decide_False by done. lia.
        - intros (a & k & Ha & Hr). case_decide as Hp; [lia|].
          pose proof (Hpk_lt _ _ Ha). split; [unfold off; lia|].
          left. exists a, k. split; [done|]. split; [lia|done]. }
    rewrite (lay_count 15 off
               (λ k, if decide (k ∈ A) then 0
                     else if decide (k ∈ V) then 6 else 15) sk
               (filter (λ i, off ≤ i) keep)).
    2:{ intros k. repeat case_decide; lia. }
    2:{ intros i. rewrite elem_of_filter, Hk. split.
        - intros [Hhigh [(a & k & Ha & Hr & _)|(b & k & Hb & Hr & HA & HVk)]].
          + pose proof (Hpk_lt _ _ Ha). unfold off in Hhigh. lia.
          + exists b, k. split; [done|]. rewrite decide_False by done.
            case_decide as Hv; [specialize (HVk Hv)|]; lia.
        - intros (b & k & Hb & Hr). case_decide as HA; [lia|].
          split; [lia|]. right. exists b, k. split; [done|].
          case_decide as Hv; (split; [lia|]); (split; [done|]);
            intros ?; [lia|done]. }
    rewrite (sum_poses (λ k, k ∈ poses_to_marg)).
    rewrite (sum_by_class (λ k, k ∈ A) (λ k, k ∈ V)).
    rewrite (filter_length_size _ pk (dom (frame_poses e) ∖ poses_to_marg)).
    2: apply asc_NoDup.
    2:{ intros k. unfold pk. rewrite asc_elem_of, elem_of_difference. tauto. }
    rewrite (filter_length_size _ sk V).
    2: done.
    2:{ intros k. split; [|tauto]. intros Hv. destruct (HV k Hv). tauto. }
    rewrite (filter_length_size _ sk {[last]}).
    2: done.
    2:{ intros k. rewrite elem_of_singleton. split; [intros ->; tauto|].
        intros [[? ?] Hin]. destruct (Hchosen k Hin) as [?|[?|?]]; done. }
    rewrite size_singleton. lia.
Qed.

End ColumnPartition.

Lemma marginalize_splits_columns_witness :
  dom (frame_poses bench_before_eviction.1)
    ## dom (frame_states bench_before_eviction.1)
  ∧ marg_select bench_before_eviction.1 = Ok bench_eviction_selection
  ∧ ∃ idx_to_keep idx_to_marg,
      idx_partition bench_eviction.2
        (states_to_marg_all bench_eviction_selection)
        (states_to_marg_vel_bias bench_eviction_selection)
        (last_state_to_marg bench_eviction_selection)
        (aom_entries (sel_aom bench_eviction_selection)) ∅ ∅
      = Ok (idx_to_keep, idx_to_marg)
      ∧ idx_to_keep ## idx_to_marg
      ∧ idx_to_keep ∪ idx_to_marg
        = idx_range 0 (total_size (sel_aom bench_eviction_selection))
      ∧ (bench_eviction.2 ## states_to_marg_vel_bias bench_eviction_selection →
         Z.of_nat (size idx_to_keep)
         = total_size
             (marg_order_of
                (asc ((dom (frame_poses bench_before_eviction.1)
                       ∪ states_to_marg_vel_bias bench_eviction_selection)
                      ∖ bench_eviction.2))
                (last_state_to_marg bench_eviction_selection))).
Proof.
  assert (marg_select bench_before_eviction.1 = Ok bench_eviction_selection)
    as Hsel by (vm_compute; reflexivity).
  assert (dom (frame_poses bench_before_eviction.1)
            ## dom (frame_states bench_before_eviction.1)) as Hdisj
    by (apply (bool_decide_unpack _); vm_compute; exact I).
  split; [exact Hdisj|]. split; [exact Hsel|].
  exact (marginalize_splits_columns _ _ _ Hdisj Hsel).
Defined.


Section MeasureFront.
Context `{Kernels}.

Lemma addObservation_returns (tcid_target : TimeCamId) (o : KeypointObservation)
    (db : LandmarkDatabase) :
  is_Some (kpts db !! kpt_id o) →
  ∃ db', addObservation tcid_target o db = Ok db' ∧ kpts db' = kpts db.
Proof.
  intros [kp Hkp]. unfold addObservation. rewrite Hkp. by eexists.
Qed.

Lemma associate_obs_returns (t cam : Z) (kv_obs : Z * Affine)
    (a : Association) :
  ∃ a', associate_obs t cam kv_obs a = Ok a'.
Proof.
  unfold associate_obs, landmarkExists. case_bool_decide as Hex; [|by eexists].
  destruct Hex as [kp Hkp]. unfold map_at. rewrite Hkp.
  cbn [mbind outcome_bind].
  destruct (addObservation_returns (t, cam)
              (mkKeypointObservation kv_obs.1 (translation kv_obs.2))
              (assoc_lmdb a)) as (db & -> & _); [by eexists|].
  by eexists.
Qed.

Lemma associate_cam_returns (t cam : Z) (kvs : list (Z * Affine))
    (a : Association) :
  ∃ a', associate_cam t cam kvs a = Ok a'.
Proof.
  revert a. induction kvs as [|kv kvs IH]; intros a; [by eexists|].
  cbn [associate_cam]. destruct (associate_obs_returns t cam kv a) as [a1 ->].
  apply IH.
Qed.

Lemma associate_cams_returns (t cam : Z) (cams : list (gmap Z Affine))
    (a : Association) :
  ∃ a', associate_cams t cam cams a = Ok a'.
Proof.
  revert cam a. induction cams as [|m cams IH]; intros cam a; [by eexists|].
  cbn [associate_cams].
  destruct (associate_cam_returns t cam (flow_entries m) a) as [a1 ->].
  apply IH.
Qed.

Lemma getPoseStateWithLin_returns (frame : Z) (e : KeypointVioEstimator) :
  frame ∈ dom (frame_poses e) ∪ dom (frame_states e) →
  ∃ p, getPoseStateWithLin frame e = Ok p.
Proof.
  rewrite elem_of_union, !elem_of_dom. unfold getPoseStateWithLin.
  intros [[p Hp]|[s Hs]].
  - rewrite Hp. by eexists.
  - rewrite Hs. destruct (frame_poses e !! frame); by eexists.
Qed.

(** Every entry of [kp_obs] is an observation of the landmark in a camera
    of a stored optical flow result. *)
Lemma collect_kp_obs_elem (lm_id : Z)
    (prev_opt_flow_res : gmap Z OpticalFlowResult) (tcido : TimeCamId)
    (o : KeypointObservation) :
  (tcido, o) ∈ collect_kp_obs lm_id prev_opt_flow_res →
  kpt_id o = lm_id
  ∧ ∃ r (k : nat) cam1,
      prev_opt_flow_res !! frame_id tcido = Some r
      ∧ cam_id tcido = Z.of_nat k
      ∧ observations r !! k = Some cam1
      ∧ is_Some (cam1 !! lm_id).
Proof.
  unfold collect_kp_obs. rewrite list_elem_of_join.
  intros (l & Hin & Hl). apply list_elem_of_omap in Hl as (t & _ & Ht).
  destruct (prev_opt_flow_res !! t) as [r|] eqn:Hr; [|done].
  injection Ht as <-. unfold kp_obs_of_frame in Hin.
  apply list_elem_of_omap in Hin as ([k cam1] & Hk & Hobs).
  apply elem_of_lookup_imap in Hk as (k' & cam' & [= -> ->] & Hcam).
  cbn [fst snd] in Hobs.
  destruct (cam' !! lm_id) as [a|] eqn:Ha; [|done].
  injection Hobs as <- <-. split; [done|].
  exists r, k', cam'. cbn [frame_id cam_id fst snd]. rewrite Ha. eauto.
Qed.

Lemma try_candidate_returns (e : KeypointVioEstimator)
    (flow : OpticalFlowResult) (lm_id : Z) (tcidl tcido : TimeCamId)
    (o : KeypointObservation) :
  is_Some (cam_obs flow 0 !! lm_id) →
  (tcido, o) ∈ collect_kp_obs lm_id (prev_opt_flow_res e) →
  frame_id tcidl ∈ dom (frame_poses e) ∪ dom (frame_states e) →
  dom (prev_opt_flow_res e) ⊆ dom (frame_poses e) ∪ dom (frame_states e) →
  ∃ r, try_candidate e flow lm_id tcidl tcido = Ok r.
Proof.
  intros [a0 Ha0] Hin Hl Hstored. unfold cam_obs in Ha0.
  destruct (observations flow !! 0%nat) as [cam0|] eqn:Hcam0;
    cbn [default from_option id] in Ha0; [|by rewrite lookup_empty in Ha0].
  apply collect_kp_obs_elem in Hin
    as (_ & r & k & cam1 & Hr & Hk & Hcam1 & [a1 Ha1]).
  unfold try_candidate, vec_at, map_at.
  rewrite decide_True by done. change (Z.to_nat 0) with 0%nat.
  rewrite Hcam0. cbn [mbind outcome_bind]. rewrite Ha0, Hr.
  cbn [mbind outcome_bind]. rewrite Hk, decide_True by lia.
  rewrite Nat2Z.id, Hcam1. cbn [mbind outcome_bind]. rewrite Ha1.
  cbn [mbind outcome_bind].
  destruct (unproject (calib e) 0 (translation a0)) as [valid1 p0_3d].
  destruct (unproject (calib e) (Z.of_nat k) (translation a1))
    as [valid2 p1_3d].
  destruct (negb valid1 || negb valid2); [eexists; reflexivity|].
  destruct (getPoseStateWithLin_returns (frame_id tcidl) e Hl) as [p0 ->].
  destruct (getPoseStateWithLin_returns (frame_id tcido) e) as [p1 ->].
  { apply Hstored, elem_of_dom. by eexists. }
  cbn [mbind outcome_bind].
  destruct (dlt _ _); [eexists; reflexivity|].
  destruct (triangulation_ok _); eexists; reflexivity.
Qed.

Lemma triangulate_loop_returns (e : KeypointVioEstimator)
    (flow : OpticalFlowResult) (lm_id : Z) (tcidl : TimeCamId)
    (kp_obs : list (TimeCamId * KeypointObservation)) :
  is_Some (cam_obs flow 0 !! lm_id) →
  (∀ kv, kv ∈ kp_obs → kv ∈ collect_kp_obs lm_id (prev_opt_flow_res e)) →
  frame_id tcidl ∈ dom (frame_poses e) ∪ dom (frame_states e) →
  dom (prev_opt_flow_res e) ⊆ dom (frame_poses e) ∪ dom (frame_states e) →
  ∃ r, triangulate_loop e flow lm_id tcidl kp_obs = Ok r.
Proof.
  intros Hcam0 Hsub Hl Hstored.
  induction kp_obs as [|[tcido o] kp_obs IH]; [by eexists|].
  cbn [triangulate_loop fst].
  destruct (try_candidate_returns e flow lm_id tcidl tcido o) as [r ->];
    try done.
  { apply Hsub, list_elem_of_here. }
  cbn [mbind outcome_bind].
  assert (∃ r', triangulate_loop e flow lm_id tcidl kp_obs = Ok r') as Hrest.
  { apply IH. intros kv Hkv. apply Hsub. by apply list_elem_of_further. }
  destruct r; try exact Hrest. by eexists.
Qed.

Lemma add_observations_returns (lm_id : Z)
    (kp_obs : list (TimeCamId * KeypointObservation))
    (db : LandmarkDatabase) :
  is_Some (kpts db !! lm_id) →
  (∀ kv, kv ∈ kp_obs → kpt_id kv.2 = lm_id) →
  ∃ db', add_observations kp_obs db = Ok db'.
Proof.
  revert db. induction kp_obs as [|kv kp_obs IH]; intros db Hdb Hids;
    [by eexists|].
  cbn [add_observations].
  destruct (addObservation_returns kv.1 kv.2 db) as (db1 & -> & Hkpts).
  { rewrite (Hids kv) by apply list_elem_of_here. done. }
  cbn [mbind outcome_bind]. apply IH.
  - by rewrite Hkpts.
  - intros kv' Hkv'. apply Hids. by apply list_elem_of_further.
Qed.

Lemma triangulate_landmark_returns (flow : OpticalFlowResult) (lm_id : Z)
    (e : KeypointVioEstimator) (n : Z) :
  is_Some (cam_obs flow 0 !! lm_id) →
  of_t_ns flow ∈ dom (frame_poses e) ∪ dom (frame_states e) →
  dom (prev_opt_flow_res e) ⊆ dom (frame_poses e) ∪ dom (frame_states e) →
  ∃ e' n',
    triangulate_landmark flow lm_id (e, n) = Ok (e', n')
    ∧ frame_poses e' = frame_poses e
    ∧ frame_states e' = frame_states e
    ∧ prev_opt_flow_res e' = prev_opt_flow_res e.
Proof.
  intros Hcam0 Hl Hstored. unfold triangulate_landmark. cbn [fst snd].
  destruct (triangulate_loop_returns e flow lm_id (of_t_ns flow, 0)
              (collect_kp_obs lm_id (prev_opt_flow_res e))) as [r ->];
    try done.
  cbn [mbind outcome_bind]. destruct r as [p|]; [|by exists e, n].
  destruct (add_observations_returns lm_id
              (collect_kp_obs lm_id (prev_opt_flow_res e))
              (addLandmark lm_id
                 (mkKeypointPosition (of_t_ns flow, 0)
                    (stereographic_project p) (v4_w p)) (lmdb e)))
    as [db ->].
  - unfold addLandmark. cbn [kpts]. rewrite lookup_insert_eq. by eexists.
  - intros [tcido o] Hkv. by apply collect_kp_obs_elem in Hkv as [? _].
  - cbn [mbind outcome_bind]. exists (set_lmdb db e), (n + 1).
    split; [done|]. by destruct e.
Qed.

Lemma triangulate_landmarks_returns (flow : OpticalFlowResult)
    (lm_ids : list Z) (e : KeypointVioEstimator) (n : Z) :
  (∀ id, id ∈ lm_ids → is_Some (cam_obs flow 0 !! id)) →
  of_t_ns flow ∈ dom (frame_poses e) ∪ dom (frame_states e) →
  dom (prev_opt_flow_res e) ⊆ dom (frame_poses e) ∪ dom (frame_states e) →
  ∃ r, triangulate_landmarks flow lm_ids (e, n) = Ok r.
Proof.
  revert e n. induction lm_ids as [|lm_id lm_ids IH];
    intros e n Hids Hl Hstored; [by eexists|].
  cbn [triangulate_landmarks].
  destruct (triangulate_landmark_returns flow lm_id e n)
    as (e' & n' & -> & Hfp & Hfs & Hpofr); try done.
  { apply Hids, list_elem_of_here. }
  cbn [mbind outcome_bind]. apply IH.
  - intros id Hid. apply Hids. by apply list_elem_of_further.
  - by rewrite Hfp, Hfs.
  - by rewrite Hfp, Hfs, Hpofr.
Qed.

End MeasureFront.

Section MeasureFrontReturns.
Context `{Kernels}.

Lemma propagate_state_returns (t : Z) (meas : option IntegratedImuMeasurement)
    (e : KeypointVioEstimator) :
  last_state_t_ns e ∈ dom (frame_states e) →
  match meas with
  | None => t = last_state_t_ns e
  | Some m =>
      (∀ last, frame_states e !! last_state_t_ns e = Some last →
         t_ns (getState last) = get_start_t_ns m)
      ∧ t = get_dt_ns m + get_start_t_ns m
  end →
  ∃ e1,
    propagate_state t meas e = Ok e1
    ∧ frame_poses e1 = frame_poses e
    ∧ prev_opt_flow_res e1 = prev_opt_flow_res e
    ∧ t ∈ dom (frame_states e1)
    ∧ dom (frame_states e) ⊆ dom (frame_states e1).
Proof.
  intros Hlast Hmeas. destruct meas as [m|]; cbn [propagate_state].
  - destruct Hmeas as [Hstart Hend].
    apply elem_of_dom in Hlast as [last Hlast]. rewrite Hlast.
    unfold map_at. rewrite Hlast. cbn [mbind outcome_bind].
    rewrite (bool_decide_eq_true_2 (t_ns (getState last) = get_start_t_ns m))
      by by apply Hstart.
    cbn [BASALT_ASSERT mbind outcome_bind].
    rewrite bool_decide_eq_true_2 by done.
    cbn [BASALT_ASSERT mbind outcome_bind]. eexists. split; [reflexivity|].
    destruct e. cbn. rewrite dom_insert_L. set_solver.
  - subst t. exists e. repeat split; done.
Qed.

(** [X17] The part of [measure] that comes before [optimize] (state
    propagation, data association, keyframe test and triangulation) throws
    nothing but the two assertions on the preintegration.  On a window that
    holds the state of [last_state_t_ns] and a frame for every stored
    optical flow result, it returns when the frame comes without
    preintegration at the time of the last state, or with a preintegration
    that starts at the time of the last state and ends at the time of the
    frame. *)
Theorem measure_front_returns (flow : OpticalFlowResult)
    (meas : option IntegratedImuMeasurement) (e : KeypointVioEstimator) :
  last_state_t_ns e ∈ dom (frame_states e) →
  dom (prev_opt_flow_res e) ⊆ dom (frame_poses e) ∪ dom (frame_states e) →
  match meas with
  | None => of_t_ns flow = last_state_t_ns e
  | Some m =>
      (∀ last, frame_states e !! last_state_t_ns e = Some last →
         t_ns (getState last) = get_start_t_ns m)
      ∧ of_t_ns flow = get_dt_ns m + get_start_t_ns m
  end →
  ∃ e5 num_points_connected,
    measure_front flow meas e = Ok (e5, num_points_connected).
Proof.
  intros Hlast Hstored Hmeas. unfold measure_front, measure_decide.
  destruct (propagate_state_returns (of_t_ns flow) meas e Hlast Hmeas)
    as (e1 & -> & Hfp & Hpofr & Ht & Hfs).
  cbn [mbind outcome_bind].
  destruct (associate_cams_returns (of_t_ns flow) 0 (observations flow)
              (mkAssociation
                 (lmdb (set_prev_opt_flow_res
                          (<[of_t_ns flow := flow]> (prev_opt_flow_res e1))
                          e1)) 0 ∅ ∅)) as [a Ha].
  rewrite Ha. cbn [mbind outcome_bind].
  apply associate_cams_counts in Ha as [Hun _]. cbv zeta in Hun.
  fold (cam_obs flow 0) in Hun.
  assert (∀ e4,
            frame_poses e4 = frame_poses e1 →
            frame_states e4 = frame_states e1 →
            prev_opt_flow_res e4
            = <[of_t_ns flow := flow]> (prev_opt_flow_res e1) →
            ∃ e5, keyframe_step flow (unconnected_obs0 a) e4 = Ok e5)
    as Hstep.
  { intros e4 H4p H4s H4r. unfold keyframe_step.
    destruct (take_kf e4); [|by eexists].
    destruct (triangulate_landmarks_returns flow
                (elements (unconnected_obs0 a))
                (set_kf_ids ({[last_state_t_ns e4]} ∪ kf_ids e4)
                   (set_frames_after_kf 0 (set_take_kf false e4))) 0)
      as [[e5 n] ->].
    - intros id Hid%elem_of_elements. rewrite Hun in Hid.
      apply elem_of_difference in Hid as [Hid _]. by apply elem_of_dom.
    - replace (frame_poses _) with (frame_poses e1) by by destruct e4.
      replace (frame_states _) with (frame_states e1) by by destruct e4.
      set_solver.
    - replace (frame_poses _) with (frame_poses e1) by by destruct e4.
      replace (frame_states _) with (frame_states e1) by by destruct e4.
      replace (prev_opt_flow_res _)
        with (<[of_t_ns flow := flow]> (prev_opt_flow_res e1))
        by by destruct e4.
      rewrite dom_insert_L, Hpofr, Hfp.
      clear -Hstored Ht Hfs. set_solver.
    - by eexists. }
  cbn [mbind outcome_bind mret outcome_ret].
  match goal with
  | |- ∃ e5 npc, (keyframe_step _ _ ?e4 ≫= _) = _ =>
      destruct (Hstep e4) as [e5 ->]
  end.
  - by destruct (new_kf_condition _ _ _ _), e1.
  - by destruct (new_kf_condition _ _ _ _), e1.
  - by destruct (new_kf_condition _ _ _ _), e1.
  - by eexists _, _.
Qed.

End MeasureFrontReturns.

Lemma measure_front_returns_witness :
  last_state_t_ns (bench_start bench_config)
    ∈ dom (frame_states (bench_start bench_config))
  ∧ ∃ e5 num_points_connected,
      measure_front (bench_flow 1 (tracked_frames 1)) None
        (bench_start bench_config)
      = Ok (e5, num_points_connected).
Proof.
  assert (last_state_t_ns (bench_start bench_config)
            ∈ dom (frame_states (bench_start bench_config))) as Hlast
    by (apply (bool_decide_unpack _); vm_compute; exact I).
  assert (dom (prev_opt_flow_res (bench_start bench_config))
            ⊆ dom (frame_poses (bench_start bench_config))
              ∪ dom (frame_states (bench_start bench_config))) as Hstored
    by (apply (bool_decide_unpack _); vm_compute; exact I).
  assert (of_t_ns (bench_flow 1 (tracked_frames 1))
          = last_state_t_ns (bench_start bench_config)) as Hmeas
    by (vm_compute; reflexivity).
  split; [exact Hlast|].
  exact (measure_front_returns _ None _ Hlast Hstored Hmeas).
Defined.


(** * The claims on triangulation, the covisibility division and the
    first frame *)

Section TriangulationClaim.
Context `{Kernels}.

(** What the body of the triangulation loop computes once the two
    keypoints are found. *)
Lemma try_candidate_eval (e : KeypointVioEstimator) (flow : OpticalFlowResult)
    (lm_id : Z) (tcidl tcido : TimeCamId) (a0 a1 : Affine) :
  candidate_inputs e flow lm_id tcido a0 a1 →
  try_candidate e flow lm_id tcidl tcido
  = if bearings_valid e tcido a0 a1 then
      pose0 ← getPoseStateWithLin (frame_id tcidl) e;
      pose1 ← getPoseStateWithLin (frame_id tcido) e;
      if baseline_short e tcido pose0 pose1 then Ok SkipBaseline
      else if triangulation_ok (candidate_point e tcido a0 a1 pose0 pose1)
      then Ok (Accepted (candidate_point e tcido a0 a1 pose0 pose1))
      else Ok (Rejected (candidate_point e tcido a0 a1 pose0 pose1))
    else Ok SkipUnproject.
Proof.
  intros (cam0 & flow1 & cam1 & Hcam0 & Ha0 & Hflow1 & Hcam & Hcam1 & Ha1).
  unfold try_candidate, vec_at, map_at, bearings_valid, baseline_short,
    candidate_point, candidate_T_0_1.
  rewrite decide_True by done. change (Z.to_nat 0) with 0%nat.
  rewrite Hcam0. cbn [mbind outcome_bind]. rewrite Ha0, Hflow1.
  cbn [mbind outcome_bind]. rewrite decide_True by done. rewrite Hcam1.
  cbn [mbind outcome_bind]. rewrite Ha1. cbn [mbind outcome_bind].
  destruct (unproject (calib e) 0 (translation a0)) as [valid1 p0_3d].
  destruct (unproject (calib e) (cam_id tcido) (translation a1))
    as [valid2 p1_3d].
  cbn [fst snd]. by destruct valid1, valid2.
Qed.

Lemma try_candidate_inputs (e : KeypointVioEstimator)
    (flow : OpticalFlowResult) (lm_id : Z) (tcidl tcido : TimeCamId)
    (r : candidate_result) :
  try_candidate e flow lm_id tcidl tcido = Ok r →
  ∃ a0 a1, candidate_inputs e flow lm_id tcido a0 a1.
Proof.
  unfold try_candidate. intros Hrun.
  apply bind_Ok in Hrun as (cam0 & Hcam0 & Hrun).
  apply vec_at_Ok in Hcam0 as [_ Hcam0].
  apply bind_Ok in Hrun as (a0 & Ha0%map_at_Ok & Hrun).
  apply bind_Ok in Hrun as (flow1 & Hflow1%map_at_Ok & Hrun).
  apply bind_Ok in Hrun as (cam1 & Hcam1 & Hrun).
  apply vec_at_Ok in Hcam1 as [Hcam Hcam1].
  apply bind_Ok in Hrun as (a1 & Ha1%map_at_Ok & _).
  exists a0, a1, cam0, flow1, cam1. done.
Qed.

(** A pair is accepted exactly when it yields the point. *)
Lemma try_candidate_accepts (e : KeypointVioEstimator)
    (flow : OpticalFlowResult) (lm_id : Z) (tcidl tcido : TimeCamId)
    (p : Vector4d) :
  try_candidate e flow lm_id tcidl tcido = Ok (Accepted p)
  ↔ pair_triangulates e flow lm_id tcidl tcido p.
Proof.
  split.
  - intros Hrun.
    destruct (try_candidate_inputs _ _ _ _ _ _ Hrun) as (a0 & a1 & Hin).
    rewrite (try_candidate_eval _ _ _ _ _ a0 a1 Hin) in Hrun.
    destruct (bearings_valid e tcido a0 a1) eqn:Hvalid; [|done].
    apply bind_Ok in Hrun as (pose0 & Hp0 & Hrun).
    apply bind_Ok in Hrun as (pose1 & Hp1 & Hrun).
    destruct (baseline_short e tcido pose0 pose1) eqn:Hbase; [done|].
    destruct (triangulation_ok _) eqn:Hok; [|done].
    injection Hrun as <-. exists a0, a1, pose0, pose1.
    repeat split; try done. by apply triangulation_ok_spec.
  - intros (a0 & a1 & pose0 & pose1 & Hin & Hp0 & Hp1 & Hvalid & Hbase & ->
            & Hrange).
    rewrite (try_candidate_eval _ _ _ _ _ a0 a1 Hin), Hvalid, Hp0, Hp1.
    cbn [mbind outcome_bind]. rewrite Hbase.
    apply triangulation_ok_spec in Hrange. by rewrite Hrange.
Qed.

(** The loop stops at the first accepted pair. *)
Lemma triangulate_loop_first (e : KeypointVioEstimator)
    (flow : OpticalFlowResult) (lm_id : Z) (tcidl : TimeCamId)
    (before after : list (TimeCamId * KeypointObservation))
    (c : TimeCamId * KeypointObservation) (p : Vector4d) :
  Forall (λ c', candidate_passed_over e flow lm_id tcidl c'.1) before →
  try_candidate e flow lm_id tcidl c.1 = Ok (Accepted p) →
  triangulate_loop e flow lm_id tcidl (before ++ c :: after) = Ok (Some p).
Proof.
  intros Hbefore Hacc. induction Hbefore as [|c' before Hc' _ IH].
  - cbn [app triangulate_loop]. by rewrite Hacc.
  - cbn [app triangulate_loop]. destruct Hc' as (r & -> & Hno).
    cbn [mbind outcome_bind]. destruct r; try done. by destruct (Hno p0).
Qed.

Lemma triangulate_loop_none (e : KeypointVioEstimator)
    (flow : OpticalFlowResult) (lm_id : Z) (tcidl : TimeCamId)
    (kp_obs : list (TimeCamId * KeypointObservation)) :
  Forall (λ c', candidate_passed_over e flow lm_id tcidl c'.1) kp_obs →
  triangulate_loop e flow lm_id tcidl kp_obs = Ok None.
Proof.
  induction 1 as [|c' kp_obs Hc' _ IH]; [done|].
  cbn [triangulate_loop]. destruct Hc' as (r & -> & Hno).
  cbn [mbind outcome_bind]. destruct r; try done. by destruct (Hno p).
Qed.

(** A landmark whose loop found a point is added with its observations. *)
Lemma triangulate_landmark_adds (flow : OpticalFlowResult) (lm_id : Z)
    (e : KeypointVioEstimator) (n : Z) (p : Vector4d) :
  triangulate_loop e flow lm_id (of_t_ns flow, 0)
    (collect_kp_obs lm_id (prev_opt_flow_res e)) = Ok (Some p) →
  ∃ db,
    triangulate_landmark flow lm_id (e, n) = Ok (set_lmdb db e, n + 1)
    ∧ kpts db = <[lm_id := landmark_at (of_t_ns flow) p]> (kpts (lmdb e)).
Proof.
  intros Hloop. unfold triangulate_landmark. cbn [fst snd]. rewrite Hloop.
  cbn [mbind outcome_bind].
  destruct (add_observations_returns lm_id
              (collect_kp_obs lm_id (prev_opt_flow_res e))
              (addLandmark lm_id (landmark_at (of_t_ns flow) p) (lmdb e)))
    as [db Hdb].
  - unfold addLandmark. cbn [kpts]. rewrite lookup_insert_eq. by eexists.
  - intros [tcido o] Hkv. by apply collect_kp_obs_elem in Hkv as [? _].
  - exists db. unfold landmark_at in Hdb |- *. rewrite Hdb.
    split; [done|]. by apply add_observations_kpts in Hdb.
Qed.

(** C4.  Every candidate pair of the loop over [kp_obs] has its two
    keypoints.  Once the two keypoints of a pair are found: a pair
    with a bearing that does not unproject is skipped; a pair whose squared
    baseline is below [vio_min_triangulation_dist] squared is skipped
    whatever its bearings are; any other pair is triangulated, and the
    point is accepted if its components are finite and its inverse distance
    is strictly between 0 and 3, and rejected if not, so 0, 3 and anything
    above are rejected.  A pair is accepted exactly when it yields the
    point in this way.  The landmark is added, with its position taken
    from the point, for the first accepted pair of [kp_obs], and it is not
    added when no pair is accepted. *)
Theorem triangulation_acceptance :
  (∀ e flow lm_id c,
     is_Some (cam_obs flow 0 !! lm_id) →
     c ∈ collect_kp_obs lm_id (prev_opt_flow_res e) →
     ∃ a0 a1, candidate_inputs e flow lm_id c.1 a0 a1)
  ∧ (∀ e flow lm_id tcidl tcido a0 a1,
     candidate_inputs e flow lm_id tcido a0 a1 →
     bearings_valid e tcido a0 a1 = false →
     try_candidate e flow lm_id tcidl tcido = Ok SkipUnproject)
  ∧ (∀ e flow lm_id tcidl tcido a0 a1 pose0 pose1,
       candidate_inputs e flow lm_id tcido a0 a1 →
       getPoseStateWithLin (frame_id tcidl) e = Ok pose0 →
       getPoseStateWithLin (frame_id tcido) e = Ok pose1 →
       bearings_valid e tcido a0 a1 = true →
       (baseline_short e tcido pose0 pose1 = true →
        try_candidate e flow lm_id tcidl tcido = Ok SkipBaseline)
       ∧ (baseline_short e tcido pose0 pose1 = false →
          (finite_in_range (candidate_point e tcido a0 a1 pose0 pose1) →
           try_candidate e flow lm_id tcidl tcido
           = Ok (Accepted (candidate_point e tcido a0 a1 pose0 pose1)))
          ∧ (¬ finite_in_range (candidate_point e tcido a0 a1 pose0 pose1) →
             try_candidate e flow lm_id tcidl tcido
             = Ok (Rejected (candidate_point e tcido a0 a1 pose0 pose1)))))
  ∧ (∀ e flow lm_id tcidl tcido pose0 pose1 r,
       getPoseStateWithLin (frame_id tcidl) e = Ok pose0 →
       getPoseStateWithLin (frame_id tcido) e = Ok pose1 →
       baseline_short e tcido pose0 pose1 = true →
       try_candidate e flow lm_id tcidl tcido = Ok r →
       r = SkipUnproject ∨ r = SkipBaseline)
  ∧ (∀ e flow lm_id tcidl tcido p,
       (try_candidate e flow lm_id tcidl tcido = Ok (Accepted p)
        ↔ pair_triangulates e flow lm_id tcidl tcido p)
       ∧ (try_candidate e flow lm_id tcidl tcido = Ok (Rejected p) →
          ¬ finite_in_range p))
  ∧ (∀ p w, v4_w p = DFin w → (w == 0 ∨ 3 <= w)%Q →
       ¬ finite_in_range p ∧ triangulation_ok p = false)
  ∧ (∀ flow lm_id e n e' n',
       triangulate_landmark flow lm_id (e, n) = Ok (e', n') →
       let tcidl : TimeCamId := (of_t_ns flow, 0) in
       let kp_obs := collect_kp_obs lm_id (prev_opt_flow_res e) in
       (Forall (λ c, candidate_passed_over e flow lm_id tcidl c.1) kp_obs
        ∧ e' = e ∧ n' = n)
       ∨ (∃ before c after p,
            kp_obs = before ++ c :: after
            ∧ Forall (λ c', candidate_passed_over e flow lm_id tcidl c'.1)
                before
            ∧ try_candidate e flow lm_id tcidl c.1 = Ok (Accepted p)
            ∧ kpts (lmdb e') !! lm_id = Some (landmark_at (of_t_ns flow) p)
            ∧ n' = n + 1))
  ∧ (∀ flow lm_id e n,
       let tcidl : TimeCamId := (of_t_ns flow, 0) in
       let kp_obs := collect_kp_obs lm_id (prev_opt_flow_res e) in
       (∀ before c after p,
          kp_obs = before ++ c :: after →
          Forall (λ c', candidate_passed_over e flow lm_id tcidl c'.1)
            before →
          pair_triangulates e flow lm_id tcidl c.1 p →
          ∃ e',
            triangulate_landmark flow lm_id (e, n) = Ok (e', n + 1)
            ∧ kpts (lmdb e')
              = <[lm_id := landmark_at (of_t_ns flow) p]> (kpts (lmdb e)))
       ∧ (Forall (λ c, candidate_passed_over e flow lm_id tcidl c.1) kp_obs →
          triangulate_landmark flow lm_id (e, n) = Ok (e, n))).
Proof.
  split; [|split; [|split; [|split; [|split; [|split; [|split]]]]]].
  - intros e flow lm_id [tcido o] [a0 Ha0] Hc. unfold cam_obs in Ha0.
    destruct (observations flow !! 0%nat) as [cam0|] eqn:Hcam0;
      cbn [default from_option id] in Ha0;
      [|by rewrite lookup_empty in Ha0].
    apply collect_kp_obs_elem in Hc
      as (_ & r & k & cam1 & Hr & Hk & Hcam1 & [a1 Ha1]).
    exists a0, a1, cam0, r, cam1. cbn [fst]. rewrite Hk, Nat2Z.id.
    repeat split; try done. lia.
  - intros e flow lm_id tcidl tcido a0 a1 Hin Hvalid.
    by rewrite (try_candidate_eval _ _ _ _ _ a0 a1 Hin), Hvalid.
  - intros e flow lm_id tcidl tcido a0 a1 pose0 pose1 Hin Hp0 Hp1 Hvalid.
    rewrite (try_candidate_eval _ _ _ _ _ a0 a1 Hin), Hvalid, Hp0, Hp1.
    cbn [mbind outcome_bind]. split; [by intros ->|]. intros ->.
    rewrite <- triangulation_ok_spec. split; [by intros ->|].
    intros Hno%not_true_is_false. by rewrite Hno.
  - intros e flow lm_id tcidl tcido pose0 pose1 r Hp0 Hp1 Hbase Hrun.
    exact (try_candidate_short_baseline e flow lm_id tcidl tcido pose0 pose1
             r Hp0 Hp1 Hbase Hrun).
  - intros e flow lm_id tcidl tcido p.
    split; [apply try_candidate_accepts|]. intros Hrun.
    apply try_candidate_verdict in Hrun. rewrite <- triangulation_ok_spec.
    by rewrite Hrun.
  - intros p w Hw Hrange.
    assert (¬ finite_in_range p) as Hno.
    { intros (x & y & z & w' & -> & Hpos & Hlt). simpl in Hw.
      injection Hw as <-. destruct Hrange as [Hz | Hge].
      + rewrite Hz in Hpos. by apply Qlt_irrefl in Hpos.
      + by apply Qle_not_lt in Hge. }
    split; [done|]. apply not_true_iff_false.
    by rewrite triangulation_ok_spec.
  - intros flow lm_id e n e' n' Hrun. cbv zeta.
    apply triangulate_landmark_Ok in Hrun
      as [(Hloop & -> & ->) | (p & db & Hloop & -> & -> & Hdb)].
    + left. split; [|done]. by apply triangulate_loop_None.
    + right. apply triangulate_loop_Some in Hloop
        as (before & c & after & Hsplit & Hacc & Hbefore).
      exists before, c, after, p. split; [done|]. split; [done|].
      split; [done|]. split; [|done].
      replace (lmdb (set_lmdb db e)) with db by by destruct e.
      rewrite Hdb. by rewrite lookup_insert_eq.
  - intros flow lm_id e n. cbv zeta. split.
    + intros before c after p Hsplit Hbefore Hpair.
      apply try_candidate_accepts in Hpair.
      destruct (triangulate_landmark_adds flow lm_id e n p)
        as (db & Hrun & Hdb).
      { rewrite Hsplit. by apply triangulate_loop_first. }
      exists (set_lmdb db e). split; [done|]. rewrite <- Hdb. by destruct e.
    + intros Hall. apply triangulate_loop_none in Hall.
      unfold triangulate_landmark. cbn [fst snd]. rewrite Hall. done.
Qed.

End TriangulationClaim.


Section CovisibilityRule.
Context `{Numerics}.












End CovisibilityRule.

Section CovisibilityClaim.
Context `{Kernels}.


End CovisibilityClaim.




Section FirstFrameClaim.
Context `{Kernels}.




End FirstFrameClaim.


